(** * A shallow embedding of parts of MLX and the properties checked on it

    The development follows the source files:
    - [Utils]    : mlx/backend/common/utils.h  (shape and stride helpers, donation)
    - [Indexing] : python/src/indexing.cpp     (expansion of the ellipsis)
    - [Random]   : mlx/random.cpp              (key sequence, uniform, bernoulli)
    - [Fast]     : mlx/fast.cpp                (rope, rms_norm, attention)
    - [Quantize] : mlx/fast.cpp                (affine quantization)
    Every definition is a transcription of the C++ function of the same name;
    machine integers are integers of [Z] with their wrap-around written out. *)

From Stdlib Require Import String ZArith List Lia Bool Reals Lra.
Import ListNotations.

Local Open Scope Z_scope.

(** ** Machine integers *)

Module MachineInt.

(** Two's complement reduction to the range of [int64_t]. *)
Definition wrap64 (z : Z) : Z := (z + 2 ^ 63) mod 2 ^ 64 - 2 ^ 63.

(** Two's complement reduction to the range of [int]. *)
Definition wrap32 (z : Z) : Z := (z + 2 ^ 31) mod 2 ^ 32 - 2 ^ 31.

(** Reduction to the range of [size_t] (64 bits, unsigned). *)
Definition wrapU64 (z : Z) : Z := z mod 2 ^ 64.

Definition in_int64 (z : Z) : Prop := - 2 ^ 63 <= z < 2 ^ 63.

Lemma wrap64_id z : in_int64 z -> wrap64 z = z.
Proof.
  unfold in_int64, wrap64; intros H.
  rewrite Z.mod_small; lia.
Qed.

Lemma wrap32_id z : - 2 ^ 31 <= z < 2 ^ 31 -> wrap32 z = z.
Proof.
  unfold wrap32; intros H.
  rewrite Z.mod_small; lia.
Qed.

Lemma wrap64_range z : in_int64 (wrap64 z).
Proof.
  unfold in_int64, wrap64.
  pose proof (Z.mod_pos_bound (z + 2 ^ 63) (2 ^ 64) ltac:(lia)). lia.
Qed.

Lemma wrap64_congr a b : a mod 2 ^ 64 = b mod 2 ^ 64 -> wrap64 a = wrap64 b.
Proof.
  unfold wrap64; intros H.
  rewrite <- (Z.add_mod_idemp_l a), <- (Z.add_mod_idemp_l b) by lia.
  now rewrite H.
Qed.

Lemma wrap64_mod z : (wrap64 z) mod 2 ^ 64 = z mod 2 ^ 64.
Proof.
  unfold wrap64.
  rewrite Zminus_mod_idemp_l.
  f_equal; lia.
Qed.

Lemma wrap64_add_l a b : wrap64 (wrap64 a + b) = wrap64 (a + b).
Proof.
  apply wrap64_congr.
  rewrite <- Z.add_mod_idemp_l, wrap64_mod, Z.add_mod_idemp_l by lia.
  reflexivity.
Qed.

Lemma wrap64_add_r a b : wrap64 (a + wrap64 b) = wrap64 (a + b).
Proof. rewrite Z.add_comm, wrap64_add_l. f_equal; lia. Qed.

End MachineInt.

(** ** mlx/backend/common/utils.h *)

Module Utils.
Import MachineInt.

(** [Shape] is a vector of [int32_t] extents, [Strides] a vector of
    [int64_t]. *)
Definition Shape := list Z.
Definition Strides := list Z.

(** The result of the C function [ldiv]: quotient and remainder of the
    division that truncates towards zero. *)
Record ldiv_t := mk_ldiv { quot : Z; rem : Z }.

Definition ldiv (numer denom : Z) : ldiv_t :=
  mk_ldiv (Z.quot numer denom) (Z.rem numer denom).

(** The loop of [elem_to_loc]: [i] counts the dimensions still to visit, the
    body runs at index [i - 1], from the last dimension down to the first.
    [loc] is an [int64_t]: the product and the sum are reduced to 64 bits;
    [elem] is an [int], to which the quotient, a [long], is converted. *)
Fixpoint elem_to_loc_loop (i : nat) (elem : Z) (shape : Shape)
    (strides : Strides) (loc : Z) : Z :=
  match i with
  | O => loc
  | S j =>
      let q_and_r := ldiv elem (nth j shape 0) in
      let loc' := wrap64 (loc + wrap64 (rem q_and_r * nth j strides 0)) in
      elem_to_loc_loop j (wrap32 (quot q_and_r)) shape strides loc'
  end.

Definition elem_to_loc (elem : Z) (shape : Shape) (strides : Strides) : Z :=
  elem_to_loc_loop (length shape) elem shape strides 0.

(** The fields of [array] that the helpers of this header read. *)
Record array := mk_array {
  shape : Shape;
  strides : Strides;
  row_contiguous : bool;   (* a.flags().row_contiguous *)
  is_donatable_flag : bool; (* a.is_donatable() *)
  itemsize : Z;            (* a.itemsize(), size_t *)
  nbytes : Z;              (* a.nbytes(), size_t *)
  buffer_size : Z          (* a.buffer_size(), size_t *)
}.

(** The overload of [elem_to_loc] on an array. *)
Definition elem_to_loc_array (elem : Z) (a : array) : Z :=
  if row_contiguous a then elem
  else elem_to_loc elem (shape a) (strides a).

(** [list_set l i v] is the assignment [l[i] = v] of a vector. *)
Fixpoint list_set (l : list Z) (i : nat) (v : Z) : list Z :=
  match l, i with
  | [], _ => []
  | _ :: t, O => v :: t
  | h :: t, S j => h :: list_set t j v
  end.

(** The loop of [make_contiguous_strides]: the body runs at [i] from
    [size - 1] down to 1 and writes [strides[i - 1]]. *)
Fixpoint make_contiguous_strides_loop (i : nat) (shape : Shape)
    (strides : Strides) : Strides :=
  match i with
  | O => strides
  | S j =>
      make_contiguous_strides_loop j shape
        (list_set strides j (wrap64 (nth (S j) strides 0 * nth (S j) shape 0)))
  end.

Definition make_contiguous_strides (shape : Shape) : Strides :=
  make_contiguous_strides_loop (length shape - 1) shape
    (repeat 1 (length shape)).

(** [is_donatable]: the sum is computed on [size_t]. *)
Definition donation_extra : Z := 16384.

Definition is_donatable (inp out : array) : bool :=
  is_donatable_flag inp && (itemsize inp =? itemsize out) &&
  (buffer_size inp <=? wrapU64 (nbytes out + donation_extra)).

(** *** The row-major multi-index of a linear index *)

Definition prod (l : list Z) : Z := fold_right Z.mul 1 l.

(** The [i]-th coordinate of the element number [elem] of an array of the
    given shape, counted in row-major order. *)
Definition coordinate (elem : Z) (shape : Shape) (i : nat) : Z :=
  (elem / prod (skipn (S i) shape)) mod nth i shape 0.

(** [sumf f n] is the sum of [f 0], ..., [f (n - 1)]. *)
Fixpoint sumf (f : nat -> Z) (n : nat) : Z :=
  match n with
  | O => 0
  | S k => sumf f k + f k
  end.

(** The offset that the strides give to the multi-index of [elem]. *)
Definition strided_offset (elem : Z) (shape : Shape) (strides : Strides) : Z :=
  sumf (fun i => nth i strides 0 * coordinate elem shape i) (length shape).

(** *** Products of extents *)

Lemma prod_nil : prod [] = 1.
Proof. reflexivity. Qed.

Lemma prod_cons a l : prod (a :: l) = a * prod l.
Proof. reflexivity. Qed.

Lemma prod_app l1 l2 : prod (l1 ++ l2) = prod l1 * prod l2.
Proof.
  induction l1 as [|a l1 IH].
  - rewrite prod_nil. simpl app. ring.
  - simpl app. rewrite !prod_cons, IH. ring.
Qed.

Lemma prod_pos l : Forall (fun d => 0 < d) l -> 0 < prod l.
Proof. induction 1; rewrite ?prod_nil, ?prod_cons; lia. Qed.

Lemma prod_nonneg l : Forall (fun d => 0 <= d) l -> 0 <= prod l.
Proof. induction 1; rewrite ?prod_nil, ?prod_cons; lia. Qed.

(** A shape with an element has no empty dimension. *)
Lemma extents_pos l :
  Forall (fun d => 0 <= d) l -> 0 < prod l -> Forall (fun d => 0 < d) l.
Proof.
  induction 1 as [|d l Hd Hl IH]; rewrite ?prod_cons; intros Hp; constructor.
  - pose proof (prod_nonneg l Hl). nia.
  - apply IH. pose proof (prod_nonneg l Hl). nia.
Qed.

Lemma nth_pos l i :
  Forall (fun d => 0 < d) l -> (i < length l)%nat -> 0 < nth i l 0.
Proof.
  intros H Hi. rewrite Forall_forall in H. apply H, nth_In, Hi.
Qed.

Lemma skipn_cons_nth (l : list Z) i :
  (i < length l)%nat -> skipn i l = nth i l 0 :: skipn (S i) l.
Proof.
  revert i; induction l as [|a l IH]; intros [|i] Hi; simpl in *;
    try lia; auto.
  apply IH; lia.
Qed.

Lemma prod_skipn_step l i :
  (i < length l)%nat ->
  prod (skipn i l) = nth i l 0 * prod (skipn (S i) l).
Proof. intros Hi. rewrite (skipn_cons_nth l i Hi). reflexivity. Qed.

Lemma prod_skipn_pos l i :
  Forall (fun d => 0 < d) l -> 0 < prod (skipn i l).
Proof.
  intros H. apply prod_pos. rewrite Forall_forall in *.
  intros x Hx. apply H. rewrite <- (firstn_skipn i l).
  apply in_or_app; now right.
Qed.

Lemma prod_skipn_le l i :
  Forall (fun d => 0 < d) l -> prod (skipn i l) <= prod l.
Proof.
  intros H. rewrite <- (firstn_skipn i l) at 2. rewrite prod_app.
  pose proof (prod_skipn_pos l i H).
  assert (0 < prod (firstn i l)).
  { apply prod_pos. rewrite Forall_forall in *. intros x Hx. apply H.
    rewrite <- (firstn_skipn i l). apply in_or_app; now left. }
  nia.
Qed.

(** The product of the extents of the dimensions [a], ..., [b - 1]. *)
Definition seg_prod (l : list Z) (a b : nat) : Z :=
  prod (firstn (b - a) (skipn a l)).

Lemma seg_prod_empty l a : seg_prod l a a = 1.
Proof. unfold seg_prod. now rewrite Nat.sub_diag. Qed.

Lemma seg_prod_full l a : seg_prod l a (length l) = prod (skipn a l).
Proof.
  unfold seg_prod. rewrite firstn_all2; [reflexivity|].
  rewrite length_skipn; lia.
Qed.

Lemma firstn_snoc (l : list Z) k :
  (k < length l)%nat -> firstn (S k) l = firstn k l ++ [nth k l 0].
Proof.
  revert k; induction l as [|a l IH]; intros [|k] Hk; simpl in *;
    try lia; auto.
  f_equal. apply IH; lia.
Qed.

Lemma seg_prod_snoc l a b :
  (a <= b)%nat -> (b < length l)%nat ->
  seg_prod l a (S b) = seg_prod l a b * nth b l 0.
Proof.
  intros Hab Hb. unfold seg_prod.
  replace (S b - a)%nat with (S (b - a)) by lia.
  rewrite firstn_snoc by (rewrite length_skipn; lia).
  rewrite prod_app, nth_skipn. simpl.
  replace (a + (b - a))%nat with b by lia. lia.
Qed.

Lemma seg_prod_pos l a b :
  Forall (fun d => 0 < d) l -> 0 < seg_prod l a b.
Proof.
  intros H. apply prod_pos. rewrite Forall_forall in *.
  intros x Hx. apply H.
  apply (In_skipn l a) || idtac.
  rewrite <- (firstn_skipn a l). apply in_or_app; right.
  rewrite <- (firstn_skipn (b - a) (skipn a l)). apply in_or_app; now left.
Qed.

Lemma sumf_ext f g n :
  (forall i, (i < n)%nat -> f i = g i) -> sumf f n = sumf g n.
Proof.
  induction n as [|n IH]; intros H; simpl; [reflexivity|].
  rewrite IH, H; auto.
Qed.

(** *** The loop of [elem_to_loc] *)

Lemma elem_to_loc_loop_spec shape strides :
  Forall (fun d => 0 < d) shape ->
  forall i elem loc,
    (i <= length shape)%nat -> 0 <= elem < 2 ^ 31 -> in_int64 loc ->
    elem_to_loc_loop i elem shape strides loc =
    wrap64 (loc + sumf (fun j => nth j strides 0 *
                         ((elem / seg_prod shape (S j) i) mod nth j shape 0)) i).
Proof.
  intros Hpos. induction i as [|i IH]; intros elem loc Hi He Hloc.
  - simpl. rewrite Z.add_0_r. symmetry. now apply wrap64_id.
  - assert (Hs : 0 < nth i shape 0) by (apply nth_pos; [assumption | lia]).
    cbn [elem_to_loc_loop sumf]. unfold ldiv; cbn [quot rem].
    rewrite Z.quot_div_nonneg, Z.rem_mod_nonneg by lia.
    assert (Hq : 0 <= elem / nth i shape 0 <= elem).
    { split; [apply Z.div_pos; lia|].
      apply Z.div_le_upper_bound; [lia | nia]. }
    rewrite wrap32_id by lia.
    rewrite IH; [| lia | lia | apply wrap64_range].
    rewrite wrap64_add_l, <- Z.add_assoc, (Z.add_comm (wrap64 _)),
      Z.add_assoc, wrap64_add_r.
    f_equal.
    rewrite seg_prod_empty, Z.div_1_r.
    rewrite (sumf_ext
      (fun j => nth j strides 0 *
         ((elem / nth i shape 0 / seg_prod shape (S j) i) mod nth j shape 0))
      (fun j => nth j strides 0 *
         ((elem / seg_prod shape (S j) (S i)) mod nth j shape 0))).
    + ring.
    + intros j Hj. cbv beta. do 2 f_equal.
      rewrite seg_prod_snoc by lia.
      pose proof (seg_prod_pos shape (S j) i Hpos).
      rewrite Z.div_div by lia. f_equal. ring.
Qed.

(** [elem_to_loc] is, up to the width of its result, the offset of the
    row-major multi-index. *)
Lemma elem_to_loc_wrap elem shape strides :
  Forall (fun d => 0 <= d) shape ->
  0 <= elem < prod shape -> elem < 2 ^ 31 ->
  elem_to_loc elem shape strides = wrap64 (strided_offset elem shape strides).
Proof.
  intros Hnn He Hint.
  assert (Hpos : Forall (fun d => 0 < d) shape)
    by (apply extents_pos; [assumption | lia]).
  unfold elem_to_loc, strided_offset, coordinate.
  rewrite (elem_to_loc_loop_spec shape strides Hpos) by
    (try lia; unfold in_int64; lia).
  rewrite Z.add_0_l. f_equal.
  apply sumf_ext. intros j Hj. cbv beta.
  now rewrite seg_prod_full.
Qed.

(** The coordinates are those of the row-major order: each lies within its
    extent, and weighting them by the sizes of the trailing dimensions gives
    the linear index back. *)
Lemma coordinate_range elem shape i :
  Forall (fun d => 0 < d) shape -> (i < length shape)%nat ->
  0 <= coordinate elem shape i < nth i shape 0.
Proof.
  intros Hpos Hi. unfold coordinate.
  apply Z.mod_pos_bound, nth_pos; assumption.
Qed.

Lemma coordinate_partial_sum elem shape :
  Forall (fun d => 0 < d) shape ->
  forall i, (i <= length shape)%nat ->
    sumf (fun j => coordinate elem shape j * prod (skipn (S j) shape)) i =
    elem / prod (skipn i shape) * prod (skipn i shape)
    - (elem / prod shape) * prod shape.
Proof.
  intros Hpos. induction i as [|i IH]; intros Hi.
  - simpl. lia.
  - cbn [sumf]. rewrite IH by lia. unfold coordinate.
    rewrite (prod_skipn_step shape i) by lia.
    pose proof (prod_skipn_pos shape (S i) Hpos) as HQ.
    assert (Hs : 0 < nth i shape 0) by (apply nth_pos; [assumption | lia]).
    set (Q := prod (skipn (S i) shape)) in *.
    set (d := nth i shape 0) in *.
    rewrite (Z.mul_comm d Q), <- Z.div_div by lia.
    pose proof (Z.div_mod (elem / Q) d ltac:(lia)). nia.
Qed.

Lemma coordinate_ravel elem shape :
  Forall (fun d => 0 <= d) shape ->
  0 <= elem < prod shape ->
  sumf (fun j => coordinate elem shape j * prod (skipn (S j) shape))
       (length shape) = elem.
Proof.
  intros Hnn He.
  assert (Hpos : Forall (fun d => 0 < d) shape)
    by (apply extents_pos; [assumption | lia]).
  rewrite (coordinate_partial_sum elem shape Hpos) by lia.
  rewrite skipn_all, prod_nil, Z.div_1_r, (Z.div_small elem (prod shape)) by lia.
  lia.
Qed.



(** *** [make_contiguous_strides] *)

Lemma length_list_set l i v : length (list_set l i v) = length l.
Proof.
  revert i; induction l as [|a l IH]; intros [|i]; simpl; auto.
Qed.

Lemma nth_list_set_eq l i v :
  (i < length l)%nat -> nth i (list_set l i v) 0 = v.
Proof.
  revert i; induction l as [|a l IH]; intros [|i] Hi; simpl in *;
    try lia; auto.
  apply IH; lia.
Qed.

Lemma nth_list_set_neq l i k v :
  i <> k -> nth k (list_set l i v) 0 = nth k l 0.
Proof.
  revert i k; induction l as [|a l IH]; intros [|i] [|k] Hik; simpl;
    try lia; auto.
Qed.

Lemma make_contiguous_strides_loop_spec shape :
  Forall (fun d => 0 < d) shape -> prod shape < 2 ^ 63 ->
  forall i strides,
    length strides = length shape -> (i < length shape)%nat ->
    (forall k, (i <= k < length shape)%nat ->
               nth k strides 0 = prod (skipn (S k) shape)) ->
    forall k, (k < length shape)%nat ->
      nth k (make_contiguous_strides_loop i shape strides) 0 =
      prod (skipn (S k) shape).
Proof.
  intros Hpos Hfit. induction i as [|i IH]; intros strides Hlen Hi Hinv k Hk.
  - simpl. apply Hinv; lia.
  - cbn [make_contiguous_strides_loop].
    assert (Hv : wrap64 (nth (S i) strides 0 * nth (S i) shape 0) =
                 prod (skipn (S i) shape)).
    { rewrite Hinv by lia. rewrite (prod_skipn_step shape (S i)) by lia.
      rewrite Z.mul_comm. apply wrap64_id.
      rewrite <- (prod_skipn_step shape (S i)) by lia.
      pose proof (prod_skipn_pos shape (S i) Hpos).
      pose proof (prod_skipn_le shape (S i) Hpos).
      unfold in_int64; lia. }
    apply IH; [now rewrite length_list_set | lia | | assumption].
    intros k' Hk'. destruct (Nat.eq_dec i k') as [->|Hne].
    + rewrite nth_list_set_eq by lia. exact Hv.
    + rewrite nth_list_set_neq by assumption. apply Hinv; lia.
Qed.

Lemma make_contiguous_strides_nth shape k :
  Forall (fun d => 0 < d) shape -> prod shape < 2 ^ 63 ->
  (k < length shape)%nat ->
  nth k (make_contiguous_strides shape) 0 = prod (skipn (S k) shape).
Proof.
  intros Hpos Hfit Hk. unfold make_contiguous_strides.
  apply make_contiguous_strides_loop_spec; try assumption.
  - apply repeat_length.
  - lia.
  - intros j Hj. replace j with (length shape - 1)%nat by lia.
    replace (S (length shape - 1)) with (length shape) by lia.
    rewrite skipn_all, prod_nil.
    apply nth_repeat_lt; lia.
Qed.

Lemma strided_offset_contiguous elem shape :
  Forall (fun d => 0 <= d) shape -> prod shape < 2 ^ 63 ->
  0 <= elem < prod shape ->
  strided_offset elem shape (make_contiguous_strides shape) = elem.
Proof.
  intros Hnn Hfit He.
  assert (Hpos : Forall (fun d => 0 < d) shape)
    by (apply extents_pos; [assumption | lia]).
  rewrite <- (coordinate_ravel elem shape Hnn He) at 2.
  unfold strided_offset. apply sumf_ext. intros i Hi. cbv beta.
  rewrite make_contiguous_strides_nth by assumption. ring.
Qed.

(** C10. For a shape of non-negative extents, strides of the same length and
    a linear index [0 <= elem < prod shape] that is an [int], [elem_to_loc]
    returns the sum over the dimensions of [strides[i]] times the [i]-th
    coordinate of the row-major multi-index of [elem]: always so modulo the
    64 bits of the result, and exactly so when that sum is an [int64_t].
    The overload on arrays returns [elem] for a row-contiguous array, which
    is also what the general computation gives on the strides of a
    row-contiguous array. *)
Theorem elem_to_loc_multi_index (elem : Z) (shape : Shape) (strides : Strides) :
  Forall (fun d => 0 <= d) shape ->
  length strides = length shape ->
  0 <= elem < prod shape -> elem < 2 ^ 31 ->
  elem_to_loc elem shape strides = wrap64 (strided_offset elem shape strides)
  /\ (in_int64 (strided_offset elem shape strides) ->
      elem_to_loc elem shape strides = strided_offset elem shape strides)
  /\ (forall a : array,
        row_contiguous a = true -> elem_to_loc_array elem a = elem)
  /\ (prod shape < 2 ^ 63 ->
      elem_to_loc elem shape (make_contiguous_strides shape) = elem).
Proof.
  intros Hnn Hlen He Hint. repeat split.
  - now apply elem_to_loc_wrap.
  - intros Hfit. rewrite elem_to_loc_wrap by assumption.
    now apply wrap64_id.
  - intros a Ha. unfold elem_to_loc_array. now rewrite Ha.
  - intros Hfit. rewrite elem_to_loc_wrap by assumption.
    rewrite strided_offset_contiguous by assumption.
    apply wrap64_id. unfold in_int64; lia.
Qed.

Lemma elem_to_loc_multi_index_witness :
  elem_to_loc 5 [2; 3] [1; 2] = 5
  /\ elem_to_loc 5 [2; 3] (make_contiguous_strides [2; 3]) = 5.
Proof.
  assert (Hnn : Forall (fun d => 0 <= d) [2; 3])
    by (repeat constructor; lia).
  assert (He : 0 <= 5 < prod [2; 3]) by (vm_compute; split; congruence).
  assert (Hint : 5 < 2 ^ 31) by lia.
  destruct (elem_to_loc_multi_index 5 [2; 3] [1; 2] Hnn eq_refl He Hint)
    as (_ & Hexact & _ & _).
  destruct (elem_to_loc_multi_index 5 [2; 3] [3; 1] Hnn eq_refl He Hint)
    as (_ & _ & _ & Hcontig).
  split.
  - rewrite Hexact; [reflexivity | vm_compute; split; congruence].
  - apply Hcontig. reflexivity.
Defined.

(** *** [is_donatable] *)

(** C8. [is_donatable in out] holds exactly when [in] is marked donatable,
    the item sizes agree and the buffer of [in] is at most 16384 bytes larger
    than the bytes of [out]; the sum is a [size_t], so [nbytes out + 16384] is
    taken to fit in 64 bits. *)
Theorem is_donatable_iff (inp out : array) :
  0 <= nbytes out -> nbytes out + 16384 < 2 ^ 64 ->
  is_donatable inp out = true <->
  is_donatable_flag inp = true /\ itemsize inp = itemsize out /\
  buffer_size inp <= nbytes out + 16384.
Proof.
  intros H0 Hfit. unfold is_donatable, donation_extra, wrapU64.
  rewrite Z.mod_small by lia.
  rewrite !andb_true_iff, Z.eqb_eq, Z.leb_le. tauto.
Qed.

Lemma is_donatable_iff_witness :
  is_donatable (mk_array [4] [1] true true 4 16 32)
               (mk_array [4] [1] true false 4 16 16) = true.
Proof.
  apply (is_donatable_iff (mk_array [4] [1] true true 4 16 32)
                          (mk_array [4] [1] true false 4 16 16));
    simpl; lia.
Defined.

(** *** [check_contiguity] *)

(** What [check_contiguity] returns. *)
Record contiguity := mk_contiguity {
  no_broadcast_data_size : Z;
  is_row_contiguous : bool;
  is_col_contiguous : bool
}.

(** The loop of [check_contiguity]: [i] goes up from 0 while [ri] goes down
    from [size - 1]; [k] is [ri + 1].  The data size is a [size_t], the two
    running strides are [int64_t]. *)
Fixpoint check_contiguity_loop (k i : nat) (shape : Shape) (strides : Strides)
    (data_size f_stride b_stride : Z) (row col : bool) : contiguity :=
  match k with
  | O => mk_contiguity data_size row col
  | S ri =>
      let col' :=
        col && ((nth i strides 0 =? f_stride) || (nth i shape 0 =? 1)) in
      let row' :=
        row && ((nth ri strides 0 =? b_stride) || (nth ri shape 0 =? 1)) in
      let f_stride' := wrap64 (f_stride * nth i shape 0) in
      let b_stride' := wrap64 (b_stride * nth ri shape 0) in
      let data_size' :=
        if 0 <? nth i strides 0 then wrapU64 (data_size * nth i shape 0)
        else data_size in
      check_contiguity_loop ri (S i) shape strides
                            data_size' f_stride' b_stride' row' col'
  end.

Definition check_contiguity (shape : Shape) (strides : Strides)
    : contiguity :=
  check_contiguity_loop (length shape) 0 shape strides 1 1 1 true true.

(** The extents of the dimensions that are not broadcast. *)
Fixpoint unbroadcast (shape : Shape) (strides : Strides) : list Z :=
  match shape, strides with
  | d :: shape', s :: strides' =>
      if 0 <? s then d :: unbroadcast shape' strides'
      else unbroadcast shape' strides'
  | _, _ => []
  end.

Lemma wrap64_mul_l a b : wrap64 (wrap64 a * b) = wrap64 (a * b).
Proof.
  apply wrap64_congr.
  rewrite <- Z.mul_mod_idemp_l, wrap64_mod, Z.mul_mod_idemp_l by lia.
  reflexivity.
Qed.

Lemma wrapU64_mul_l a b : wrapU64 (wrapU64 a * b) = wrapU64 (a * b).
Proof. unfold wrapU64. now rewrite Z.mul_mod_idemp_l by lia. Qed.

Lemma wrap64_one : wrap64 1 = 1.
Proof. reflexivity. Qed.

Lemma seg_prod_cons l a b :
  (a < b)%nat -> (b <= length l)%nat ->
  seg_prod l a b = nth a l 0 * seg_prod l (S a) b.
Proof.
  intros Hab Hb. unfold seg_prod.
  rewrite (skipn_cons_nth l a) by lia.
  replace (b - a)%nat with (S (b - S a)) by lia.
  cbn [firstn]. now rewrite prod_cons.
Qed.

Lemma seg_prod_prefix l b : seg_prod l 0 b = prod (firstn b l).
Proof. unfold seg_prod. now rewrite Nat.sub_0_r. Qed.

Lemma unbroadcast_step shape strides i :
  length strides = length shape -> (i < length shape)%nat ->
  unbroadcast (skipn i shape) (skipn i strides) =
  if 0 <? nth i strides 0
  then nth i shape 0 :: unbroadcast (skipn (S i) shape) (skipn (S i) strides)
  else unbroadcast (skipn (S i) shape) (skipn (S i) strides).
Proof.
  intros Hlen Hi.
  rewrite (skipn_cons_nth shape i), (skipn_cons_nth strides i) by lia.
  reflexivity.
Qed.

(** The state of the loop after the dimensions [0 .. i - 1] from the front
    and [k .. size - 1] from the back. *)
Lemma check_contiguity_loop_spec shape strides :
  length strides = length shape ->
  forall k i data_size f b row col,
    (i + k = length shape)%nat ->
    in_int64 f -> in_int64 b -> 0 <= data_size < 2 ^ 64 ->
    let r := check_contiguity_loop k i shape strides data_size f b row col in
    (is_row_contiguous r = true <->
     row = true /\
     forall j, (j < k)%nat ->
       nth j shape 0 = 1 \/
       nth j strides 0 = wrap64 (b * seg_prod shape (S j) k))
    /\
    (is_col_contiguous r = true <->
     col = true /\
     forall j, (i <= j < length shape)%nat ->
       nth j shape 0 = 1 \/
       nth j strides 0 = wrap64 (f * seg_prod shape i j))
    /\
    no_broadcast_data_size r =
      wrapU64 (data_size * prod (unbroadcast (skipn i shape) (skipn i strides))).
Proof.
  intros Hlen. induction k as [|ri IH]; intros i data_size f b row col Hik
    Hf Hb Hsize r.
  - subst r. cbn [check_contiguity_loop is_row_contiguous is_col_contiguous
                  no_broadcast_data_size].
    split; [|split].
    + split; [intros H; split; [exact H | intros; lia] | intros [H _]; exact H].
    + split; [intros H; split; [exact H | intros; lia] | intros [H _]; exact H].
    + rewrite !skipn_all2 by lia. cbn [unbroadcast]. rewrite prod_nil.
      unfold wrapU64. rewrite Z.mul_1_r, Z.mod_small; lia.
  - subst r. cbn [check_contiguity_loop].
    specialize (IH (S i)
      (if 0 <? nth i strides 0 then wrapU64 (data_size * nth i shape 0)
       else data_size)
      (wrap64 (f * nth i shape 0)) (wrap64 (b * nth ri shape 0))
      (row && ((nth ri strides 0 =? b) || (nth ri shape 0 =? 1)))
      (col && ((nth i strides 0 =? f) || (nth i shape 0 =? 1)))
      ltac:(lia) (wrap64_range _) (wrap64_range _)).
    destruct IH as (IHrow & IHcol & IHsize).
    { destruct (0 <? nth i strides 0); [|exact Hsize].
      unfold wrapU64. apply Z.mod_pos_bound. lia. }
    split; [|split].
    + rewrite IHrow. rewrite andb_true_iff, orb_true_iff, !Z.eqb_eq.
      split.
      * intros [[Hrow Hri] Hall]. split; [exact Hrow|].
        intros j Hj. destruct (Nat.eq_dec j ri) as [->|Hne].
        -- destruct Hri as [Hri|Hri]; [right | now left].
           rewrite seg_prod_empty, Z.mul_1_r, wrap64_id by exact Hb.
           exact Hri.
        -- destruct (Hall j ltac:(lia)) as [H|H]; [now left | right].
           rewrite H, wrap64_mul_l, seg_prod_snoc by lia.
           f_equal. ring.
      * intros [Hrow Hall]. split; [split; [exact Hrow|]|].
        -- destruct (Hall ri ltac:(lia)) as [H|H]; [now right | left].
           rewrite H, seg_prod_empty, Z.mul_1_r. now apply wrap64_id.
        -- intros j Hj. destruct (Hall j ltac:(lia)) as [H|H];
             [now left | right].
           rewrite H, wrap64_mul_l, seg_prod_snoc by lia.
           f_equal. ring.
    + rewrite IHcol. rewrite andb_true_iff, orb_true_iff, !Z.eqb_eq.
      split.
      * intros [[Hcol Hi] Hall]. split; [exact Hcol|].
        intros j Hj. destruct (Nat.eq_dec j i) as [->|Hne].
        -- destruct Hi as [Hi|Hi]; [right | now left].
           rewrite seg_prod_empty, Z.mul_1_r, wrap64_id by exact Hf.
           exact Hi.
        -- destruct (Hall j ltac:(lia)) as [H|H]; [now left | right].
           rewrite H, wrap64_mul_l, (seg_prod_cons shape i j) by lia.
           f_equal. ring.
      * intros [Hcol Hall]. split; [split; [exact Hcol|]|].
        -- destruct (Hall i ltac:(lia)) as [H|H]; [now right | left].
           rewrite H, seg_prod_empty, Z.mul_1_r. now apply wrap64_id.
        -- intros j Hj. destruct (Hall j ltac:(lia)) as [H|H];
             [now left | right].
           rewrite H, wrap64_mul_l, (seg_prod_cons shape i j) by lia.
           f_equal. ring.
    + rewrite IHsize. rewrite (unbroadcast_step shape strides i) by lia.
      destruct (0 <? nth i strides 0).
      * rewrite wrapU64_mul_l, prod_cons. f_equal. ring.
      * reflexivity.
Qed.

(** The test of row contiguity in closed form. *)
Lemma check_contiguity_row (shape : Shape) (strides : Strides) :
  length strides = length shape ->
  is_row_contiguous (check_contiguity shape strides) = true <->
  forall j, (j < length shape)%nat ->
    nth j shape 0 = 1 \/
    nth j strides 0 = wrap64 (prod (skipn (S j) shape)).
Proof.
  intros Hlen.
  destruct (check_contiguity_loop_spec shape strides Hlen (length shape) 0
              1 1 1 true true eq_refl) as (Hrow & _ & _);
    try (unfold in_int64; lia).
  fold (check_contiguity shape strides) in Hrow.
  rewrite Hrow. split.
  - intros [_ H] j Hj. specialize (H j Hj).
    now rewrite Z.mul_1_l, seg_prod_full in H.
  - intros H. split; [reflexivity|]. intros j Hj.
    rewrite Z.mul_1_l, seg_prod_full. now apply H.
Qed.

(** X1. [check_contiguity] in closed form: the array is row contiguous when the
    stride of every dimension of extent other than 1 is the product of the
    extents after it, column contiguous when it is the product of the
    extents before it (both as [int64_t]), and the data size is the product
    of the extents of the dimensions of positive stride (as a [size_t]). *)
Theorem check_contiguity_closed_form (shape : Shape) (strides : Strides) :
  length strides = length shape ->
  let r := check_contiguity shape strides in
  (is_row_contiguous r = true <->
   forall j, (j < length shape)%nat ->
     nth j shape 0 = 1 \/
     nth j strides 0 = wrap64 (prod (skipn (S j) shape))) /\
  (is_col_contiguous r = true <->
   forall j, (j < length shape)%nat ->
     nth j shape 0 = 1 \/
     nth j strides 0 = wrap64 (prod (firstn j shape))) /\
  no_broadcast_data_size r = wrapU64 (prod (unbroadcast shape strides)).
Proof.
  intros Hlen r.
  destruct (check_contiguity_loop_spec shape strides Hlen (length shape) 0
              1 1 1 true true eq_refl) as (_ & Hcol & Hsize);
    try (unfold in_int64; lia).
  fold (check_contiguity shape strides) in Hcol, Hsize.
  fold r in Hcol, Hsize.
  split; [|split].
  - now apply check_contiguity_row.
  - rewrite Hcol. split.
    + intros [_ H] j Hj. specialize (H j ltac:(lia)).
      now rewrite Z.mul_1_l, seg_prod_prefix in H.
    + intros H. split; [reflexivity|]. intros j Hj.
      rewrite Z.mul_1_l, seg_prod_prefix. apply H. lia.
  - rewrite Hsize. cbn [skipn]. now rewrite Z.mul_1_l.
Qed.

Lemma check_contiguity_closed_form_witness :
  is_row_contiguous (check_contiguity [2; 1; 3] [3; 7; 1]) = true /\
  is_col_contiguous (check_contiguity [2; 1; 3] [3; 7; 1]) = false /\
  no_broadcast_data_size (check_contiguity [2; 3] [0; 1]) = 3.
Proof.
  destruct (check_contiguity_closed_form [2; 1; 3] [3; 7; 1] eq_refl)
    as (_ & _ & Hsize).
  destruct (check_contiguity_closed_form [2; 3] [0; 1] eq_refl)
    as (_ & _ & Hsize').
  split; [reflexivity | split; [reflexivity | exact Hsize']].
Defined.


(** *** [make_contiguous_strides] and the contiguity test *)

Lemma make_contiguous_strides_loop_wrap shape :
  forall i strides,
    length strides = length shape -> (i < length shape)%nat ->
    (forall k, (i <= k < length shape)%nat ->
               nth k strides 0 = wrap64 (prod (skipn (S k) shape))) ->
    forall k, (k < length shape)%nat ->
      nth k (make_contiguous_strides_loop i shape strides) 0 =
      wrap64 (prod (skipn (S k) shape)).
Proof.
  induction i as [|i IH]; intros strides Hlen Hi Hinv k Hk.
  - simpl. apply Hinv; lia.
  - cbn [make_contiguous_strides_loop].
    apply IH; [now rewrite length_list_set | lia | | assumption].
    intros k' Hk'. destruct (Nat.eq_dec i k') as [->|Hne].
    + rewrite nth_list_set_eq by lia.
      rewrite Hinv, wrap64_mul_l by lia.
      rewrite (prod_skipn_step shape (S k')) by lia. f_equal. ring.
    + rewrite nth_list_set_neq by assumption. apply Hinv; lia.
Qed.

Lemma length_make_contiguous_strides_loop i shape strides :
  length (make_contiguous_strides_loop i shape strides) = length strides.
Proof.
  revert strides; induction i as [|i IH]; intros strides; [reflexivity|].
  cbn [make_contiguous_strides_loop]. now rewrite IH, length_list_set.
Qed.

(** X2. The strides that [make_contiguous_strides] gives a shape are, one for
    each dimension, the products of the extents after it, and
    [check_contiguity] finds them row contiguous. *)
Theorem make_contiguous_strides_row_contiguous (shape : Shape) :
  length (make_contiguous_strides shape) = length shape /\
  (forall k, (k < length shape)%nat ->
     nth k (make_contiguous_strides shape) 0 =
     wrap64 (prod (skipn (S k) shape))) /\
  is_row_contiguous
    (check_contiguity shape (make_contiguous_strides shape)) = true.
Proof.
  assert (Hlen : length (make_contiguous_strides shape) = length shape).
  { unfold make_contiguous_strides.
    now rewrite length_make_contiguous_strides_loop, repeat_length. }
  assert (Hnth : forall k, (k < length shape)%nat ->
            nth k (make_contiguous_strides shape) 0 =
            wrap64 (prod (skipn (S k) shape))).
  { intros k Hk. unfold make_contiguous_strides.
    apply make_contiguous_strides_loop_wrap; try lia.
    - apply repeat_length.
    - intros j Hj. replace j with (length shape - 1)%nat by lia.
      replace (S (length shape - 1)) with (length shape) by lia.
      rewrite skipn_all, prod_nil.
      apply nth_repeat_lt; lia. }
  split; [exact Hlen | split; [exact Hnth|]].
  apply (check_contiguity_row shape _ Hlen).
  intros j Hj. right. now apply Hnth.
Qed.

Lemma wrap64_sumf_congr f g n :
  (forall i, (i < n)%nat -> f i mod 2 ^ 64 = g i mod 2 ^ 64) ->
  wrap64 (sumf f n) = wrap64 (sumf g n).
Proof.
  intros H. apply wrap64_congr. induction n as [|n IH]; [reflexivity|].
  cbn [sumf]. rewrite Z.add_mod, IH, H, <- Z.add_mod by (auto; lia).
  reflexivity.
Qed.

(** X3. On strides that [check_contiguity] finds row contiguous, [elem_to_loc]
    is the identity: the array overload, which returns [elem] at once for a
    row-contiguous array, agrees with the general computation. *)
Theorem elem_to_loc_row_contiguous (elem : Z) (shape : Shape)
    (strides : Strides) :
  Forall (fun d => 0 <= d) shape ->
  length strides = length shape ->
  0 <= elem < prod shape -> elem < 2 ^ 31 ->
  is_row_contiguous (check_contiguity shape strides) = true ->
  elem_to_loc elem shape strides = elem.
Proof.
  intros Hnn Hlen He Hint Hrow.
  pose proof (check_contiguity_row shape strides Hlen) as Hr.
  pose proof (proj1 Hr Hrow) as Hall. clear Hr.
  rewrite elem_to_loc_wrap by assumption.
  rewrite <- (wrap64_id elem) at 2 by (unfold in_int64; lia).
  rewrite <- (coordinate_ravel elem shape Hnn He) at 2.
  unfold strided_offset. apply wrap64_sumf_congr.
  intros i Hi. destruct (Hall i Hi) as [H1|Hs].
  - unfold coordinate. rewrite H1, Z.mod_1_r, Z.mul_0_r, Z.mul_0_l.
    reflexivity.
  - rewrite Hs, (Z.mul_comm (coordinate _ _ _)).
    rewrite <- Z.mul_mod_idemp_l, wrap64_mod, Z.mul_mod_idemp_l by lia.
    reflexivity.
Qed.

Lemma elem_to_loc_row_contiguous_witness :
  elem_to_loc 4 [2; 1; 3] [3; 7; 1] = 4.
Proof.
  apply elem_to_loc_row_contiguous.
  - repeat constructor; lia.
  - reflexivity.
  - vm_compute; split; congruence.
  - lia.
  - reflexivity.
Defined.

(** *** [ContiguousIterator] *)

(** The state of a [ContiguousIterator]: the offset [loc], an [int64_t],
    the shape and the strides that the constructor stored, and the
    multi-index [pos_]. *)
Record ContiguousIterator := mk_iterator {
  loc : Z;
  shape_ : Shape;
  strides_ : Strides;
  pos_ : Shape
}.

(** The two assignments that end [step]: [pos_[i]++; loc += strides_[i]]. *)
Definition advance (i : nat) (it : ContiguousIterator) : ContiguousIterator :=
  mk_iterator (wrap64 (loc it + nth i (strides_ it) 0))
              (shape_ it) (strides_ it)
              (list_set (pos_ it) i (wrap32 (nth i (pos_ it) 0 + 1))).

(** The body of the loop of [step]:
    [pos_[i] = 0; loc -= (shape_[i] - 1) * strides_[i]]. *)
Definition rewind (i : nat) (it : ContiguousIterator) : ContiguousIterator :=
  mk_iterator
    (wrap64 (loc it
             - wrap64 (wrap32 (nth i (shape_ it) 0 - 1)
                       * nth i (strides_ it) 0)))
    (shape_ it) (strides_ it)
    (list_set (pos_ it) i 0).

(** The loop of [step] from the dimension [i]:
    [while (pos_[i] == shape_[i] - 1 && i > 0)]. *)
Fixpoint step_loop (i : nat) (it : ContiguousIterator) : ContiguousIterator :=
  match i with
  | O => advance 0 it
  | S j =>
      if nth i (pos_ it) 0 =? wrap32 (nth i (shape_ it) 0 - 1)
      then step_loop j (rewind i it)
      else advance i it
  end.

Definition step (it : ContiguousIterator) : ContiguousIterator :=
  match length (shape_ it) with
  | O => it
  | S j => step_loop j it
  end.

(** The loop of [seek]; [i] counts the dimensions still to visit. *)
Fixpoint seek_loop (i : nat) (n : Z) (it : ContiguousIterator)
    : ContiguousIterator :=
  match i with
  | O => it
  | S j =>
      let q_and_r := ldiv n (nth j (shape_ it) 0) in
      seek_loop j (quot q_and_r)
        (mk_iterator
           (wrap64 (loc it + wrap64 (rem q_and_r * nth j (strides_ it) 0)))
           (shape_ it) (strides_ it)
           (list_set (pos_ it) j (wrap32 (rem q_and_r))))
  end.

Definition seek (n : Z) (it : ContiguousIterator) : ContiguousIterator :=
  seek_loop (length (shape_ it)) n
            (mk_iterator 0 (shape_ it) (strides_ it) (pos_ it)).

Definition reset (it : ContiguousIterator) : ContiguousIterator :=
  mk_iterator 0 (shape_ it) (strides_ it) (map (fun _ => 0) (pos_ it)).

(** An iterator whose vectors have the length of its shape, over extents
    that are positive [int]s. *)
Definition well_formed (it : ContiguousIterator) : Prop :=
  length (strides_ it) = length (shape_ it) /\
  length (pos_ it) = length (shape_ it) /\
  Forall (fun d => 0 < d < 2 ^ 31) (shape_ it).

(** The iterator at the element number [n] of the row-major order. *)
Definition at_element (n : Z) (it : ContiguousIterator)
    : ContiguousIterator :=
  mk_iterator (wrap64 (strided_offset n (shape_ it) (strides_ it)))
              (shape_ it) (strides_ it)
              (map (coordinate n (shape_ it)) (seq 0 (length (shape_ it)))).

Lemma nth_map_seq_lt (f : nat -> Z) (n j : nat) :
  (j < n)%nat -> nth j (map f (seq 0 n)) 0 = f j.
Proof.
  intros H. rewrite (nth_indep _ 0 (f 0%nat))
    by now rewrite length_map, length_seq.
  now rewrite map_nth, seq_nth.
Qed.

Lemma extent_of_shape (shape : Shape) (j : nat) :
  Forall (fun d => 0 < d < 2 ^ 31) shape -> (j < length shape)%nat ->
  0 < nth j shape 0 < 2 ^ 31.
Proof.
  intros H Hj. rewrite Forall_forall in H. apply H, nth_In, Hj.
Qed.

Lemma extents_positive (shape : Shape) :
  Forall (fun d => 0 < d < 2 ^ 31) shape -> Forall (fun d => 0 < d) shape.
Proof. apply Forall_impl. intros d H. lia. Qed.

Lemma seek_loop_spec shape strides :
  Forall (fun d => 0 < d < 2 ^ 31) shape ->
  forall i n l pos,
    (i <= length shape)%nat -> length pos = length shape ->
    0 <= n -> in_int64 l ->
    seek_loop i n (mk_iterator l shape strides pos) =
    mk_iterator
      (wrap64 (l + sumf (fun j => nth j strides 0 *
                           ((n / seg_prod shape (S j) i) mod nth j shape 0)) i))
      shape strides
      (map (fun j => if (j <? i)%nat
                     then (n / seg_prod shape (S j) i) mod nth j shape 0
                     else nth j pos 0)
           (seq 0 (length shape))).
Proof.
  intros Hext. pose proof (extents_positive shape Hext) as Hpos.
  induction i as [|i IH]; intros n l pos Hi Hlen Hn Hl.
  - cbn [seek_loop sumf]. rewrite Z.add_0_r, wrap64_id by exact Hl.
    f_equal. apply (nth_ext _ _ 0 0).
    + now rewrite length_map, length_seq.
    + intros j Hj. rewrite Hlen in Hj. now rewrite nth_map_seq_lt.
  - pose proof (extent_of_shape shape i Hext ltac:(lia)) as Hs.
    cbn [seek_loop shape_ strides_ pos_ loc sumf].
    unfold ldiv; cbn [quot rem].
    rewrite Z.quot_div_nonneg, Z.rem_mod_nonneg by lia.
    pose proof (Z.mod_pos_bound n (nth i shape 0) ltac:(lia)) as Hr.
    rewrite wrap32_id by lia.
    rewrite IH;
      [| lia | now rewrite length_list_set | apply Z.div_pos; lia
       | apply wrap64_range].
    f_equal.
    + rewrite wrap64_add_l, <- Z.add_assoc, (Z.add_comm (wrap64 _)),
        Z.add_assoc, wrap64_add_r.
      f_equal. rewrite seg_prod_empty, Z.div_1_r.
      rewrite (sumf_ext
        (fun j => nth j strides 0 *
           ((n / nth i shape 0 / seg_prod shape (S j) i) mod nth j shape 0))
        (fun j => nth j strides 0 *
           ((n / seg_prod shape (S j) (S i)) mod nth j shape 0))).
      * ring.
      * intros j Hj. cbv beta. do 2 f_equal.
        rewrite seg_prod_snoc by lia.
        pose proof (seg_prod_pos shape (S j) i Hpos).
        rewrite Z.div_div by lia. f_equal. ring.
    + apply map_ext_in. intros j Hj. apply in_seq in Hj.
      destruct (Nat.ltb_spec j i) as [Hlt|Hge].
      * replace (j <? S i)%nat with true by (symmetry; apply Nat.ltb_lt; lia).
        rewrite seg_prod_snoc by lia.
        pose proof (seg_prod_pos shape (S j) i Hpos).
        rewrite Z.div_div by lia. do 2 f_equal. ring.
      * destruct (Nat.eq_dec j i) as [->|Hne].
        -- replace (i <? S i)%nat with true
             by (symmetry; apply Nat.ltb_lt; lia).
           rewrite nth_list_set_eq by lia.
           now rewrite seg_prod_empty, Z.div_1_r.
        -- replace (j <? S i)%nat with false
             by (symmetry; apply Nat.ltb_ge; lia).
           now rewrite nth_list_set_neq by lia.
Qed.

Lemma seek_at_element (n : Z) (it : ContiguousIterator) :
  well_formed it -> 0 <= n -> seek n it = at_element n it.
Proof.
  intros (Hst & Hps & Hext) Hn. unfold seek, at_element.
  rewrite seek_loop_spec; try assumption; try lia;
    [|unfold in_int64; lia].
  f_equal.
  - rewrite Z.add_0_l. f_equal. unfold strided_offset, coordinate.
    apply sumf_ext. intros j Hj. cbv beta. now rewrite seg_prod_full.
  - apply map_ext_in. intros j Hj. apply in_seq in Hj.
    replace (j <? length (shape_ it))%nat with true
      by (symmetry; apply Nat.ltb_lt; lia).
    unfold coordinate. now rewrite seg_prod_full.
Qed.

(** *** Carrying digits of a row-major index *)

Lemma succ_multiple (n P : Z) :
  0 < P -> 0 <= n -> (n + 1) mod P = 0 ->
  exists k, 0 <= k /\ n + 1 = (k + 1) * P /\ n / P = k /\ (n + 1) / P = k + 1.
Proof.
  intros HP Hn Hm.
  pose proof (Z.div_mod (n + 1) P ltac:(lia)) as Hdm. rewrite Hm in Hdm.
  remember ((n + 1) / P) as q eqn:Hq.
  assert (Hk : 1 <= q) by nia.
  exists (q - 1). split; [lia|]. split; [nia|]. split; [|lia].
  symmetry. apply (Z.div_unique n P _ (P - 1)); nia.
Qed.

Lemma digit_next (n P s : Z) :
  0 < P -> 0 < s -> 0 <= n -> (n + 1) mod P = 0 ->
  (n / P) mod s <> s - 1 ->
  ((n + 1) / P) mod s = (n / P) mod s + 1.
Proof.
  intros HP Hs Hn Hm Hd.
  destruct (succ_multiple n P HP Hn Hm) as (k & Hk & _ & Hq & Hq').
  rewrite Hq, Hq'. rewrite Hq in Hd.
  pose proof (Z.div_mod k s ltac:(lia)) as Hdm.
  pose proof (Z.mod_pos_bound k s Hs) as Hb.
  symmetry. apply (Z.mod_unique (k + 1) s (k / s)); lia.
Qed.

Lemma digit_high (n P s Q : Z) :
  0 < P -> 0 < s -> 0 < Q -> 0 <= n -> (n + 1) mod P = 0 ->
  (n / P) mod s <> s - 1 ->
  (n + 1) / (Q * s * P) = n / (Q * s * P).
Proof.
  intros HP Hs HQ Hn Hm Hd.
  destruct (succ_multiple n P HP Hn Hm) as (k & Hk & _ & Hq & Hq').
  replace (Q * s * P) with (P * (s * Q)) by ring.
  rewrite <- !Z.div_div by nia. rewrite Hq, Hq'. rewrite Hq in Hd.
  f_equal.
  pose proof (Z.div_mod k s ltac:(lia)) as Hdm.
  pose proof (Z.mod_pos_bound k s Hs) as Hb.
  symmetry. apply (Z.div_unique (k + 1) s _ (k mod s + 1)); lia.
Qed.

Lemma digit_low (m A s R : Z) :
  0 < A -> 0 < s -> m mod (R * s * A) = 0 -> (m / A) mod s = 0.
Proof.
  intros HA Hs Hm.
  destruct (Z.eq_dec R 0) as [->|HR].
  - cbn in Hm. rewrite Z.mod_0_r in Hm. subst m.
    now rewrite Z.div_0_l, Z.mod_0_l by lia.
  - apply Z.mod_divide in Hm; [|nia]. destruct Hm as [c ->].
    replace (c * (R * s * A)) with (c * R * s * A) by ring.
    rewrite Z.div_mul by lia. apply Z.mod_mul. lia.
Qed.

Lemma digit_carry (n P s : Z) :
  0 < P -> 0 < s -> 0 <= n -> (n + 1) mod P = 0 ->
  (n / P) mod s = s - 1 -> (n + 1) mod (s * P) = 0.
Proof.
  intros HP Hs Hn Hm Hd.
  destruct (succ_multiple n P HP Hn Hm) as (k & Hk & He & Hq & _).
  rewrite Hq in Hd.
  pose proof (Z.div_mod k s ltac:(lia)) as Hdm. rewrite Hd in Hdm.
  replace (n + 1) with ((k / s + 1) * (s * P)) by nia.
  apply Z.mod_mul. nia.
Qed.

Lemma prod_skipn_split (l : list Z) (a b : nat) :
  (a <= b)%nat -> prod (skipn a l) = seg_prod l a b * prod (skipn b l).
Proof.
  intros Hab. unfold seg_prod.
  rewrite <- (firstn_skipn (b - a) (skipn a l)) at 1.
  rewrite prod_app, skipn_skipn.
  now replace (b - a + a)%nat with b by lia.
Qed.

Lemma sumf_zero_tail (f : nat -> Z) (k m : nat) :
  (forall j, (k <= j < k + m)%nat -> f j = 0) -> sumf f (k + m) = sumf f k.
Proof.
  induction m as [|m IH]; intros H.
  - now rewrite Nat.add_0_r.
  - rewrite Nat.add_succ_r. cbn [sumf]. rewrite IH, H; [lia | lia |].
    intros j Hj. apply H. lia.
Qed.

(** The coordinates of [n + 1] when the digits below [i] all wrap and
    the digit at [i] does not. *)
Lemma coordinate_succ (n : Z) (shape : Shape) (i : nat) :
  Forall (fun d => 0 < d) shape -> (i < length shape)%nat -> 0 <= n ->
  (n + 1) mod prod (skipn (S i) shape) = 0 ->
  coordinate n shape i <> nth i shape 0 - 1 ->
  forall j, (j < length shape)%nat ->
    coordinate (n + 1) shape j =
    if (j <? i)%nat then coordinate n shape j
    else if (j =? i)%nat then coordinate n shape i + 1 else 0.
Proof.
  intros Hpos Hi Hn Hm Hd j Hj. unfold coordinate in *.
  pose proof (prod_skipn_pos shape (S i) Hpos) as HP.
  pose proof (nth_pos shape i Hpos Hi) as Hs.
  destruct (Nat.ltb_spec j i) as [Hlt|Hge].
  - rewrite (prod_skipn_split shape (S j) i) by lia.
    rewrite (prod_skipn_step shape i) by lia.
    pose proof (seg_prod_pos shape (S j) i Hpos) as HQ.
    rewrite !Z.mul_assoc. f_equal. now apply digit_high.
  - destruct (Nat.eqb_spec j i) as [->|Hne].
    + now apply digit_next.
    + rewrite (prod_skipn_split shape (S i) j) in Hm by lia.
      rewrite (prod_skipn_step shape j) in Hm by lia.
      rewrite Z.mul_assoc in Hm.
      apply (digit_low _ _ _ (seg_prod shape (S i) j)).
      * apply prod_skipn_pos, Hpos.
      * apply nth_pos; assumption.
      * exact Hm.
Qed.

(** The state of the loop of [step] at index [i] on the way from element
    [n]: the positions above [i] are those of [n] and the ones below are
    rewound. *)
Definition carried (n : Z) (i : nat) (it : ContiguousIterator) :
    ContiguousIterator :=
  mk_iterator
    (wrap64 (sumf (fun j => nth j (strides_ it) 0 * coordinate n (shape_ it) j)
                  (S i)))
    (shape_ it) (strides_ it)
    (map (fun j => if (j <=? i)%nat then coordinate n (shape_ it) j else 0)
         (seq 0 (length (shape_ it)))).

Lemma advance_carried (n : Z) (i : nat) (it : ContiguousIterator) :
  well_formed it -> (i < length (shape_ it))%nat -> 0 <= n ->
  (n + 1) mod prod (skipn (S i) (shape_ it)) = 0 ->
  coordinate n (shape_ it) i <> nth i (shape_ it) 0 - 1 ->
  advance i (carried n i it) = at_element (n + 1) it.
Proof.
  intros (Hst & Hps & Hext) Hi Hn Hm Hd.
  pose proof (extents_positive _ Hext) as Hpos.
  pose proof (coordinate_succ n _ i Hpos Hi Hn Hm Hd) as Hc.
  pose proof (coordinate_range n _ i Hpos Hi) as Hr.
  pose proof (extent_of_shape _ i Hext Hi) as Hs.
  unfold advance, carried, at_element. cbn [loc shape_ strides_ pos_].
  f_equal.
  - rewrite wrap64_add_l. f_equal. unfold strided_offset.
    replace (length (shape_ it)) with (S i + (length (shape_ it) - S i))%nat
      by lia.
    rewrite sumf_zero_tail.
    + cbn [sumf]. rewrite (Hc i Hi), Nat.ltb_irrefl, Nat.eqb_refl.
      rewrite (sumf_ext
        (fun j => nth j (strides_ it) 0 * coordinate (n + 1) (shape_ it) j)
        (fun j => nth j (strides_ it) 0 * coordinate n (shape_ it) j)).
      * ring.
      * intros j Hj. cbv beta. rewrite Hc by lia.
        now replace (j <? i)%nat with true
          by (symmetry; apply Nat.ltb_lt; lia).
    + intros j Hj. rewrite Hc by lia.
      replace (j <? i)%nat with false by (symmetry; apply Nat.ltb_ge; lia).
      replace (j =? i)%nat with false by (symmetry; apply Nat.eqb_neq; lia).
      ring.
  - apply (nth_ext _ _ 0 0).
    + now rewrite length_list_set, !length_map.
    + intros j Hj. rewrite length_list_set, length_map, length_seq in Hj.
      rewrite (nth_map_seq_lt (coordinate (n + 1) (shape_ it))) by exact Hj.
      rewrite Hc by exact Hj.
      destruct (Nat.eq_dec j i) as [->|Hne].
      * rewrite nth_list_set_eq by (now rewrite length_map, length_seq).
        rewrite nth_map_seq_lt by exact Hi.
        rewrite Nat.leb_refl, Nat.ltb_irrefl, Nat.eqb_refl.
        apply wrap32_id. lia.
      * rewrite nth_list_set_neq by lia.
        rewrite nth_map_seq_lt by exact Hj.
        replace (j =? i)%nat with false by (symmetry; apply Nat.eqb_neq; lia).
        destruct (Nat.ltb_spec j i) as [Hlt|Hge].
        -- now replace (j <=? i)%nat with true
             by (symmetry; apply Nat.leb_le; lia).
        -- now replace (j <=? i)%nat with false
             by (symmetry; apply Nat.leb_gt; lia).
Qed.

Lemma wrap64_sub a b : wrap64 (wrap64 a - wrap64 b) = wrap64 (a - b).
Proof.
  apply wrap64_congr.
  rewrite Zminus_mod, !wrap64_mod, <- Zminus_mod. reflexivity.
Qed.

Lemma rewind_carried (n : Z) (i : nat) (it : ContiguousIterator) :
  well_formed it -> (S i < length (shape_ it))%nat ->
  coordinate n (shape_ it) (S i) = nth (S i) (shape_ it) 0 - 1 ->
  rewind (S i) (carried n (S i) it) = carried n i it.
Proof.
  intros (Hst & Hps & Hext) Hi Hd.
  pose proof (extent_of_shape _ (S i) Hext Hi) as Hs.
  unfold rewind, carried. cbn [loc shape_ strides_ pos_].
  f_equal.
  - rewrite wrap32_id by lia. rewrite wrap64_sub. f_equal.
    cbn [sumf]. rewrite Hd. ring.
  - apply (nth_ext _ _ 0 0).
    + now rewrite length_list_set, !length_map.
    + intros j Hj. rewrite length_list_set, length_map, length_seq in Hj.
      rewrite (nth_map_seq_lt _ _ j Hj).
      destruct (Nat.eq_dec j (S i)) as [->|Hne].
      * rewrite nth_list_set_eq by (now rewrite length_map, length_seq).
        now replace (S i <=? i)%nat with false
          by (symmetry; apply Nat.leb_gt; lia).
      * rewrite nth_list_set_neq by lia.
        rewrite nth_map_seq_lt by exact Hj.
        destruct (Nat.leb_spec j i) as [Hle|Hgt].
        -- now replace (j <=? S i)%nat with true
             by (symmetry; apply Nat.leb_le; lia).
        -- now replace (j <=? S i)%nat with false
             by (symmetry; apply Nat.leb_gt; lia).
Qed.

Lemma step_loop_carried (n : Z) (it : ContiguousIterator) :
  well_formed it -> 0 <= n -> n + 1 < prod (shape_ it) ->
  forall i, (i < length (shape_ it))%nat ->
    (n + 1) mod prod (skipn (S i) (shape_ it)) = 0 ->
    step_loop i (carried n i it) = at_element (n + 1) it.
Proof.
  intros Hwf Hn Hlt.
  pose proof Hwf as (Hst & Hps & Hext).
  pose proof (extents_positive _ Hext) as Hpos.
  induction i as [|i IH]; intros Hi Hm.
  - cbn [step_loop]. apply advance_carried; try assumption.
    intros Hd.
    pose proof (digit_carry n _ _ (prod_skipn_pos _ 1 Hpos)
                  (nth_pos _ 0%nat Hpos Hi) Hn Hm Hd) as Hc.
    rewrite <- (prod_skipn_step (shape_ it) 0 Hi) in Hc. cbn [skipn] in Hc.
    rewrite Z.mod_small in Hc by lia. lia.
  - cbn [step_loop].
    change (shape_ (carried n (S i) it)) with (shape_ it).
    change (pos_ (carried n (S i) it))
      with (map (fun j => if (j <=? S i)%nat
                          then coordinate n (shape_ it) j else 0)
                (seq 0 (length (shape_ it)))).
    rewrite nth_map_seq_lt by exact Hi. rewrite Nat.leb_refl.
    pose proof (extent_of_shape _ (S i) Hext Hi) as Hs.
    rewrite wrap32_id by lia.
    destruct (Z.eqb_spec (coordinate n (shape_ it) (S i))
                (nth (S i) (shape_ it) 0 - 1)) as [Hd|Hd].
    + rewrite rewind_carried by assumption.
      apply IH; [lia|].
      rewrite (prod_skipn_step (shape_ it) (S i)) by exact Hi.
      apply digit_carry; try assumption; try lia.
      apply prod_skipn_pos, Hpos.
    + now apply advance_carried.
Qed.

Lemma at_element_carried (n : Z) (i : nat) (it : ContiguousIterator) :
  length (shape_ it) = S i -> at_element n it = carried n i it.
Proof.
  intros Hl. unfold at_element, carried, strided_offset. rewrite Hl.
  f_equal. apply map_ext_in. intros j Hj. apply in_seq in Hj.
  now replace (j <=? i)%nat with true by (symmetry; apply Nat.leb_le; lia).
Qed.

Lemma step_at_element (n : Z) (it : ContiguousIterator) :
  well_formed it -> 0 <= n -> n + 1 < prod (shape_ it) ->
  step (at_element n it) = at_element (n + 1) it.
Proof.
  intros Hwf Hn Hlt. unfold step. cbn [at_element shape_].
  destruct (length (shape_ it)) as [|i] eqn:Hl.
  - apply length_zero_iff_nil in Hl. rewrite Hl in Hlt. cbn in Hlt. lia.
  - rewrite (at_element_carried n i it Hl).
    change (step_loop i (carried n i it)) with (step_loop i (carried n i it)).
    apply step_loop_carried; try assumption; [lia|].
    rewrite <- Hl, skipn_all. apply Z.mod_1_r.
Qed.

Lemma sumf_zero (n : nat) : sumf (fun _ => 0) n = 0.
Proof. induction n as [|n IH]; cbn [sumf]; [reflexivity | now rewrite IH]. Qed.

Lemma coordinate_zero (shape : Shape) (j : nat) : coordinate 0 shape j = 0.
Proof. reflexivity. Qed.

Lemma reset_at_element (it : ContiguousIterator) :
  well_formed it -> reset it = at_element 0 it.
Proof.
  intros (Hst & Hps & Hext). unfold reset, at_element. f_equal.
  - unfold strided_offset.
    rewrite (sumf_ext _ (fun _ => 0)); [now rewrite sumf_zero|].
    intros j _. cbv beta. rewrite coordinate_zero. ring.
  - apply (nth_ext _ _ 0 0).
    + now rewrite !length_map, length_seq.
    + intros j Hj. rewrite length_map, Hps in Hj.
      rewrite nth_map_seq_lt by exact Hj. rewrite coordinate_zero.
      clear. revert j. induction (pos_ it) as [|p l IH]; intros [|j];
        cbn [map nth]; auto.
Qed.

(** X4. [seek n] puts a well-formed iterator on the element number [n] of
    the row-major order: [pos_] becomes the multi-index of [n], which
    ravels back to [n], and [loc] is the offset that [elem_to_loc] gives
    [n] on the shape and the strides of the iterator; the shape and the
    strides are kept. *)
Theorem seek_matches_elem_to_loc (n : Z) (it : ContiguousIterator) :
  well_formed it -> 0 <= n < prod (shape_ it) -> n < 2 ^ 31 ->
  loc (seek n it) = elem_to_loc n (shape_ it) (strides_ it) /\
  shape_ (seek n it) = shape_ it /\ strides_ (seek n it) = strides_ it /\
  length (pos_ (seek n it)) = length (shape_ it) /\
  (forall j, (j < length (shape_ it))%nat ->
     nth j (pos_ (seek n it)) 0 = coordinate n (shape_ it) j) /\
  sumf (fun j => nth j (pos_ (seek n it)) 0 * prod (skipn (S j) (shape_ it)))
       (length (shape_ it)) = n.
Proof.
  intros Hwf Hn Hint. pose proof Hwf as (Hst & Hps & Hext).
  assert (Hnn : Forall (fun d => 0 <= d) (shape_ it))
    by (revert Hext; apply Forall_impl; intros d H; lia).
  rewrite seek_at_element by (assumption || lia).
  unfold at_element; cbn [loc shape_ strides_ pos_].
  rewrite elem_to_loc_wrap by assumption.
  repeat split.
  - now rewrite length_map, length_seq.
  - intros j Hj. now rewrite nth_map_seq_lt.
  - etransitivity; [|exact (coordinate_ravel n (shape_ it) Hnn Hn)].
    apply sumf_ext. intros j Hj. cbv beta. now rewrite nth_map_seq_lt.
Qed.

Lemma seek_matches_elem_to_loc_witness :
  loc (seek 4 (mk_iterator 9 [2; 3] [1; 2] [1; 1])) =
  elem_to_loc 4 [2; 3] [1; 2].
Proof.
  refine (proj1 (seek_matches_elem_to_loc 4
                   (mk_iterator 9 [2; 3] [1; 2] [1; 1]) _ _ _)).
  - repeat split; repeat constructor.
  - vm_compute; split; congruence.
  - lia.
Defined.

(** X5. One [step] after [seek n] is [seek (n + 1)], as long as [n + 1] is
    still an element of the shape: stepping follows the row-major order,
    with the carries between the dimensions. *)
Theorem step_seek (n : Z) (it : ContiguousIterator) :
  well_formed it -> 0 <= n -> n + 1 < prod (shape_ it) ->
  step (seek n it) = seek (n + 1) it.
Proof.
  intros Hwf Hn Hlt.
  rewrite !seek_at_element by (assumption || lia).
  now apply step_at_element.
Qed.

Lemma step_seek_witness :
  step (seek 2 (mk_iterator 0 [2; 3] [1; 2] [0; 0])) =
  seek 3 (mk_iterator 0 [2; 3] [1; 2] [0; 0]).
Proof.
  apply (step_seek 2 (mk_iterator 0 [2; 3] [1; 2] [0; 0])).
  - repeat split; repeat constructor.
  - lia.
  - vm_compute; reflexivity.
Defined.

(** X6. [k] calls of [step] after [reset] leave a well-formed iterator where
    [seek k] puts it, for every [k] below the number of elements. *)
Theorem steps_from_reset (k : nat) (it : ContiguousIterator) :
  well_formed it -> Z.of_nat k < prod (shape_ it) ->
  Nat.iter k step (reset it) = seek (Z.of_nat k) it.
Proof.
  intros Hwf. rewrite seek_at_element by (assumption || lia).
  induction k as [|k IH]; intros Hlt.
  - now apply reset_at_element.
  - change (Nat.iter (S k) step (reset it))
      with (step (Nat.iter k step (reset it))).
    rewrite IH by lia.
    rewrite step_at_element by (assumption || lia).
    f_equal. lia.
Qed.

Lemma steps_from_reset_witness :
  Nat.iter 5 step (reset (mk_iterator 7 [2; 3] [1; 2] [1; 2])) =
  seek 5 (mk_iterator 7 [2; 3] [1; 2] [1; 2]).
Proof.
  apply (steps_from_reset 5 (mk_iterator 7 [2; 3] [1; 2] [1; 2])).
  - repeat split; repeat constructor.
  - vm_compute; reflexivity.
Defined.

End Utils.

(** ** Outcomes of a call *)

(** A call returns a value, throws [std::invalid_argument] or
    [std::runtime_error] with a message, or leaves the behaviour defined by
    C++ (a read past the end of a vector).  [Undefined] also stands for a
    call that the model does not follow, where the doc comment of a
    function says so: a result that holds NaN or an infinity, which are no
    real numbers, or an exception of another class. *)
Inductive outcome (A : Type) : Type :=
| Ok (a : A)
| InvalidArgument (msg : string)
| RuntimeError (msg : string)
| Undefined.
Arguments Ok {A} a.
Arguments InvalidArgument {A} msg.
Arguments RuntimeError {A} msg.
Arguments Undefined {A}.

(** Sequencing of calls that may throw. *)
Definition and_then {A B : Type} (c : outcome A) (k : A -> outcome B)
    : outcome B :=
  match c with
  | Ok a => k a
  | InvalidArgument m => InvalidArgument m
  | RuntimeError m => RuntimeError m
  | Undefined => Undefined
  end.

(** ** python/src/indexing.cpp *)

Module Indexing.
Import MachineInt.

(** An entry of an index tuple, by the runtime type the translator tests:
    a slice (each bound present or [None]), an integer, an array, [None],
    the ellipsis, a list, or an object of any other type. *)
Inductive index_entry :=
| Slice (start stop step : option Z)
| Int (i : Z)
| Array (data : list Z)
| NoneIdx
| Ellipsis
| ListIdx (items : list Z)
| Other.

Definition is_none (obj : index_entry) : bool :=
  match obj with NoneIdx => true | _ => false end.

Definition is_ellipsis (obj : index_entry) : bool :=
  match obj with Ellipsis => true | _ => false end.

Definition is_valid_index_type (obj : index_entry) : bool :=
  match obj with
  | Slice _ _ _ | Int _ | Array _ | NoneIdx | Ellipsis | ListIdx _ => true
  | Other => false
  end.

Definition b2z (b : bool) : Z := if b then 1 else 0.

Definition msg_type : string :=
  "Cannot index mlx array using the given type yet".
Definition msg_ellipsis : string :=
  "An index can only have a single ellipsis (...)".

(** What the first loop of [mlx_expand_ellipsis] leaves: the indices collected
    so far, [non_none_indices_before], the position [i] where it stopped and
    [has_ellipsis]. *)
Record front := mk_front {
  f_indices : list index_entry;
  f_before : Z;
  f_i : nat;
  f_has_ellipsis : bool
}.

(** First loop: from position [i] on, until the first ellipsis. *)
Fixpoint scan_front (entries : list index_entry) (i : nat)
    (indices : list index_entry) (before : Z) : outcome front :=
  match entries with
  | [] => Ok (mk_front indices before i false)
  | idx :: rest =>
      if negb (is_valid_index_type idx) then InvalidArgument msg_type
      else if negb (is_ellipsis idx) then
        scan_front rest (S i) (indices ++ [idx])
                   (before + b2z (negb (is_none idx)))
      else Ok (mk_front indices before i true)
  end.

(** Second loop: [for (j = size - 1; j > i; j--)].  The argument [j1] is
    [j + 1], so that the loop starts at [j1 = size]. *)
Fixpoint scan_back (entries : list index_entry) (i : nat) (j1 : nat)
    (r_indices : list index_entry) (after : Z)
    : outcome (list index_entry * Z) :=
  match j1 with
  | O => Ok (r_indices, after)
  | S j =>
      if (j <=? i)%nat then Ok (r_indices, after)
      else
        match nth_error entries j with
        | None => Undefined
        | Some idx =>
            if negb (is_valid_index_type idx) then InvalidArgument msg_type
            else if is_ellipsis idx then InvalidArgument msg_ellipsis
            else scan_back entries i j (r_indices ++ [idx])
                           (after + b2z (negb (is_none idx)))
        end
  end.

(** The slice [nb::slice(0, shape[axis], 1)] that stands for a whole axis. *)
Definition full_slice (extent : Z) : index_entry :=
  Slice (Some 0) (Some extent) (Some 1).

(** Third loop: [for (axis = before; axis < shape.size() - after; axis++)].
    [rest] is the shape from position [axis] on, so that [shape[axis]] is its
    head; [bound] is the right-hand side of the test, a [size_t]. *)
Fixpoint expand_loop (rest : list Z) (axis bound : Z)
    (indices : list index_entry) (non_none_indices : Z)
    : outcome (Z * list index_entry) :=
  if axis <? bound then
    match rest with
    | [] => Undefined
    | extent :: rest' =>
        expand_loop rest' (axis + 1) bound
                    (indices ++ [full_slice extent]) (non_none_indices + 1)
    end
  else Ok (non_none_indices, indices).

Definition mlx_expand_ellipsis (shape : list Z) (entries : list index_entry)
    : outcome (Z * list index_entry) :=
  match scan_front entries 0 [] 0 with
  | InvalidArgument m => InvalidArgument m
  | RuntimeError m => RuntimeError m
  | Undefined => Undefined
  | Ok fr =>
      match scan_back entries (f_i fr) (length entries) [] 0 with
      | InvalidArgument m => InvalidArgument m
      | RuntimeError m => RuntimeError m
      | Undefined => Undefined
      | Ok (r_indices, after) =>
          let non_none_indices := f_before fr + after in
          let expanded :=
            if f_has_ellipsis fr then
              expand_loop (skipn (Z.to_nat (f_before fr)) shape)
                          (f_before fr)
                          (wrapU64 (Z.of_nat (length shape) - after))
                          (f_indices fr) non_none_indices
            else Ok (non_none_indices, f_indices fr) in
          match expanded with
          | Ok (n, indices) => Ok (n, indices ++ rev r_indices)
          | other => other
          end
      end
  end.

(** The entries that address an axis: neither [None] nor the ellipsis. *)
Definition addresses_axis (obj : index_entry) : bool :=
  negb (is_none obj) && negb (is_ellipsis obj).

Definition count_axes (entries : list index_entry) : Z :=
  Z.of_nat (length (filter addresses_axis entries)).

Definition count_ellipsis (entries : list index_entry) : nat :=
  length (filter is_ellipsis entries).

(** An entry that neither raises nor stops a scan. *)
Definition passes (obj : index_entry) : bool :=
  is_valid_index_type obj && negb (is_ellipsis obj).

(** The number of full slices that the source rank leaves to the ellipsis. *)
Definition missing_axes (shape : list Z) (entries : list index_entry) : nat :=
  (length shape - Z.to_nat (count_axes entries))%nat.

(** What the spec says of the expansion: a tuple with a single ellipsis gets
    the rank minus the other axis entries full slices in its place, and the
    count of non-[None] indices is the rank. *)
Definition expansion_as_specified (shape : list Z)
    (entries : list index_entry) : Prop :=
  exists pre post slices,
    entries = pre ++ Ellipsis :: post /\
    Z.of_nat (length slices) = Z.of_nat (length shape) - count_axes entries /\
    mlx_expand_ellipsis shape entries =
      Ok (Z.of_nat (length shape), pre ++ slices ++ post).

Example expand_middle_axis :
  mlx_expand_ellipsis [2; 3; 4] [Int 0; Ellipsis; Int 1] =
  Ok (3, [Int 0; full_slice 3; Int 1]).
Proof. reflexivity. Qed.

Example expand_with_none :
  mlx_expand_ellipsis [2; 3; 4] [NoneIdx; Ellipsis; Int 1] =
  Ok (3, [NoneIdx; full_slice 2; full_slice 3; Int 1]).
Proof. reflexivity. Qed.

Example expand_two_ellipses :
  mlx_expand_ellipsis [2; 3; 4] [Ellipsis; Int 1; Ellipsis] =
  InvalidArgument msg_ellipsis.
Proof. reflexivity. Qed.

Example expand_too_many_after :
  mlx_expand_ellipsis [3] [Ellipsis; Int 0; Int 0] = Undefined.
Proof. reflexivity. Qed.

Example expand_too_many_before :
  mlx_expand_ellipsis [3] [Int 0; Int 0; Ellipsis] = Ok (2, [Int 0; Int 0]).
Proof. reflexivity. Qed.

(** *** The three loops *)

Lemma count_axes_app l1 l2 :
  count_axes (l1 ++ l2) = count_axes l1 + count_axes l2.
Proof.
  unfold count_axes. rewrite filter_app, length_app. lia.
Qed.

Lemma count_axes_cons_passes x l :
  passes x = true ->
  count_axes (x :: l) = b2z (negb (is_none x)) + count_axes l.
Proof.
  unfold passes, count_axes, addresses_axis; intros Hx.
  cbn [filter].
  destruct x;
    cbn [is_none is_ellipsis is_valid_index_type negb andb b2z length] in *;
    try discriminate; lia.
Qed.

Lemma count_axes_nonneg l : 0 <= count_axes l.
Proof. unfold count_axes; lia. Qed.

Lemma count_axes_nil : count_axes [] = 0.
Proof. reflexivity. Qed.

Lemma scan_front_passes pre rest i acc before :
  Forall (fun e => passes e = true) pre ->
  scan_front (pre ++ rest) i acc before =
  scan_front rest (i + length pre) (acc ++ pre) (before + count_axes pre).
Proof.
  intros H; revert i acc before.
  induction H as [|x pre Hx Hpre IH]; intros i acc before.
  - cbn [app length]. now rewrite Nat.add_0_r, app_nil_r, count_axes_nil, Z.add_0_r.
  - cbn [app scan_front].
    rewrite (count_axes_cons_passes x pre Hx).
    unfold passes in Hx. apply andb_true_iff in Hx as [Hv He].
    rewrite Hv, He. cbn [negb].
    rewrite IH. rewrite <- app_assoc. cbn [app length].
    f_equal; lia.
Qed.

Lemma firstn_snoc_nth_error (l : list index_entry) n x :
  nth_error l n = Some x -> firstn (S n) l = firstn n l ++ [x].
Proof.
  revert n; induction l as [|a l IH]; intros [|n] H; simpl in *;
    try discriminate.
  - now inversion H.
  - f_equal. now apply IH.
Qed.

(** The second loop run over [n] entries that pass, from position
    [j + n - 1] down to [j]. *)
Lemma scan_back_passes entries i n : forall j acc after,
  (i < j)%nat -> (j + n <= length entries)%nat ->
  Forall (fun x => passes x = true) (firstn n (skipn j entries)) ->
  scan_back entries i (j + n) acc after =
  scan_back entries i j (acc ++ rev (firstn n (skipn j entries)))
            (after + count_axes (firstn n (skipn j entries))).
Proof.
  induction n as [|n IH]; intros j acc after Hij Hlen Hpass.
  - cbn [firstn rev]. now rewrite Nat.add_0_r, app_nil_r, count_axes_nil, Z.add_0_r.
  - destruct (nth_error (skipn j entries) n) as [x|] eqn:Hx.
    2:{ apply nth_error_None in Hx. rewrite length_skipn in Hx. lia. }
    rewrite (firstn_snoc_nth_error _ _ _ Hx) in *.
    apply Forall_app in Hpass as [Hpass Hpx].
    inversion Hpx as [|? ? Hp _]; subst.
    replace (j + S n)%nat with (S (j + n)) by lia.
    cbn [scan_back].
    destruct (Nat.leb_spec (j + n) i) as [Hle|_]; [lia|].
    rewrite nth_error_skipn in Hx. rewrite Hx.
    rewrite count_axes_app, (count_axes_cons_passes x [] Hp), count_axes_nil.
    unfold passes in Hp. apply andb_true_iff in Hp as [Hv He].
    rewrite Hv. apply negb_true_iff in He. rewrite He. cbn [negb].
    rewrite IH by (try assumption; lia).
    rewrite rev_app_distr. cbn [rev app].
    rewrite <- app_assoc. cbn [app].
    f_equal. lia.
Qed.

Lemma scan_back_stop entries i j acc after :
  (j <= S i)%nat -> scan_back entries i j acc after = Ok (acc, after).
Proof.
  destruct j as [|j]; intros Hj; [reflexivity|].
  cbn [scan_back]. destruct (Nat.leb_spec j i); [reflexivity | lia].
Qed.

(** The second loop meets an entry that raises, after entries that pass. *)
Lemma scan_back_raises entries i j x acc after :
  (i < j)%nat -> nth_error entries j = Some x -> passes x = false ->
  exists msg, scan_back entries i (S j) acc after = InvalidArgument msg.
Proof.
  intros Hij Hx Hp. cbn [scan_back].
  destruct (Nat.leb_spec j i) as [Hle|_]; [lia|].
  rewrite Hx. unfold passes in Hp.
  destruct (is_valid_index_type x); cbn [negb]; [|eauto].
  destruct (is_ellipsis x); [eauto | discriminate].
Qed.

Lemma expand_loop_done rest axis bound acc n :
  bound <= axis -> expand_loop rest axis bound acc n = Ok (n, acc).
Proof.
  intros H. destruct rest; cbn [expand_loop];
    destruct (Z.ltb_spec axis bound); try lia; reflexivity.
Qed.

Lemma expand_loop_fill rest : forall axis bound acc n,
  axis <= bound -> bound - axis <= Z.of_nat (length rest) ->
  expand_loop rest axis bound acc n =
  Ok (n + (bound - axis),
      acc ++ map full_slice (firstn (Z.to_nat (bound - axis)) rest)).
Proof.
  induction rest as [|d rest IH]; intros axis bound acc n Hab Hlen.
  - cbn [length] in Hlen. rewrite expand_loop_done by lia.
    replace (bound - axis) with 0 by lia.
    cbn. now rewrite Z.add_0_r, app_nil_r.
  - cbn [expand_loop]. destruct (Z.ltb_spec axis bound) as [Hlt|Hge].
    + rewrite IH by (cbn [length] in Hlen; lia).
      replace (Z.to_nat (bound - axis)) with (S (Z.to_nat (bound - (axis + 1))))
        by lia.
      cbn [firstn map]. rewrite <- app_assoc. cbn [app].
      f_equal. f_equal. lia.
    + replace (bound - axis) with 0 by lia.
      cbn. now rewrite Z.add_0_r, app_nil_r.
Qed.

(** *** Splitting a tuple at its ellipses *)

Lemma split_first_ellipsis entries :
  (1 <= count_ellipsis entries)%nat ->
  exists pre post,
    entries = pre ++ Ellipsis :: post /\
    Forall (fun e => is_ellipsis e = false) pre /\
    count_ellipsis post = (count_ellipsis entries - 1)%nat.
Proof.
  unfold count_ellipsis.
  induction entries as [|x entries IH]; cbn [filter length]; intros H;
    [lia|].
  destruct (is_ellipsis x) eqn:Hx.
  - exists [], entries. destruct x; try discriminate.
    cbn [length app]. repeat split; [constructor | lia].
  - destruct (IH H) as (pre & post & -> & Hpre & Hpost).
    exists (x :: pre), post. repeat split; auto.
Qed.

(** The last entry that does not pass. *)
Lemma split_last_failing l :
  Exists (fun e => passes e = false) l ->
  exists l1 x l2,
    l = l1 ++ x :: l2 /\ passes x = false /\
    Forall (fun e => passes e = true) l2.
Proof.
  induction l as [|a l IH]; intros H; [inversion H|].
  destruct (forallb passes l) eqn:Hall.
  - rewrite forallb_forall in Hall.
    inversion H as [? ? Ha|? ? Hl]; subst.
    + exists [], a, l. repeat split; auto. now apply Forall_forall.
    + apply Exists_exists in Hl as (y & Hy & Hpy).
      rewrite (Hall y Hy) in Hpy. discriminate.
  - assert (Hex : Exists (fun e => passes e = false) l).
    { apply Exists_exists.
      destruct (forallb_forall passes l) as [_ Hback].
      destruct (Exists_dec (fun e => passes e = false) l) as [He|Hne].
      - intros e. destruct (passes e); [right; discriminate | now left].
      - now apply Exists_exists.
      - exfalso. rewrite Hback in Hall; [discriminate|].
        intros y Hy. destruct (passes y) eqn:Hpy; [reflexivity|].
        exfalso. apply Hne, Exists_exists. eauto. }
    destruct (IH Hex) as (l1 & x & l2 & -> & Hx & Hl2).
    exists (a :: l1), x, l2. repeat split; auto.
Qed.

(** *** The expansion *)

Lemma scan_front_invalid pre rest : forall i acc before,
  Forall (fun e => is_ellipsis e = false) pre ->
  Exists (fun e => is_valid_index_type e = false) pre ->
  exists msg, scan_front (pre ++ rest) i acc before = InvalidArgument msg.
Proof.
  induction pre as [|x pre IH]; intros i acc before Hne Hex;
    [inversion Hex|].
  inversion Hne as [|? ? Hx Hpre]; subst.
  cbn [app scan_front].
  destruct (is_valid_index_type x) eqn:Hv; cbn [negb]; [|eauto].
  rewrite Hx. cbn [negb]. apply IH; [assumption|].
  inversion Hex as [? ? Hbad|]; subst; [congruence | assumption].
Qed.

Lemma passes_of_valid l :
  Forall (fun e => is_valid_index_type e = true) l ->
  Forall (fun e => is_ellipsis e = false) l ->
  Forall (fun e => passes e = true) l.
Proof.
  rewrite !Forall_forall. intros Hv He x Hx. unfold passes.
  now rewrite (Hv x Hx), (He x Hx).
Qed.

Lemma no_ellipsis_of_count l :
  count_ellipsis l = 0%nat -> Forall (fun e => is_ellipsis e = false) l.
Proof.
  unfold count_ellipsis. induction l as [|x l IH]; cbn [filter];
    intros H; constructor; destruct (is_ellipsis x); cbn [length] in H;
    try lia; auto.
Qed.

Lemma ellipsis_of_count l :
  (1 <= count_ellipsis l)%nat -> Exists (fun e => passes e = false) l.
Proof.
  intros H. destruct (split_first_ellipsis l H) as (pre & post & -> & _).
  apply Exists_app. right. constructor. reflexivity.
Qed.

Lemma count_axes_split pre post :
  count_axes (pre ++ Ellipsis :: post) = count_axes pre + count_axes post.
Proof. now rewrite count_axes_app. Qed.

(** A tuple with two ellipses or more raises. *)
Lemma several_ellipses_raise shape entries :
  (2 <= count_ellipsis entries)%nat ->
  exists msg, mlx_expand_ellipsis shape entries = InvalidArgument msg.
Proof.
  intros H.
  destruct (split_first_ellipsis entries) as (pre & post & -> & Hpre & Hpost);
    [lia|].
  unfold mlx_expand_ellipsis.
  destruct (forallb is_valid_index_type pre) eqn:Hvalid.
  - assert (Hpass : Forall (fun e => passes e = true) pre).
    { apply passes_of_valid; [|assumption].
      apply Forall_forall. now apply forallb_forall. }
    rewrite (scan_front_passes pre _ 0 [] 0 Hpass).
    cbn [scan_front is_valid_index_type is_ellipsis negb f_i app Nat.add].
    destruct (split_last_failing post) as (l1 & x & l2 & -> & Hx & Hl2).
    { apply ellipsis_of_count. lia. }
    set (entries := pre ++ Ellipsis :: l1 ++ x :: l2).
    assert (Hlen : length entries =
                   (S (length pre + 1 + length l1) + length l2)%nat).
    { unfold entries. rewrite length_app. cbn [length].
      rewrite length_app. cbn [length]. lia. }
    assert (Hskip : skipn (S (length pre + 1 + length l1)) entries = l2).
    { unfold entries.
      replace (pre ++ Ellipsis :: l1 ++ x :: l2)
        with ((pre ++ Ellipsis :: l1 ++ [x]) ++ l2)
        by (rewrite <- !app_assoc; cbn [app];
            rewrite <- !app_assoc; reflexivity).
      rewrite skipn_app.
      rewrite skipn_all2
        by (rewrite length_app; cbn [length]; rewrite length_app;
            cbn [length]; lia).
      replace (S (length pre + 1 + length l1) -
               length (pre ++ Ellipsis :: l1 ++ [x]))%nat with 0%nat
        by (rewrite length_app; cbn [length]; rewrite length_app;
            cbn [length]; lia).
      reflexivity. }
    rewrite Hlen.
    rewrite scan_back_passes;
      [| lia | lia | rewrite Hskip, firstn_all; exact Hl2].
    destruct (scan_back_raises entries (length pre)
                (length pre + 1 + length l1) x
                ([] ++ rev (firstn (length l2)
                   (skipn (S (length pre + 1 + length l1)) entries)))
                (0 + count_axes (firstn (length l2)
                   (skipn (S (length pre + 1 + length l1)) entries))))
      as (msg & Hmsg); [lia | | exact Hx | rewrite Hmsg; eauto].
    unfold entries. rewrite nth_error_app2 by lia.
    replace (length pre + 1 + length l1 - length pre)%nat
      with (S (length l1)) by lia.
    cbn [nth_error]. rewrite nth_error_app2 by lia.
    now rewrite Nat.sub_diag.
  - destruct (scan_front_invalid pre (Ellipsis :: post) 0 [] 0 Hpre)
      as (msg & Hmsg); [| rewrite Hmsg; eauto].
    apply Exists_exists.
    destruct (existsb (fun e => negb (is_valid_index_type e)) pre) eqn:Hex.
    + apply existsb_exists in Hex as (x & Hx & Hbad).
      exists x. split; [assumption|]. now apply negb_true_iff.
    + exfalso. assert (forallb is_valid_index_type pre = true);
        [|congruence].
      apply forallb_forall. intros x Hx.
      destruct (is_valid_index_type x) eqn:Hv; [reflexivity|].
      assert (existsb (fun e => negb (is_valid_index_type e)) pre = true);
        [|congruence].
      apply existsb_exists. exists x. now rewrite Hv.
Qed.

(** A tuple of valid entries with one ellipsis and no more axis entries than
    the rank: the ellipsis becomes the full slices of the axes left. *)
Lemma single_ellipsis_fills shape entries :
  Z.of_nat (length shape) < 2 ^ 64 ->
  Forall (fun e => is_valid_index_type e = true) entries ->
  count_ellipsis entries = 1%nat ->
  count_axes entries <= Z.of_nat (length shape) ->
  exists pre post,
    entries = pre ++ Ellipsis :: post /\
    mlx_expand_ellipsis shape entries =
      Ok (Z.of_nat (length shape),
          pre ++ map full_slice
                   (firstn (missing_axes shape entries)
                           (skipn (Z.to_nat (count_axes pre)) shape))
              ++ post) /\
    length (firstn (missing_axes shape entries)
                   (skipn (Z.to_nat (count_axes pre)) shape)) =
    missing_axes shape entries.
Proof.
  intros Hrank Hvalid Hone Hfew.
  destruct (split_first_ellipsis entries) as (pre & post & -> & Hpre & Hpost);
    [lia|].
  exists pre, post. split; [reflexivity|].
  apply Forall_app in Hvalid as [Hvpre Hvpost].
  inversion Hvpost as [|? ? _ Hvpost']; subst.
  assert (Hppre : Forall (fun e => passes e = true) pre)
    by now apply passes_of_valid.
  assert (Hppost : Forall (fun e => passes e = true) post).
  { apply passes_of_valid; [assumption|].
    apply no_ellipsis_of_count. lia. }
  rewrite count_axes_split in Hfew.
  pose proof (count_axes_nonneg pre) as Hb.
  pose proof (count_axes_nonneg post) as Ha.
  unfold missing_axes. rewrite count_axes_split.
  set (before := count_axes pre) in *.
  set (after := count_axes post) in *.
  split.
  - unfold mlx_expand_ellipsis.
    rewrite (scan_front_passes pre _ 0 [] 0 Hppre).
    cbn [scan_front is_valid_index_type is_ellipsis negb app Nat.add
         f_i f_before f_indices f_has_ellipsis].
    rewrite Z.add_0_l. fold before.
    assert (Hlen : length (pre ++ Ellipsis :: post) =
                   (S (length pre) + length post)%nat)
      by (rewrite length_app; cbn [length]; lia).
    assert (Hskip : skipn (S (length pre)) (pre ++ Ellipsis :: post) = post).
    { replace (pre ++ Ellipsis :: post) with ((pre ++ [Ellipsis]) ++ post)
        by (rewrite <- app_assoc; reflexivity).
      rewrite skipn_app.
      rewrite skipn_all2 by (rewrite length_app; cbn [length]; lia).
      replace (S (length pre) - length (pre ++ [Ellipsis]))%nat with 0%nat
        by (rewrite length_app; cbn [length]; lia).
      reflexivity. }
    rewrite Hlen.
    rewrite scan_back_passes;
      [| lia | lia | rewrite Hskip, firstn_all; exact Hppost].
    rewrite Hskip, firstn_all, scan_back_stop by lia.
    cbn [app]. rewrite Z.add_0_l. fold after.
    unfold wrapU64. rewrite Z.mod_small by lia.
    rewrite expand_loop_fill; [| lia | rewrite length_skipn; lia].
    rewrite rev_involutive.
    replace (Z.to_nat (Z.of_nat (length shape) - after - before))
      with (length shape - Z.to_nat (before + after))%nat by lia.
    rewrite <- app_assoc. do 2 f_equal. lia.
  - rewrite length_firstn, length_skipn. lia.
Qed.

(** C9, as the code has it.  A tuple of valid entries with a single ellipsis
    and at most as many axis entries as the rank [r] gets, in place of the
    ellipsis, exactly [r] minus the number of the other non-[None] entries
    full slices, so that the count of non-[None] indices returned is [r];
    a tuple with more than one ellipsis raises an invalid-argument error. *)
Theorem expand_ellipsis_rank (shape : list Z) (entries : list index_entry) :
  (Z.of_nat (length shape) < 2 ^ 64 ->
   Forall (fun e => is_valid_index_type e = true) entries ->
   count_ellipsis entries = 1%nat ->
   count_axes entries <= Z.of_nat (length shape) ->
   expansion_as_specified shape entries /\
   exists pre post,
     entries = pre ++ Ellipsis :: post /\
     mlx_expand_ellipsis shape entries =
       Ok (Z.of_nat (length shape),
           pre ++ map full_slice
                    (firstn (missing_axes shape entries)
                            (skipn (Z.to_nat (count_axes pre)) shape))
               ++ post))
  /\ ((2 <= count_ellipsis entries)%nat ->
      exists msg, mlx_expand_ellipsis shape entries = InvalidArgument msg).
Proof.
  split.
  - intros Hrank Hvalid Hone Hfew.
    destruct (single_ellipsis_fills shape entries Hrank Hvalid Hone Hfew)
      as (pre & post & Heq & Hres & Hlen).
    split.
    + exists pre, post. eexists. repeat split; [exact Heq | | exact Hres].
      rewrite length_map, Hlen. unfold missing_axes.
      pose proof (count_axes_nonneg entries). lia.
    + exists pre, post. split; assumption.
  - apply several_ellipses_raise.
Qed.

Lemma expand_ellipsis_rank_witness :
  expansion_as_specified [2; 3; 4] [Int 0; Ellipsis; Int 1]
  /\ exists msg,
       mlx_expand_ellipsis [2; 3; 4] [Ellipsis; Int 1; Ellipsis] =
       InvalidArgument msg.
Proof.
  split.
  - apply (expand_ellipsis_rank [2; 3; 4] [Int 0; Ellipsis; Int 1]).
    + simpl; lia.
    + repeat constructor.
    + reflexivity.
    + vm_compute; congruence.
  - apply (expand_ellipsis_rank [2; 3; 4] [Ellipsis; Int 1; Ellipsis]).
    vm_compute; lia.
Defined.

(** Without the bound on the axis entries the expansion is not the one
    specified: two integers and an ellipsis over a vector leave the count of
    non-[None] indices at 2, and no slice is added. *)
Lemma expansion_as_specified_fails :
  count_ellipsis [Int 0; Int 0; Ellipsis] = 1%nat /\
  ~ expansion_as_specified [3] [Int 0; Int 0; Ellipsis].
Proof.
  split; [reflexivity|].
  intros (pre & post & slices & _ & _ & Hres).
  rewrite expand_too_many_before in Hres.
  inversion Hres.
Qed.

(** *** Integer indices *)

(** [get_int_index]: a negative index is counted from the end, on [int],
    and the result is stored in a [uint32] scalar. *)
Definition get_int_index (idx axis_size : Z) : Z :=
  let idx_ := if idx <? 0 then wrap32 (idx + axis_size) else idx in
  idx_ mod 2 ^ 32.

(** X23. [get_int_index] does not check the bounds: for an axis of extent
    [n] and an [int] index it returns [idx mod n] exactly when
    [-n <= idx < n], and for every other index a [uint32] value that is not
    below [n]. *)
Theorem get_int_index_in_bounds (idx n : Z) :
  - 2 ^ 31 <= idx < 2 ^ 31 -> 0 <= n < 2 ^ 31 ->
  (- n <= idx < n -> get_int_index idx n = idx mod n) /\
  (~ - n <= idx < n -> n <= get_int_index idx n < 2 ^ 32).
Proof.
  intros Hi Hn. unfold get_int_index.
  destruct (Z.ltb_spec idx 0) as [Hneg|Hpos].
  - rewrite wrap32_id by lia. split; intros H.
    + rewrite Z.mod_small by lia.
      apply (Z.mod_unique idx n (-1)); lia.
    + assert (Hm : (idx + n) mod 2 ^ 32 = idx + n + 2 ^ 32).
      { symmetry. apply (Z.mod_unique _ _ (-1)); lia. }
      rewrite Hm. lia.
  - rewrite Z.mod_small by lia. split; intros H.
    + symmetry. apply Z.mod_small. lia.
    + lia.
Qed.

Lemma get_int_index_in_bounds_witness :
  get_int_index (-1) 5 = 4 /\ 5 <= get_int_index (-6) 5 < 2 ^ 32.
Proof.
  destruct (get_int_index_in_bounds (-1) 5 ltac:(lia) ltac:(lia)) as [Hin _].
  destruct (get_int_index_in_bounds (-6) 5 ltac:(lia) ltac:(lia))
    as [_ Hout].
  split; [apply Hin; lia | apply Hout; lia].
Defined.

End Indexing.

(** ** Arrays *)

Module Tensor.

(** Modelled from the spec: the enumeration of dtypes (mlx/dtype.h is not
    among the sources): boolean, signed and unsigned integers of 8 to 64
    bits, float16, bfloat16, float32 and complex64. *)
Inductive Dtype :=
| bool_ | uint8 | uint16 | uint32 | uint64
| int8 | int16 | int32 | int64
| float16 | bfloat16 | float32 | complex64.

Definition Dtype_eqb (a b : Dtype) : bool :=
  match a, b with
  | bool_, bool_ | uint8, uint8 | uint16, uint16 | uint32, uint32
  | uint64, uint64 | int8, int8 | int16, int16 | int32, int32
  | int64, int64 | float16, float16 | bfloat16, bfloat16
  | float32, float32 | complex64, complex64 => true
  | _, _ => false
  end.

Lemma Dtype_eqb_eq a b : Dtype_eqb a b = true <-> a = b.
Proof. destruct a, b; simpl; split; congruence. Qed.

(** [issubdtype(d, floating)]: the real floating types. *)
Definition is_floating (d : Dtype) : bool :=
  match d with float16 | bfloat16 | float32 => true | _ => false end.

(** [issubdtype(d, integer)]. *)
Definition is_integer (d : Dtype) : bool :=
  match d with
  | uint8 | uint16 | uint32 | uint64 | int8 | int16 | int32 | int64 => true
  | _ => false
  end.

(** [issubdtype(d, inexact)]. *)
Definition is_inexact (d : Dtype) : bool :=
  match d with float16 | bfloat16 | float32 | complex64 => true | _ => false end.

(** The arithmetic of the element types, which the sources take from
    mlx/ops.cpp and the backends: [rnd d x] is the value of dtype [d] that
    stores the real number [x] (the result of a conversion to [d] and of
    every operation computed in [d]), [promote_types] is the type promotion
    of two dtypes. *)
Class Arith := {
  rnd : Dtype -> R -> R;
  promote_types : Dtype -> Dtype -> Dtype
}.

(** An array: its dtype, its shape and the value at each multi-index. *)
Record array := mk_array {
  dtype : Dtype;
  shape : list Z;
  elem : list Z -> R
}.

Definition Shape_eqb (s1 s2 : list Z) : bool :=
  if list_eq_dec Z.eq_dec s1 s2 then true else false.

Lemma Shape_eqb_eq s1 s2 : Shape_eqb s1 s2 = true <-> s1 = s2.
Proof.
  unfold Shape_eqb. destruct (list_eq_dec Z.eq_dec s1 s2); split;
    congruence.
Qed.

Definition msg_broadcast : string := "[broadcast_shapes] Shapes cannot be broadcast.".

(** Modelled from the spec: [broadcast_shapes] (mlx/utils.cpp is not among
    the sources) follows the broadcasting rule of NumPy: the shapes are
    aligned at their last dimension; two extents are compatible when they are
    equal or one of them is 1. *)
Fixpoint broadcast_rev (s1 s2 : list Z) : outcome (list Z) :=
  match s1, s2 with
  | [], s => Ok s
  | s, [] => Ok s
  | a :: t1, b :: t2 =>
      and_then (broadcast_rev t1 t2) (fun t =>
        if a =? b then Ok (a :: t)
        else if (a =? 1) || (b =? 1) then Ok (a * b :: t)
        else InvalidArgument msg_broadcast)
  end.

Definition broadcast_shapes (s1 s2 : list Z) : outcome (list Z) :=
  and_then (broadcast_rev (rev s1) (rev s2)) (fun t => Ok (rev t)).

(** The index of an operand of shape [s] that the index [idx] of the
    broadcast result reads. *)
Fixpoint bidx_rev (s idx : list Z) : list Z :=
  match s, idx with
  | d :: s', i :: idx' => (if d =? 1 then 0 else i) :: bidx_rev s' idx'
  | _, _ => []
  end.

Definition bidx (s idx : list Z) : list Z :=
  rev (bidx_rev (rev s) (rev idx)).

Section Ops.
Context {AR : Arith}.

(** [array(v, d)]: a scalar of dtype [d]. *)
Definition scalar (v : R) (d : Dtype) : array :=
  mk_array d [] (fun _ => rnd d v).

(** [astype(a, d)]. *)
Definition astype (a : array) (d : Dtype) : array :=
  mk_array d (shape a) (fun idx => rnd d (elem a idx)).

(** Modelled from the spec: the elementwise operations of mlx/ops.cpp (not
    among the sources) broadcast their operands, convert them to the result
    type and compute in it. *)
Definition binary (f : R -> R -> R) (out : Dtype) (a b : array)
    : outcome array :=
  and_then (broadcast_shapes (shape a) (shape b)) (fun sh =>
    Ok (mk_array out sh (fun idx =>
          rnd out (f (rnd out (elem a (bidx (shape a) idx)))
                     (rnd out (elem b (bidx (shape b) idx))))))).

Definition arith_op (f : R -> R -> R) (a b : array) : outcome array :=
  binary f (promote_types (dtype a) (dtype b)) a b.

Definition add := arith_op Rplus.
Definition subtract := arith_op Rminus.
Definition multiply := arith_op Rmult.
Definition divide := arith_op Rdiv.
Definition minimum := arith_op Rmin.
Definition maximum := arith_op Rmax.

(** [less(a, b)]: the comparison is made in the promoted type, the result
    is a boolean array, 1 for true and 0 for false. *)
Definition less (a b : array) : outcome array :=
  and_then (broadcast_shapes (shape a) (shape b)) (fun sh =>
    let t := promote_types (dtype a) (dtype b) in
    Ok (mk_array bool_ sh (fun idx =>
          if Rlt_dec (rnd t (elem a (bidx (shape a) idx)))
                     (rnd t (elem b (bidx (shape b) idx)))
          then 1%R else 0%R))).

(** Modelled from the spec: an operation of mlx/ops.cpp on one array,
    computed in the dtype [out]. *)
Definition unary (f : R -> R) (out : Dtype) (a : array) : array :=
  mk_array out (shape a) (fun idx => rnd out (f (rnd out (elem a idx)))).

Definition square (a : array) : array := unary (fun v => v * v)%R (dtype a) a.

Definition rsqrt (a : array) : array :=
  unary (fun v => / sqrt v)%R (dtype a) a.

(** The sum of [g 0], ..., [g (n - 1)]. *)
Fixpoint sum_upto (g : Z -> R) (n : nat) : R :=
  match n with
  | O => 0%R
  | S k => (sum_upto g k + g (Z.of_nat k))%R
  end.

(** Modelled from the spec: [mean(a, -1, keepdims = true)] of a floating
    array: the sum over the last axis divided by its extent, on an axis of
    extent 1. *)
Definition mean (a : array) : array :=
  let D := last (shape a) 0 in
  mk_array (dtype a) (removelast (shape a) ++ [1])
    (fun idx =>
       rnd (dtype a)
           (sum_upto (fun j => elem a (removelast idx ++ [j])) (Z.to_nat D)
            / IZR D)).

End Ops.

(** Exact arithmetic: a conversion changes no value; a dtype and an
    inexact one promote to the inexact one. *)
Definition exact_arith : Arith := {|
  rnd := fun _ x => x;
  promote_types := fun a b =>
    if Dtype_eqb a b then a
    else if is_inexact b then b
    else if is_inexact a then a
    else b
|}.

End Tensor.

(** ** mlx/random.cpp *)

Module Random.
Import Tensor.

(** The RandomBits primitive is evaluated by the backends: [raw_bits k0 k1
    shape width idx] is the unsigned integer of [width] bytes that it
    produces at [idx] from the key of words [k0] and [k1]. *)
Class BitGenerator := {
  raw_bits : R -> R -> list Z -> Z -> list Z -> Z
}.

(** [KeySequence]: the key to split next. *)
Record KeySequence := mk_KeySequence { key_ : array }.

(** A computation on the process-wide default key sequence; an exception
    leaves the sequence as it is when thrown. *)
Definition M (A : Type) : Type := KeySequence -> outcome A * KeySequence.

Definition ret {A} (a : A) : M A := fun ks => (Ok a, ks).

Definition lift {A} (c : outcome A) : M A := fun ks => (c, ks).

Definition bind {A B} (c : M A) (k : A -> M B) : M B :=
  fun ks =>
    match c ks with
    | (Ok a, ks') => k a ks'
    | (InvalidArgument m, ks') => (InvalidArgument m, ks')
    | (RuntimeError m, ks') => (RuntimeError m, ks')
    | (Undefined, ks') => (Undefined, ks')
    end.

Declare Scope random_scope.
Notation "x <- c ;; k" := (bind c (fun x => k))
  (at level 61, c at next level, right associativity) : random_scope.
Local Open Scope random_scope.

Definition msg_key_type : string := "[bits] Expected key type uint32.".
Definition msg_key_shape : string := "[bits] Expected key shape (2).".
Definition msg_width : string := "[bits] Bit width must be in {1, 2, 4}.".
Definition msg_uniform_type : string :=
  "[uniform] Can only generate uniform numbers with real floating point type.".
Definition msg_uniform_shape : string :=
  "[uniform] Cannot generate random values of the shape from the broadcasted shape.".
Definition msg_uniform_unsupported : string := "[uniform] Unsupported type.".
Definition msg_bernoulli_type : string :=
  "[bernoulli] bernoulli probability `p` must be a float type.".
Definition msg_bernoulli_shape : string :=
  "[bernoulli] shape of `p` is incompatible with argument `shape`.".

(** [key(seed)]: the two halves of the 64-bit seed. *)
Definition key (seed : Z) : array :=
  let k1 := (seed / 2 ^ 32) mod 2 ^ 32 in
  let k2 := seed mod 2 ^ 32 in
  mk_array uint32 [2]
    (fun idx => match idx with
                | [0] => IZR k1
                | [1] => IZR k2
                | _ => 0%R
                end).

(** The largest value below 1 of a floating type: [nextafter(1.0f, 0.0f)]
    for float32 and [below_one<T>()], the bit pattern of 1 minus one, for
    float16 (10 bits of fraction) and bfloat16 (7 bits of fraction). *)
Definition below_one (d : Dtype) : R :=
  match d with
  | float32 => 1 - / 2 ^ 24
  | float16 => 1 - / 2 ^ 11
  | bfloat16 => 1 - / 2 ^ 8
  | _ => 0
  end.

Section Engine.
Context {AR : Arith} {BG : BitGenerator}.

(** The [get_dtype] lambda of [bits]. *)
Definition get_dtype (width : Z) : outcome Dtype :=
  if width =? 4 then Ok uint32
  else if width =? 2 then Ok uint16
  else if width =? 1 then Ok uint8
  else InvalidArgument msg_width.

(** The node [RandomBits(shape, width)] over [key]. *)
Definition RandomBits (sh : list Z) (width : Z) (d : Dtype) (k : array)
    : array :=
  mk_array d sh
    (fun idx => IZR (raw_bits (elem k [0]) (elem k [1]) sh width idx)).

(** The body of [bits] once the key is chosen. *)
Definition bits_of_key (sh : list Z) (width : Z) (k : array)
    : outcome array :=
  if negb (Dtype_eqb (dtype k) uint32) then InvalidArgument msg_key_type
  else if negb (Shape_eqb (shape k) [2]) then InvalidArgument msg_key_shape
  else and_then (get_dtype width) (fun d => Ok (RandomBits sh width d k)).

(** [split(key, num)]. *)
Definition split_num (k : array) (num : Z) : outcome array :=
  bits_of_key [num; 2] 4 k.

(** Row [i] of a [num x 2] array, as a vector: one part of
    [mlx::core::split] reshaped to [{2}]. *)
Definition part (a : array) (i : Z) : array :=
  mk_array (dtype a) [2]
    (fun idx => match idx with
                | [j] => elem a [i; j]
                | _ => 0%R
                end).

(** [split(key)]. *)
Definition split (k : array) : outcome (array * array) :=
  and_then (split_num k 2) (fun out => Ok (part out 0, part out 1)).

(** [KeySequence::next]. *)
Definition next : M array :=
  fun ks =>
    match split (key_ ks) with
    | Ok out => (Ok (snd out), mk_KeySequence (fst out))
    | InvalidArgument m => (InvalidArgument m, ks)
    | RuntimeError m => (RuntimeError m, ks)
    | Undefined => (Undefined, ks)
    end.

(** [KeySequence::seed]. *)
Definition seed (s : Z) : M unit :=
  fun _ => (Ok tt, mk_KeySequence (key s)).

(** [bits(shape, width, key)]: without a key the default sequence gives
    the next one. *)
Definition bits (sh : list Z) (width : Z) (key_opt : option array)
    : M array :=
  k <- match key_opt with Some k => ret k | None => next end ;;
  lift (bits_of_key sh width k).

(** The [get_upper] lambda of [uniform]. *)
Definition get_upper (d : Dtype) : outcome array :=
  match d with
  | float32 => Ok (scalar (below_one float32) float32)
  | float16 => Ok (scalar (below_one float16) float32)
  | bfloat16 => Ok (scalar (below_one bfloat16) float32)
  | _ => RuntimeError msg_uniform_unsupported
  end.

Definition uniform (low high : array) (sh : list Z) (d : Dtype)
    (key_opt : option array) : M array :=
  if negb (is_floating d) then lift (InvalidArgument msg_uniform_type)
  else
    let lo := astype low d in
    let hi := astype high d in
    range <- lift (subtract hi lo) ;;
    out_shape <- lift (broadcast_shapes sh (shape range)) ;;
    if negb (Shape_eqb out_shape sh)
    then lift (InvalidArgument msg_uniform_shape)
    else
      upper <- lift (get_upper d) ;;
      let maxval := scalar (IZR (2 ^ 32 - 1)) float32 in
      out <- bits sh 4 key_opt ;;
      out <- lift (divide out maxval) ;;
      out <- lift (minimum out upper) ;;
      let out := astype out d in
      scaled <- lift (multiply range out) ;;
      lift (add scaled lo).

(** [uniform(shape, dtype, key)]: low 0 and high 1. *)
Definition uniform_unit (sh : list Z) (d : Dtype) (key_opt : option array)
    : M array :=
  uniform (scalar 0 d) (scalar 1 d) sh d key_opt.

(** [bernoulli(p, shape, key)].  The two arguments of [less] are evaluated
    in an order that C++ leaves open; [multiply] by a scalar does not throw,
    so the order does not show. *)
Definition bernoulli (p : array) (sh : list Z) (key_opt : option array)
    : M array :=
  if negb (is_floating (dtype p))
  then lift (InvalidArgument msg_bernoulli_type)
  else
    let upper := scalar (IZR (2 ^ 32 + 2 ^ 9)) float32 in
    b <- bits sh 4 key_opt ;;
    pu <- lift (multiply p upper) ;;
    res <- lift (less b pu) ;;
    if negb (Shape_eqb (shape res) sh)
    then lift (InvalidArgument msg_bernoulli_shape)
    else ret res.

End Engine.

(** What the element arithmetic is taken to satisfy on the floating types:
    conversion is monotone and keeps the values of the type, among them 0, 1
    and the largest value below 1; a [uint32] and a [float32] promote to
    [float32]. *)
Class ArithLaws (AR : Arith) : Prop := {
  rnd_mono : forall d x y,
    is_floating d = true -> (x <= y)%R -> (rnd d x <= rnd d y)%R;
  rnd_idem : forall d x,
    is_floating d = true -> rnd d (rnd d x) = rnd d x;
  rnd_zero : forall d, is_floating d = true -> rnd d 0 = 0%R;
  rnd_one : forall d, is_floating d = true -> rnd d 1 = 1%R;
  rnd_below_one : forall d,
    is_floating d = true ->
    rnd d (below_one d) = below_one d /\
    rnd float32 (below_one d) = below_one d;
  promote_uint32_float32 : promote_types uint32 float32 = float32;
  promote_same : forall d, promote_types d d = d
}.

(** RandomBits of width 4 produces [uint32] values. *)
Definition produces_uint32 (BG : BitGenerator) : Prop :=
  forall k0 k1 sh idx, 0 <= raw_bits k0 k1 sh 4 idx < 2 ^ 32.

(** A key that [bits] accepts. *)
Definition valid_key (key_opt : option array) : Prop :=
  match key_opt with
  | None => True
  | Some k => dtype k = uint32 /\ shape k = [2]
  end.

(** The default sequence holds a key that [bits] accepts. *)
Definition wf_sequence (ks : KeySequence) : Prop :=
  dtype (key_ ks) = uint32 /\ shape (key_ ks) = [2].

(** *** Shapes *)

Lemma broadcast_rev_nil_r s : broadcast_rev s [] = Ok s.
Proof. destruct s; reflexivity. Qed.

Lemma broadcast_shapes_nil_r s : broadcast_shapes s [] = Ok s.
Proof.
  unfold broadcast_shapes. cbn [rev]. rewrite broadcast_rev_nil_r.
  cbn [and_then]. now rewrite rev_involutive.
Qed.

Lemma broadcast_shapes_nil_l s : broadcast_shapes [] s = Ok s.
Proof.
  unfold broadcast_shapes. cbn [rev broadcast_rev and_then].
  now rewrite rev_involutive.
Qed.

Lemma Shape_eqb_refl s : Shape_eqb s s = true.
Proof. now apply Shape_eqb_eq. Qed.

(** *** The key sequence *)

Section EngineFacts.
Context {AR : Arith} {BG : BitGenerator}.

Lemma bits_of_key_ok sh k :
  dtype k = uint32 -> shape k = [2] ->
  bits_of_key sh 4 k = Ok (RandomBits sh 4 uint32 k).
Proof.
  intros Hd Hs. unfold bits_of_key. rewrite Hd, Hs. reflexivity.
Qed.

Lemma next_ok ks :
  wf_sequence ks ->
  next ks =
  (Ok (part (RandomBits [2; 2] 4 uint32 (key_ ks)) 1),
   mk_KeySequence (part (RandomBits [2; 2] 4 uint32 (key_ ks)) 0)).
Proof.
  intros [Hd Hs]. unfold next, split, split_num.
  rewrite bits_of_key_ok by assumption. reflexivity.
Qed.

Lemma next_wf ks :
  wf_sequence ks -> wf_sequence (snd (next ks)).
Proof. intros H. rewrite next_ok by assumption. split; reflexivity. Qed.

Lemma seed_wf s ks : wf_sequence (snd (seed s ks)).
Proof. split; reflexivity. Qed.

(** [bits] of width 4 returns, for a key it accepts, raw bits of some key. *)
Lemma bits_ok sh key_opt ks :
  valid_key key_opt -> wf_sequence ks ->
  exists k ks',
    bits sh 4 key_opt ks = (Ok (RandomBits sh 4 uint32 k), ks').
Proof.
  intros Hk Hks. unfold bits, bind. destruct key_opt as [k|].
  - destruct Hk as [Hd Hs]. exists k, ks. unfold ret, lift.
    now rewrite bits_of_key_ok.
  - rewrite next_ok by assumption. unfold lift.
    rewrite bits_of_key_ok by reflexivity. eauto.
Qed.

End EngineFacts.

(** *** [uniform] *)

Lemma below_one_range d :
  is_floating d = true -> (0 <= below_one d < 1)%R.
Proof.
  destruct d; cbn [is_floating below_one]; try discriminate; intros _;
    split; lra.
Qed.

Section UniformFacts.
Context {AR : Arith} {BG : BitGenerator} {AL : ArithLaws AR}.

Lemma get_upper_ok d :
  is_floating d = true ->
  get_upper d = Ok (scalar (below_one d) float32).
Proof. destruct d; cbn [is_floating]; try discriminate; reflexivity. Qed.

(** One element of [uniform_unit], the conversions of values already of
    the type left out: the raw word [u] divided by the maximum, clamped to
    the largest value below 1 and converted to [d]. *)
Definition unit_sample (d : Dtype) (u : Z) : R :=
  let maxval := rnd float32 (IZR (2 ^ 32 - 1)) in
  let ratio := rnd float32 (rnd float32 (IZR u) / maxval) in
  rnd d (rnd float32 (Rmin ratio (below_one d))).

Lemma unit_sample_range d u :
  is_floating d = true -> 0 <= u < 2 ^ 32 ->
  (0 <= unit_sample d u <= below_one d)%R.
Proof.
  intros Hd Hu. unfold unit_sample.
  assert (H32 : is_floating float32 = true) by reflexivity.
  destruct (rnd_below_one d Hd) as [Hbd Hb32].
  pose proof (below_one_range d Hd) as Hb.
  set (maxval := rnd float32 (IZR (2 ^ 32 - 1))).
  assert (Hmax : (1 <= maxval)%R).
  { unfold maxval. rewrite <- (rnd_one float32 H32).
    apply rnd_mono; [assumption|]. apply IZR_le. lia. }
  assert (Hlow : (0 <= rnd float32 (IZR u))%R).
  { rewrite <- (rnd_zero float32 H32).
    apply rnd_mono; [assumption|]. apply IZR_le. lia. }
  set (x := rnd float32 (IZR u)) in *.
  assert (Hratio : (0 <= x / maxval)%R).
  { unfold Rdiv. apply Rmult_le_pos; [lra|].
    left. apply Rinv_0_lt_compat. lra. }
  set (ratio := rnd float32 (x / maxval)).
  assert (Hr : (0 <= ratio)%R).
  { unfold ratio. rewrite <- (rnd_zero float32 H32).
    apply rnd_mono; [assumption | lra]. }
  set (m := Rmin ratio (below_one d)).
  assert (Hm : (0 <= m <= below_one d)%R).
  { unfold m. split; [apply Rmin_glb; lra | apply Rmin_r]. }
  assert (Hm32 : (0 <= rnd float32 m <= below_one d)%R).
  { split.
    - rewrite <- (rnd_zero float32 H32). apply rnd_mono; [assumption | lra].
    - rewrite <- Hb32. apply rnd_mono; [assumption | lra]. }
  split.
  - rewrite <- (rnd_zero d Hd). apply rnd_mono; [assumption | lra].
  - rewrite <- Hbd. apply rnd_mono; [assumption | lra].
Qed.

Lemma uniform_unit_elements sh d key_opt ks :
  is_floating d = true -> valid_key key_opt -> wf_sequence ks ->
  exists res ks' k,
    uniform_unit sh d key_opt ks = (Ok res, ks') /\
    dtype res = d /\ shape res = sh /\
    forall idx, exists idx',
      elem res idx =
      unit_sample d (raw_bits (elem k [0]) (elem k [1]) sh 4 idx').
Proof.
  intros Hd Hk Hks.
  assert (H32 : is_floating float32 = true) by reflexivity.
  destruct (bits_ok sh key_opt ks Hk Hks) as (k & ks' & Hbits).
  unfold uniform_unit, uniform. rewrite Hd. cbn [negb].
  unfold bind at 1. unfold lift at 1.
  unfold subtract, arith_op, binary.
  cbn [astype scalar shape dtype elem].
  rewrite broadcast_shapes_nil_l. cbn [and_then].
  unfold bind at 1. unfold lift at 1. cbn [shape].
  rewrite broadcast_shapes_nil_r, Shape_eqb_refl. cbn [negb].
  unfold bind at 1. unfold lift at 1. rewrite get_upper_ok by assumption.
  unfold bind at 1. rewrite Hbits.
  unfold bind at 1. unfold lift at 1.
  unfold divide, arith_op, binary.
  cbn [RandomBits scalar shape dtype elem].
  rewrite broadcast_shapes_nil_r, promote_uint32_float32. cbn [and_then].
  unfold bind at 1. unfold lift at 1.
  unfold minimum, arith_op, binary. cbn [shape dtype elem].
  rewrite broadcast_shapes_nil_r, promote_same. cbn [and_then].
  unfold bind at 1. unfold lift at 1.
  unfold multiply, arith_op, binary. cbn [astype shape dtype elem].
  rewrite broadcast_shapes_nil_l, !promote_same. cbn [and_then].
  unfold lift, add, arith_op, binary. cbn [shape dtype elem].
  rewrite broadcast_shapes_nil_r, !promote_same. cbn [and_then].
  eexists _, ks', k. split; [reflexivity|].
  cbn [dtype shape elem]. repeat split.
  intros idx. eexists. unfold unit_sample, scalar, astype.
  cbn [dtype shape elem].
  destruct (rnd_below_one d Hd) as [_ Hb32].
  rewrite ?(rnd_idem float32), ?(rnd_zero d), ?(rnd_one d), ?Hb32,
    ?(rnd_idem float32) by assumption.
  rewrite Rminus_0_r, ?(rnd_one d), Rmult_1_l, ?(rnd_idem d), Rplus_0_r,
    ?(rnd_idem d) by assumption.
  reflexivity.
Qed.

(** C7. For every shape, every key that [bits] accepts and every floating
    dtype, [uniform] with low 0 and high 1 returns an array of that shape
    and dtype whose every element is at least 0 and, being at most the
    largest value of the dtype below 1, less than 1. *)
Theorem uniform_unit_interval (sh : list Z) (d : Dtype)
    (key_opt : option array) (ks : KeySequence) :
  produces_uint32 BG ->
  is_floating d = true -> valid_key key_opt -> wf_sequence ks ->
  exists res ks',
    uniform_unit sh d key_opt ks = (Ok res, ks') /\
    dtype res = d /\ shape res = sh /\
    forall idx, (0 <= elem res idx <= below_one d)%R /\ (elem res idx < 1)%R.
Proof.
  intros Hraw Hd Hk Hks.
  destruct (uniform_unit_elements sh d key_opt ks Hd Hk Hks)
    as (res & ks' & k & Hres & Hdt & Hsh & Helem).
  exists res, ks'. repeat split; try assumption;
    destruct (Helem idx) as (idx' & ->);
    pose proof (unit_sample_range d _ Hd (Hraw (elem k [0]) (elem k [1]) sh idx'));
    pose proof (below_one_range d Hd); lra.
Qed.

End UniformFacts.

(** *** Exceptions and the default key sequence *)

Section Atomicity.
Context {AR : Arith} {BG : BitGenerator}.

(** [uniform] checks its dtype and its shape before it draws: when the
    check of the shape fails, the default sequence is as before. *)
Lemma uniform_shape_error_keeps_key low high sh d key_opt ks range out_shape :
  is_floating d = true ->
  subtract (astype high d) (astype low d) = Ok range ->
  broadcast_shapes sh (shape range) = Ok out_shape ->
  out_shape <> sh ->
  uniform low high sh d key_opt ks = (InvalidArgument msg_uniform_shape, ks).
Proof.
  intros Hd Hrange Hout Hne. unfold uniform. rewrite Hd. cbn [negb].
  unfold bind at 1. unfold lift at 1. rewrite Hrange.
  unfold bind at 1. unfold lift at 1. rewrite Hout.
  destruct (Shape_eqb out_shape sh) eqn:E.
  - apply Shape_eqb_eq in E. contradiction.
  - reflexivity.
Qed.

Lemma bernoulli_type_error_keeps_key p sh key_opt ks :
  is_floating (dtype p) = false ->
  bernoulli p sh key_opt ks = (InvalidArgument msg_bernoulli_type, ks).
Proof. intros Hp. unfold bernoulli. now rewrite Hp. Qed.

(** [bernoulli] draws before it compares the shapes: with a probability
    of shape [(3)] and the shape [(2)], and no key given, the call throws
    from the broadcast inside [less] after [KeySequence::next] has run. *)
Lemma bernoulli_broadcast_error f ks :
  wf_sequence ks ->
  bernoulli (mk_array float32 [3] f) [2] None ks =
  (InvalidArgument msg_broadcast, snd (next ks)).
Proof.
  intros Hks. unfold bernoulli. cbn [dtype is_floating negb].
  unfold bind at 1. unfold bits, bind at 1.
  rewrite (next_ok ks Hks). cbn [snd].
  unfold lift at 1. rewrite bits_of_key_ok by reflexivity.
  reflexivity.
Qed.

(** The same with a probability of shape [(2, 2)]: the comparison
    broadcasts to [(2, 2)] and the check at the end of [bernoulli] throws. *)
Lemma bernoulli_shape_error f ks :
  wf_sequence ks ->
  bernoulli (mk_array float32 [2; 2] f) [2] None ks =
  (InvalidArgument msg_bernoulli_shape, snd (next ks)).
Proof.
  intros Hks. unfold bernoulli. cbn [dtype is_floating negb].
  unfold bind at 1. unfold bits, bind at 1.
  rewrite (next_ok ks Hks). cbn [snd].
  unfold lift at 1. rewrite bits_of_key_ok by reflexivity.
  reflexivity.
Qed.

End Atomicity.

(** C6, on the code.  From the default sequence seeded with [s],
    [bernoulli] with a probability of shape [(3)], the shape [(2)] and no
    key throws an invalid-argument error and leaves in the sequence the
    first key of [split(key(s))] in place of [key(s)]: the sequence is
    unchanged only if RandomBits gives back the two words of the key. *)
Theorem bernoulli_failure_advances_key (AR : Arith) (BG : BitGenerator)
    (f : list Z -> R) (s : Z) :
  let ks := mk_KeySequence (key s) in
  let k1 := IZR ((s / 2 ^ 32) mod 2 ^ 32) in
  let k2 := IZR (s mod 2 ^ 32) in
  exists ks',
    bernoulli (mk_array float32 [3] f) [2] None ks =
      (InvalidArgument msg_broadcast, ks') /\
    ks' = snd (next ks) /\
    key_ ks' = part (RandomBits [2; 2] 4 uint32 (key s)) 0 /\
    (ks' = ks ->
     raw_bits k1 k2 [2; 2] 4 [0; 0] = (s / 2 ^ 32) mod 2 ^ 32 /\
     raw_bits k1 k2 [2; 2] 4 [0; 1] = s mod 2 ^ 32).
Proof.
  intros ks k1 k2.
  assert (Hks : wf_sequence ks) by (split; reflexivity).
  exists (snd (next ks)). split; [now apply bernoulli_broadcast_error|].
  split; [reflexivity|].
  rewrite (next_ok ks Hks). cbn [snd key_].
  split; [reflexivity|].
  intros Heq. unfold ks in Heq.
  injection Heq as Heq.
  split; apply eq_IZR.
  - exact (f_equal (fun g => g [0]) Heq).
  - exact (f_equal (fun g => g [1]) Heq).
Qed.

(** *** A generator of words, for exact arithmetic *)

Lemma exact_arith_laws : ArithLaws exact_arith.
Proof.
  constructor; cbn [rnd promote_types exact_arith]; intros; auto.
  destruct d; reflexivity.
Qed.

(** A generator that mixes the position into a 32-bit word. *)
Definition counting_bits : BitGenerator := {|
  raw_bits := fun _ _ _ width idx =>
    (fold_right (fun i acc => 2654435761 * acc + i + 1) 0 idx)
      mod 2 ^ (8 * width)
|}.

Lemma counting_bits_uint32 : produces_uint32 counting_bits.
Proof.
  intros k0 k1 sh idx. cbn [raw_bits counting_bits].
  apply Z.mod_pos_bound. reflexivity.
Qed.

Lemma uniform_unit_interval_witness :
  exists res ks',
    @uniform_unit exact_arith counting_bits [2; 3] float16 None
      (mk_KeySequence (key 42)) = (Ok res, ks') /\
    dtype res = float16 /\ shape res = [2; 3] /\
    forall idx,
      (0 <= elem res idx <= below_one float16)%R /\ (elem res idx < 1)%R.
Proof.
  apply (@uniform_unit_interval exact_arith counting_bits exact_arith_laws).
  - exact counting_bits_uint32.
  - reflexivity.
  - exact I.
  - split; reflexivity.
Defined.

(** *** Broadcasting *)

Lemma broadcast_rev_comm s1 s2 : broadcast_rev s1 s2 = broadcast_rev s2 s1.
Proof.
  revert s2. induction s1 as [|a t1 IH]; intros [|b t2]; try reflexivity.
  cbn [broadcast_rev]. rewrite IH.
  destruct (broadcast_rev t2 t1) as [t| | |]; try reflexivity.
  cbn [and_then]. rewrite (Z.eqb_sym b a), (orb_comm (b =? 1)), (Z.mul_comm b a).
  destruct (Z.eqb_spec a b) as [->|]; reflexivity.
Qed.

Lemma broadcast_shapes_comm s1 s2 :
  broadcast_shapes s1 s2 = broadcast_shapes s2 s1.
Proof. unfold broadcast_shapes. now rewrite broadcast_rev_comm. Qed.

Lemma broadcast_rev_refl s : broadcast_rev s s = Ok s.
Proof.
  induction s as [|a t IH]; [reflexivity|].
  cbn [broadcast_rev]. rewrite IH. cbn [and_then]. now rewrite Z.eqb_refl.
Qed.

Lemma broadcast_shapes_refl s : broadcast_shapes s s = Ok s.
Proof.
  unfold broadcast_shapes. rewrite broadcast_rev_refl. cbn [and_then].
  now rewrite rev_involutive.
Qed.

(** A shape that absorbs the broadcast of two shapes absorbs each. *)
Lemma broadcast_rev_absorb h l r s :
  broadcast_rev h l = Ok r -> broadcast_rev s r = Ok s ->
  broadcast_rev s l = Ok s.
Proof.
  revert l r s. induction h as [|a h IH]; intros l r s Hr Hs.
  - cbn [broadcast_rev] in Hr. inversion Hr; subst. exact Hs.
  - destruct l as [|b l].
    + destruct s; reflexivity.
    + cbn [broadcast_rev] in Hr.
      destruct (broadcast_rev h l) as [t| | |] eqn:Ht; try discriminate.
      cbn [and_then] in Hr.
      destruct s as [|c s].
      * cbn [broadcast_rev] in Hs. inversion Hs; subst r.
        destruct (a =? b); [discriminate|].
        destruct ((a =? 1) || (b =? 1)); discriminate.
      * assert (Hcase : exists x, r = x :: t /\
                  (x = b \/ b = 1)).
        { destruct (Z.eqb_spec a b) as [->|Hab].
          - inversion Hr. eauto.
          - destruct (Z.eqb_spec a 1) as [->|Ha]; cbn [orb] in Hr.
            + inversion Hr. exists (1 * b). split; [reflexivity|]. left. lia.
            + destruct (Z.eqb_spec b 1) as [->|Hb]; [|discriminate].
              inversion Hr. eauto. }
        destruct Hcase as (x & -> & Hx).
        cbn [broadcast_rev] in Hs |- *.
        destruct (broadcast_rev s t) as [u| | |] eqn:Hu; try discriminate.
        cbn [and_then] in Hs.
        assert (Hus : u = s /\ (c = x \/ x = 1)).
        { destruct (Z.eqb_spec c x) as [->|Hcx].
          - injection Hs as H1. auto.
          - destruct (Z.eqb_spec c 1) as [->|Hc]; cbn [orb] in Hs.
            + rewrite Z.mul_1_l in Hs. injection Hs as H1 H2.
              split; [exact H2 | lia].
            + destruct (Z.eqb_spec x 1) as [->|Hx1]; [|discriminate].
              injection Hs as H1 H2. auto. }
        destruct Hus as [-> Hcx].
        rewrite (IH l t s Ht Hu). cbn [and_then].
        destruct (Z.eqb_spec c b) as [->|Hcb]; [reflexivity|].
        assert (b = 1) as -> by (destruct Hx, Hcx; subst; lia).
        rewrite orb_true_r. now rewrite Z.mul_1_r.
Qed.

Lemma broadcast_shapes_rev s1 s2 r :
  broadcast_shapes s1 s2 = Ok r <-> broadcast_rev (rev s1) (rev s2) = Ok (rev r).
Proof.
  unfold broadcast_shapes.
  destruct (broadcast_rev (rev s1) (rev s2)) as [t| | |]; cbn [and_then];
    split; intros H; try discriminate.
  - injection H as <-. now rewrite rev_involutive.
  - injection H as ->. now rewrite rev_involutive.
Qed.

Lemma broadcast_shapes_absorb h l r s :
  broadcast_shapes h l = Ok r -> broadcast_shapes s r = Ok s ->
  broadcast_shapes s l = Ok s.
Proof.
  rewrite !broadcast_shapes_rev. apply broadcast_rev_absorb.
Qed.

(** *** [uniform] between two arrays *)

Section UniformBounds.
Context {AR : Arith} {BG : BitGenerator} {AL : ArithLaws AR}.

(** One element of [uniform]: the sample of the unit interval scaled by
    the range [hi - lo] and moved by [lo'], every operation in [d]. *)
Definition scaled_sample (d : Dtype) (lo hi lo' : R) (u : Z) : R :=
  rnd d (rnd d (rnd d (rnd d hi - rnd d lo) * unit_sample d u)
         + rnd d lo').

Lemma bidx_scalar idx : bidx [] idx = [].
Proof. reflexivity. Qed.

Lemma uniform_elements low high sh d key_opt ks r :
  is_floating d = true -> valid_key key_opt -> wf_sequence ks ->
  broadcast_shapes (shape high) (shape low) = Ok r ->
  broadcast_shapes sh r = Ok sh ->
  exists res ks' k,
    uniform low high sh d key_opt ks = (Ok res, ks') /\
    dtype res = d /\ shape res = sh /\
    forall idx, exists idx',
      elem res idx =
      scaled_sample d
        (elem low (bidx (shape low) (bidx r (bidx sh idx))))
        (elem high (bidx (shape high) (bidx r (bidx sh idx))))
        (elem low (bidx (shape low) idx))
        (raw_bits (elem k [0]) (elem k [1]) sh 4 idx').
Proof.
  intros Hd Hk Hks Hr Hsh.
  assert (H32 : is_floating float32 = true) by reflexivity.
  destruct (bits_ok sh key_opt ks Hk Hks) as (k & ks' & Hbits).
  unfold uniform. rewrite Hd. cbn [negb].
  unfold bind at 1. unfold lift at 1.
  unfold subtract, arith_op, binary.
  cbn [astype scalar shape dtype elem].
  rewrite Hr. cbn [and_then].
  unfold bind at 1. unfold lift at 1. cbn [shape].
  rewrite Hsh, Shape_eqb_refl. cbn [negb].
  unfold bind at 1. unfold lift at 1. rewrite get_upper_ok by assumption.
  unfold bind at 1. rewrite Hbits.
  unfold bind at 1. unfold lift at 1.
  unfold divide, arith_op, binary.
  cbn [RandomBits scalar shape dtype elem].
  rewrite broadcast_shapes_nil_r, promote_uint32_float32. cbn [and_then].
  unfold bind at 1. unfold lift at 1.
  unfold minimum, arith_op, binary. cbn [shape dtype elem].
  rewrite broadcast_shapes_nil_r, promote_same. cbn [and_then].
  unfold bind at 1. unfold lift at 1.
  unfold multiply, arith_op, binary. cbn [astype shape dtype elem].
  rewrite broadcast_shapes_comm, Hsh, !promote_same. cbn [and_then].
  unfold lift, add, arith_op, binary.
  cbn [astype scalar shape dtype elem].
  rewrite (broadcast_shapes_absorb _ _ _ _ Hr Hsh), !promote_same.
  cbn [and_then].
  eexists _, ks', k. split; [reflexivity|].
  cbn [dtype shape elem]. repeat split.
  intros idx. eexists. unfold scaled_sample, unit_sample.
  destruct (rnd_below_one d Hd) as [_ Hb32].
  rewrite ?(rnd_idem float32), ?Hb32, ?(rnd_idem float32) by assumption.
  rewrite ?(rnd_idem d) by assumption.
  reflexivity.
Qed.

Lemma scaled_sample_lower d lo hi lo' u :
  is_floating d = true -> 0 <= u < 2 ^ 32 -> (lo <= hi)%R ->
  (rnd d lo' <= scaled_sample d lo hi lo' u)%R.
Proof.
  intros Hd Hu Hle. unfold scaled_sample.
  pose proof (unit_sample_range d u Hd Hu) as [Hs _].
  pose proof (rnd_mono d lo hi Hd Hle) as Hr.
  assert (H0 : (0 <= rnd d (rnd d hi - rnd d lo))%R).
  { rewrite <- (rnd_zero d Hd). apply rnd_mono; [assumption | lra]. }
  assert (H1 : (0 <= rnd d (rnd d (rnd d hi - rnd d lo) * unit_sample d u))%R).
  { rewrite <- (rnd_zero d Hd) at 1. apply rnd_mono; [assumption|].
    now apply Rmult_le_pos. }
  rewrite <- (rnd_idem d lo' Hd) at 1.
  apply rnd_mono; [assumption | lra].
Qed.

End UniformBounds.

(** *** Calls that leave the default key sequence alone *)

(** A computation that gives back the default sequence as it got it,
    whatever it returns. *)
Definition keeps_sequence {A} (c : M A) : Prop :=
  forall ks, snd (c ks) = ks.

Lemma keeps_lift {A} (c : outcome A) : keeps_sequence (lift c).
Proof. intros ks. reflexivity. Qed.

Lemma keeps_ret {A} (a : A) : keeps_sequence (ret a).
Proof. intros ks. reflexivity. Qed.

Lemma keeps_bind {A B} (c : M A) (k : A -> M B) :
  keeps_sequence c -> (forall a, keeps_sequence (k a)) ->
  keeps_sequence (bind c k).
Proof.
  intros Hc Hk ks. unfold bind. specialize (Hc ks).
  destruct (c ks) as [[a| | |] ks1]; cbn [snd] in *; subst; auto.
  apply Hk.
Qed.

(** Whether a call returned. *)
Definition is_ok {A} (o : outcome A) : bool :=
  match o with Ok _ => true | _ => false end.

Section Sequence.
Context {AR : Arith} {BG : BitGenerator}.

Lemma bits_keeps sh width k : keeps_sequence (bits sh width (Some k)).
Proof. unfold bits. apply keeps_bind; [apply keeps_ret | intros; apply keeps_lift]. Qed.

Ltac keeps_step :=
  first [ apply keeps_lift | apply keeps_ret | apply bits_keeps
        | apply keeps_bind; [|intros ?]
        | match goal with
          | |- keeps_sequence (if ?b then _ else _) => destruct b
          | |- keeps_sequence (match ?o with _ => _ end) => destruct o
          end ].

Lemma uniform_keeps low high sh d k :
  keeps_sequence (uniform low high sh d (Some k)).
Proof. unfold uniform. repeat keeps_step. Qed.

Lemma bernoulli_keeps p sh k : keeps_sequence (bernoulli p sh (Some k)).
Proof. unfold bernoulli. repeat keeps_step. Qed.

(** X8. With a key given, [bits], [uniform] and [bernoulli] leave the default
    key sequence as it is, whether they return or throw. *)
Theorem explicit_key_keeps_sequence (low high p : array) (sh : list Z)
    (width : Z) (d : Dtype) (k : array) (ks : KeySequence) :
  snd (bits sh width (Some k) ks) = ks /\
  snd (uniform low high sh d (Some k) ks) = ks /\
  snd (bernoulli p sh (Some k) ks) = ks.
Proof.
  split; [apply bits_keeps | split; [apply uniform_keeps | apply bernoulli_keeps]].
Qed.

End Sequence.

(** *** [uniform] validates before it draws *)

Section UniformAtomic.
Context {AR : Arith} {BG : BitGenerator}.

Lemma get_upper_floating d :
  is_floating d = true ->
  get_upper d = Ok (scalar (below_one d) float32).
Proof. destruct d; cbn [is_floating]; try discriminate; reflexivity. Qed.

(** Once the dtype and the shapes pass the checks of [uniform], nothing
    after the draw throws. *)
Lemma uniform_returns low high sh d key_opt ks r :
  is_floating d = true -> valid_key key_opt -> wf_sequence ks ->
  broadcast_shapes (shape high) (shape low) = Ok r ->
  broadcast_shapes sh r = Ok sh ->
  exists res ks', uniform low high sh d key_opt ks = (Ok res, ks').
Proof.
  intros Hd Hk Hks Hr Hsh.
  destruct (bits_ok sh key_opt ks Hk Hks) as (k & ks' & Hbits).
  unfold uniform. rewrite Hd. cbn [negb].
  unfold bind at 1. unfold lift at 1.
  unfold subtract, arith_op, binary.
  cbn [astype scalar shape dtype elem].
  rewrite Hr. cbn [and_then].
  unfold bind at 1. unfold lift at 1. cbn [shape].
  rewrite Hsh, Shape_eqb_refl. cbn [negb].
  unfold bind at 1. unfold lift at 1. rewrite get_upper_floating by assumption.
  unfold bind at 1. rewrite Hbits.
  unfold bind at 1. unfold lift at 1.
  unfold divide, arith_op, binary.
  cbn [RandomBits scalar shape dtype elem].
  rewrite broadcast_shapes_nil_r. cbn [and_then].
  unfold bind at 1. unfold lift at 1.
  unfold minimum, arith_op, binary. cbn [shape dtype elem].
  rewrite broadcast_shapes_nil_r. cbn [and_then].
  unfold bind at 1. unfold lift at 1.
  unfold multiply, arith_op, binary. cbn [astype shape dtype elem].
  rewrite broadcast_shapes_comm, Hsh. cbn [and_then].
  unfold lift, add, arith_op, binary.
  cbn [astype scalar shape dtype elem].
  rewrite (broadcast_shapes_absorb _ _ _ _ Hr Hsh).
  cbn [and_then]. eauto.
Qed.

(** The calls of [uniform] that throw before the draw. *)
Lemma uniform_early_exit low high sh d key_opt ks :
  is_floating d = false \/
  is_ok (broadcast_shapes (shape high) (shape low)) = false \/
  (exists r, broadcast_shapes (shape high) (shape low) = Ok r /\
             broadcast_shapes sh r <> Ok sh) ->
  snd (uniform low high sh d key_opt ks) = ks.
Proof.
  intros H. unfold uniform.
  destruct (is_floating d) eqn:Hd; cbn [negb]; [|reflexivity].
  destruct H as [H|[H|(r & Hr & Hne)]]; [discriminate| |].
  - unfold bind at 1. unfold lift at 1.
    unfold subtract, arith_op, binary. cbn [astype shape dtype].
    destruct (broadcast_shapes (shape high) (shape low)); try discriminate;
      reflexivity.
  - unfold bind at 1. unfold lift at 1.
    unfold subtract, arith_op, binary. cbn [astype shape dtype].
    rewrite Hr. cbn [and_then].
    unfold bind at 1. unfold lift at 1. cbn [shape].
    destruct (broadcast_shapes sh r) as [o| | |] eqn:Ho; try reflexivity.
    destruct (Shape_eqb o sh) eqn:E; cbn [negb]; [|reflexivity].
    apply Shape_eqb_eq in E. subst o. contradiction.
Qed.

(** X9. [uniform] is atomic on the default key sequence: a call that throws,
    with or without a key, leaves the sequence as it was. *)
Theorem uniform_failure_keeps_sequence (low high : array) (sh : list Z)
    (d : Dtype) (key_opt : option array) (ks : KeySequence) :
  wf_sequence ks ->
  is_ok (fst (uniform low high sh d key_opt ks)) = false ->
  snd (uniform low high sh d key_opt ks) = ks.
Proof.
  intros Hks Hfail. destruct key_opt as [k|]; [apply uniform_keeps|].
  destruct (is_floating d) eqn:Hd; [|apply uniform_early_exit; auto].
  destruct (broadcast_shapes (shape high) (shape low)) as [r| | |] eqn:Hr;
    try (apply uniform_early_exit; right; left; rewrite Hr; reflexivity).
  destruct (broadcast_shapes sh r) as [o| | |] eqn:Ho;
    try (apply uniform_early_exit; right; right; exists r;
         split; [exact Hr | rewrite Ho; discriminate]).
  destruct (Shape_eqb o sh) eqn:E.
  - apply Shape_eqb_eq in E. subst o.
    destruct (uniform_returns low high sh d None ks r Hd I Hks Hr Ho)
      as (res & ks' & Hres).
    rewrite Hres in Hfail. discriminate.
  - apply uniform_early_exit. right; right. exists r.
    split; [exact Hr|]. rewrite Ho. intros [= ->].
    rewrite Shape_eqb_refl in E. discriminate.
Qed.

End UniformAtomic.

Lemma uniform_failure_keeps_sequence_witness :
  snd (@uniform exact_arith counting_bits
         (mk_array float32 [3] (fun _ => 0%R))
         (mk_array float32 [3] (fun _ => 1%R))
         [2] float32 None (mk_KeySequence (key 7))) =
  mk_KeySequence (key 7).
Proof.
  apply (@uniform_failure_keeps_sequence exact_arith counting_bits).
  - split; reflexivity.
  - reflexivity.
Defined.

Section UniformLower.
Context {AR : Arith} {BG : BitGenerator} {AL : ArithLaws AR}.

(** X10. [uniform] between two arrays, with every low bound at most every high
    bound, returns for shapes that broadcast to the requested one an array
    of that shape and dtype none of whose elements is below the low bound
    it was drawn for, converted to the dtype. *)
Theorem uniform_at_least_low (low high : array) (sh r : list Z) (d : Dtype)
    (key_opt : option array) (ks : KeySequence) :
  produces_uint32 BG ->
  is_floating d = true -> valid_key key_opt -> wf_sequence ks ->
  broadcast_shapes (shape high) (shape low) = Ok r ->
  broadcast_shapes sh r = Ok sh ->
  (forall i j, (elem low i <= elem high j)%R) ->
  exists res ks',
    uniform low high sh d key_opt ks = (Ok res, ks') /\
    dtype res = d /\ shape res = sh /\
    forall idx,
      (rnd d (elem low (bidx (shape low) idx)) <= elem res idx)%R.
Proof.
  intros Hraw Hd Hk Hks Hr Hsh Hle.
  destruct (uniform_elements low high sh d key_opt ks r Hd Hk Hks Hr Hsh)
    as (res & ks' & k & Hres & Hdt & Hshape & Helem).
  exists res, ks'. repeat split; try assumption.
  intros idx. destruct (Helem idx) as (idx' & ->).
  apply scaled_sample_lower; [assumption | apply Hraw | apply Hle].
Qed.

End UniformLower.

Lemma uniform_at_least_low_witness :
  exists res ks',
    @uniform exact_arith counting_bits
      (mk_array float32 [3] (fun _ => (-2)%R))
      (mk_array float32 [1] (fun _ => 5%R))
      [2; 3] float16 None (mk_KeySequence (key 42)) = (Ok res, ks') /\
    dtype res = float16 /\ shape res = [2; 3] /\
    forall idx, (-2 <= elem res idx)%R.
Proof.
  apply (@uniform_at_least_low exact_arith counting_bits exact_arith_laws
           (mk_array float32 [3] (fun _ => (-2)%R))
           (mk_array float32 [1] (fun _ => 5%R)) [2; 3] [3]).
  - exact counting_bits_uint32.
  - reflexivity.
  - exact I.
  - split; reflexivity.
  - reflexivity.
  - reflexivity.
  - intros i j. cbn [elem]. lra.
Defined.

(** *** Seeds and keys *)

(** X7. Two seeds of 64 bits whose keys hold the same two words are the same
    seed: [key] loses nothing of a [uint64_t]. *)
Theorem key_injective (s1 s2 : Z) :
  0 <= s1 < 2 ^ 64 -> 0 <= s2 < 2 ^ 64 ->
  elem (key s1) [0] = elem (key s2) [0] ->
  elem (key s1) [1] = elem (key s2) [1] ->
  s1 = s2.
Proof.
  intros H1 H2 Hhi Hlo. cbn [key elem] in Hhi, Hlo.
  apply eq_IZR in Hhi, Hlo.
  rewrite !Z.mod_small in Hhi
    by (split; [apply Z.div_pos; lia | apply Z.div_lt_upper_bound; lia]).
  rewrite (Z.div_mod s1 (2 ^ 32)), (Z.div_mod s2 (2 ^ 32)) by lia.
  now rewrite Hhi, Hlo.
Qed.

Lemma key_injective_witness : 2 ^ 32 + 5 = 2 ^ 32 + 5.
Proof.
  apply (key_injective (2 ^ 32 + 5) (2 ^ 32 + 5));
    [lia | lia | reflexivity | reflexivity].
Defined.

(** *** [get_valid_axis] *)

Definition msg_axis : string := "[categorical] Invalid axis for the logits.".

(** [get_valid_axis]: [axis + ndim] is an [int]. *)
Definition get_valid_axis (axis ndim : Z) : outcome Z :=
  let ax := if axis <? 0 then MachineInt.wrap32 (axis + ndim) else axis in
  if (ax <? 0) || (ndim <=? ax) then InvalidArgument msg_axis else Ok ax.

(** X11. [get_valid_axis] accepts the axes from [-ndim] to [ndim - 1] and
    returns them counted from the front, that is [axis mod ndim]; every
    other axis is an invalid argument. *)
Theorem get_valid_axis_normalizes (axis ndim : Z) :
  0 <= ndim < 2 ^ 31 -> - 2 ^ 31 <= axis < 2 ^ 31 ->
  (- ndim <= axis < ndim -> get_valid_axis axis ndim = Ok (axis mod ndim)) /\
  (~ - ndim <= axis < ndim ->
   get_valid_axis axis ndim = InvalidArgument msg_axis).
Proof.
  intros Hn Ha. unfold get_valid_axis.
  destruct (Z.ltb_spec axis 0) as [Hneg|Hpos].
  - rewrite MachineInt.wrap32_id by lia. split; intros H.
    + replace ((axis + ndim <? 0) || (ndim <=? axis + ndim)) with false
        by (symmetry; apply orb_false_iff; split;
            [apply Z.ltb_ge | apply Z.leb_gt]; lia).
      f_equal. apply (Z.mod_unique axis ndim (-1)); lia.
    + replace (axis + ndim <? 0) with true
        by (symmetry; apply Z.ltb_lt; lia).
      reflexivity.
  - split; intros H.
    + replace ((axis <? 0) || (ndim <=? axis)) with false
        by (symmetry; apply orb_false_iff; split;
            [apply Z.ltb_ge | apply Z.leb_gt]; lia).
      f_equal. symmetry. apply Z.mod_small. lia.
    + replace (ndim <=? axis) with true by (symmetry; apply Z.leb_le; lia).
      now rewrite orb_true_r.
Qed.

Lemma get_valid_axis_normalizes_witness :
  get_valid_axis (-1) 3 = Ok 2 /\
  get_valid_axis 3 3 = InvalidArgument msg_axis.
Proof.
  destruct (get_valid_axis_normalizes (-1) 3 ltac:(lia) ltac:(lia))
    as [Hin _].
  destruct (get_valid_axis_normalizes 3 3 ltac:(lia) ltac:(lia))
    as [_ Hout].
  split; [apply Hin; lia | apply Hout; lia].
Defined.

(** *** [bernoulli] *)

(** [bernoulli(p, key)]: the shape is that of [p]. *)
Definition bernoulli_p {AR : Arith} {BG : BitGenerator} (p : array)
    (key_opt : option array) : M array :=
  bernoulli p (shape p) key_opt.

(** [bernoulli(key)]: the probability is [array(0.5f)]. *)
Definition bernoulli_half {AR : Arith} {BG : BitGenerator}
    (key_opt : option array) : M array :=
  bernoulli_p (scalar (1 / 2) float32) key_opt.

Section Bernoulli.
Context {AR : Arith} {BG : BitGenerator}.

(** The comparison that gives one element of [bernoulli]: the word [u]
    against the probability [q] on the scale of [upper]. *)
Definition bernoulli_sample (tp : Dtype) (q : R) (u : Z) : R :=
  let t := promote_types uint32 tp in
  if Rlt_dec (rnd t (IZR u))
             (rnd t (rnd tp (rnd tp q *
                             rnd tp (rnd float32 (IZR (2 ^ 32 + 2 ^ 9))))))
  then 1%R else 0%R.

Lemma bernoulli_p_elements p key_opt ks :
  is_floating (dtype p) = true -> valid_key key_opt -> wf_sequence ks ->
  exists res ks' k,
    bernoulli_p p key_opt ks = (Ok res, ks') /\
    dtype res = bool_ /\ shape res = shape p /\
    (key_opt = None \/ key_opt = Some k) /\
    forall idx,
      elem res idx =
      bernoulli_sample (promote_types (dtype p) float32)
        (elem p (bidx (shape p) (bidx (shape p) idx)))
        (raw_bits (elem k [0]) (elem k [1]) (shape p) 4
                  (bidx (shape p) idx)).
Proof.
  intros Hp Hk Hks.
  assert (Hbits : exists k ks',
            bits (shape p) 4 key_opt ks =
              (Ok (RandomBits (shape p) 4 uint32 k), ks') /\
            (key_opt = None \/ key_opt = Some k)).
  { destruct key_opt as [k|].
    - destruct (bits_ok (shape p) (Some k) ks Hk Hks) as (k' & ks' & Hb).
      exists k, ks. split; [|now right].
      destruct Hk as [Hd Hs]. unfold bits, bind, ret, lift.
      now rewrite bits_of_key_ok.
    - destruct (bits_ok (shape p) None ks Hk Hks) as (k & ks' & Hb).
      exists k, ks'. split; [exact Hb | now left]. }
  destruct Hbits as (k & ks' & Hbits & Hkey).
  unfold bernoulli_p, bernoulli. rewrite Hp. cbn [negb].
  unfold bind at 1. rewrite Hbits.
  unfold bind at 1. unfold lift at 1.
  unfold multiply, arith_op, binary. cbn [scalar shape dtype elem].
  rewrite broadcast_shapes_nil_r. cbn [and_then].
  unfold bind at 1. unfold lift at 1.
  unfold less. cbn [RandomBits shape dtype elem].
  rewrite broadcast_shapes_refl. cbn [and_then shape].
  rewrite Shape_eqb_refl. cbn [negb]. unfold ret.
  eexists _, ks', k. split; [reflexivity|].
  cbn [dtype shape elem]. split; [reflexivity|]. split; [reflexivity|].
  split; [exact Hkey|].
  intros idx. unfold bernoulli_sample. reflexivity.
Qed.

(** X12. [bernoulli(p, key)], which takes the shape from [p], never throws for
    a floating [p] and a key that [bits] accepts: it returns a boolean
    array of the shape of [p]. *)
Theorem bernoulli_own_shape_returns (p : array) (key_opt : option array)
    (ks : KeySequence) :
  is_floating (dtype p) = true -> valid_key key_opt -> wf_sequence ks ->
  exists res ks',
    bernoulli_p p key_opt ks = (Ok res, ks') /\
    dtype res = bool_ /\ shape res = shape p /\
    forall idx, elem res idx = 0%R \/ elem res idx = 1%R.
Proof.
  intros Hp Hk Hks.
  destruct (bernoulli_p_elements p key_opt ks Hp Hk Hks)
    as (res & ks' & k & Hres & Hdt & Hsh & _ & Helem).
  exists res, ks'. repeat split; try assumption.
  intros idx. rewrite Helem.
  unfold bernoulli_sample. destruct (Rlt_dec _ _); auto.
Qed.

End Bernoulli.

Lemma bernoulli_own_shape_returns_witness :
  exists res ks',
    @bernoulli_half exact_arith counting_bits None
      (mk_KeySequence (key 3)) = (Ok res, ks') /\
    dtype res = bool_ /\ shape res = [] /\
    forall idx, elem res idx = 0%R \/ elem res idx = 1%R.
Proof.
  apply (@bernoulli_own_shape_returns exact_arith counting_bits
           (@scalar exact_arith (1 / 2) float32) None
           (mk_KeySequence (key 3))).
  - reflexivity.
  - exact I.
  - split; reflexivity.
Defined.

Section BernoulliExtremes.
Context {AR : Arith} {BG : BitGenerator} {AL : ArithLaws AR}.

(** float32 holds [2 ^ 32], to which [UINT32_MAX] converts, and the next
    value above it, [2 ^ 32 + 2 ^ 9]. *)
Hypothesis float32_pow32 : rnd float32 (IZR (2 ^ 32)) = IZR (2 ^ 32).
Hypothesis float32_upper :
  rnd float32 (IZR (2 ^ 32 + 2 ^ 9)) = IZR (2 ^ 32 + 2 ^ 9).

Lemma bernoulli_sample_one q u :
  0 <= u < 2 ^ 32 -> (1 <= q)%R -> bernoulli_sample float32 q u = 1%R.
Proof.
  intros Hu Hq. unfold bernoulli_sample.
  assert (H32 : is_floating float32 = true) by reflexivity.
  rewrite promote_uint32_float32, float32_upper, !rnd_idem by assumption.
  rewrite float32_upper.
  assert (Hb : (rnd float32 (IZR u) <= IZR (2 ^ 32))%R).
  { rewrite <- float32_pow32. apply rnd_mono; [assumption|].
    apply IZR_le. lia. }
  assert (Hq1 : (1 <= rnd float32 q)%R).
  { rewrite <- (rnd_one float32 H32). now apply rnd_mono. }
  assert (Hp : (IZR (2 ^ 32 + 2 ^ 9) <=
                rnd float32 (rnd float32 q * IZR (2 ^ 32 + 2 ^ 9)))%R).
  { rewrite <- float32_upper at 1. apply rnd_mono; [assumption|].
    assert (0 < IZR (2 ^ 32 + 2 ^ 9))%R by (apply IZR_lt; lia). nra. }
  assert (Hlt : (IZR (2 ^ 32) < IZR (2 ^ 32 + 2 ^ 9))%R)
    by (apply IZR_lt; lia).
  destruct (Rlt_dec _ _) as [_|Hn]; [reflexivity | exfalso; apply Hn; lra].
Qed.

Lemma bernoulli_sample_zero q u :
  0 <= u < 2 ^ 32 -> (q <= 0)%R -> bernoulli_sample float32 q u = 0%R.
Proof.
  intros Hu Hq. unfold bernoulli_sample.
  assert (H32 : is_floating float32 = true) by reflexivity.
  rewrite promote_uint32_float32, float32_upper, !rnd_idem by assumption.
  rewrite float32_upper.
  assert (Hb : (0 <= rnd float32 (IZR u))%R).
  { rewrite <- (rnd_zero float32 H32). apply rnd_mono; [assumption|].
    apply IZR_le. lia. }
  assert (Hq0 : (rnd float32 q <= 0)%R).
  { rewrite <- (rnd_zero float32 H32). now apply rnd_mono. }
  assert (Hp : (rnd float32 (rnd float32 q * IZR (2 ^ 32 + 2 ^ 9)) <= 0)%R).
  { rewrite <- (rnd_zero float32 H32) at 1. apply rnd_mono; [assumption|].
    assert (0 < IZR (2 ^ 32 + 2 ^ 9))%R by (apply IZR_lt; lia). nra. }
  destruct (Rlt_dec _ _) as [Hl|_]; [exfalso; lra | reflexivity].
Qed.

(** X13. The scale of [bernoulli] does what its comment says: a probability
    that is at least 1 everywhere gives all true, one that is at most 0
    everywhere gives all false, whatever the words drawn. *)
Theorem bernoulli_extremes (p : array) (key_opt : option array)
    (ks : KeySequence) :
  produces_uint32 BG ->
  is_floating (dtype p) = true ->
  promote_types (dtype p) float32 = float32 ->
  valid_key key_opt -> wf_sequence ks ->
  exists res ks',
    bernoulli_p p key_opt ks = (Ok res, ks') /\
    shape res = shape p /\
    ((forall i, (1 <= elem p i)%R) -> forall idx, elem res idx = 1%R) /\
    ((forall i, (elem p i <= 0)%R) -> forall idx, elem res idx = 0%R).
Proof.
  intros Hraw Hp Hprom Hk Hks.
  destruct (bernoulli_p_elements p key_opt ks Hp Hk Hks)
    as (res & ks' & k & Hres & Hdt & Hsh & _ & Helem).
  exists res, ks'. split; [exact Hres | split; [exact Hsh | split]].
  - intros Hone idx. rewrite Helem.
    rewrite Hprom. apply bernoulli_sample_one; [apply Hraw | apply Hone].
  - intros Hzero idx. rewrite Helem.
    rewrite Hprom. apply bernoulli_sample_zero; [apply Hraw | apply Hzero].
Qed.

End BernoulliExtremes.

Lemma bernoulli_extremes_witness :
  exists res ks',
    @bernoulli_p exact_arith counting_bits
      (mk_array float32 [2] (fun _ => 1%R)) None
      (mk_KeySequence (key 3)) = (Ok res, ks') /\
    shape res = [2] /\
    forall idx, elem res idx = 1%R.
Proof.
  destruct (@bernoulli_extremes exact_arith counting_bits exact_arith_laws
              eq_refl eq_refl
              (mk_array float32 [2] (fun _ => 1%R)) None
              (mk_KeySequence (key 3))
              counting_bits_uint32 eq_refl eq_refl I
              (conj eq_refl eq_refl))
    as (res & ks' & Hres & Hsh & Hone & _).
  exists res, ks'. repeat split; try assumption.
  apply Hone. intros i. cbn [elem]. lra.
Defined.

(** *** [truncated_normal] *)

Definition msg_trunc_type : string :=
  "[trunc_normal] trunc_normal only accepts floating point dtypes.".

Section TruncatedNormal.
Context {AR : Arith} {BG : BitGenerator}.

(** The error function and its inverse, which mlx/ops.cpp applies to each
    element in the dtype of the array, and the [double] that
    [std::sqrt(2.0)] returns. *)
Variables erf erfinv : R -> R.
Variable sqrt_two : R.

(** [truncated_normal(lower, upper, shape, dtype, key)]. *)
Definition truncated_normal (lower upper : array) (sh : list Z) (d : Dtype)
    (key_opt : option array) : M array :=
  if negb (is_floating d) then lift (InvalidArgument msg_trunc_type)
  else
    let sqrt2 := scalar sqrt_two d in
    let lower_t := astype lower d in
    let upper_t := astype upper d in
    x <- lift (divide lower_t sqrt2) ;;
    let a := unary erf (dtype x) x in
    y <- lift (divide upper_t sqrt2) ;;
    let b := unary erf (dtype y) y in
    u <- uniform a b sh d key_opt ;;
    out <- lift (multiply sqrt2 (unary erfinv (dtype u) u)) ;;
    m <- lift (minimum upper_t out) ;;
    lift (maximum m lower_t).

Context {AL : ArithLaws AR}.

(** The clip that ends [truncated_normal]. *)
Lemma clip_range d lo hi v :
  is_floating d = true -> (lo <= hi)%R ->
  (rnd d lo <=
   rnd d (Rmax (rnd d (rnd d (Rmin (rnd d (rnd d hi)) v))) (rnd d (rnd d lo)))
   <= rnd d hi)%R.
Proof.
  intros Hd Hle. rewrite !rnd_idem by assumption.
  pose proof (rnd_mono d lo hi Hd Hle) as Hm.
  split.
  - rewrite <- (rnd_idem d lo Hd) at 1. apply rnd_mono; [assumption|].
    apply Rmax_r.
  - rewrite <- (rnd_idem d hi Hd) at 2. apply rnd_mono; [assumption|].
    apply Rmax_lub; [|assumption].
    rewrite <- (rnd_idem d hi Hd) at 2. apply rnd_mono; [assumption|].
    apply Rmin_l.
Qed.

(** X14. For scalar bounds [lower <= upper], [truncated_normal] returns an array
    of the requested shape and dtype all of whose elements lie between the
    two bounds converted to the dtype, whatever [erf] and [erfinv] compute:
    the clip at the end removes any overshoot. *)
Theorem truncated_normal_within_bounds (lower upper : array) (sh : list Z)
    (d : Dtype) (key_opt : option array) (ks : KeySequence) :
  is_floating d = true -> valid_key key_opt -> wf_sequence ks ->
  shape lower = [] -> shape upper = [] ->
  (elem lower [] <= elem upper [])%R ->
  exists res ks',
    truncated_normal lower upper sh d key_opt ks = (Ok res, ks') /\
    dtype res = d /\ shape res = sh /\
    forall idx,
      (rnd d (elem lower []) <= elem res idx <= rnd d (elem upper []))%R.
Proof.
  intros Hd Hk Hks Hlo Hhi Hle.
  unfold truncated_normal. rewrite Hd. cbn [negb].
  unfold bind at 1. unfold lift at 1.
  unfold divide at 1. unfold arith_op, binary at 1.
  cbn [astype scalar shape dtype elem].
  rewrite Hlo, broadcast_shapes_nil_r. cbn [and_then].
  unfold bind at 1. unfold lift at 1.
  unfold divide at 1. unfold arith_op, binary at 1.
  cbn [astype scalar shape dtype elem].
  rewrite Hhi, broadcast_shapes_nil_r. cbn [and_then].
  unfold bind at 1.
  match goal with
  | |- context [uniform ?a ?b sh d key_opt ks] =>
      destruct (uniform_elements a b sh d key_opt ks [] Hd Hk Hks
                  eq_refl (broadcast_shapes_nil_r sh))
        as (u & ks' & k & Hu & Hud & Hus & _)
  end.
  rewrite Hu.
  unfold bind at 1. unfold lift at 1.
  unfold multiply, arith_op, binary. cbn [unary scalar shape dtype elem].
  rewrite Hus, Hud, broadcast_shapes_nil_l, !promote_same. cbn [and_then].
  unfold bind at 1. unfold lift at 1.
  unfold minimum, arith_op, binary. cbn [astype shape dtype elem].
  rewrite Hhi, broadcast_shapes_nil_l, !promote_same. cbn [and_then].
  unfold lift, maximum, arith_op, binary. cbn [astype shape dtype elem].
  rewrite Hlo, broadcast_shapes_nil_r, !promote_same. cbn [and_then].
  eexists _, ks'. split; [reflexivity|].
  cbn [dtype shape elem]. split; [reflexivity | split; [reflexivity|]].
  intros idx. rewrite !bidx_scalar. now apply clip_range.
Qed.

End TruncatedNormal.

Lemma truncated_normal_within_bounds_witness :
  exists res ks',
    @truncated_normal exact_arith counting_bits (fun v => v) (fun v => v)
      (sqrt 2)
      (mk_array float32 [] (fun _ => (-2)%R))
      (mk_array float32 [] (fun _ => 2%R))
      [4] float32 None (mk_KeySequence (key 11)) = (Ok res, ks') /\
    dtype res = float32 /\ shape res = [4] /\
    forall idx, (-2 <= elem res idx <= 2)%R.
Proof.
  apply (@truncated_normal_within_bounds exact_arith counting_bits
           (fun v => v) (fun v => v) (sqrt 2) exact_arith_laws
           (mk_array float32 [] (fun _ => (-2)%R))
           (mk_array float32 [] (fun _ => 2%R))).
  - reflexivity.
  - exact I.
  - split; reflexivity.
  - reflexivity.
  - reflexivity.
  - cbn [elem]. lra.
Defined.

(** *** [uniform] between two scalars, in exact arithmetic *)

Section UniformExact.
Context {AR : Arith} {BG : BitGenerator} {AL : ArithLaws AR}.
Hypothesis rnd_exact : forall d x, rnd d x = x.



End UniformExact.


(** *** [bernoulli] is monotone in the probability *)

Section BernoulliMonotone.
Context {AR : Arith} {BG : BitGenerator} {AL : ArithLaws AR}.

Lemma bernoulli_sample_mono q1 q2 u :
  (q1 <= q2)%R ->
  (bernoulli_sample float32 q1 u <= bernoulli_sample float32 q2 u)%R.
Proof.
  intros Hq. unfold bernoulli_sample.
  assert (H32 : is_floating float32 = true) by reflexivity.
  rewrite promote_uint32_float32.
  set (c := rnd float32 (rnd float32 (IZR (2 ^ 32 + 2 ^ 9)))).
  assert (Hc : (0 <= c)%R).
  { unfold c. rewrite <- (rnd_zero float32 H32) at 1.
    apply rnd_mono; [assumption|].
    rewrite <- (rnd_zero float32 H32) at 1.
    apply rnd_mono; [assumption|]. apply IZR_le. lia. }
  assert (Hr : (rnd float32 (rnd float32 (rnd float32 q1 * c)) <=
                rnd float32 (rnd float32 (rnd float32 q2 * c)))%R).
  { do 2 (apply rnd_mono; [assumption|]).
    apply Rmult_le_compat_r; [exact Hc|]. now apply rnd_mono. }
  destruct (Rlt_dec _ _) as [H1|H1], (Rlt_dec _ _) as [H2|H2]; lra.
Qed.

(** X25. With the same key, raising the probability never turns a true of
    [bernoulli] into a false: for two probabilities of the same shape and
    of the same floating dtype (one that promotes with float32 to float32,
    as every floating dtype does) with [p1 <= p2] everywhere, both calls
    return an array of the shape of the probabilities, and every element of
    [bernoulli(p1, key)] is at most the element of [bernoulli(p2, key)] at
    the same index, under any monotone rounding. *)
Theorem bernoulli_monotone (p1 p2 k : array) (ks : KeySequence) :
  is_floating (dtype p1) = true -> dtype p2 = dtype p1 ->
  promote_types (dtype p1) float32 = float32 ->
  shape p1 = shape p2 ->
  dtype k = uint32 -> shape k = [2] -> wf_sequence ks ->
  (forall i, (elem p1 i <= elem p2 i)%R) ->
  exists r1 r2,
    bernoulli_p p1 (Some k) ks = (Ok r1, ks) /\
    bernoulli_p p2 (Some k) ks = (Ok r2, ks) /\
    shape r1 = shape p1 /\ shape r2 = shape p1 /\
    forall idx, (elem r1 idx <= elem r2 idx)%R.
Proof.
  intros Hd1 Hd2 Hprom Hshape Hkd Hks Hwf Hle.
  assert (Hk : valid_key (Some k)) by (split; assumption).
  destruct (bernoulli_p_elements p1 (Some k) ks) as
    (r1 & ks1 & k1 & Hr1 & _ & Hs1' & Hk1 & He1);
    [assumption | assumption | assumption |].
  destruct (bernoulli_p_elements p2 (Some k) ks) as
    (r2 & ks2 & k2 & Hr2 & _ & Hs2' & Hk2 & He2);
    [now rewrite Hd2 | assumption | assumption |].
  destruct Hk1 as [Hk1|Hk1]; [discriminate|]. injection Hk1 as <-.
  destruct Hk2 as [Hk2|Hk2]; [discriminate|]. injection Hk2 as <-.
  pose proof (bernoulli_keeps p1 (shape p1) k ks) as Hs1.
  pose proof (bernoulli_keeps p2 (shape p2) k ks) as Hs2.
  fold (bernoulli_p p1 (Some k)) in Hs1.
  fold (bernoulli_p p2 (Some k)) in Hs2.
  rewrite Hr1 in Hs1. rewrite Hr2 in Hs2. cbn [snd] in Hs1, Hs2. subst.
  exists r1, r2. split; [exact Hr1 | split; [exact Hr2|]].
  split; [exact Hs1'|]. split; [congruence|].
  intros idx. rewrite He1, He2, Hd2, Hprom, Hshape.
  apply bernoulli_sample_mono. apply Hle.
Qed.

End BernoulliMonotone.

Lemma bernoulli_monotone_witness :
  exists r1 r2,
    @bernoulli_p exact_arith counting_bits
      (mk_array float16 [3] (fun _ => (1 / 4)%R)) (Some (key 9))
      (mk_KeySequence (key 1)) = (Ok r1, mk_KeySequence (key 1)) /\
    @bernoulli_p exact_arith counting_bits
      (mk_array float16 [3] (fun _ => (3 / 4)%R)) (Some (key 9))
      (mk_KeySequence (key 1)) = (Ok r2, mk_KeySequence (key 1)) /\
    shape r1 = [3] /\ shape r2 = [3] /\
    forall idx, (elem r1 idx <= elem r2 idx)%R.
Proof.
  apply (@bernoulli_monotone exact_arith counting_bits exact_arith_laws
           (mk_array float16 [3] (fun _ => (1 / 4)%R))
           (mk_array float16 [3] (fun _ => (3 / 4)%R))
           (key 9) (mk_KeySequence (key 1)));
    try reflexivity.
  - split; reflexivity.
  - intros i. cbn [elem]. lra.
Defined.

End Random.

(** ** mlx/fast.cpp *)

Module Fast.
Import Tensor.

(** Modelled from the spec: the size in bytes of a dtype (mlx/dtype.h is not
    among the sources). *)
Definition dtype_size (d : Dtype) : Z :=
  match d with
  | bool_ | uint8 | int8 => 1
  | uint16 | int16 | float16 | bfloat16 => 2
  | uint32 | int32 | float32 => 4
  | uint64 | int64 | complex64 => 8
  end.

(** Sequencing over a list of calls that may throw. *)
Fixpoint all_ok {A : Type} (l : list (outcome A)) : outcome (list A) :=
  match l with
  | [] => Ok []
  | c :: rest =>
      and_then c (fun a => and_then (all_ok rest) (fun r => Ok (a :: r)))
  end.

Fixpoint zip_with {A B C : Type} (f : A -> B -> C) (a : list A) (b : list B)
    : list C :=
  match a, b with
  | x :: a', y :: b' => f x y :: zip_with f a' b'
  | _, _ => []
  end.

(** Modelled from the spec: an elementwise operation of mlx/ops.cpp (not
    among the sources) along the last axis; extents are equal or one of
    them is 1, as the broadcasting rule of NumPy has it. *)
Definition row_binary (f : R -> R -> R) (a b : list R) : outcome (list R) :=
  if (length a =? length b)%nat then Ok (zip_with f a b)
  else if (length a =? 1)%nat then Ok (map (f (hd 0%R a)) b)
  else if (length b =? 1)%nat then Ok (map (fun x => f x (hd 0%R b)) a)
  else InvalidArgument msg_broadcast.

(** Modelled from the spec: [slice] of mlx/ops.cpp (not among the sources)
    along the last axis, for a positive stride: negative bounds count from
    the end, bounds are clamped to the axis, and the elements at [start],
    [start + stride], ... below [stop] are taken. *)
Definition slice_bound (b n : Z) : Z :=
  let b' := if b <? 0 then b + n else b in
  Z.max 0 (Z.min b' n).

Definition slice_row (start stop stride : Z) (row : list R) : list R :=
  let n := Z.of_nat (length row) in
  let st := slice_bound start n in
  let ed := slice_bound stop n in
  let count := Z.to_nat ((ed - st + stride - 1) / stride) in
  map (fun i => nth (Z.to_nat (st + Z.of_nat i * stride)) row 0%R)
      (seq 0 count).

(** [concatenate] of two arrays on a new last axis of extent 1 each, then
    flattened into the channel axis: the elements alternate. *)
Definition interleave (a b : list R) : list R :=
  flat_map (fun p => [fst p; snd p]) (combine a b).

Definition msg_reshape : string := "[reshape] Cannot reshape array.".

(** An array of rank 3 or more in the form [flatten(x, 0, ndim - 3)] gives
    it: its dtype, its own shape, and its elements as batches of positions
    of channels.  The reshapes between the two forms keep the row-major
    order of the elements. *)
Record array3 := mk_array3 {
  a_dtype : Dtype;
  a_shape : list Z;
  a_data : list (list (list R))
}.

(** The offset of [rope]: an array read as an integer. *)
Record offset_array := mk_offset {
  o_dtype : Dtype;
  o_size : Z;
  o_value : Z
}.

(** The frequencies of [rope]. *)
Record freqs_array := mk_freqs {
  f_shape : list Z;
  f_data : list R
}.

Record rope_inputs := mk_rope_inputs {
  in_x : array3;
  in_offset : offset_array;
  in_freqs : option freqs_array
}.

Definition msg_rope_ndim : string :=
  "[rope] Input must have at least 3 dimensions.".
Definition msg_rope_dtype : string := "[rope] Input must be a floating type.".
Definition msg_rope_offset_scalar : string := "[rope] offset must be a scalar.".
Definition msg_rope_offset_int : string := "[rope] offset must be an integer.".
Definition msg_rope_freqs : string :=
  "[rope] freqs must be one dimensional with size dims / 2.".
Definition msg_rope_both : string :=
  "[rope] Only one of base or freqs can have a value.".
Definition msg_rope_neither : string :=
  "[rope] Neither base nor freqs has a value.".
Definition msg_rope_vjp : string :=
  "[RoPE::vjp] vjp for offset or frequencies not supported".

Section Rope.
Context {AR : Arith}.

(** An operation on two values computed in the dtype [t]. *)
Definition op2 (f : R -> R -> R) (t : Dtype) (a b : R) : R :=
  rnd t (f (rnd t a) (rnd t b)).

Definition op1 (f : R -> R) (t : Dtype) (a : R) : R := rnd t (f (rnd t a)).

(** [positions]: [(arange(L) + offset) * scale]. *)
Definition positions (t : Dtype) (L : nat) (offset : Z) (scale : R)
    : list R :=
  map (fun l => op2 Rmult t (op2 Rplus t (IZR (Z.of_nat l)) (IZR offset))
                    scale)
      (seq 0 L).

(** [std::log] of a [float]: a real number for a positive argument only;
    it is minus infinity at 0 and NaN below 0, and the arrays of the model
    hold real numbers only. *)
Definition std_log (v : R) : option R :=
  if Rlt_dec 0 v then Some (ln v) else None.

(** [reciprocal] of a [float32]: a real number unless the argument is 0,
    where it is an infinity. *)
Definition reciprocal (v : R) : option R :=
  if Req_dec_T (rnd float32 v) 0 then None
  else Some (op1 Rinv float32 v).

(** The values of a list when all of them are real numbers. *)
Fixpoint all_real (l : list (option R)) : option (list R) :=
  match l with
  | [] => Some []
  | Some v :: rest => option_map (cons v) (all_real rest)
  | None :: _ => None
  end.

(** The [default_inv_freqs] lambda:
    [exp(arange(0, -half_dims, -1) * (log(base) / half_dims))].  When the
    base is not positive the scalar is NaN or an infinity, and so is each
    of the [half_dims] frequencies. *)
Definition default_inv_freqs (t : Dtype) (base : R) (half_dims : Z)
    : option (list R) :=
  match std_log base with
  | Some log_base =>
      Some (map (fun k =>
                   op1 exp t
                     (op2 Rmult t (- IZR (Z.of_nat k))
                          (rnd float32
                               (rnd float32 log_base / IZR half_dims))))
                (seq 0 (Z.to_nat half_dims)))
  | None => if (Z.to_nat half_dims =? 0)%nat then Some [] else None
  end.

(** [astype(reciprocal(freqs), t)], the frequencies being [float32]. *)
Definition given_inv_freqs (t : Dtype) (freqs : list R) : option (list R) :=
  all_real (map (fun f => option_map (rnd t) (reciprocal f)) freqs).

(** The [apply_rope] lambda on the channels of one position; [coss] and
    [sins] are the row of that position. *)
Definition apply_rope (t : Dtype) (forward : bool)
    (x1 x2 coss sins : list R) : outcome (list R * list R) :=
  if forward then
    and_then (row_binary (op2 Rmult t) x1 coss) (fun a =>
    and_then (row_binary (op2 Rmult t) x2 sins) (fun b =>
    and_then (row_binary (op2 Rminus t) a b) (fun o1 =>
    and_then (row_binary (op2 Rmult t) x1 sins) (fun c =>
    and_then (row_binary (op2 Rmult t) x2 coss) (fun d =>
    and_then (row_binary (op2 Rplus t) c d) (fun o2 =>
    Ok (o1, o2)))))))
  else
    and_then (row_binary (op2 Rmult t) x2 sins) (fun a =>
    and_then (row_binary (op2 Rmult t) x1 coss) (fun b =>
    and_then (row_binary (op2 Rplus t) a b) (fun o1 =>
    and_then (row_binary (op2 Rmult t) x2 coss) (fun c =>
    and_then (row_binary (op2 Rmult t) x1 sins) (fun d =>
    and_then (row_binary (op2 Rminus t) c d) (fun o2 =>
    Ok (o1, o2))))))).

(** The two branches of the fallback on the channels of one position.
    [D] is the last extent of the input. *)
Definition rope_row (t : Dtype) (dims : Z) (traditional forward : bool)
    (D : Z) (coss sins row : list R) : outcome (list R) :=
  let half_dims := Z.quot dims 2 in
  if traditional then
    let x1 := slice_row 0 dims 2 row in
    let x2 := slice_row 1 dims 2 row in
    and_then (apply_rope t forward x1 x2 coss sins) (fun outs =>
      let out := interleave (fst outs) (snd outs) in
      if dims <? D then
        if negb (Z.of_nat (length out) =? dims) then InvalidArgument msg_reshape
        else Ok (out ++ slice_row dims D 1 row)
      else Ok out)
  else
    let x1 := slice_row 0 half_dims 1 row in
    let x2 := slice_row half_dims dims 1 row in
    and_then (apply_rope t forward x1 x2 coss sins) (fun outs =>
      if dims <? D then Ok (fst outs ++ snd outs ++ slice_row dims D 1 row)
      else Ok (fst outs ++ snd outs)).

(** The fallback of [rope].  Where the inverse frequencies are no real
    numbers (a base that is not positive, a frequency that is 0) the angles
    and the rotated channels are NaN; the arrays of the model hold real
    numbers only, the model does not follow such a call and gives
    [Undefined] for it. *)
Definition rope_fallback (dims : Z) (traditional : bool) (base scale : R)
    (forward : bool) (inputs : rope_inputs) : outcome array3 :=
  let x := in_x inputs in
  let t := a_dtype x in
  let half_dims := Z.quot dims 2 in
  let D := last (a_shape x) 0 in
  match
    match in_freqs inputs with
    | Some f => given_inv_freqs t (f_data f)
    | None => default_inv_freqs t base half_dims
    end
  with
  | None => Undefined
  | Some inv_freqs =>
      let rotate (positions_of_seq : list R) (rows : list (list R)) :=
        all_ok
          (zip_with
             (fun pos row =>
                let theta := map (fun f => op2 Rmult t pos f) inv_freqs in
                let coss := map (op1 cos t) theta in
                let sins := map (op1 sin t) theta in
                and_then (rope_row t dims traditional forward D coss sins row)
                  (fun out =>
                     if negb (Z.of_nat (length out) =? D)
                     then InvalidArgument msg_reshape
                     else Ok out))
             positions_of_seq rows) in
      and_then
        (all_ok
           (map (fun rows =>
                   rotate (positions t (length rows)
                                     (o_value (in_offset inputs)) scale) rows)
                (a_data x)))
        (fun data => Ok (mk_array3 t (a_shape x) data))
  end.

(** The backend of the RoPE primitive, which the sources do not hold:
    whether the fallback is used on the stream, and the kernel otherwise. *)
Variable use_fallback : bool.
Variable eval_gpu :
  Z -> bool -> R -> R -> bool -> rope_inputs -> outcome array3.

(** [rope] on the vector of inputs, with the direction of the rotation. *)
Definition rope (inputs : rope_inputs) (dims : Z) (traditional : bool)
    (base scale : R) (forward : bool) : outcome array3 :=
  let x := in_x inputs in
  let offset := in_offset inputs in
  if (Z.of_nat (length (a_shape x)) <? 3) then InvalidArgument msg_rope_ndim
  else if negb (is_floating (a_dtype x)) then InvalidArgument msg_rope_dtype
  else if negb (o_size offset =? 1) then InvalidArgument msg_rope_offset_scalar
  else if negb (is_integer (o_dtype offset))
  then InvalidArgument msg_rope_offset_int
  else
    let offset' :=
      if negb (dtype_size (o_dtype offset) =? 4)
      then mk_offset uint32 (o_size offset) (o_value offset mod 2 ^ 32)
      else offset in
    let inputs' := mk_rope_inputs x offset' (in_freqs inputs) in
    match in_freqs inputs with
    | Some f =>
        if negb (Z.of_nat (length (f_shape f)) =? 1)
           || negb (hd 0 (f_shape f) =? Z.quot dims 2)
        then InvalidArgument msg_rope_freqs
        else if use_fallback
        then rope_fallback dims traditional base scale forward inputs'
        else eval_gpu dims traditional base scale forward inputs'
    | None =>
        if use_fallback
        then rope_fallback dims traditional base scale forward inputs'
        else eval_gpu dims traditional base scale forward inputs'
    end.

(** The public [rope]: exactly one of [base] and [freqs]. *)
Definition rope_public (x : array3) (dims : Z) (traditional : bool)
    (base : option R) (scale : R) (offset : offset_array)
    (freqs : option freqs_array) : outcome array3 :=
  match freqs, base with
  | Some _, Some _ => InvalidArgument msg_rope_both
  | None, None => InvalidArgument msg_rope_neither
  | _, _ =>
      rope (mk_rope_inputs x offset
              (option_map (fun f => mk_freqs (f_shape f)
                                      (map (rnd float32) (f_data f))) freqs))
           dims traditional
           (match base with Some b => b | None => 1%R end)
           scale true
  end.

(** The state of a RoPE primitive. *)
Record RoPE := mk_RoPE {
  dims_ : Z;
  traditional_ : bool;
  base_ : R;
  scale_ : R;
  forward_ : bool
}.

(** [RoPE::vjp]: the cotangent goes through [rope] in the other direction,
    with the offset and the frequencies of the primals. *)
Definition RoPE_vjp (p : RoPE) (primals : rope_inputs) (cotangent : array3)
    (argnums : list Z) : outcome array3 :=
  match argnums with
  | [] => Undefined
  | [0] =>
      rope (mk_rope_inputs cotangent (in_offset primals) (in_freqs primals))
           (dims_ p) (traditional_ p) (base_ p) (scale_ p)
           (negb (forward_ p))
  | _ => InvalidArgument msg_rope_vjp
  end.

End Rope.

(** *** Lists of channels *)

Section Channels.

Lemma zip_with_length {A B C} (f : A -> B -> C) a b :
  length a = length b -> length (zip_with f a b) = length a.
Proof.
  revert b; induction a as [|x a IH]; intros [|y b] H; simpl in *;
    try discriminate; auto.
Qed.

Lemma zip_with_nth (f : R -> R -> R) a b :
  length a = length b ->
  zip_with f a b =
  map (fun k => f (nth k a 0%R) (nth k b 0%R)) (seq 0 (length a)).
Proof.
  revert b; induction a as [|x a IH]; intros [|y b] H; simpl in *;
    try discriminate; auto.
  f_equal. rewrite IH by lia. rewrite <- seq_shift, map_map. reflexivity.
Qed.

Lemma row_binary_same f a b :
  length a = length b ->
  row_binary f a b =
  Ok (map (fun k => f (nth k a 0%R) (nth k b 0%R)) (seq 0 (length a))).
Proof.
  intros H. unfold row_binary. rewrite H, Nat.eqb_refl, <- H.
  now rewrite zip_with_nth.
Qed.

Lemma nth_map_seq (g : nat -> R) n k :
  (k < n)%nat -> nth k (map g (seq 0 n)) 0%R = g k.
Proof.
  intros Hk.
  rewrite (nth_indep _ 0%R (g 0%nat)) by (rewrite length_map, length_seq; lia).
  rewrite (map_nth g (seq 0 n) 0%nat k), seq_nth by lia. reflexivity.
Qed.

Lemma length_map_seq (g : nat -> R) n : length (map g (seq 0 n)) = n.
Proof. now rewrite length_map, length_seq. Qed.

Lemma map_seq_ext (g1 g2 : nat -> R) n :
  (forall k, (k < n)%nat -> g1 k = g2 k) ->
  map g1 (seq 0 n) = map g2 (seq 0 n).
Proof.
  intros H. apply map_ext_in. intros k Hk. apply in_seq in Hk. apply H. lia.
Qed.

(** A list is the list of its elements. *)
Lemma map_nth_seq_all (l : list R) :
  map (fun k => nth k l 0%R) (seq 0 (length l)) = l.
Proof.
  induction l as [|x l IH]; [reflexivity|].
  cbn [length seq map nth]. f_equal.
  rewrite <- seq_shift, map_map. exact IH.
Qed.

Lemma map_nth_seq_segment (l : list R) a k :
  (a + k <= length l)%nat ->
  map (fun i => nth (a + i) l 0%R) (seq 0 k) = firstn k (skipn a l).
Proof.
  intros H.
  rewrite <- (map_nth_seq_all (firstn k (skipn a l))).
  rewrite length_firstn, length_skipn, Nat.min_l by lia.
  apply map_seq_ext. intros i Hi.
  rewrite nth_firstn.
  destruct (Nat.ltb_spec i k); [|lia].
  now rewrite nth_skipn.
Qed.

Lemma interleave_length a b :
  length a = length b -> length (interleave a b) = (2 * length a)%nat.
Proof.
  unfold interleave. revert b; induction a as [|x a IH]; intros [|y b] H;
    cbn [length combine flat_map app] in *; try discriminate; auto.
  rewrite IH by lia. lia.
Qed.

Lemma interleave_cons x y a b :
  interleave (x :: a) (y :: b) = x :: y :: interleave a b.
Proof. reflexivity. Qed.

Lemma interleave_nth_even a b k :
  length a = length b -> (k < length a)%nat ->
  nth (2 * k) (interleave a b) 0%R = nth k a 0%R.
Proof.
  revert b k; induction a as [|x a IH]; intros [|y b] k H Hk;
    cbn [length] in *; try discriminate; try lia.
  rewrite interleave_cons. destruct k as [|k]; [reflexivity|].
  replace (2 * S k)%nat with (S (S (2 * k))) by lia.
  cbn [nth]. apply IH; lia.
Qed.

Lemma interleave_nth_odd a b k :
  length a = length b -> (k < length a)%nat ->
  nth (2 * k + 1) (interleave a b) 0%R = nth k b 0%R.
Proof.
  revert b k; induction a as [|x a IH]; intros [|y b] k H Hk;
    cbn [length] in *; try discriminate; try lia.
  rewrite interleave_cons. destruct k as [|k]; [reflexivity|].
  replace (2 * S k + 1)%nat with (S (S (2 * k + 1))) by lia.
  cbn [nth]. apply IH; lia.
Qed.

(** The even and the odd channels of a list, put back in turn. *)
Lemma interleave_even_odd (l : list R) h :
  (2 * h <= length l)%nat ->
  interleave (map (fun k => nth (2 * k) l 0%R) (seq 0 h))
             (map (fun k => nth (2 * k + 1) l 0%R) (seq 0 h)) =
  firstn (2 * h) l.
Proof.
  revert l. induction h as [|h IH]; intros l H; [reflexivity|].
  destruct l as [|x [|y l]]; cbn [length] in H; try lia.
  replace (2 * S h)%nat with (S (S (2 * h))) by lia.
  cbn [firstn seq map]. rewrite interleave_cons.
  replace (2 * 0)%nat with 0%nat by lia. cbn [nth Nat.add].
  do 2 f_equal.
  rewrite <- seq_shift, !map_map.
  rewrite <- (IH l) by lia. f_equal.
  - apply map_ext. intros k.
    replace (2 * S k)%nat with (S (S (2 * k))) by lia. reflexivity.
  - apply map_ext. intros k.
    replace (2 * S k + 1)%nat with (S (S (2 * k + 1))) by lia. reflexivity.
Qed.

Lemma row_binary_pointwise f (g1 g2 : nat -> R) h :
  row_binary f (map g1 (seq 0 h)) (map g2 (seq 0 h)) =
  Ok (map (fun k => f (g1 k) (g2 k)) (seq 0 h)).
Proof.
  rewrite row_binary_same by now rewrite !length_map_seq.
  rewrite length_map_seq. f_equal. apply map_seq_ext. intros k Hk.
  now rewrite !nth_map_seq.
Qed.

Lemma pointwise (l : list R) h :
  length l = h -> l = map (fun k => nth k l 0%R) (seq 0 h).
Proof. intros <-. symmetry. apply map_nth_seq_all. Qed.

Lemma slice_row_unit a k (row : list R) :
  (a + k <= length row)%nat ->
  slice_row (Z.of_nat a) (Z.of_nat (a + k)) 1 row = firstn k (skipn a row).
Proof.
  intros H. unfold slice_row, slice_bound.
  destruct (Z.ltb_spec (Z.of_nat a) 0); [lia|].
  destruct (Z.ltb_spec (Z.of_nat (a + k)) 0); [lia|].
  rewrite !Z.max_r, !Z.min_l by lia.
  replace (Z.of_nat (a + k) - Z.of_nat a + 1 - 1) with (Z.of_nat k) by lia.
  rewrite Z.div_1_r, Nat2Z.id.
  rewrite <- map_nth_seq_segment by assumption.
  apply map_seq_ext. intros i Hi. f_equal. lia.
Qed.

Lemma slice_row_even h (row : list R) :
  (2 * h <= length row)%nat ->
  slice_row 0 (Z.of_nat (2 * h)) 2 row =
  map (fun k => nth (2 * k) row 0%R) (seq 0 h).
Proof.
  intros H. unfold slice_row, slice_bound.
  destruct (Z.ltb_spec 0 0); [lia|].
  destruct (Z.ltb_spec (Z.of_nat (2 * h)) 0); [lia|].
  rewrite !Z.max_r, !Z.min_l by lia.
  replace ((Z.of_nat (2 * h) - 0 + 2 - 1) / 2) with (Z.of_nat h).
  2:{ apply Z.div_unique with 1; lia. }
  rewrite Nat2Z.id. apply map_seq_ext. intros i Hi. f_equal. lia.
Qed.

Lemma slice_row_odd h (row : list R) :
  (2 * h <= length row)%nat ->
  slice_row 1 (Z.of_nat (2 * h)) 2 row =
  map (fun k => nth (2 * k + 1) row 0%R) (seq 0 h).
Proof.
  intros H. unfold slice_row, slice_bound.
  destruct (Z.ltb_spec 1 0); [lia|].
  destruct (Z.ltb_spec (Z.of_nat (2 * h)) 0); [lia|].
  destruct h as [|h].
  - cbn [seq map].
    replace (Z.to_nat _) with 0%nat; [reflexivity|].
    symmetry.
    assert (Hq : (Z.max 0 (Z.min (Z.of_nat (2 * 0))
                                 (Z.of_nat (length row))) -
                  Z.max 0 (Z.min 1 (Z.of_nat (length row))) + 2 - 1) / 2 < 1)
      by (apply Z.div_lt_upper_bound; lia).
    lia.
  - rewrite !Z.max_r, !Z.min_l by lia.
    replace ((Z.of_nat (2 * S h) - 1 + 2 - 1) / 2) with (Z.of_nat (S h)).
    2:{ apply Z.div_unique with 0; lia. }
    rewrite Nat2Z.id. apply map_seq_ext. intros i Hi. f_equal. lia.
Qed.

End Channels.

(** *** Scaled dot-product attention *)

(** The leading axes of an array of matrices: the extents of the axes before
    the last two, and the matrix at each index over them. *)
Record batched (M : Type) := mk_batched {
  b_shape : list Z;
  b_at : list Z -> M
}.
Arguments mk_batched {M} b_shape b_at.
Arguments b_shape {M} b.
Arguments b_at {M} b idx.

Section Batched.
Context {M : Type}.

(** An elementwise operation on one array. *)
Definition bmap {N : Type} (f : M -> N) (t : batched M) : batched N :=
  mk_batched (b_shape t) (fun idx => f (b_at t idx)).

(** Modelled from the spec: [unflatten(t, axis, {n1, n2})] of mlx/ops.cpp
    (not among the sources) splits the axis, of extent [n1 * n2], in two;
    the element at [(.., i1, i2, ..)] is the one at [(.., i1 * n2 + i2, ..)]. *)
Definition unflatten (t : batched M) (axis : nat) (n1 n2 : Z)
    : outcome (batched M) :=
  if negb (nth axis (b_shape t) 0 =? n1 * n2) then InvalidArgument msg_reshape
  else
    Ok (mk_batched
          (firstn axis (b_shape t) ++ [n1; n2] ++ skipn (S axis) (b_shape t))
          (fun idx =>
             b_at t (firstn axis idx
                     ++ [nth axis idx 0 * n2 + nth (S axis) idx 0]
                     ++ skipn (S (S axis)) idx))).

(** Modelled from the spec: [expand_dims(t, axis)] adds an axis of extent 1. *)
Definition expand_dims (t : batched M) (axis : nat) : batched M :=
  mk_batched (firstn axis (b_shape t) ++ [1] ++ skipn axis (b_shape t))
             (fun idx => b_at t (firstn axis idx ++ skipn (S axis) idx)).

(** Modelled from the spec: [flatten(t, axis, axis + 1)] merges two axes in
    row-major order. *)
Definition flatten (t : batched M) (axis : nat) : batched M :=
  let n2 := nth (S axis) (b_shape t) 0 in
  mk_batched
    (firstn axis (b_shape t) ++ [nth axis (b_shape t) 0 * n2]
       ++ skipn (S (S axis)) (b_shape t))
    (fun idx =>
       b_at t (firstn axis idx
               ++ [nth axis idx 0 / n2; nth axis idx 0 mod n2]
               ++ skipn (S axis) idx)).

(** Modelled from the spec: [repeat(t, n, axis)] repeats each entry of the
    axis [n] times in a row, as the function of that name of NumPy does. *)
Definition repeat_axis (t : batched M) (n : Z) (axis : nat) : batched M :=
  mk_batched
    (firstn axis (b_shape t) ++ [nth axis (b_shape t) 0 * n]
       ++ skipn (S axis) (b_shape t))
    (fun idx =>
       b_at t (firstn axis idx ++ [nth axis idx 0 / n] ++ skipn (S axis) idx)).

End Batched.

(** Modelled from the spec: an operation of mlx/ops.cpp (not among the
    sources) on two arrays of matrices broadcasts the leading axes. *)
Definition bbinary {M N P : Type} (f : M -> N -> P)
    (a : batched M) (b : batched N) : outcome (batched P) :=
  and_then (broadcast_shapes (b_shape a) (b_shape b)) (fun sh =>
    Ok (mk_batched sh (fun idx =>
          f (b_at a (bidx (b_shape a) idx))
            (b_at b (bidx (b_shape b) idx))))).

(** An array of rank 4: the extent of its axis -2 and its matrices. *)
Record array4 (M : Type) := mk_array4 {
  rows : Z;
  batch : batched M
}.
Arguments mk_array4 {M} rows batch.
Arguments rows {M} a.
Arguments batch {M} a.

Section Attention.

(** The matrices and the operations on one matrix, which the sources take
    from mlx/ops.cpp: the product by the scale, the transposition of the
    last two axes, the matrix product, the softmax over the last axis, the
    mask [greater_equal(q_idx, k_idx)] of the causal mode, and the
    application of a mask ([where] with minus infinity for a boolean mask,
    [add] for the others). *)
Variables matrix mask_matrix : Type.
Variable scale_by : R -> matrix -> matrix.
Variable transpose : matrix -> matrix.
Variable matmul : matrix -> matrix -> matrix.
Variable softmax : matrix -> matrix.
Variable causal_mask : Z -> Z -> Z -> mask_matrix.
Variable apply_mask : mask_matrix -> matrix -> matrix.

(** The grouping of the fallback: when [n_repeats > 1] the queries show
    the group axis and the keys and values get an axis of extent 1. *)
Definition group (n_kv_heads n_repeats : Z) (q k v : batched matrix)
    : outcome (batched matrix * batched matrix * batched matrix) :=
  if 1 <? n_repeats then
    and_then (unflatten q 1 n_kv_heads n_repeats) (fun q' =>
      Ok (q', expand_dims k 2, expand_dims v 2))
  else Ok (q, k, v).

(** The mask of the fallback: the causal one or the last input, regrouped
    when it has a head axis. *)
Definition group_mask (n_kv_heads n_repeats : Z) (mask : batched mask_matrix)
    : outcome (batched mask_matrix) :=
  let ndim := length (b_shape mask) in
  if (1 <? n_repeats) && (1 <=? ndim)%nat then
    if last (b_shape mask) 0 =? 1 then Ok (expand_dims mask ndim)
    else unflatten mask (ndim - 1) n_kv_heads n_repeats
  else Ok mask.

(** The fallback of [scaled_dot_product_attention]; [mask] is the fourth
    input when there is one. *)
Definition sdpa_fallback (scale : R) (n_q_heads n_kv_heads : Z)
    (do_causal : bool) (queries keys values : array4 matrix)
    (mask : option (batched mask_matrix)) : outcome (batched matrix) :=
  let q := bmap (scale_by scale) (batch queries) in
  let n_repeats := Z.quot n_q_heads n_kv_heads in
  and_then (group n_kv_heads n_repeats q (batch keys) (batch values))
    (fun qkv =>
  let q := fst (fst qkv) in
  let k := snd (fst qkv) in
  let v := snd qkv in
  and_then (bbinary matmul q (bmap transpose k)) (fun scores =>
  and_then
    (let kL := rows keys in
     let qL := rows queries in
     let q_off := if kL - qL <? 0 then 0 else kL - qL in
     match (if do_causal
            then Some (mk_batched [] (fun _ => causal_mask q_off qL kL))
            else mask) with
     | None => Ok scores
     | Some mask =>
         and_then (group_mask n_kv_heads n_repeats mask) (fun mask =>
           bbinary apply_mask mask scores)
     end) (fun scores =>
  let scores := bmap softmax scores in
  and_then (bbinary matmul scores v) (fun out =>
  if 1 <? n_repeats then Ok (flatten out 1) else Ok out)))).

End Attention.

(** *** Grouped attention *)

Lemma broadcast_shapes_same2 a b :
  broadcast_shapes [a; b] [a; b] = Ok [a; b].
Proof.
  unfold broadcast_shapes. cbn [rev app broadcast_rev and_then].
  rewrite !Z.eqb_refl. reflexivity.
Qed.

Lemma broadcast_shapes_same3 a b c :
  broadcast_shapes [a; b; c] [a; b; c] = Ok [a; b; c].
Proof.
  unfold broadcast_shapes. cbn [rev app broadcast_rev and_then].
  rewrite !Z.eqb_refl. reflexivity.
Qed.

Lemma broadcast_shapes_one3 a b c :
  broadcast_shapes [a; b; c] [a; b; 1] = Ok [a; b; c].
Proof.
  unfold broadcast_shapes. cbn [rev app broadcast_rev and_then].
  rewrite !Z.eqb_refl. cbn [and_then].
  destruct (c =? 1) eqn:E;
    cbn [orb and_then rev app Z.eqb Pos.eqb]; rewrite ?Z.mul_1_r;
    reflexivity.
Qed.

Lemma broadcast_shapes_nil_l3 s : broadcast_shapes [] s = Ok s.
Proof.
  unfold broadcast_shapes. cbn [rev broadcast_rev and_then].
  now rewrite rev_involutive.
Qed.

(** A valid index is its own index in an operand of the same extent. *)
Lemma bidx_same d i : 0 <= i < d -> (if d =? 1 then 0 else i) = i.
Proof. intros H. destruct (Z.eqb_spec d 1); lia. Qed.

Lemma bidx2 a b i j :
  0 <= i < a -> 0 <= j < b -> bidx [a; b] [i; j] = [i; j].
Proof.
  intros Hi Hj. unfold bidx. cbn [rev app bidx_rev].
  now rewrite !bidx_same.
Qed.

Lemma bidx3 a b c i j k :
  0 <= i < a -> 0 <= j < b -> 0 <= k < c ->
  bidx [a; b; c] [i; j; k] = [i; j; k].
Proof.
  intros Hi Hj Hk. unfold bidx. cbn [rev app bidx_rev].
  now rewrite !bidx_same.
Qed.

Lemma bidx3_one a b i j k :
  0 <= i < a -> 0 <= j < b -> bidx [a; b; 1] [i; j; k] = [i; j; 0].
Proof.
  intros Hi Hj. unfold bidx. cbn [rev app bidx_rev Z.eqb Pos.eqb].
  now rewrite !bidx_same.
Qed.


Lemma bbinary_shapes {M N P} (f : M -> N -> P) a b sa sb sh :
  b_shape a = sa -> b_shape b = sb -> broadcast_shapes sa sb = Ok sh ->
  bbinary f a b =
  Ok (mk_batched sh (fun idx =>
        f (b_at a (bidx sa idx)) (b_at b (bidx sb idx)))).
Proof.
  intros <- <- H. unfold bbinary. now rewrite H.
Qed.

Section AttentionFacts.
Variables matrix mask_matrix : Type.
Variable scale_by : R -> matrix -> matrix.
Variable transpose : matrix -> matrix.
Variable matmul : matrix -> matrix -> matrix.
Variable softmax : matrix -> matrix.
Variable causal_mask : Z -> Z -> Z -> mask_matrix.
Variable apply_mask : mask_matrix -> matrix -> matrix.

Let fallback :=
  sdpa_fallback matrix mask_matrix scale_by transpose matmul softmax
                causal_mask apply_mask.

(** Attention on one head: the scores of the scaled queries against the
    keys, masked, normalised and applied to the values. *)
Definition attend (scale : R) (mask : option mask_matrix)
    (q k v : matrix) : matrix :=
  let scores := matmul (scale_by scale q) (transpose k) in
  let scores := match mask with
                | Some m => apply_mask m scores
                | None => scores
                end in
  matmul (softmax scores) v.

(** [repeat(k, n_repeats, 1)] on an array of rank 4. *)
Definition repeat_heads (n_repeats : Z) (a : array4 matrix) : array4 matrix :=
  mk_array4 (rows a) (repeat_axis (batch a) n_repeats 1).

(** The mask that a head reads: the causal one, the one of the array
    mask, or none. *)
Definition mask_at (do_causal : bool) (queries keys : array4 matrix)
    (mask : option (batched mask_matrix)) (b h : Z) : option mask_matrix :=
  let kL := rows keys in
  let qL := rows queries in
  let q_off := if kL - qL <? 0 then 0 else kL - qL in
  if do_causal then Some (causal_mask q_off qL kL)
  else option_map (fun m => b_at m [b; h]) mask.

Lemma fallback_ungrouped scale H do_causal queries keys values mask B :
  0 < H ->
  b_shape (batch queries) = [B; H] ->
  b_shape (batch keys) = [B; H] ->
  b_shape (batch values) = [B; H] ->
  (forall m, mask = Some m -> b_shape m = [B; H]) ->
  exists out,
    fallback scale H H do_causal queries keys values mask = Ok out /\
    b_shape out = [B; H] /\
    forall b h, 0 <= b < B -> 0 <= h < H ->
      b_at out [b; h] =
      attend scale (mask_at do_causal queries keys mask b h)
             (b_at (batch queries) [b; h])
             (b_at (batch keys) [b; h])
             (b_at (batch values) [b; h]).
Proof.
  intros HH Hq Hk Hv Hm.
  unfold fallback, sdpa_fallback, group, group_mask, mask_at.
  rewrite Z.quot_same by lia. change (1 <? 1) with false.
  cbn [andb and_then fst snd].
  rewrite (bbinary_shapes matmul _ _ [B; H] [B; H] [B; H])
    by (try assumption; apply broadcast_shapes_same2).
  cbn [and_then].
  destruct do_causal; [|destruct mask as [m|]]; cbn [and_then].
  - rewrite (bbinary_shapes apply_mask _ _ [] [B; H] [B; H])
      by (try reflexivity; apply broadcast_shapes_nil_l3).
    cbn [and_then].
    rewrite (bbinary_shapes matmul _ _ [B; H] [B; H] [B; H])
      by (try assumption; try reflexivity; apply broadcast_shapes_same2).
    eexists. split; [reflexivity|]. split; [reflexivity|].
    intros b h Hb Hh. cbn [b_at bmap].
    rewrite !bidx2 by assumption. reflexivity.
  - specialize (Hm m eq_refl).
    rewrite (bbinary_shapes apply_mask _ _ [B; H] [B; H] [B; H])
      by (try assumption; try reflexivity; apply broadcast_shapes_same2).
    cbn [and_then].
    rewrite (bbinary_shapes matmul _ _ [B; H] [B; H] [B; H])
      by (try assumption; try reflexivity; apply broadcast_shapes_same2).
    eexists. split; [reflexivity|]. split; [reflexivity|].
    intros b h Hb Hh. cbn [b_at bmap option_map].
    rewrite !bidx2 by assumption. reflexivity.
  - rewrite (bbinary_shapes matmul _ _ [B; H] [B; H] [B; H])
      by (try assumption; try reflexivity; apply broadcast_shapes_same2).
    eexists. split; [reflexivity|]. split; [reflexivity|].
    intros b h Hb Hh. cbn [b_at bmap option_map].
    rewrite !bidx2 by assumption. reflexivity.
Qed.

Lemma fallback_grouped scale Hkv n_repeats do_causal queries keys values
    mask B :
  0 < Hkv -> 1 < n_repeats ->
  b_shape (batch queries) = [B; Hkv * n_repeats] ->
  b_shape (batch keys) = [B; Hkv] ->
  b_shape (batch values) = [B; Hkv] ->
  (forall m, mask = Some m -> b_shape m = [B; Hkv * n_repeats]) ->
  exists out,
    fallback scale (Hkv * n_repeats) Hkv do_causal queries keys values mask
      = Ok out /\
    b_shape out = [B; Hkv * n_repeats] /\
    forall b h, 0 <= b < B -> 0 <= h < Hkv * n_repeats ->
      b_at out [b; h] =
      attend scale (mask_at do_causal queries keys mask b h)
             (b_at (batch queries) [b; h])
             (b_at (batch keys) [b; h / n_repeats])
             (b_at (batch values) [b; h / n_repeats]).
Proof.
  intros HH Hn Hq Hk Hv Hm.
  assert (Hidx : forall h, 0 <= h < Hkv * n_repeats ->
            0 <= h / n_repeats < Hkv /\ 0 <= h mod n_repeats < n_repeats /\
            h / n_repeats * n_repeats + h mod n_repeats = h).
  { intros h Hh. repeat split.
    - apply Z.div_pos; lia.
    - apply Z.div_lt_upper_bound; lia.
    - apply Z.mod_pos_bound; lia.
    - apply Z.mod_pos_bound; lia.
    - pose proof (Z.div_mod h n_repeats ltac:(lia)). lia. }
  unfold fallback, sdpa_fallback, group, group_mask, mask_at.
  replace (Z.quot (Hkv * n_repeats) Hkv) with n_repeats
    by (rewrite Z.mul_comm, Z.quot_mul; lia).
  destruct (Z.ltb_spec 1 n_repeats) as [_|]; [|lia].
  unfold unflatten at 1. cbn [bmap b_shape b_at]. rewrite Hq.
  cbn [nth]. rewrite Z.eqb_refl. cbn [negb and_then fst snd firstn skipn app].
  rewrite (bbinary_shapes matmul _ _ [B; Hkv; n_repeats] [B; Hkv; 1]
             [B; Hkv; n_repeats])
    by (try reflexivity; try apply broadcast_shapes_one3;
        unfold expand_dims; cbn [bmap b_shape]; rewrite Hk; reflexivity).
  cbn [and_then].
  destruct do_causal; [|destruct mask as [m|]]; cbn [and_then].
  - cbn [b_shape length Nat.leb andb and_then].
    rewrite (bbinary_shapes apply_mask _ _ [] [B; Hkv; n_repeats]
               [B; Hkv; n_repeats])
      by (try reflexivity; apply broadcast_shapes_nil_l3).
    cbn [and_then].
    rewrite (bbinary_shapes matmul _ _ [B; Hkv; n_repeats] [B; Hkv; 1]
               [B; Hkv; n_repeats])
      by (try reflexivity; try apply broadcast_shapes_one3;
          unfold expand_dims; cbn [bmap b_shape]; rewrite Hv; reflexivity).
    eexists. split; [reflexivity|]. split; [reflexivity|].
    intros b h Hb Hh. destruct (Hidx h Hh) as (Hg & Hr & Hgr).
    cbn [flatten b_at b_shape bmap expand_dims nth firstn skipn app].
    rewrite !bidx3, !bidx3_one by assumption.
    cbn [nth firstn skipn app]. rewrite Hgr. reflexivity.
  - specialize (Hm m eq_refl). rewrite Hm.
    cbn [length Nat.leb andb last].
    destruct (Z.eqb_spec (Hkv * n_repeats) 1) as [E|_]; [nia|].
    unfold unflatten at 1. rewrite Hm.
    cbn [Nat.sub nth]. rewrite Z.eqb_refl.
    cbn [negb and_then firstn skipn app].
    rewrite (bbinary_shapes apply_mask _ _ [B; Hkv; n_repeats]
               [B; Hkv; n_repeats] [B; Hkv; n_repeats])
      by (try reflexivity; apply broadcast_shapes_same3).
    cbn [and_then].
    rewrite (bbinary_shapes matmul _ _ [B; Hkv; n_repeats] [B; Hkv; 1]
               [B; Hkv; n_repeats])
      by (try reflexivity; try apply broadcast_shapes_one3;
          unfold expand_dims; cbn [bmap b_shape]; rewrite Hv; reflexivity).
    eexists. split; [reflexivity|]. split; [reflexivity|].
    intros b h Hb Hh. destruct (Hidx h Hh) as (Hg & Hr & Hgr).
    cbn [flatten b_at b_shape bmap expand_dims nth firstn skipn app
         option_map].
    rewrite !bidx3, !bidx3_one by assumption.
    cbn [nth firstn skipn app]. rewrite Hgr. reflexivity.
  - rewrite (bbinary_shapes matmul _ _ [B; Hkv; n_repeats] [B; Hkv; 1]
               [B; Hkv; n_repeats])
      by (try reflexivity; try apply broadcast_shapes_one3;
          unfold expand_dims; cbn [bmap b_shape]; rewrite Hv; reflexivity).
    eexists. split; [reflexivity|]. split; [reflexivity|].
    intros b h Hb Hh. destruct (Hidx h Hh) as (Hg & Hr & Hgr).
    cbn [flatten b_at b_shape bmap expand_dims nth firstn skipn app
         option_map].
    rewrite !bidx3, !bidx3_one by assumption.
    cbn [nth firstn skipn app]. rewrite Hgr. reflexivity.
Qed.

(** C5. With queries of [Hkv * n_repeats] heads and keys and values of
    [Hkv] heads, the fallback, which regroups the queries and broadcasts
    the keys and values over the group axis, returns what it returns, run
    without grouping, on the keys and values repeated [n_repeats] times
    along the head axis: the same shape and the same matrix at every batch
    entry and head.  [n_repeats = 2] is the case of twice as many query
    heads. *)
Theorem grouped_attention_as_repeated (scale : R) (Hkv n_repeats : Z)
    (do_causal : bool) (queries keys values : array4 matrix)
    (mask : option (batched mask_matrix)) (B : Z) :
  0 < Hkv -> 0 < n_repeats ->
  b_shape (batch queries) = [B; Hkv * n_repeats] ->
  b_shape (batch keys) = [B; Hkv] ->
  b_shape (batch values) = [B; Hkv] ->
  (forall m, mask = Some m -> b_shape m = [B; Hkv * n_repeats]) ->
  exists out out',
    fallback scale (Hkv * n_repeats) Hkv do_causal queries keys values mask
      = Ok out /\
    fallback scale (Hkv * n_repeats) (Hkv * n_repeats) do_causal queries
             (repeat_heads n_repeats keys) (repeat_heads n_repeats values)
             mask = Ok out' /\
    b_shape out = [B; Hkv * n_repeats] /\
    b_shape out' = [B; Hkv * n_repeats] /\
    forall b h, 0 <= b < B -> 0 <= h < Hkv * n_repeats ->
      b_at out [b; h] = b_at out' [b; h].
Proof.
  intros HH Hn Hq Hk Hv Hm.
  destruct (fallback_ungrouped scale (Hkv * n_repeats) do_causal queries
              (repeat_heads n_repeats keys) (repeat_heads n_repeats values)
              mask B) as (out' & Hout' & Hs' & Hat');
    try assumption; try nia.
  { cbn [repeat_heads batch repeat_axis b_shape]. rewrite Hk. reflexivity. }
  { cbn [repeat_heads batch repeat_axis b_shape]. rewrite Hv. reflexivity. }
  assert (Hgrouped : exists out,
    fallback scale (Hkv * n_repeats) Hkv do_causal queries keys values mask
      = Ok out /\
    b_shape out = [B; Hkv * n_repeats] /\
    forall b h, 0 <= b < B -> 0 <= h < Hkv * n_repeats ->
      b_at out [b; h] =
      attend scale (mask_at do_causal queries keys mask b h)
             (b_at (batch queries) [b; h])
             (b_at (batch keys) [b; h / n_repeats])
             (b_at (batch values) [b; h / n_repeats])).
  { destruct (Z.eq_dec n_repeats 1) as [->|Hne].
    - rewrite Z.mul_1_r in *.
      destruct (fallback_ungrouped scale Hkv do_causal queries keys values
                  mask B) as (out & Hout & Hs & Hat); try assumption.
      exists out. repeat split; try assumption.
      intros b h Hb Hh. rewrite Z.div_1_r. now apply Hat.
    - apply fallback_grouped; try assumption; lia. }
  destruct Hgrouped as (out & Hout & Hs & Hat).
  exists out, out'. repeat split; try assumption.
  intros b h Hb Hh. rewrite Hat, Hat' by assumption. reflexivity.
Qed.

End AttentionFacts.

(** *** RMS normalisation *)

Definition msg_rms_ndim : string :=
  "[rms_norm] Input must have at least 1 dimension but got input with 0 dimensions.".
Definition msg_rms_weight_ndim : string :=
  "[rms_norm] (*weight) must have 1 dimension.".
Definition msg_rms_weight_size : string :=
  "[rms_norm] (*weight) must have the same size as the last dimension of x.".
Definition msg_rms_type : string := "[rms_norm] Received unsupported type.".

Section RmsNorm.
Context {AR : Arith}.

(** The fallback of [rms_norm]. *)
Definition rms_norm_fallback (has_weight : bool) (eps : R) (out_type : Dtype)
    (input0 input1 : array) : outcome array :=
  let x := astype input0 float32 in
  and_then (add (mean (square x)) (scalar eps float32)) (fun v =>
  and_then (multiply x (rsqrt v)) (fun x =>
  let x := astype x out_type in
  if has_weight then multiply x input1 else Ok x)).

(** The backend of the RMSNorm primitive, which the sources do not hold. *)
Variable use_fallback : bool.
Variable eval_gpu : R -> array -> array -> outcome array.

(** [x.size()]: the number of elements. *)
Definition size (a : array) : Z := fold_right Z.mul 1 (shape a).

Definition rms_norm (x : array) (weight : option array) (eps : R)
    : outcome array :=
  let has_weight := match weight with Some _ => true | None => false end in
  if (length (shape x) =? 0)%nat then InvalidArgument msg_rms_ndim
  else
    and_then
      (match weight with
       | Some w =>
           if negb (length (shape w) =? 1)%nat
           then InvalidArgument msg_rms_weight_ndim
           else if negb (size w =? last (shape x) 0)
           then InvalidArgument msg_rms_weight_size
           else Ok tt
       | None => Ok tt
       end) (fun _ =>
    let out_type :=
      match weight with
      | Some w => promote_types (dtype x) (dtype w)
      | None => dtype x
      end in
    if negb (is_floating out_type) then InvalidArgument msg_rms_type
    else
      let passed_weight :=
        match weight with
        | Some w => astype w out_type
        | None => scalar 1 out_type
        end in
      if negb use_fallback
      then eval_gpu eps (astype x out_type) passed_weight
      else rms_norm_fallback has_weight eps out_type x passed_weight).

End RmsNorm.


(** An index within a shape. *)
Definition valid_index (s idx : list Z) : Prop :=
  Forall2 (fun d i => 0 <= i < d) s idx.

(** *** Broadcasting over the leading axes *)

Lemma broadcast_rev_nil_r0 s : broadcast_rev s [] = Ok s.
Proof. destruct s; reflexivity. Qed.

Lemma Forall2_rev {A B} (P : A -> B -> Prop) l l' :
  Forall2 P l l' -> Forall2 P (rev l) (rev l').
Proof.
  induction 1 as [|a b l l' Hab Hl IH]; cbn [rev]; [constructor|].
  apply Forall2_app; [assumption | repeat constructor; assumption].
Qed.

Lemma broadcast_rev_same s : broadcast_rev s s = Ok s.
Proof.
  induction s as [|a s IH]; [reflexivity|].
  cbn [broadcast_rev]. rewrite IH. cbn [and_then].
  now rewrite Z.eqb_refl.
Qed.

Lemma broadcast_shapes_same s : broadcast_shapes s s = Ok s.
Proof.
  unfold broadcast_shapes. rewrite broadcast_rev_same. cbn [and_then].
  now rewrite rev_involutive.
Qed.

Lemma broadcast_shapes_keepdims lead D :
  broadcast_shapes (lead ++ [D]) (lead ++ [1]) = Ok (lead ++ [D]).
Proof.
  unfold broadcast_shapes. rewrite !rev_app_distr. cbn [rev app broadcast_rev].
  rewrite broadcast_rev_same. cbn [and_then].
  destruct (D =? 1) eqn:E; cbn [orb and_then Z.eqb Pos.eqb rev];
    rewrite ?Z.mul_1_r, rev_involutive; reflexivity.
Qed.

Lemma broadcast_shapes_channel lead D :
  broadcast_shapes (lead ++ [D]) [D] = Ok (lead ++ [D]).
Proof.
  unfold broadcast_shapes. rewrite !rev_app_distr. cbn [rev app broadcast_rev].
  rewrite broadcast_rev_nil_r0. cbn [and_then]. rewrite Z.eqb_refl.
  cbn [and_then rev]. now rewrite rev_involutive.
Qed.

Lemma bidx_rev_valid s idx :
  Forall2 (fun d i => 0 <= i < d) s idx -> bidx_rev s idx = idx.
Proof.
  induction 1 as [|d i s idx Hi Hs IH]; [reflexivity|].
  cbn [bidx_rev]. now rewrite IH, bidx_same.
Qed.

Lemma bidx_valid s idx : valid_index s idx -> bidx s idx = idx.
Proof.
  intros H. unfold bidx. rewrite bidx_rev_valid by now apply Forall2_rev.
  apply rev_involutive.
Qed.

Lemma bidx_keepdims lead li j :
  valid_index lead li -> bidx (lead ++ [1]) (li ++ [j]) = li ++ [0].
Proof.
  intros H. unfold bidx. rewrite !rev_app_distr.
  cbn [rev app bidx_rev Z.eqb Pos.eqb].
  rewrite bidx_rev_valid by now apply Forall2_rev.
  now rewrite rev_involutive.
Qed.

Lemma bidx_channel D li j :
  0 <= j < D -> bidx [D] (li ++ [j]) = [j].
Proof.
  intros H. unfold bidx. rewrite !rev_app_distr.
  cbn [rev app bidx_rev]. rewrite bidx_same by assumption.
  destruct (rev li); reflexivity.
Qed.

Lemma valid_index_snoc lead D li j :
  valid_index lead li -> 0 <= j < D -> valid_index (lead ++ [D]) (li ++ [j]).
Proof.
  intros H Hj. apply Forall2_app; [assumption | repeat constructor; lia].
Qed.

Lemma sum_upto_ext g1 g2 n :
  (forall j, 0 <= j < Z.of_nat n -> g1 j = g2 j) ->
  sum_upto g1 n = sum_upto g2 n.
Proof.
  induction n as [|n IH]; intros H; [reflexivity|].
  cbn [sum_upto]. rewrite IH, H by (intros; try apply H; lia). reflexivity.
Qed.

(** Exact arithmetic: no value is changed by a conversion. *)
Class Exact (AR : Arith) : Prop :=
  rnd_exact : forall d x, rnd d x = x.

(** *** [rms_norm] *)

Section RmsNormFacts.
Context {AR : Arith}.
Hypothesis promote_same : forall d, promote_types d d = d.

Lemma arith_op_shapes f a b sa sb sh :
  shape a = sa -> shape b = sb -> broadcast_shapes sa sb = Ok sh ->
  arith_op f a b =
  Ok (mk_array (promote_types (dtype a) (dtype b)) sh
        (fun idx =>
           let t := promote_types (dtype a) (dtype b) in
           rnd t (f (rnd t (elem a (bidx sa idx)))
                    (rnd t (elem b (bidx sb idx)))))).
Proof.
  intros <- <- H. unfold arith_op, binary. now rewrite H.
Qed.

(** The part of the fallback computed in [float32]. *)
Definition rms_float32 (x : array) (eps : R) : outcome array :=
  let x := astype x float32 in
  and_then (add (mean (square x)) (scalar eps float32)) (fun v =>
  multiply x (rsqrt v)).

Lemma rms_float32_ok x eps lead D :
  shape x = lead ++ [D] ->
  exists y32,
    rms_float32 x eps = Ok y32 /\
    dtype y32 = float32 /\ shape y32 = shape x /\
    (Exact AR ->
     forall li j, valid_index lead li -> 0 <= j < D ->
       elem y32 (li ++ [j]) =
       (elem x (li ++ [j]) /
        sqrt (sum_upto (fun k => elem x (li ++ [k]) * elem x (li ++ [k]))
                       (Z.to_nat D) / IZR D + eps))%R).
Proof.
  intros Hx. unfold rms_float32, add, multiply.
  rewrite (arith_op_shapes Rplus _ _ (lead ++ [1]) [] (lead ++ [1]));
    [| cbn [mean square unary astype shape]; rewrite Hx;
       now rewrite removelast_last
     | reflexivity
     | unfold broadcast_shapes; cbn [rev];
       rewrite broadcast_rev_nil_r0; cbn [and_then];
       now rewrite rev_involutive ].
  cbn [and_then].
  rewrite (arith_op_shapes Rmult _ _ (lead ++ [D]) (lead ++ [1])
             (lead ++ [D]));
    [| cbn [astype shape]; exact Hx
     | reflexivity
     | apply broadcast_shapes_keepdims ].
  eexists. split; [reflexivity|].
  cbn [dtype shape elem astype rsqrt unary mean square scalar].
  rewrite !promote_same. split; [reflexivity|]. split; [now rewrite Hx|].
  intros EX li j Hli Hj.
  rewrite !rnd_exact. rewrite Hx, last_last.
  rewrite bidx_valid by now apply valid_index_snoc.
  rewrite bidx_keepdims by assumption.
  rewrite bidx_keepdims by assumption.
  unfold Rdiv at 2. f_equal. f_equal. f_equal. f_equal. f_equal.
  apply sum_upto_ext. intros k Hk.
  rewrite !rnd_exact, removelast_last. reflexivity.
Qed.

Lemma rms_norm_fallback_float32 has_weight eps out_type x w :
  rms_norm_fallback has_weight eps out_type x w =
  and_then (rms_float32 x eps) (fun y32 =>
    let y := astype y32 out_type in
    if has_weight then multiply y w else Ok y).
Proof.
  unfold rms_norm_fallback, rms_float32.
  destruct (add _ _); reflexivity.
Qed.


End RmsNormFacts.

(** *** The rotation in exact arithmetic *)

(** One pair of channels through [apply_rope]. *)
Definition rotate (forward : bool) (x1 x2 c s : R) : R * R :=
  if forward then (x1 * c - x2 * s, x1 * s + x2 * c)%R
  else (x2 * s + x1 * c, x2 * c - x1 * s)%R.

Lemma rotate_back x1 x2 c s :
  (c * c + s * s = 1)%R ->
  rotate false (fst (rotate true x1 x2 c s)) (snd (rotate true x1 x2 c s)) c s
  = (x1, x2).
Proof.
  intros H. cbn [rotate fst snd]. f_equal.
  - replace ((x1 * s + x2 * c) * s + (x1 * c - x2 * s) * c)%R
      with (x1 * (c * c + s * s))%R by ring.
    rewrite H. ring.
  - replace ((x1 * s + x2 * c) * c - (x1 * c - x2 * s) * s)%R
      with (x2 * (c * c + s * s))%R by ring.
    rewrite H. ring.
Qed.

Lemma cos_sin_unit a : (cos a * cos a + sin a * sin a = 1)%R.
Proof.
  pose proof (sin2_cos2 a) as H. unfold Rsqr in H. lra.
Qed.

Section RopeFacts.
Context {AR : Arith} {EX : Exact AR}.

Lemma op2_exact f t a b : op2 f t a b = f a b.
Proof. unfold op2. now rewrite !rnd_exact. Qed.

Lemma op1_exact f t a : op1 f t a = f a.
Proof. unfold op1. now rewrite !rnd_exact. Qed.

Lemma apply_rope_pointwise t forward (g1 g2 gc gs : nat -> R) h :
  apply_rope t forward (map g1 (seq 0 h)) (map g2 (seq 0 h))
             (map gc (seq 0 h)) (map gs (seq 0 h)) =
  Ok (map (fun k => fst (rotate forward (g1 k) (g2 k) (gc k) (gs k)))
          (seq 0 h),
      map (fun k => snd (rotate forward (g1 k) (g2 k) (gc k) (gs k)))
          (seq 0 h)).
Proof.
  unfold apply_rope. destruct forward;
    repeat (rewrite row_binary_pointwise; cbn [and_then]);
    do 2 f_equal; apply map_seq_ext; intros k _;
    rewrite !op2_exact; reflexivity.
Qed.

(** The channels of one position after [rope_row]: [h] rotated pairs, laid
    out in turn or in two halves, and the channels beyond [2 h] as they
    are. *)
Definition rotated_row (traditional forward : bool) (h : nat)
    (gc gs : nat -> R) (row : list R) : list R :=
  let first k := if traditional then nth (2 * k) row 0%R
                 else nth k row 0%R in
  let second k := if traditional then nth (2 * k + 1) row 0%R
                  else nth (h + k) row 0%R in
  let o1 := map (fun k => fst (rotate forward (first k) (second k)
                                      (gc k) (gs k))) (seq 0 h) in
  let o2 := map (fun k => snd (rotate forward (first k) (second k)
                                      (gc k) (gs k))) (seq 0 h) in
  (if traditional then interleave o1 o2 else o1 ++ o2) ++ skipn (2 * h) row.

Lemma rotated_row_length traditional forward h gc gs row :
  (2 * h <= length row)%nat ->
  length (rotated_row traditional forward h gc gs row) = length row.
Proof.
  intros H. unfold rotated_row. rewrite length_app, length_skipn.
  destruct traditional.
  - rewrite interleave_length by now rewrite !length_map_seq.
    rewrite length_map_seq. lia.
  - rewrite length_app, !length_map_seq. lia.
Qed.

Lemma quot_double h : Z.quot (Z.of_nat (2 * h)) 2 = Z.of_nat h.
Proof.
  rewrite Z.quot_div_nonneg by lia.
  symmetry. apply Z.div_unique with 0; lia.
Qed.

Lemma rope_row_exact t traditional forward h gc gs row :
  (2 * h <= length row)%nat ->
  rope_row t (Z.of_nat (2 * h)) traditional forward
           (Z.of_nat (length row))
           (map gc (seq 0 h)) (map gs (seq 0 h)) row =
  Ok (rotated_row traditional forward h gc gs row).
Proof.
  intros H. unfold rope_row, rotated_row.
  assert (Hrest : (if Z.of_nat (2 * h) <? Z.of_nat (length row)
                   then slice_row (Z.of_nat (2 * h))
                                  (Z.of_nat (length row)) 1 row
                   else []) = skipn (2 * h) row).
  { destruct (Z.ltb_spec (Z.of_nat (2 * h)) (Z.of_nat (length row))).
    - replace (length row) with (2 * h + (length row - 2 * h))%nat at 1
        by lia.
      rewrite slice_row_unit by lia.
      apply firstn_all2. rewrite length_skipn. lia.
    - symmetry. apply skipn_all2. lia. }
  destruct traditional.
  - rewrite slice_row_even, slice_row_odd by assumption.
    rewrite apply_rope_pointwise. cbn [and_then fst snd].
    rewrite <- Hrest.
    destruct (Z.ltb_spec (Z.of_nat (2 * h)) (Z.of_nat (length row))).
    + rewrite interleave_length by now rewrite !length_map_seq.
      rewrite length_map_seq, Z.eqb_refl. reflexivity.
    + now rewrite app_nil_r.
  - rewrite quot_double.
    pose proof (slice_row_unit 0 h row ltac:(lia)) as E1.
    cbn [Nat.add Z.of_nat skipn] in E1. rewrite E1.
    replace (2 * h)%nat with (h + h)%nat at 1 by lia.
    rewrite (slice_row_unit h h row) by lia.
    rewrite <- (map_nth_seq_segment row h h) by lia.
    pose proof (map_nth_seq_segment row 0 h ltac:(lia)) as E2.
    cbn [Nat.add skipn] in E2. rewrite <- E2.
    rewrite apply_rope_pointwise. cbn [and_then fst snd].
    rewrite <- Hrest.
    destruct (Z.ltb_spec (Z.of_nat (2 * h)) (Z.of_nat (length row)));
      rewrite <- ?app_assoc, ?app_nil_r; reflexivity.
Qed.

Lemma rotated_row_rest traditional forward h gc gs row :
  skipn (2 * h) (rotated_row traditional forward h gc gs row) =
  skipn (2 * h) row.
Proof.
  unfold rotated_row. rewrite skipn_app.
  destruct traditional.
  - rewrite skipn_all2
      by (rewrite interleave_length, length_map_seq;
          [lia | now rewrite !length_map_seq]).
    rewrite interleave_length, length_map_seq, Nat.sub_diag
      by now rewrite !length_map_seq.
    reflexivity.
  - rewrite skipn_all2 by (rewrite length_app, !length_map_seq; lia).
    rewrite length_app, !length_map_seq.
    replace (2 * h - (h + h))%nat with 0%nat by lia. reflexivity.
Qed.

Lemma rotated_row_first (traditional : bool) forward h gc gs row k :
  (k < h)%nat ->
  nth (if traditional then 2 * k else k)%nat
      (rotated_row traditional forward h gc gs row) 0%R =
  fst (rotate forward
         (if traditional then nth (2 * k) row 0%R else nth k row 0%R)
         (if traditional then nth (2 * k + 1) row 0%R
          else nth (h + k) row 0%R)
         (gc k) (gs k)).
Proof.
  intros Hk. unfold rotated_row. destruct traditional.
  - rewrite app_nth1
      by (rewrite interleave_length, length_map_seq;
          [lia | now rewrite !length_map_seq]).
    rewrite interleave_nth_even
      by (rewrite ?length_map_seq; auto).
    now rewrite nth_map_seq.
  - rewrite app_nth1 by (rewrite length_app, !length_map_seq; lia).
    rewrite app_nth1 by (rewrite length_map_seq; lia).
    now rewrite nth_map_seq.
Qed.

Lemma rotated_row_second (traditional : bool) forward h gc gs row k :
  (k < h)%nat ->
  nth (if traditional then 2 * k + 1 else h + k)%nat
      (rotated_row traditional forward h gc gs row) 0%R =
  snd (rotate forward
         (if traditional then nth (2 * k) row 0%R else nth k row 0%R)
         (if traditional then nth (2 * k + 1) row 0%R
          else nth (h + k) row 0%R)
         (gc k) (gs k)).
Proof.
  intros Hk. unfold rotated_row. destruct traditional.
  - rewrite app_nth1
      by (rewrite interleave_length, length_map_seq;
          [lia | now rewrite !length_map_seq]).
    rewrite interleave_nth_odd
      by (rewrite ?length_map_seq; auto).
    now rewrite nth_map_seq.
  - rewrite app_nth1 by (rewrite length_app, !length_map_seq; lia).
    rewrite app_nth2 by (rewrite length_map_seq; lia).
    rewrite length_map_seq.
    replace (h + k - h)%nat with k by lia.
    now rewrite nth_map_seq.
Qed.

(** The rotation back undoes the rotation, whatever the layout. *)
Lemma rotated_row_back traditional h gc gs row :
  (2 * h <= length row)%nat ->
  (forall k, (k < h)%nat -> (gc k * gc k + gs k * gs k = 1)%R) ->
  rotated_row traditional false h gc gs
    (rotated_row traditional true h gc gs row) = row.
Proof.
  intros H Hunit.
  pose proof (rotated_row_rest traditional true h gc gs row) as Hrest.
  set (row' := rotated_row traditional true h gc gs row) in *.
  unfold rotated_row. rewrite Hrest.
  transitivity (firstn (2 * h) row ++ skipn (2 * h) row);
    [| apply firstn_skipn].
  f_equal.
  destruct traditional.
  - rewrite <- interleave_even_odd by assumption.
    f_equal; apply map_seq_ext; intros k Hk; unfold row';
      rewrite (rotated_row_first true true h gc gs row k Hk),
              (rotated_row_second true true h gc gs row k Hk);
      now rewrite rotate_back by auto.
  - replace (2 * h)%nat with (h + h)%nat by lia.
    rewrite <- (firstn_skipn h (firstn (h + h) row)).
    rewrite firstn_firstn, Nat.min_l by lia.
    rewrite skipn_firstn_comm.
    replace (h + h - h)%nat with h by lia.
    pose proof (map_nth_seq_segment row 0 h ltac:(lia)) as E1.
    cbn [Nat.add skipn] in E1. rewrite <- E1.
    rewrite <- (map_nth_seq_segment row h h) by lia.
    f_equal; apply map_seq_ext; intros k Hk; unfold row';
      rewrite (rotated_row_first false true h gc gs row k Hk),
              (rotated_row_second false true h gc gs row k Hk);
      now rewrite rotate_back by auto.
Qed.

(** *** The fallback over a whole array *)

Lemma all_ok_map_Ok {A} (l : list A) : all_ok (map Ok l) = Ok l.
Proof.
  induction l as [|a l IH]; [reflexivity|].
  cbn [map all_ok and_then]. rewrite IH. reflexivity.
Qed.

Lemma zip_with_map_Ok {A B C} (F : A -> B -> outcome C) (G : A -> B -> C)
    (P : B -> Prop) ps rows :
  (forall p r, P r -> F p r = Ok (G p r)) ->
  Forall P rows ->
  zip_with F ps rows = map Ok (zip_with G ps rows).
Proof.
  intros HF Hrows. revert ps.
  induction Hrows as [|r rows Hr Hrows IH]; intros [|p ps];
    cbn [zip_with map]; try reflexivity.
  now rewrite HF, IH.
Qed.

Lemma map_ext_Forall {A B} (f g : A -> B) (P : A -> Prop) l :
  (forall a, P a -> f a = g a) -> Forall P l -> map f l = map g l.
Proof.
  intros H HP. induction HP as [|a l Ha Hl IH]; [reflexivity|].
  cbn [map]. now rewrite H, IH.
Qed.

Lemma zip_with_back {A} (G G' : A -> list R -> list R) (P : list R -> Prop)
    ps rows :
  (forall p r, P r -> G' p (G p r) = r) ->
  Forall P rows -> length ps = length rows ->
  zip_with G' ps (zip_with G ps rows) = rows.
Proof.
  intros HG Hrows. revert ps.
  induction Hrows as [|r rows Hr Hrows IH]; intros [|p ps] Hlen;
    cbn [zip_with length] in *; try discriminate; try reflexivity.
  rewrite HG by assumption. rewrite IH by lia. reflexivity.
Qed.

Lemma Forall_zip_with {A} (G : A -> list R -> list R) (P Q : list R -> Prop)
    ps rows :
  (forall p r, P r -> Q (G p r)) ->
  Forall P rows -> Forall Q (zip_with G ps rows).
Proof.
  intros HG Hrows. revert ps.
  induction Hrows as [|r rows Hr Hrows IH]; intros [|p ps];
    cbn [zip_with]; constructor; auto.
Qed.

(** The inverse frequencies of a call, when they are real numbers. *)
Definition inv_freqs_of (t : Dtype) (dims : Z) (base : R)
    (freqs : option freqs_array) : option (list R) :=
  match freqs with
  | Some f => given_inv_freqs t (f_data f)
  | None => default_inv_freqs t base (Z.quot dims 2)
  end.

Lemma given_inv_freqs_real t fs :
  Forall (fun v => v <> 0%R) fs ->
  exists inv, given_inv_freqs t fs = Some inv /\ length inv = length fs.
Proof.
  unfold given_inv_freqs.
  induction 1 as [|v fs Hv Hfs (inv & IH & Hlen)]; cbn [map all_real].
  - exists []. split; reflexivity.
  - unfold reciprocal at 1. rewrite rnd_exact.
    destruct (Req_dec_T v 0) as [E|_]; [contradiction|].
    cbn [option_map]. rewrite IH. cbn [option_map].
    eexists. split; [reflexivity|]. cbn [length]. now rewrite Hlen.
Qed.

(** A positive base, or frequencies without a zero, give inverse
    frequencies that are real numbers, one for each rotated pair. *)
Lemma inv_freqs_real t h base freqs :
  (freqs = None -> (0 < base)%R) ->
  (forall f, freqs = Some f ->
             length (f_data f) = h /\ Forall (fun v => v <> 0%R) (f_data f)) ->
  exists inv,
    inv_freqs_of t (Z.of_nat (2 * h)) base freqs = Some inv /\
    length inv = h.
Proof.
  intros Hbase Hfreqs. unfold inv_freqs_of. destruct freqs as [f|].
  - destruct (Hfreqs f eq_refl) as [Hlen Hnz].
    destruct (given_inv_freqs_real t (f_data f) Hnz) as (inv & Hinv & Hl).
    exists inv. split; [exact Hinv | congruence].
  - unfold default_inv_freqs, std_log.
    destruct (Rlt_dec 0 base) as [_|Hn]; [|elim Hn; now apply Hbase].
    eexists. split; [reflexivity|].
    now rewrite length_map, length_seq, quot_double, Nat2Z.id.
Qed.

(** The rotated sequences of a batch entry. *)
Definition rotated_rows (traditional forward : bool) (h : nat)
    (inv : list R) (ps : list R) (rows : list (list R)) : list (list R) :=
  zip_with
    (fun pos row =>
       rotated_row traditional forward h
         (fun k => cos (pos * nth k inv 0))%R
         (fun k => sin (pos * nth k inv 0))%R row)
    ps rows.

Lemma positions_length t L offset scale :
  length (positions t L offset scale) = L.
Proof. unfold positions. now rewrite length_map, length_seq. Qed.

Lemma rope_fallback_exact h traditional base scale forward inputs D inv :
  let x := in_x inputs in
  let dims := Z.of_nat (2 * h) in
  inv_freqs_of (a_dtype x) dims base (in_freqs inputs) = Some inv ->
  last (a_shape x) 0 = Z.of_nat D ->
  (2 * h <= D)%nat ->
  length inv = h ->
  Forall (Forall (fun row => length row = D)) (a_data x) ->
  rope_fallback dims traditional base scale forward inputs =
  Ok (mk_array3 (a_dtype x) (a_shape x)
        (map (fun rows =>
                rotated_rows traditional forward h inv
                  (positions (a_dtype x) (length rows)
                             (o_value (in_offset inputs)) scale) rows)
             (a_data x))).
Proof.
  intros x dims Hsome HD Hh Hinv Hrows.
  unfold rope_fallback. fold x. rewrite HD. fold dims.
  change (match in_freqs inputs with
          | Some f => given_inv_freqs (a_dtype x) (f_data f)
          | None => default_inv_freqs (a_dtype x) base (Z.quot dims 2)
          end)
    with (inv_freqs_of (a_dtype x) dims base (in_freqs inputs)).
  rewrite Hsome.
  rewrite (map_ext_Forall _
    (fun rows => Ok (rotated_rows traditional forward h inv
        (positions (a_dtype x) (length rows)
                   (o_value (in_offset inputs)) scale) rows))
    (Forall (fun row => length row = D)) (a_data x)); [| | exact Hrows].
  - rewrite <- (map_map _ Ok), all_ok_map_Ok. reflexivity.
  - intros rows Hr. unfold rotated_rows.
    erewrite zip_with_map_Ok; [apply all_ok_map_Ok | | exact Hr].
    intros pos row Hrow. cbv beta.
    rewrite (pointwise inv h Hinv) at 1. rewrite !map_map.
    rewrite (map_seq_ext _ (fun k => cos (pos * nth k inv 0))%R)
      by (intros; now rewrite op1_exact, op2_exact).
    rewrite (pointwise inv h Hinv) at 1. rewrite !map_map.
    rewrite (map_seq_ext
               (fun k => op1 sin (a_dtype x)
                           (op2 Rmult (a_dtype x) pos (nth k inv 0%R)))
               (fun k => sin (pos * nth k inv 0))%R)
      by (intros; now rewrite op1_exact, op2_exact).
    cbv beta in Hrow. subst D. unfold dims.
    rewrite rope_row_exact by lia.
    cbn [and_then]. rewrite rotated_row_length by lia.
    now rewrite Z.eqb_refl.
Qed.

Lemma rotated_rows_rest traditional forward h inv ps rows :
  length ps = length rows ->
  map (skipn (2 * h)) (rotated_rows traditional forward h inv ps rows) =
  map (skipn (2 * h)) rows.
Proof.
  unfold rotated_rows. revert ps.
  induction rows as [|r rows IH]; intros [|p ps] Hlen;
    cbn [length zip_with map] in *; try discriminate; try reflexivity.
  rewrite rotated_row_rest, IH by lia. reflexivity.
Qed.

End RopeFacts.

(** C3 (amended). In exact arithmetic, for an array of rank 3 or more of a
    floating type whose last extent is [D], an even [dims = 2 h <= D], and
    the same positive base or frequencies without a zero, scale and offset:
    [rope] with [forward = true]
    followed by [rope] with [forward = false] gives the array back, in the
    traditional layout and in the other; so does [RoPE::vjp] on the rotated
    array as cotangent; and the rotation leaves the channels beyond [dims]
    as they are. *)
Theorem rope_round_trip {AR : Arith} {EX : Exact AR}
    (eval_gpu : Z -> bool -> R -> R -> bool -> rope_inputs -> outcome array3)
    (x : array3) (offset : offset_array) (freqs : option freqs_array)
    (h D : nat) (traditional : bool) (base scale : R) :
  let dims := Z.of_nat (2 * h) in
  let inputs := mk_rope_inputs x offset freqs in
  (3 <= length (a_shape x))%nat ->
  is_floating (a_dtype x) = true ->
  last (a_shape x) 0 = Z.of_nat D ->
  Forall (Forall (fun row => length row = D)) (a_data x) ->
  (2 * h <= D)%nat ->
  o_size offset = 1 -> is_integer (o_dtype offset) = true ->
  (freqs = None -> (0 < base)%R) ->
  (forall f, freqs = Some f ->
             f_shape f = [Z.of_nat h] /\ length (f_data f) = h /\
             Forall (fun v => v <> 0%R) (f_data f)) ->
  exists y,
    rope true eval_gpu inputs dims traditional base scale true = Ok y /\
    a_dtype y = a_dtype x /\ a_shape y = a_shape x /\
    rope true eval_gpu (mk_rope_inputs y offset freqs)
         dims traditional base scale false = Ok x /\
    RoPE_vjp true eval_gpu (mk_RoPE dims traditional base scale true)
             inputs y [0] = Ok x /\
    map (map (skipn (2 * h))) (a_data y) =
    map (map (skipn (2 * h))) (a_data x).
Proof.
  intros dims inputs Hrank Hfloat HD Hrows Hh Hsize Hint Hbase Hfreqs.
  destruct (inv_freqs_real (a_dtype x) h base freqs Hbase
              (fun f Hf => proj2 (Hfreqs f Hf)))
    as (inv & Hsome & Hinv).
  set (off := if negb (dtype_size (o_dtype offset) =? 4)
              then mk_offset uint32 (o_size offset) (o_value offset mod 2 ^ 32)
              else offset).
  set (ps := fun rows : list (list R) =>
               positions (a_dtype x) (length rows) (o_value off) scale).
  set (data' := map (fun rows =>
                       rotated_rows traditional true h inv (ps rows) rows)
                    (a_data x)).
  set (y := mk_array3 (a_dtype x) (a_shape x) data').
  assert (Hcall : forall (z : array3) forward,
    a_dtype z = a_dtype x -> a_shape z = a_shape x ->
    Forall (Forall (fun row => length row = D)) (a_data z) ->
    rope true eval_gpu (mk_rope_inputs z offset freqs)
         dims traditional base scale forward =
    Ok (mk_array3 (a_dtype x) (a_shape x)
          (map (fun rows =>
                  rotated_rows traditional forward h inv (ps rows) rows)
               (a_data z)))).
  { intros z forward Hdt Hsh Hz. unfold rope.
    cbn [in_x in_offset in_freqs]. fold off.
    rewrite Hsh, Hdt, Hfloat, Hsize, Hint, Z.eqb_refl.
    destruct (Z.ltb_spec (Z.of_nat (length (a_shape x))) 3); [lia|].
    cbn [negb].
    assert (Hfb : rope_fallback dims traditional base scale forward
                    (mk_rope_inputs z off freqs) =
                  Ok (mk_array3 (a_dtype x) (a_shape x)
                        (map (fun rows =>
                                rotated_rows traditional forward h inv
                                             (ps rows) rows)
                             (a_data z)))).
    { unfold dims.
      rewrite (rope_fallback_exact h traditional base scale forward
                 (mk_rope_inputs z off freqs) D inv);
        cbn [in_x in_offset in_freqs]; rewrite ?Hdt, ?Hsh; auto. }
    destruct freqs as [f|]; [|exact Hfb].
    destruct (Hfreqs f eq_refl) as [Hfs _]. rewrite Hfs.
    cbn [length hd]. unfold dims at 1. rewrite quot_double.
    rewrite !Z.eqb_refl. cbn [negb orb].
    exact Hfb. }
  assert (Hy : Forall (Forall (fun row => length row = D)) data').
  { unfold data'. apply Forall_map.
    eapply Forall_impl; [|exact Hrows]. intros rows Hr.
    unfold rotated_rows.
    eapply Forall_zip_with; [|exact Hr].
    intros p r Hlen. cbv beta in *.
    rewrite rotated_row_length; lia. }
  exists y. split; [apply (Hcall x true); auto|].
  split; [reflexivity|]. split; [reflexivity|].
  assert (Hback : rope true eval_gpu (mk_rope_inputs y offset freqs)
                       dims traditional base scale false = Ok x).
  { rewrite (Hcall y false) by auto.
    destruct x as [t sh data]. cbn [a_dtype a_shape a_data y] in *.
    do 2 f_equal. unfold data'. rewrite map_map.
    rewrite <- (map_id data) at 2.
    eapply map_ext_Forall; [|exact Hrows].
    intros rows Hr. unfold rotated_rows.
    assert (Hps : ps (zip_with
                        (fun pos row =>
                           rotated_row traditional true h
                             (fun k => cos (pos * nth k inv 0))%R
                             (fun k => sin (pos * nth k inv 0))%R row)
                        (ps rows) rows) = ps rows).
    { unfold ps at 1. f_equal.
      rewrite zip_with_length by (unfold ps; now rewrite positions_length).
      unfold ps. now rewrite positions_length. }
    rewrite Hps.
    eapply zip_with_back; [| exact Hr |].
    - intros p r Hlen. cbv beta in *.
      apply rotated_row_back; [lia|].
      intros k _. apply cos_sin_unit.
    - unfold ps. now rewrite positions_length. }
  split; [exact Hback|]. split; [exact Hback|].
  cbn [a_data y]. unfold data'. rewrite map_map.
  eapply map_ext_Forall; [|exact Hrows].
  intros rows Hr. unfold rotated_rows.
  apply rotated_rows_rest. unfold ps. now rewrite positions_length.
Qed.

Lemma exact_arith_exact : Exact exact_arith.
Proof. intros d x. reflexivity. Qed.

(** Attention on 1 x 1 matrices, for a run of the fallback. *)
Definition scalar_attention :=
  sdpa_fallback R R Rmult (fun m => m) Rmult (fun m => m)
                (fun _ _ _ => 0%R) Rplus.

Definition heads_of (n : Z) (offset : Z) : array4 R :=
  mk_array4 1 (mk_batched [1; n] (fun idx => IZR (nth 1 idx 0 + offset))).

Lemma grouped_attention_as_repeated_witness :
  exists out out',
    scalar_attention 1%R (2 * 2) 2 false (heads_of (2 * 2) 0) (heads_of 2 5)
                     (heads_of 2 7) None = Ok out /\
    scalar_attention 1%R (2 * 2) (2 * 2) false (heads_of (2 * 2) 0)
                     (repeat_heads R 2 (heads_of 2 5))
                     (repeat_heads R 2 (heads_of 2 7)) None = Ok out' /\
    forall b h, 0 <= b < 1 -> 0 <= h < 2 * 2 ->
      b_at out [b; h] = b_at out' [b; h].
Proof.
  destruct (grouped_attention_as_repeated R R Rmult (fun m => m) Rmult
              (fun m => m) (fun _ _ _ => 0%R) Rplus
              1%R 2 2 false (heads_of (2 * 2) 0) (heads_of 2 5)
              (heads_of 2 7) None 1)
    as (out & out' & H1 & H2 & _ & _ & H3).
  - lia.
  - lia.
  - reflexivity.
  - reflexivity.
  - reflexivity.
  - discriminate.
  - exists out, out'. repeat split; assumption.
Defined.

Lemma exact_arith_promote_same : forall d, @promote_types exact_arith d d = d.
Proof. intros d. destruct d; reflexivity. Qed.

(** A backend without kernel for RMSNorm. *)
Definition no_rms_kernel (eps : R) (x w : array) : outcome array :=
  RuntimeError "NYI".


(** A backend without kernel for RoPE. *)
Definition no_kernel (dims : Z) (traditional : bool) (base scale : R)
    (forward : bool) (inputs : rope_inputs) : outcome array3 :=
  RuntimeError "NYI".

Lemma rope_round_trip_witness :
  exists y,
    @rope exact_arith true no_kernel
          (mk_rope_inputs
             (mk_array3 float32 [1; 2; 4] [[[1; 2; 3; 4]; [5; 6; 7; 8]]]%R)
             (mk_offset int32 1 3) None)
          2 true 10000 1 true = Ok y /\
    @rope exact_arith true no_kernel
          (mk_rope_inputs y (mk_offset int32 1 3) None)
          2 true 10000 1 false =
    Ok (mk_array3 float32 [1; 2; 4] [[[1; 2; 3; 4]; [5; 6; 7; 8]]]%R).
Proof.
  destruct (@rope_round_trip exact_arith exact_arith_exact no_kernel
              (mk_array3 float32 [1; 2; 4] [[[1; 2; 3; 4]; [5; 6; 7; 8]]]%R)
              (mk_offset int32 1 3) None 1 4 true 10000%R 1%R)
    as (y & Hy & _ & _ & Hback & _).
  - simpl; lia.
  - reflexivity.
  - reflexivity.
  - repeat constructor.
  - lia.
  - reflexivity.
  - reflexivity.
  - intros _. lra.
  - discriminate.
  - exists y. split; assumption.
Defined.

(** With an odd [dims] the fallback does not return, in either layout: the
    rotated channels and the channels passed through do not fill the shape
    of the input, and the last [reshape] throws. *)
Lemma rope_odd_dims_raises :
  let inputs :=
    mk_rope_inputs (mk_array3 float32 [1; 1; 4] [[[1; 2; 3; 4]%R]])
                   (mk_offset int32 1 0) None in
  @rope exact_arith true no_kernel inputs 3 false 10000 1 true =
    InvalidArgument msg_reshape /\
  @rope exact_arith true no_kernel inputs 3 true 10000 1 true =
    InvalidArgument msg_reshape.
Proof.
  assert (Hlog : std_log 10000 = Some (ln 10000)).
  { unfold std_log. destruct (Rlt_dec 0 10000) as [_|Hn]; [reflexivity|].
    elim Hn. lra. }
  split;
    cbv - [exp cos sin ln Rmult Rplus Rminus Rinv Rdiv IZR Ropp std_log];
    rewrite Hlog;
    cbv - [exp cos sin ln Rmult Rplus Rminus Rinv Rdiv IZR Ropp];
    reflexivity.
Qed.

(** *** Layer normalisation *)

Definition msg_ln_ndim : string :=
  "[layer_norm] Input must have at least 1 dimension but got input with 0 dimensions.".
Definition msg_ln_weight_ndim : string :=
  "[layer_norm] weight must have 1 dimension.".
Definition msg_ln_bias_ndim : string :=
  "[layer_norm] bias must have 1 dimension.".
Definition msg_ln_type : string := "[layer_norm] Received unsupported type.".

Section LayerNorm.
Context {AR : Arith}.

(** The fallback of [layer_norm]. *)
Definition layer_norm_fallback (has_weight has_bias : bool) (eps : R)
    (out_type : Dtype) (input0 input1 input2 : array) : outcome array :=
  let x := astype input0 float32 in
  let mu := mean x in
  and_then (subtract x mu) (fun xc =>
  let v := mean (square xc) in
  and_then (add v (scalar eps float32)) (fun ve =>
  and_then (multiply xc (rsqrt ve)) (fun x =>
  let x := astype x out_type in
  and_then (if has_weight then multiply x input1 else Ok x) (fun x =>
  if has_bias then add x input2 else Ok x)))).

(** The backend of the LayerNorm primitive, which the sources do not
    hold. *)
Variable use_fallback : bool.
Variable eval_gpu : R -> array -> array -> array -> outcome array.

(** The output type of [layer_norm]: the dtype of the bias counts only
    when there is a weight.  Modelled from the spec: [result_type] of
    mlx/utils.h (not among the sources) promotes the dtypes of its
    arguments in turn. *)
Definition layer_norm_type (x : array) (weight bias : option array)
    : Dtype :=
  match weight with
  | Some w =>
      match bias with
      | Some b => promote_types (promote_types (dtype x) (dtype w)) (dtype b)
      | None => promote_types (dtype x) (dtype w)
      end
  | None => dtype x
  end.

Definition has_value {A} (o : option A) : bool :=
  match o with Some _ => true | None => false end.

Definition layer_norm (x : array) (weight bias : option array) (eps : R)
    : outcome array :=
  if (length (shape x) =? 0)%nat then InvalidArgument msg_ln_ndim
  else if match weight with
          | Some w => negb (length (shape w) =? 1)%nat
          | None => false
          end
  then InvalidArgument msg_ln_weight_ndim
  else if match bias with
          | Some b => negb (length (shape b) =? 1)%nat
          | None => false
          end
  then InvalidArgument msg_ln_bias_ndim
  else
    let out_type := layer_norm_type x weight bias in
    if negb (is_floating out_type) then InvalidArgument msg_ln_type
    else
      let passed_weight :=
        match weight with
        | Some w => astype w out_type
        | None => scalar 1 out_type
        end in
      let passed_bias :=
        match bias with
        | Some b => astype b out_type
        | None => scalar 0 out_type
        end in
      if negb use_fallback
      then eval_gpu eps (astype x out_type) passed_weight passed_bias
      else layer_norm_fallback (has_value weight) (has_value bias) eps
             out_type x passed_weight passed_bias.

End LayerNorm.

(** *** Sums over an axis *)

Lemma sum_upto_plus g1 g2 n :
  sum_upto (fun j => g1 j + g2 j)%R n = (sum_upto g1 n + sum_upto g2 n)%R.
Proof.
  induction n as [|n IH]; cbn [sum_upto]; [lra | rewrite IH; lra].
Qed.

Lemma sum_upto_scal c g n :
  sum_upto (fun j => c * g j)%R n = (c * sum_upto g n)%R.
Proof.
  induction n as [|n IH]; cbn [sum_upto]; [lra | rewrite IH; lra].
Qed.

Lemma sum_upto_const c n : sum_upto (fun _ => c) n = (INR n * c)%R.
Proof.
  induction n as [|n IH]; [cbn; lra|].
  cbn [sum_upto]. rewrite IH, S_INR. lra.
Qed.

Lemma sum_upto_nonneg g n :
  (forall j, 0 <= j < Z.of_nat n -> (0 <= g j)%R) -> (0 <= sum_upto g n)%R.
Proof.
  induction n as [|n IH]; intros H; cbn [sum_upto]; [lra|].
  assert (0 <= sum_upto g n)%R by (apply IH; intros; apply H; lia).
  assert (0 <= g (Z.of_nat n))%R by (apply H; lia). lra.
Qed.

(** *** [layer_norm] *)

Section LayerNormFacts.
Context {AR : Arith}.
Hypothesis promote_same : forall d, promote_types d d = d.

(** The part of the fallback computed in [float32]. *)
Definition ln_float32 (x : array) (eps : R) : outcome array :=
  let x := astype x float32 in
  and_then (subtract x (mean x)) (fun xc =>
  and_then (add (mean (square xc)) (scalar eps float32)) (fun ve =>
  multiply xc (rsqrt ve))).

(** The mean and the variance of the row [li] of [x]. *)
Definition row_mean (x : array) (li : list Z) (D : Z) : R :=
  (sum_upto (fun k => elem x (li ++ [k])) (Z.to_nat D) / IZR D)%R.

Definition row_variance (x : array) (li : list Z) (D : Z) : R :=
  (sum_upto (fun k => (elem x (li ++ [k]) - row_mean x li D)
                      * (elem x (li ++ [k]) - row_mean x li D))
            (Z.to_nat D) / IZR D)%R.

Lemma ln_float32_ok x eps lead D :
  shape x = lead ++ [D] ->
  exists y32,
    ln_float32 x eps = Ok y32 /\
    dtype y32 = float32 /\ shape y32 = shape x /\
    (Exact AR ->
     forall li j, valid_index lead li -> 0 <= j < D ->
       elem y32 (li ++ [j]) =
       ((elem x (li ++ [j]) - row_mean x li D) /
        sqrt (row_variance x li D + eps))%R).
Proof.
  intros Hx. unfold ln_float32, subtract, add, multiply.
  rewrite (arith_op_shapes Rminus _ _ (lead ++ [D]) (lead ++ [1])
             (lead ++ [D]));
    [| cbn [astype shape]; exact Hx
     | cbn [mean astype shape]; rewrite Hx; now rewrite removelast_last
     | apply broadcast_shapes_keepdims ].
  cbn [and_then].
  rewrite (arith_op_shapes Rplus _ _ (lead ++ [1]) [] (lead ++ [1]));
    [| cbn [mean square unary astype shape]; now rewrite removelast_last
     | reflexivity
     | unfold broadcast_shapes; cbn [rev];
       rewrite broadcast_rev_nil_r0; cbn [and_then];
       now rewrite rev_involutive ].
  cbn [and_then].
  rewrite (arith_op_shapes Rmult _ _ (lead ++ [D]) (lead ++ [1])
             (lead ++ [D]));
    [| reflexivity
     | reflexivity
     | apply broadcast_shapes_keepdims ].
  eexists. split; [reflexivity|].
  cbn [dtype shape elem astype rsqrt unary mean square scalar].
  rewrite !promote_same. split; [reflexivity|]. split; [now rewrite Hx|].
  intros EX li j Hli Hj.
  rewrite !rnd_exact. rewrite Hx, !last_last.
  assert (Hv : forall k, 0 <= k < D ->
            bidx (lead ++ [D]) (li ++ [k]) = li ++ [k])
    by (intros; apply bidx_valid; now apply valid_index_snoc).
  assert (Hk : forall k, bidx (lead ++ [1]) (li ++ [k]) = li ++ [0])
    by (intros; now apply bidx_keepdims).
  rewrite !(Hv j Hj), !Hk, ?(Hv j Hj), !removelast_last.
  assert (Hmean : forall l,
            sum_upto (fun k => rnd float32 (elem x (l ++ [k]))) (Z.to_nat D)
            = sum_upto (fun k => elem x (l ++ [k])) (Z.to_nat D))
    by (intros; apply sum_upto_ext; intros; apply rnd_exact).
  rewrite Hmean. fold (row_mean x li D).
  match goal with
  | |- context [sqrt (sum_upto ?g _ / _ + _)] =>
      rewrite (sum_upto_ext g
                 (fun k => (elem x (li ++ [k]) - row_mean x li D)
                           * (elem x (li ++ [k]) - row_mean x li D))%R)
  end.
  - reflexivity.
  - intros k Hkr. cbv beta.
    rewrite !rnd_exact, !Hk, !removelast_last, Hmean.
    rewrite Hv by lia. reflexivity.
Qed.

Lemma layer_norm_fallback_float32 has_weight has_bias eps out_type x w b :
  layer_norm_fallback has_weight has_bias eps out_type x w b =
  and_then (ln_float32 x eps) (fun y32 =>
    let y := astype y32 out_type in
    and_then (if has_weight then multiply y w else Ok y) (fun y =>
    if has_bias then add y b else Ok y)).
Proof.
  unfold layer_norm_fallback, ln_float32.
  destruct (subtract _ _) as [xc| | |]; try reflexivity. cbn [and_then].
  destruct (add _ _) as [ve| | |]; try reflexivity.
Qed.

Lemma INR_to_nat D : 0 <= D -> INR (Z.to_nat D) = IZR D.
Proof. intros H. now rewrite INR_IZR_INZ, Z2Nat.id. Qed.

Lemma row_variance_nonneg x li D : 0 < D -> (0 <= row_variance x li D)%R.
Proof.
  intros HD. unfold row_variance, Rdiv.
  apply Rmult_le_pos.
  - apply sum_upto_nonneg. intros j _. apply Rle_0_sqr.
  - left. apply Rinv_0_lt_compat. apply IZR_lt. lia.
Qed.

(** The deviations of a row from its mean sum to zero. *)
Lemma centred_sum x li D :
  0 < D ->
  sum_upto (fun k => elem x (li ++ [k]) - row_mean x li D)%R (Z.to_nat D)
  = 0%R.
Proof.
  intros HD.
  rewrite (sum_upto_ext _
             (fun k => elem x (li ++ [k]) + (- row_mean x li D))%R)
    by (intros; lra).
  rewrite sum_upto_plus, sum_upto_const, INR_to_nat by lia.
  unfold row_mean. assert (IZR D <> 0)%R by (apply not_0_IZR; lia).
  field. assumption.
Qed.

(** X15. Without weight and bias and in exact arithmetic, [layer_norm]
    standardises every row of a floating input with a last axis of
    positive extent: the row of the result sums to zero, and its sum of
    squares times [variance + eps] is the extent times the variance, so
    that its mean square is [variance / (variance + eps)], below 1. *)
Theorem layer_norm_standardises
    (eval_gpu : R -> array -> array -> array -> outcome array)
    (x : array) (eps : R) (lead : list Z) (D : Z) :
  Exact AR ->
  shape x = lead ++ [D] -> is_floating (dtype x) = true ->
  0 < D -> (0 < eps)%R ->
  exists res,
    layer_norm true eval_gpu x None None eps = Ok res /\
    dtype res = dtype x /\ shape res = shape x /\
    forall li, valid_index lead li ->
      sum_upto (fun j => elem res (li ++ [j])) (Z.to_nat D) = 0%R /\
      (sum_upto (fun j => elem res (li ++ [j]) * elem res (li ++ [j]))
                (Z.to_nat D) * (row_variance x li D + eps) =
       IZR D * row_variance x li D)%R.
Proof.
  intros EX Hx Hfloat HD Heps.
  destruct (ln_float32_ok x eps lead D Hx) as (y32 & Hy & Hdt & Hsh & Hval).
  specialize (Hval EX).
  unfold layer_norm. rewrite Hx, length_app, Nat.add_comm.
  cbn [length Nat.add Nat.eqb layer_norm_type has_value].
  rewrite Hfloat. cbn [negb].
  rewrite layer_norm_fallback_float32, Hy. cbn [and_then].
  eexists. split; [reflexivity|]. cbn [astype dtype shape elem].
  split; [reflexivity|]. split; [congruence|].
  intros li Hli.
  pose proof (row_variance_nonneg x li D HD) as Hv.
  set (v := row_variance x li D) in *.
  set (m := row_mean x li D).
  assert (Hs : (0 < sqrt (v + eps))%R) by (apply sqrt_lt_R0; lra).
  assert (Hss : (sqrt (v + eps) * sqrt (v + eps) = v + eps)%R)
    by (apply sqrt_sqrt; lra).
  split.
  - rewrite (sum_upto_ext _
               (fun j => / sqrt (v + eps) * (elem x (li ++ [j]) - m))%R).
    + rewrite sum_upto_scal. unfold m. rewrite centred_sum by assumption.
      ring.
    + intros j Hj. rewrite rnd_exact, Hval by (assumption || lia).
      fold m v. unfold Rdiv. ring.
  - rewrite (sum_upto_ext _
               (fun j => / (v + eps) *
                         ((elem x (li ++ [j]) - m)
                          * (elem x (li ++ [j]) - m)))%R).
    + rewrite sum_upto_scal.
      replace (sum_upto (fun j => (elem x (li ++ [j]) - m)
                                  * (elem x (li ++ [j]) - m))%R
                        (Z.to_nat D)) with (IZR D * v)%R.
      * field. lra.
      * unfold v, row_variance. fold m.
        assert (IZR D <> 0)%R by (apply not_0_IZR; lia).
        field. assumption.
    + intros j Hj. rewrite rnd_exact, Hval by (assumption || lia).
      fold m v. set (s := sqrt (v + eps)) in *.
      rewrite <- Hss. field. lra.
Qed.

Lemma broadcast_shapes_unit lead D :
  broadcast_shapes (lead ++ [D]) [1] = Ok (lead ++ [D]).
Proof.
  unfold broadcast_shapes. rewrite !rev_app_distr. cbn [rev app broadcast_rev].
  rewrite broadcast_rev_nil_r0. cbn [and_then].
  destruct (D =? 1) eqn:E; cbn [orb and_then Z.eqb Pos.eqb rev];
    rewrite ?orb_true_r, ?Z.mul_1_r; cbn [and_then rev];
    now rewrite rev_involutive.
Qed.

Lemma broadcast_shapes_mismatch lead D Dw :
  D <> Dw -> D <> 1 -> Dw <> 1 ->
  broadcast_shapes (lead ++ [D]) [Dw] = InvalidArgument msg_broadcast.
Proof.
  intros H1 H2 H3.
  unfold broadcast_shapes. rewrite !rev_app_distr. cbn [rev app broadcast_rev].
  rewrite broadcast_rev_nil_r0. cbn [and_then].
  apply Z.eqb_neq in H1, H2, H3. now rewrite H1, H2, H3.
Qed.

(** A weight or a bias that [layer_norm] can apply: one axis, of the last
    extent of the input or of extent 1. *)
Definition broadcasts_to_last (D : Z) (a : option array) : Prop :=
  match a with
  | Some w => shape w = [D] \/ shape w = [1]
  | None => True
  end.

Lemma affine_step f y w lead D :
  shape y = lead ++ [D] -> shape w = [D] \/ shape w = [1] ->
  exists r, arith_op f y w = Ok r /\
            dtype r = promote_types (dtype y) (dtype w) /\
            shape r = lead ++ [D].
Proof.
  intros Hy [Hw|Hw].
  - rewrite (arith_op_shapes f y w _ _ _ Hy Hw
               (broadcast_shapes_channel lead D)). eauto.
  - rewrite (arith_op_shapes f y w _ _ _ Hy Hw
               (broadcast_shapes_unit lead D)). eauto.
Qed.

Lemma broadcast_shapes_from_unit lead Dw :
  broadcast_shapes (lead ++ [1]) [Dw] = Ok (lead ++ [Dw]).
Proof.
  unfold broadcast_shapes. rewrite !rev_app_distr. cbn [rev app broadcast_rev].
  rewrite broadcast_rev_nil_r0. cbn [and_then].
  destruct (Z.eqb_spec 1 Dw) as [<-|_]; cbn [orb and_then Z.eqb Pos.eqb rev];
    rewrite ?Z.mul_1_l, rev_involutive; reflexivity.
Qed.

(** X16. [layer_norm] does not compare the extents of the weight and the
    bias with the last extent [D] of the input: it returns, with the shape
    of the input and the output type, for every weight and bias of one axis
    whose extent is [D] or 1; a weight of one axis of any other extent gets
    through the checks: when [D] is not 1 it makes [multiply] throw in the
    fallback, and when [D] is 1 the weight broadcasts the other way, so
    that without a bias the call returns an array whose last extent is the
    extent of the weight.  The output type takes the dtype of the bias
    into account only when there is a weight. *)
Theorem layer_norm_broadcasts_affine
    (eval_gpu : R -> array -> array -> array -> outcome array)
    (x : array) (weight bias : option array) (eps : R)
    (lead : list Z) (D : Z) :
  shape x = lead ++ [D] ->
  is_floating (layer_norm_type x weight bias) = true ->
  (broadcasts_to_last D weight -> broadcasts_to_last D bias ->
   exists res,
     layer_norm true eval_gpu x weight bias eps = Ok res /\
     dtype res = layer_norm_type x weight bias /\ shape res = shape x) /\
  (forall w Dw, weight = Some w -> shape w = [Dw] ->
     match bias with Some b => length (shape b) = 1%nat | None => True end ->
     D <> Dw -> D <> 1 -> Dw <> 1 ->
     layer_norm true eval_gpu x weight bias eps =
     InvalidArgument msg_broadcast) /\
  (forall w Dw, weight = Some w -> shape w = [Dw] -> bias = None -> D = 1 ->
     exists res,
       layer_norm true eval_gpu x weight bias eps = Ok res /\
       shape res = lead ++ [Dw]) /\
  (weight = None -> layer_norm_type x weight bias = dtype x).
Proof.
  intros Hx Hfloat.
  destruct (ln_float32_ok x eps lead D Hx) as (y32 & Hy & Hdt & Hsh & _).
  assert (Hrank : (length (shape x) =? 0)%nat = false)
    by (rewrite Hx, length_app, Nat.add_comm; reflexivity).
  split; [|split; [|split]].
  - intros Hw Hb. unfold layer_norm. rewrite Hrank.
    assert (Hwr : match weight with
                  | Some w => negb (length (shape w) =? 1)%nat
                  | None => false
                  end = false)
      by (destruct weight as [w|]; [|reflexivity];
          destruct Hw as [-> | ->]; reflexivity).
    assert (Hbr : match bias with
                  | Some b => negb (length (shape b) =? 1)%nat
                  | None => false
                  end = false)
      by (destruct bias as [b|]; [|reflexivity];
          destruct Hb as [-> | ->]; reflexivity).
    rewrite Hwr, Hbr. cbv zeta. rewrite Hfloat. cbn [negb].
    rewrite layer_norm_fallback_float32, Hy. cbn [and_then].
    set (t := layer_norm_type x weight bias) in *.
    assert (Hys : shape (astype y32 t) = lead ++ [D])
      by (cbn [astype shape]; congruence).
    destruct weight as [w|]; cbn [has_value].
    + destruct (affine_step Rmult (astype y32 t) (astype w t) lead D Hys Hw)
        as (r & Hr & Hrd & Hrs).
      unfold multiply. rewrite Hr. cbn [and_then].
      cbn [astype dtype] in Hrd. rewrite promote_same in Hrd.
      destruct bias as [b|]; cbn [has_value].
      * destruct (affine_step Rplus r (astype b t) lead D Hrs Hb)
          as (r' & Hr' & Hrd' & Hrs').
        unfold add. rewrite Hr'. exists r'. split; [reflexivity|].
        cbn [astype dtype] in Hrd'. rewrite Hrd, promote_same in Hrd'.
        split; congruence.
      * exists r. split; [reflexivity|]. split; congruence.
    + cbn [and_then]. destruct bias as [b|]; cbn [has_value].
      * destruct (affine_step Rplus (astype y32 t) (astype b t) lead D Hys Hb)
          as (r' & Hr' & Hrd' & Hrs').
        unfold add. rewrite Hr'. exists r'. split; [reflexivity|].
        cbn [astype dtype] in Hrd'. rewrite promote_same in Hrd'.
        split; congruence.
      * eexists. split; [reflexivity|]. cbn [astype dtype shape].
        split; congruence.
  - intros w Dw -> Hw Hb Hne HD HDw. unfold layer_norm.
    rewrite Hrank, Hw. cbn [length Nat.eqb negb].
    assert (Hbr : match bias with
                  | Some b => negb (length (shape b) =? 1)%nat
                  | None => false
                  end = false)
      by (destruct bias as [b|]; [now rewrite Hb | reflexivity]).
    rewrite Hbr. cbv zeta. rewrite Hfloat. cbn [negb has_value].
    rewrite layer_norm_fallback_float32, Hy. cbn [and_then].
    unfold multiply, arith_op, binary. cbn [astype shape].
    rewrite Hsh, Hx, Hw, broadcast_shapes_mismatch by assumption.
    reflexivity.
  - intros w Dw -> Hw -> ->. unfold layer_norm.
    rewrite Hrank, Hw. cbn [length Nat.eqb negb].
    cbv zeta. rewrite Hfloat. cbn [negb has_value].
    rewrite layer_norm_fallback_float32, Hy. cbn [and_then].
    unfold multiply, arith_op, binary. cbn [astype shape].
    rewrite Hsh, Hx, Hw, broadcast_shapes_from_unit. cbn [and_then].
    eexists. split; reflexivity.
  - intros ->. reflexivity.
Qed.

(** The mean square of the row [li] of [x]. *)
Definition row_mean_square (x : array) (li : list Z) (D : Z) : R :=
  (sum_upto (fun k => elem x (li ++ [k]) * elem x (li ++ [k])) (Z.to_nat D)
   / IZR D)%R.

Lemma row_mean_square_nonneg x li D : 0 < D -> (0 <= row_mean_square x li D)%R.
Proof.
  intros HD. unfold row_mean_square, Rdiv.
  apply Rmult_le_pos.
  - apply sum_upto_nonneg. intros j _. apply Rle_0_sqr.
  - left. apply Rinv_0_lt_compat. apply IZR_lt. lia.
Qed.

(** X17. Without a weight and in exact arithmetic, [rms_norm] brings every
    row of a floating input with a last axis of positive extent to a mean
    square of [ms / (ms + eps)], where [ms] is the mean square of the row
    of the input: the sum of the squares of the row of the result times
    [ms + eps] is the extent times [ms], and so is at most the extent. *)
Theorem rms_norm_mean_square
    (eval_gpu : R -> array -> array -> outcome array)
    (x : array) (eps : R) (lead : list Z) (D : Z) :
  Exact AR ->
  shape x = lead ++ [D] -> is_floating (dtype x) = true ->
  0 < D -> (0 < eps)%R ->
  exists res,
    rms_norm true eval_gpu x None eps = Ok res /\
    dtype res = dtype x /\ shape res = shape x /\
    forall li, valid_index lead li ->
      let total :=
        sum_upto (fun j => elem res (li ++ [j]) * elem res (li ++ [j]))%R
                 (Z.to_nat D) in
      (total * (row_mean_square x li D + eps) =
       IZR D * row_mean_square x li D)%R /\
      (total <= IZR D)%R.
Proof.
  intros EX Hx Hfloat HD Heps.
  destruct (rms_float32_ok promote_same x eps lead D Hx)
    as (y32 & Hy & Hdt & Hsh & Hval).
  specialize (Hval EX).
  unfold rms_norm. rewrite Hx, length_app, Nat.add_comm.
  cbn [length Nat.add Nat.eqb and_then]. rewrite Hfloat. cbn [negb].
  rewrite rms_norm_fallback_float32, Hy. cbn [and_then].
  eexists. split; [reflexivity|]. cbn [astype dtype shape elem].
  split; [reflexivity|]. split; [congruence|].
  intros li Hli.
  pose proof (row_mean_square_nonneg x li D HD) as Hm.
  assert (HDr : (0 < IZR D)%R) by (apply IZR_lt; lia).
  assert (Htotal :
    (sum_upto (fun j => rnd (dtype x) (elem y32 (li ++ [j]))
                        * rnd (dtype x) (elem y32 (li ++ [j])))
              (Z.to_nat D) * (row_mean_square x li D + eps) =
     IZR D * row_mean_square x li D)%R).
  { set (ms := row_mean_square x li D) in *.
    assert (Hs : (0 < sqrt (ms + eps))%R) by (apply sqrt_lt_R0; lra).
    assert (Hss : (sqrt (ms + eps) * sqrt (ms + eps) = ms + eps)%R)
      by (apply sqrt_sqrt; lra).
    rewrite (sum_upto_ext _
               (fun j => / (ms + eps) *
                         (elem x (li ++ [j]) * elem x (li ++ [j])))%R).
    - rewrite sum_upto_scal.
      replace (sum_upto (fun j => elem x (li ++ [j]) * elem x (li ++ [j]))%R
                        (Z.to_nat D)) with (IZR D * ms)%R.
      + field. lra.
      + unfold ms, row_mean_square. field. lra.
    - intros j Hj. rewrite rnd_exact, Hval by (assumption || lia).
      fold (row_mean_square x li D). fold ms.
      set (s := sqrt (ms + eps)) in *.
      rewrite <- Hss. field. lra. }
  cbv zeta. split; [exact Htotal|].
  set (total := sum_upto _ _) in *.
  set (ms := row_mean_square x li D) in *.
  assert (Hpos : (0 < ms + eps)%R) by lra.
  assert (Hle : (total * (ms + eps) <= IZR D * (ms + eps))%R)
    by (rewrite Htotal; nra).
  apply Rmult_le_reg_r with (ms + eps)%R; assumption.
Qed.

End LayerNormFacts.

(** A backend without kernel for LayerNorm. *)
Definition no_ln_kernel (eps : R) (x w b : array) : outcome array :=
  RuntimeError "NYI".

Lemma layer_norm_standardises_witness :
  exists res,
    @layer_norm exact_arith true no_ln_kernel
       (mk_array float32 [2; 3] (fun idx => IZR (nth 1 idx 0)))
       None None (1 / 100000)%R = Ok res /\
    dtype res = float32 /\ shape res = [2; 3].
Proof.
  destruct (@layer_norm_standardises exact_arith exact_arith_promote_same
              no_ln_kernel
              (mk_array float32 [2; 3] (fun idx => IZR (nth 1 idx 0)))
              (1 / 100000)%R [2] 3 exact_arith_exact)
    as (res & Hres & Hdt & Hsh & _).
  - reflexivity.
  - reflexivity.
  - lia.
  - lra.
  - exists res. repeat split; assumption.
Defined.

Lemma layer_norm_broadcasts_affine_witness :
  exists res,
    @layer_norm exact_arith true no_ln_kernel
       (mk_array float16 [2; 3] (fun idx => IZR (nth 1 idx 0)))
       None (Some (mk_array float32 [1] (fun _ => 1%R))) (1 / 100000)%R
    = Ok res /\
    dtype res = float16 /\ shape res = [2; 3].
Proof.
  apply (@layer_norm_broadcasts_affine exact_arith exact_arith_promote_same
           no_ln_kernel
           (mk_array float16 [2; 3] (fun idx => IZR (nth 1 idx 0)))
           None (Some (mk_array float32 [1] (fun _ => 1%R)))
           (1 / 100000)%R [2] 3).
  - reflexivity.
  - reflexivity.
  - exact I.
  - right. reflexivity.
Defined.

Lemma rms_norm_mean_square_witness :
  exists res,
    @rms_norm exact_arith true no_rms_kernel
       (mk_array float32 [2; 3] (fun idx => IZR (nth 1 idx 0 + 1)))
       None (1 / 100000)%R = Ok res /\
    dtype res = float32 /\ shape res = [2; 3].
Proof.
  destruct (@rms_norm_mean_square exact_arith exact_arith_promote_same
              no_rms_kernel
              (mk_array float32 [2; 3] (fun idx => IZR (nth 1 idx 0 + 1)))
              (1 / 100000)%R [2] 3 exact_arith_exact)
    as (res & Hres & Hdt & Hsh & _).
  - reflexivity.
  - reflexivity.
  - lia.
  - lra.
  - exists res. repeat split; assumption.
Defined.

(** *** The rotation keeps the norm *)

(** The sum of the squares of the channels of one position. *)
Fixpoint sum_sq (l : list R) : R :=
  match l with
  | [] => 0
  | v :: t => v * v + sum_sq t
  end.

Lemma sum_sq_app a b : sum_sq (a ++ b) = (sum_sq a + sum_sq b)%R.
Proof.
  induction a as [|x a IH]; cbn [app sum_sq]; [lra | rewrite IH; lra].
Qed.

Lemma sum_sq_interleave a b :
  length a = length b ->
  sum_sq (interleave a b) = (sum_sq a + sum_sq b)%R.
Proof.
  revert b. induction a as [|x a IH]; intros [|y b] H;
    cbn [length] in H; try discriminate.
  - cbn. lra.
  - rewrite interleave_cons. cbn [sum_sq]. rewrite IH by lia. lra.
Qed.

Lemma sum_sq_pairs (f g f' g' : nat -> R) a h :
  (forall k, (a <= k < a + h)%nat ->
     (f k * f k + g k * g k = f' k * f' k + g' k * g' k)%R) ->
  (sum_sq (map f (seq a h)) + sum_sq (map g (seq a h)) =
   sum_sq (map f' (seq a h)) + sum_sq (map g' (seq a h)))%R.
Proof.
  revert a. induction h as [|h IH]; intros a H; [reflexivity|].
  cbn [seq map sum_sq].
  specialize (IH (S a) ltac:(intros; apply H; lia)).
  specialize (H a ltac:(lia)). lra.
Qed.

Lemma rotate_norm forward x1 x2 c s :
  (c * c + s * s = 1)%R ->
  (fst (rotate forward x1 x2 c s) * fst (rotate forward x1 x2 c s) +
   snd (rotate forward x1 x2 c s) * snd (rotate forward x1 x2 c s) =
   x1 * x1 + x2 * x2)%R.
Proof.
  intros H. destruct forward; cbn [rotate fst snd].
  - replace ((x1 * c - x2 * s) * (x1 * c - x2 * s) +
             (x1 * s + x2 * c) * (x1 * s + x2 * c))%R
      with ((x1 * x1 + x2 * x2) * (c * c + s * s))%R by ring.
    rewrite H. ring.
  - replace ((x2 * s + x1 * c) * (x2 * s + x1 * c) +
             (x2 * c - x1 * s) * (x2 * c - x1 * s))%R
      with ((x1 * x1 + x2 * x2) * (c * c + s * s))%R by ring.
    rewrite H. ring.
Qed.

Lemma firstn_double (l : list R) h :
  firstn (2 * h) l = firstn h l ++ firstn h (skipn h l).
Proof.
  replace (2 * h)%nat with (h + h)%nat by lia.
  rewrite firstn_skipn_comm.
  replace (firstn h l) with (firstn h (firstn (h + h) l))
    by (rewrite firstn_firstn; f_equal; lia).
  symmetry. apply firstn_skipn.
Qed.

Lemma rotated_row_norm traditional forward h gc gs row :
  (2 * h <= length row)%nat ->
  (forall k, (k < h)%nat -> (gc k * gc k + gs k * gs k = 1)%R) ->
  sum_sq (rotated_row traditional forward h gc gs row) = sum_sq row.
Proof.
  intros Hlen Hunit. unfold rotated_row.
  transitivity (sum_sq (firstn (2 * h) row ++ skipn (2 * h) row));
    [| now rewrite firstn_skipn].
  rewrite !sum_sq_app. f_equal.
  destruct traditional.
  - rewrite <- (interleave_even_odd row h Hlen).
    rewrite !sum_sq_interleave by now rewrite !length_map_seq.
    apply sum_sq_pairs. intros k Hk. apply rotate_norm. apply Hunit. lia.
  - rewrite firstn_double, !sum_sq_app.
    change (firstn h row) with (firstn h (skipn 0 row)).
    rewrite <- (map_nth_seq_segment row 0 h) by lia.
    rewrite <- (map_nth_seq_segment row h h) by lia.
    cbn [Nat.add].
    apply sum_sq_pairs. intros k Hk. apply rotate_norm. apply Hunit. lia.
Qed.

Section RopeNorm.
Context {AR : Arith} {EX : Exact AR}.

(** The offset that [rope] hands to the fallback. *)
Definition passed_offset (offset : offset_array) : offset_array :=
  if negb (dtype_size (o_dtype offset) =? 4)
  then mk_offset uint32 (o_size offset) (o_value offset mod 2 ^ 32)
  else offset.

(** [rope] on valid arguments, in exact arithmetic: every sequence of
    every batch entry is rotated position by position. *)
Lemma rope_exact_call
    (eval_gpu : Z -> bool -> R -> R -> bool -> rope_inputs -> outcome array3)
    (x : array3) (offset : offset_array) (freqs : option freqs_array)
    (h D : nat) (traditional : bool) (base scale : R) (forward : bool) :
  let dims := Z.of_nat (2 * h) in
  (3 <= length (a_shape x))%nat ->
  is_floating (a_dtype x) = true ->
  last (a_shape x) 0 = Z.of_nat D ->
  Forall (Forall (fun row => length row = D)) (a_data x) ->
  (2 * h <= D)%nat ->
  o_size offset = 1 -> is_integer (o_dtype offset) = true ->
  (freqs = None -> (0 < base)%R) ->
  (forall f, freqs = Some f ->
             f_shape f = [Z.of_nat h] /\ length (f_data f) = h /\
             Forall (fun v => v <> 0%R) (f_data f)) ->
  exists inv,
    inv_freqs_of (a_dtype x) dims base freqs = Some inv /\
    length inv = h /\
    rope true eval_gpu (mk_rope_inputs x offset freqs)
         dims traditional base scale forward =
    Ok (mk_array3 (a_dtype x) (a_shape x)
          (map (fun rows =>
                  rotated_rows traditional forward h inv
                    (positions (a_dtype x) (length rows)
                               (o_value (passed_offset offset)) scale) rows)
               (a_data x))).
Proof.
  intros dims Hrank Hfloat HD Hrows Hh Hsize Hint Hbase Hfreqs.
  destruct (inv_freqs_real (a_dtype x) h base freqs Hbase
              (fun f Hf => proj2 (Hfreqs f Hf)))
    as (inv & Hsome & Hinv).
  exists inv. split; [exact Hsome|]. split; [exact Hinv|].
  unfold rope. cbn [in_x in_offset in_freqs]. fold (passed_offset offset).
  rewrite Hfloat, Hsize, Hint, Z.eqb_refl.
  destruct (Z.ltb_spec (Z.of_nat (length (a_shape x))) 3); [lia|].
  cbn [negb].
  assert (Hfb : rope_fallback dims traditional base scale forward
                  (mk_rope_inputs x (passed_offset offset) freqs) =
                Ok (mk_array3 (a_dtype x) (a_shape x)
                      (map (fun rows =>
                              rotated_rows traditional forward h inv
                                (positions (a_dtype x) (length rows)
                                   (o_value (passed_offset offset)) scale)
                                rows)
                           (a_data x)))).
  { unfold dims.
    rewrite (rope_fallback_exact h traditional base scale forward
               (mk_rope_inputs x (passed_offset offset) freqs) D inv);
      cbn [in_x in_offset in_freqs]; auto. }
  destruct freqs as [f|]; [|exact Hfb].
  destruct (Hfreqs f eq_refl) as [Hfs _]. rewrite Hfs.
  cbn [length hd]. unfold dims at 1. rewrite quot_double.
  rewrite !Z.eqb_refl. cbn [negb orb].
  exact Hfb.
Qed.

Lemma rotated_rows_norm traditional forward h inv ps rows D :
  (2 * h <= D)%nat -> Forall (fun row => length row = D) rows ->
  map sum_sq (rotated_rows traditional forward h inv ps rows) =
  map sum_sq (firstn (length ps) rows).
Proof.
  intros Hh Hrows. unfold rotated_rows. revert ps.
  induction Hrows as [|r rows Hr Hrows IH]; intros [|p ps];
    cbn [zip_with length firstn map]; try reflexivity.
  rewrite IH. f_equal. apply rotated_row_norm; [lia|].
  intros k _. apply cos_sin_unit.
Qed.

(** X18. In exact arithmetic [rope] is an isometry on the channels of
    every position: for a floating array of rank 3 or more, an even
    [dims = 2 h] up to the last extent, a positive base or frequencies
    without a zero, and either direction, it returns an array of the same
    shape in which every position has the sum of the squares of its
    channels unchanged, in the traditional layout and in the other. *)
Theorem rope_keeps_norm
    (eval_gpu : Z -> bool -> R -> R -> bool -> rope_inputs -> outcome array3)
    (x : array3) (offset : offset_array) (freqs : option freqs_array)
    (h D : nat) (traditional : bool) (base scale : R) (forward : bool) :
  (3 <= length (a_shape x))%nat ->
  is_floating (a_dtype x) = true ->
  last (a_shape x) 0 = Z.of_nat D ->
  Forall (Forall (fun row => length row = D)) (a_data x) ->
  (2 * h <= D)%nat ->
  o_size offset = 1 -> is_integer (o_dtype offset) = true ->
  (freqs = None -> (0 < base)%R) ->
  (forall f, freqs = Some f ->
             f_shape f = [Z.of_nat h] /\ length (f_data f) = h /\
             Forall (fun v => v <> 0%R) (f_data f)) ->
  exists y,
    rope true eval_gpu (mk_rope_inputs x offset freqs)
         (Z.of_nat (2 * h)) traditional base scale forward = Ok y /\
    a_dtype y = a_dtype x /\ a_shape y = a_shape x /\
    map (map sum_sq) (a_data y) = map (map sum_sq) (a_data x).
Proof.
  intros Hrank Hfloat HD Hrows Hh Hsize Hint Hbase Hfreqs.
  destruct (rope_exact_call eval_gpu x offset freqs h D traditional base
              scale forward Hrank Hfloat HD Hrows Hh Hsize Hint Hbase Hfreqs)
    as (inv & _ & Hinv & Hcall).
  eexists. split; [exact Hcall|]. cbn [a_dtype a_shape a_data].
  split; [reflexivity|]. split; [reflexivity|].
  rewrite map_map. eapply map_ext_Forall; [|exact Hrows].
  intros rows Hr. cbv beta.
  rewrite (rotated_rows_norm traditional forward h _ _ rows D Hh Hr).
  rewrite positions_length. now rewrite firstn_all.
Qed.

End RopeNorm.

Lemma rope_keeps_norm_witness :
  exists y,
    @rope exact_arith true no_kernel
          (mk_rope_inputs
             (mk_array3 float32 [1; 2; 4] [[[1; 2; 3; 4]; [5; 6; 7; 8]]]%R)
             (mk_offset int32 1 3) None)
          2 false 10000 1 true = Ok y /\
    map (map sum_sq) (a_data y) = [[1 * 1 + (2 * 2 + (3 * 3 + (4 * 4 + 0)));
                                    5 * 5 + (6 * 6 + (7 * 7 + (8 * 8 + 0)))]]%R.
Proof.
  destruct (@rope_keeps_norm exact_arith exact_arith_exact no_kernel
              (mk_array3 float32 [1; 2; 4] [[[1; 2; 3; 4]; [5; 6; 7; 8]]]%R)
              (mk_offset int32 1 3) None 1 4 false 10000%R 1%R true)
    as (y & Hy & _ & _ & Hnorm).
  - simpl; lia.
  - reflexivity.
  - reflexivity.
  - repeat constructor.
  - lia.
  - reflexivity.
  - reflexivity.
  - intros _. lra.
  - discriminate.
  - exists y. split; [exact Hy | exact Hnorm].
Defined.

(** *** The gradient of the RMS normalisation *)

Section RmsNormVjp.
Context {AR : Arith}.

(** [std::pow] of the backends, which [power] of mlx/ops.cpp applies to
    each pair of elements in the promoted type. *)
Variable pow_fn : R -> R -> R.

Definition power : array -> array -> outcome array := arith_op pow_fn.

(** [zeros_like(a)]. *)
Definition zeros_like (a : array) : array :=
  mk_array (dtype a) (shape a) (fun _ => 0%R).

(** The multi-indices of a shape, in row-major order. *)
Fixpoint all_indices (s : list Z) : list (list Z) :=
  match s with
  | [] => [[]]
  | d :: s' =>
      flat_map (fun i => map (cons (Z.of_nat i)) (all_indices s'))
               (seq 0 (Z.to_nat d))
  end.

(** The sum of a list of reals. *)
Definition total (l : list R) : R := fold_right Rplus 0%R l.

(** Modelled from the spec: [sum(a, axes, false)] for the axes 0, ...,
    [k - 1], at most the rank of [a]. *)
Definition sum_axes (k : nat) (a : array) : array :=
  mk_array (dtype a) (skipn k (shape a))
    (fun idx =>
       rnd (dtype a)
           (total (map (fun li => elem a (li ++ idx))
                       (all_indices (firstn k (shape a)))))).

(** The fallback of [RMSNorm::vjp] on the inputs [x], [w] and the
    cotangent [g]: the gradients for [x] and for [w].  A cotangent without
    axes makes [axes(g.ndim() - 1)] a vector of [size_t(-1)] elements, which
    no allocation serves: the call does not return, and the model gives
    [Undefined] for it. *)
Definition rms_norm_vjp_fallback (eps : R) (x w g : array)
    : outcome (array * array) :=
  and_then (add (mean (square x)) (scalar eps (dtype x))) (fun v =>
  let n := rsqrt v in
  and_then (power n (scalar 3 (dtype x))) (fun n3 =>
  and_then (multiply g w) (fun gw =>
  and_then (multiply gw x) (fun gwx =>
  let t := mean gwx in
  and_then (multiply x t) (fun xt =>
  and_then (multiply xt n3) (fun t =>
  and_then (multiply gw n) (fun gwn =>
  and_then (subtract gwn t) (fun dx =>
  if (length (shape g) =? 0)%nat then Undefined
  else
    let axes := (length (shape g) - 1)%nat in
    and_then
      (if (length (shape w) =? 0)%nat then Ok (zeros_like w)
       else and_then (multiply x n) (fun xn =>
            and_then (multiply g xn) (fun gxn => Ok (sum_axes axes gxn))))
      (fun dw => Ok (dx, dw)))))))))).

End RmsNormVjp.

Lemma all_indices_valid s li : In li (all_indices s) -> valid_index s li.
Proof.
  revert li. induction s as [|d s IH]; intros li H; cbn [all_indices] in H.
  - destruct H as [<-|[]]. constructor.
  - apply in_flat_map in H. destruct H as (i & Hi & H).
    apply in_map_iff in H. destruct H as (li' & <- & Hli').
    apply in_seq in Hi. constructor; [lia | now apply IH].
Qed.

Lemma broadcast_shapes_scalar s : broadcast_shapes s [] = Ok s.
Proof.
  unfold broadcast_shapes. cbn [rev]. rewrite broadcast_rev_nil_r0.
  cbn [and_then]. now rewrite rev_involutive.
Qed.

(** The root factor of a row: one over the root of its mean square plus
    [eps]. *)
Definition row_scale (x : array) (eps : R) (D : Z) (li : list Z) : R :=
  (/ sqrt (sum_upto (fun k => elem x (li ++ [k]) * elem x (li ++ [k]))
                    (Z.to_nat D) / IZR D + eps))%R.

Section RmsNormVjpFacts.
Context {AR : Arith}.
Variable pow_fn : R -> R -> R.

Lemma rms_norm_vjp_fallback_ok eps x w g lead D :
  shape x = lead ++ [D] -> shape w = [D] -> shape g = lead ++ [D] ->
  exists dx dw,
    rms_norm_vjp_fallback pow_fn eps x w g = Ok (dx, dw) /\
    shape dx = shape x /\ shape dw = shape w /\
    (Exact AR ->
     (forall li i, valid_index lead li -> 0 <= i < D ->
        elem dx (li ++ [i]) =
        (elem g (li ++ [i]) * elem w [i] * row_scale x eps D li
         - elem x (li ++ [i])
           * (sum_upto (fun j => elem g (li ++ [j]) * elem w [j]
                                 * elem x (li ++ [j])) (Z.to_nat D) / IZR D)
           * pow_fn (row_scale x eps D li) 3)%R) /\
     (forall i, 0 <= i < D ->
        elem dw [i] =
        total (map (fun li => elem g (li ++ [i])
                              * (elem x (li ++ [i]) * row_scale x eps D li))%R
                   (all_indices lead)))).
Proof.
  intros Hx Hw Hg. unfold rms_norm_vjp_fallback, add, multiply, subtract, power.
  rewrite (arith_op_shapes Rplus _ _ (lead ++ [1]) [] (lead ++ [1]));
    [| cbn [mean square unary shape]; rewrite Hx; now rewrite removelast_last
     | reflexivity | apply broadcast_shapes_scalar ].
  cbn [and_then].
  rewrite (arith_op_shapes pow_fn _ _ (lead ++ [1]) [] (lead ++ [1]));
    [| reflexivity | reflexivity | apply broadcast_shapes_scalar ].
  cbn [and_then].
  rewrite (arith_op_shapes Rmult g w (lead ++ [D]) [D] (lead ++ [D]));
    [| assumption | assumption | apply broadcast_shapes_channel ].
  cbn [and_then].
  rewrite (arith_op_shapes Rmult _ x (lead ++ [D]) (lead ++ [D]) (lead ++ [D]));
    [| reflexivity | assumption | apply broadcast_shapes_same ].
  cbn [and_then].
  rewrite (arith_op_shapes Rmult x _ (lead ++ [D]) (lead ++ [1]) (lead ++ [D]));
    [| assumption
     | cbn [mean shape]; now rewrite removelast_last
     | apply broadcast_shapes_keepdims ].
  cbn [and_then].
  rewrite (arith_op_shapes Rmult _ _ (lead ++ [D]) (lead ++ [1]) (lead ++ [D]));
    [| reflexivity | reflexivity | apply broadcast_shapes_keepdims ].
  cbn [and_then].
  rewrite (arith_op_shapes Rmult _ _ (lead ++ [D]) (lead ++ [1]) (lead ++ [D]));
    [| reflexivity | reflexivity | apply broadcast_shapes_keepdims ].
  cbn [and_then].
  rewrite (arith_op_shapes Rminus _ _ (lead ++ [D]) (lead ++ [D]) (lead ++ [D]));
    [| reflexivity | reflexivity | apply broadcast_shapes_same ].
  cbn [and_then].
  rewrite Hg, Hw, length_app. cbn [length]. rewrite Nat.add_1_r.
  cbn [Nat.eqb]. rewrite Nat.sub_succ, Nat.sub_0_r.
  rewrite (arith_op_shapes Rmult x _ (lead ++ [D]) (lead ++ [1]) (lead ++ [D]));
    [| assumption | reflexivity | apply broadcast_shapes_keepdims ].
  cbn [and_then].
  rewrite (arith_op_shapes Rmult g _ (lead ++ [D]) (lead ++ [D]) (lead ++ [D]));
    [| assumption | reflexivity | apply broadcast_shapes_same ].
  cbn [and_then].
  eexists _, _. split; [reflexivity|].
  split; [now rewrite Hx|]. split.
  { cbn [sum_axes shape]. rewrite skipn_app, skipn_all, Nat.sub_diag.
    reflexivity. }
  intros EX. split.
  - intros li i Hli Hi.
    cbn [elem shape dtype mean square rsqrt unary scalar].
    rewrite !rnd_exact.
    rewrite ?Hx, ?Hg, ?Hw, ?removelast_last, ?last_last.
    rewrite !(bidx_valid (lead ++ [D]) (li ++ [i]))
      by now apply valid_index_snoc.
    rewrite !(bidx_keepdims lead li i) by assumption.
    rewrite !(bidx_keepdims lead li 0) by assumption.
    rewrite ?bidx_channel by assumption.
    rewrite ?removelast_last.
    match goal with
    | |- context [(sum_upto ?f (Z.to_nat D) / IZR D + eps)%R] =>
        rewrite (sum_upto_ext f
                   (fun k => elem x (li ++ [k]) * elem x (li ++ [k]))%R)
          by (intros k Hk; now rewrite !rnd_exact)
    end.
    unfold row_scale.
    match goal with
    | |- context [(elem x (li ++ [i])
                    * (sum_upto ?f (Z.to_nat D) / IZR D))%R] =>
        rewrite (sum_upto_ext f
                   (fun j => elem g (li ++ [j]) * elem w [j]
                             * elem x (li ++ [j]))%R)
    end; [reflexivity|].
    intros j Hj. rewrite !rnd_exact.
    rewrite !(bidx_valid (lead ++ [D]) (li ++ [j]))
      by (apply valid_index_snoc; [assumption | lia]).
    rewrite bidx_channel by lia. reflexivity.
  - intros i Hi.
    cbn [sum_axes elem shape dtype mean square rsqrt unary scalar].
    rewrite !rnd_exact.
    rewrite firstn_app, firstn_all, Nat.sub_diag, app_nil_r.
    rewrite ?Hx, ?Hg, ?Hw, ?removelast_last, ?last_last.
    f_equal. apply map_ext_in. intros li Hli.
    apply all_indices_valid in Hli.
    rewrite !rnd_exact.
    rewrite !(bidx_valid (lead ++ [D]) (li ++ [i]))
      by now apply valid_index_snoc.
    rewrite !(bidx_keepdims lead li i) by assumption.
    rewrite ?removelast_last.
    match goal with
    | |- context [(sum_upto ?f (Z.to_nat D) / IZR D + eps)%R] =>
        rewrite (sum_upto_ext f
                   (fun k => elem x (li ++ [k]) * elem x (li ++ [k]))%R)
          by (intros k Hk;
              now rewrite !rnd_exact, ?(bidx_keepdims lead li 0),
                ?removelast_last by assumption)
    end.
    unfold row_scale.
    reflexivity.
Qed.

End RmsNormVjpFacts.

(** The array [a] with [t] added to its element at [p]. *)
Definition perturb (a : array) (p : list Z) (t : R) : array :=
  mk_array (dtype a) (shape a)
    (fun idx => if list_eq_dec Z.eq_dec idx p then (elem a idx + t)%R
                else elem a idx).

(** The element at [idx] of a result. *)
Definition value_at (o : outcome array) (idx : list Z) : R :=
  match o with Ok a => elem a idx | _ => 0%R end.

Lemma perturb_row a li i t k :
  elem (perturb a (li ++ [i]) t) (li ++ [k]) =
  (elem a (li ++ [k]) + (if k =? i then t else 0))%R.
Proof.
  cbn [perturb elem].
  destruct (list_eq_dec Z.eq_dec (li ++ [k]) (li ++ [i])) as [E|E].
  - apply app_inv_head in E. injection E as ->. now rewrite Z.eqb_refl.
  - destruct (Z.eqb_spec k i) as [->|_]; [now elim E | lra].
Qed.

Lemma perturb_other a li li' i t k :
  li' <> li -> elem (perturb a (li ++ [i]) t) (li' ++ [k]) = elem a (li' ++ [k]).
Proof.
  intros Hne. cbn [perturb elem].
  destruct (list_eq_dec Z.eq_dec (li' ++ [k]) (li ++ [i])) as [E|E];
    [|reflexivity].
  apply app_inj_tail in E. now destruct E.
Qed.

Lemma sum_upto_indicator c i n :
  0 <= i < Z.of_nat n ->
  sum_upto (fun k => if k =? i then c else 0%R) n = c.
Proof.
  induction n as [|n IH]; intros H; [lia|].
  cbn [sum_upto].
  destruct (Z.eqb_spec (Z.of_nat n) i) as [E|E].
  - rewrite (sum_upto_ext _ (fun _ => 0%R)).
    + rewrite sum_upto_const. lra.
    + intros j Hj. destruct (Z.eqb_spec j i); [lia | reflexivity].
  - rewrite IH by lia. lra.
Qed.


Section Derivatives.
Local Open Scope R_scope.

Lemma derivable_pt_lim_eq (f : R -> R) (x l l' : R) :
  l = l' -> derivable_pt_lim f x l -> derivable_pt_lim f x l'.
Proof. now intros ->. Qed.

Lemma affine_derivative (C K : R) :
  derivable_pt_lim (fun t => C + t * K) 0 K.
Proof.
  apply (derivable_pt_lim_ext (fct_cte C + mult_real_fct K id)%F).
  - intros t. unfold plus_fct, fct_cte, mult_real_fct, id. ring.
  - apply (derivable_pt_lim_eq _ _ (0 + K * 1)); [ring|].
    apply derivable_pt_lim_plus.
    + apply derivable_pt_lim_const.
    + apply derivable_pt_lim_scal. apply derivable_pt_lim_id.
Qed.

(** The derivative at 0 of [t |-> (A + t B) / sqrt (q t)] for a quadratic
    [q] that is positive at 0. *)
Lemma ratio_derivative (A B S c Dn eps : R) :
  0 < Dn -> 0 < S / Dn + eps ->
  derivable_pt_lim
    (fun t => (A + t * B) / sqrt ((S + 2 * c * t + t * t) / Dn + eps)) 0
    (B * / sqrt (S / Dn + eps)
     - A * (/ sqrt (S / Dn + eps) * / sqrt (S / Dn + eps)
            * / sqrt (S / Dn + eps)) * (c / Dn)).
Proof.
  intros HDn Hq.
  set (q := fun t : R => (S + 2 * c * t + t * t) / Dn + eps).
  set (num := fun t : R => A + t * B).
  assert (Hq0 : q 0 = S / Dn + eps) by (unfold q; f_equal; unfold Rdiv; ring).
  assert (Hdq : derivable_pt_lim q 0 (2 * c / Dn)).
  { unfold q.
    apply (derivable_pt_lim_ext
             (fct_cte (S / Dn + eps) + mult_real_fct (2 * c / Dn) id
              + mult_real_fct (/ Dn) Rsqr)%F).
    - intros t.
      unfold plus_fct, fct_cte, mult_real_fct, id, Rsqr, Rdiv. ring.
    - apply (derivable_pt_lim_eq _ _ (0 + 2 * c / Dn * 1 + / Dn * (2 * 0)));
        [ring|].
      apply derivable_pt_lim_plus; [apply derivable_pt_lim_plus|].
      + apply derivable_pt_lim_const.
      + apply derivable_pt_lim_scal. apply derivable_pt_lim_id.
      + apply derivable_pt_lim_scal. apply derivable_pt_lim_Rsqr. }
  assert (Hds : derivable_pt_lim (comp sqrt q) 0
                  (/ (2 * sqrt (q 0)) * (2 * c / Dn))).
  { apply derivable_pt_lim_comp; [exact Hdq|].
    apply derivable_pt_lim_sqrt. rewrite Hq0. exact Hq. }
  assert (Hs : 0 < sqrt (S / Dn + eps)) by now apply sqrt_lt_R0.
  assert (Hss : sqrt (S / Dn + eps) * sqrt (S / Dn + eps) = S / Dn + eps)
    by (apply sqrt_sqrt; lra).
  pose proof (derivable_pt_lim_div num (comp sqrt q) 0 _ _
                (affine_derivative A B) Hds) as Hd.
  unfold comp in Hd at 1. rewrite Hq0 in Hd.
  specialize (Hd ltac:(lra)).
  apply (derivable_pt_lim_ext (num / comp sqrt q)%F).
  - intros t. reflexivity.
  - eapply derivable_pt_lim_eq; [|exact Hd].
    unfold comp, num, Rsqr. rewrite Hq0.
    set (s := sqrt (S / Dn + eps)) in *.
    field. split; lra.
Qed.

End Derivatives.

Section RmsNormGradient.
Context {AR : Arith}.
Hypothesis promote_same : forall d, promote_types d d = d.
Context {EX : Exact AR}.

Lemma rms_norm_fallback_value eps out_type x w lead D :
  shape x = lead ++ [D] -> shape w = [D] ->
  exists y,
    rms_norm_fallback true eps out_type x w = Ok y /\
    forall li j, valid_index lead li -> 0 <= j < D ->
      elem y (li ++ [j]) =
      (elem x (li ++ [j]) * row_scale x eps D li * elem w [j])%R.
Proof.
  intros Hx Hw.
  destruct (rms_float32_ok promote_same x eps lead D Hx)
    as (y32 & Hy & _ & Hsh & Hval).
  rewrite rms_norm_fallback_float32, Hy. cbn [and_then]. unfold multiply.
  rewrite (arith_op_shapes Rmult _ _ (lead ++ [D]) [D] (lead ++ [D]));
    [| cbn [astype shape]; congruence | assumption
     | apply broadcast_shapes_channel ].
  eexists. split; [reflexivity|].
  intros li j Hli Hj. cbn [elem astype dtype].
  rewrite !rnd_exact.
  rewrite bidx_valid by now apply valid_index_snoc.
  rewrite bidx_channel by assumption.
  rewrite (Hval EX li j Hli Hj). reflexivity.
Qed.

Lemma row_scale_positive x eps D li :
  0 < D -> (0 < eps)%R -> (0 < row_scale x eps D li)%R.
Proof.
  intros HD Heps. unfold row_scale.
  apply Rinv_0_lt_compat, sqrt_lt_R0.
  assert (0 <= sum_upto (fun k => elem x (li ++ [k]) * elem x (li ++ [k]))%R
                 (Z.to_nat D))%R
    by (apply sum_upto_nonneg; intros; nra).
  assert (0 < IZR D)%R by now apply IZR_lt.
  assert (0 <= sum_upto (fun k => elem x (li ++ [k]) * elem x (li ++ [k]))%R
                 (Z.to_nat D) / IZR D)%R
    by (apply Rmult_le_pos; [assumption | left; now apply Rinv_0_lt_compat]).
  lra.
Qed.


Lemma mean_square_positive x eps D li :
  0 < D -> (0 < eps)%R ->
  (0 < sum_upto (fun k => elem x (li ++ [k]) * elem x (li ++ [k]))
                (Z.to_nat D) / IZR D + eps)%R.
Proof.
  intros HD Heps.
  assert (0 <= sum_upto (fun k => elem x (li ++ [k]) * elem x (li ++ [k]))%R
                 (Z.to_nat D))%R
    by (apply sum_upto_nonneg; intros; nra).
  assert (0 < IZR D)%R by now apply IZR_lt.
  assert (0 <= sum_upto (fun k => elem x (li ++ [k]) * elem x (li ++ [k]))%R
                 (Z.to_nat D) / IZR D)%R
    by (apply Rmult_le_pos; [assumption | left; now apply Rinv_0_lt_compat]).
  lra.
Qed.

Lemma row_scale_perturbed x eps D li i t :
  0 <= i < D ->
  row_scale (perturb x (li ++ [i]) t) eps D li =
  (/ sqrt ((sum_upto (fun k => elem x (li ++ [k]) * elem x (li ++ [k]))
                     (Z.to_nat D)
            + 2 * elem x (li ++ [i]) * t + t * t) / IZR D + eps))%R.
Proof.
  intros Hi. unfold row_scale.
  rewrite (sum_upto_ext _
             (fun k => elem x (li ++ [k]) * elem x (li ++ [k])
                       + (if k =? i then 2 * elem x (li ++ [i]) * t + t * t
                          else 0))%R).
  - rewrite sum_upto_plus, sum_upto_indicator by lia.
    do 4 f_equal. ring.
  - intros k Hk. rewrite perturb_row.
    destruct (Z.eqb_spec k i) as [->|_]; ring.
Qed.

Lemma row_scale_other x eps D li li' i t :
  li' <> li ->
  row_scale (perturb x (li ++ [i]) t) eps D li' = row_scale x eps D li'.
Proof.
  intros Hne. unfold row_scale. do 4 f_equal.
  apply sum_upto_ext. intros k Hk. now rewrite perturb_other.
Qed.

Variable pow_fn : R -> R -> R.
Hypothesis pow_cube : forall a, (0 < a)%R -> pow_fn a 3 = (a * a * a)%R.

(** X26. In exact arithmetic the fallback of [RMSNorm::vjp] returns, for
    the input, the gradient of the fallback of [rms_norm]: on an input of
    last extent [D > 0] with a weight of extent [D], a cotangent of the
    shape of the input and [eps > 0], the element [(row, i)] of the first
    returned array is the derivative, with respect to the element
    [(row, i)] of the input, of the sum over the row of cotangent times
    output; the outputs of the other rows do not depend on that element.
    The cube of a positive number is all that is used of [power]. *)
Theorem rms_norm_vjp_input_gradient eps out_type x w g lead D :
  shape x = lead ++ [D] -> shape w = [D] -> shape g = lead ++ [D] ->
  0 < D -> (0 < eps)%R ->
  exists dx dw,
    rms_norm_vjp_fallback pow_fn eps x w g = Ok (dx, dw) /\
    shape dx = shape x /\
    forall li i, valid_index lead li -> 0 <= i < D ->
      derivable_pt_lim
        (fun t =>
           sum_upto
             (fun j =>
                elem g (li ++ [j])
                * value_at (rms_norm_fallback true eps out_type
                              (perturb x (li ++ [i]) t) w) (li ++ [j]))%R
             (Z.to_nat D))
        0 (elem dx (li ++ [i])) /\
      (forall li' j t, valid_index lead li' -> li' <> li -> 0 <= j < D ->
         value_at (rms_norm_fallback true eps out_type
                     (perturb x (li ++ [i]) t) w) (li' ++ [j]) =
         value_at (rms_norm_fallback true eps out_type x w) (li' ++ [j])).
Proof.
  intros Hx Hw Hg HD Heps.
  destruct (rms_norm_vjp_fallback_ok pow_fn eps x w g lead D Hx Hw Hg)
    as (dx & dw & Hv & Hsh & _ & Hel).
  destruct (Hel EX) as [Hdx _].
  exists dx, dw. split; [assumption|]. split; [assumption|].
  intros li i Hli Hi. split.
  - rewrite Hdx by assumption.
    set (A := sum_upto (fun j => elem g (li ++ [j]) * elem w [j]
                                 * elem x (li ++ [j]))%R (Z.to_nat D)).
    set (S := sum_upto (fun k => elem x (li ++ [k]) * elem x (li ++ [k]))%R
                       (Z.to_nat D)).
    apply (derivable_pt_lim_ext
             (fun t => (A + t * (elem g (li ++ [i]) * elem w [i]))
                       / sqrt ((S + 2 * elem x (li ++ [i]) * t + t * t)
                               / IZR D + eps))%R).
    + intros t.
      destruct (rms_norm_fallback_value eps out_type
                  (perturb x (li ++ [i]) t) w lead D) as (y & Hy & Hval);
        [exact Hx | exact Hw |].
      rewrite Hy. cbn [value_at].
      rewrite (sum_upto_ext _
                 (fun j => row_scale (perturb x (li ++ [i]) t) eps D li
                           * (elem g (li ++ [j]) * elem w [j]
                              * elem x (li ++ [j])
                              + (if j =? i
                                 then t * (elem g (li ++ [i]) * elem w [i])
                                 else 0)))%R).
      * rewrite sum_upto_scal, sum_upto_plus, sum_upto_indicator by lia.
        rewrite row_scale_perturbed by assumption.
        fold A S. unfold Rdiv. ring.
      * intros j Hj. rewrite Hval by (assumption || lia).
        rewrite perturb_row.
        destruct (Z.eqb_spec j i) as [->|_]; ring.
    + eapply derivable_pt_lim_eq;
        [| apply ratio_derivative;
           [now apply IZR_lt | now apply mean_square_positive]].
      rewrite pow_cube by now apply row_scale_positive.
      unfold row_scale. fold S. unfold Rdiv. ring.
  - intros li' j t Hli' Hne Hj.
    destruct (rms_norm_fallback_value eps out_type
                (perturb x (li ++ [i]) t) w lead D) as (y & Hy & Hval);
      [exact Hx | exact Hw |].
    destruct (rms_norm_fallback_value eps out_type x w lead D)
      as (y0 & Hy0 & Hval0); [exact Hx | exact Hw |].
    rewrite Hy, Hy0. cbn [value_at].
    rewrite Hval, Hval0 by assumption.
    now rewrite perturb_other, row_scale_other.
Qed.


End RmsNormGradient.

Lemma Rpower_cube (a : R) : (0 < a)%R -> Rpower a 3 = (a * a * a)%R.
Proof.
  intros Ha. replace 3%R with (INR 3) by (cbn; lra).
  rewrite Rpower_pow by assumption. cbn [pow]. ring.
Qed.

Lemma rms_norm_vjp_input_gradient_witness :
  exists dx dw,
    @rms_norm_vjp_fallback exact_arith Rpower (1 / 100000)%R
       (mk_array float32 [2; 3] (fun idx => IZR (nth 1 idx 0 + 1)))
       (mk_array float32 [3] (fun idx => IZR (nth 0 idx 0 + 2)))
       (mk_array float32 [2; 3] (fun _ => 1%R)) = Ok (dx, dw) /\
    shape dx = [2; 3].
Proof.
  destruct (@rms_norm_vjp_input_gradient exact_arith
              exact_arith_promote_same exact_arith_exact Rpower Rpower_cube
              (1 / 100000)%R float32
              (mk_array float32 [2; 3] (fun idx => IZR (nth 1 idx 0 + 1)))
              (mk_array float32 [3] (fun idx => IZR (nth 0 idx 0 + 2)))
              (mk_array float32 [2; 3] (fun _ => 1%R)) [2] 3)
    as (dx & dw & Hv & Hsh & _).
  - reflexivity.
  - reflexivity.
  - reflexivity.
  - lia.
  - lra.
  - exists dx, dw. split; assumption.
Defined.


(** *** The gradient of the layer normalisation *)

Section LayerNormVjp.
Context {AR : Arith}.
Variable pow_fn : R -> R -> R.




End LayerNormVjp.




Section LayerNormVjpFacts.
Context {AR : Arith}.
Variable pow_fn : R -> R -> R.



End LayerNormVjpFacts.

Section CentredDerivative.
Local Open Scope R_scope.


End CentredDerivative.

Section LayerNormGradient.
Context {AR : Arith}.
Hypothesis promote_same : forall d, promote_types d d = d.
Context {EX : Exact AR}.









Variable pow_fn : R -> R -> R.
Hypothesis pow_cube : forall a, (0 < a)%R -> pow_fn a 3 = (a * a * a)%R.



End LayerNormGradient.



End Fast.

(** ** mlx/fast.cpp: affine quantization *)

Module Quantize.
Import MachineInt Tensor Fast.

(** A [uint32] value keeps the low 32 bits. *)
Definition wrapU32 (z : Z) : Z := z mod 2 ^ 32.

(** The product of two [int]. *)
Definition int_mul (a b : Z) : Z := wrap32 (a * b).

(** Modelled from the spec: [is_power_of_2] (mlx/utils.h is not among the
    sources): a non-zero value with a single bit set. *)
Definition is_power_of_2 (v : Z) : bool :=
  negb (v =? 0) && (Z.land v (v - 1) =? 0).

(** [round] of mlx/ops.cpp (not among the sources), to an integer. *)
Class RoundInt := { rint : R -> Z }.

(** An array of rank 2 or more in the form [reshape(a, {-1, a.shape(-1)})]
    gives it: its dtype, its own shape, and its elements row by row along
    the last axis.  The reshapes below keep the row-major order. *)
Record tensor (A : Type) := mk_tensor {
  t_dtype : Dtype;
  t_shape : list Z;
  t_rows : list (list A)
}.
Arguments mk_tensor {A}.
Arguments t_dtype {A}.
Arguments t_shape {A}.
Arguments t_rows {A}.

(** [shape.back() = v]. *)
Definition set_back (s : list Z) (v : Z) : list Z := removelast s ++ [v].

Fixpoint chunks_n {A : Type} (n k : nat) (l : list A) : list (list A) :=
  match n with
  | O => []
  | S n' => firstn k l :: chunks_n n' k (skipn k l)
  end.

(** Modelled from the spec: [reshape] of mlx/ops.cpp (not among the
    sources) of a row into rows of extent [k], keeping the order; it
    throws when [k] does not divide the extent of the row. *)
Definition reshape_last {A : Type} (k : Z) (row : list A)
    : outcome (list (list A)) :=
  if (0 <? k) && (Z.of_nat (length row) mod k =? 0)
  then Ok (chunks_n (length row / Z.to_nat k) (Z.to_nat k) row)
  else InvalidArgument msg_reshape.

(** Modelled from the spec: an elementwise operation of mlx/ops.cpp along
    an axis: extents are equal or one of them is 1. *)
Definition broadcast2 {A B C : Type} (f : A -> B -> C) (a : list A)
    (b : list B) : outcome (list C) :=
  if (length a =? length b)%nat then Ok (zip_with f a b)
  else match a, b with
       | [x], _ => Ok (map (f x) b)
       | _, [y] => Ok (map (fun x => f x y) a)
       | _, _ => InvalidArgument msg_broadcast
       end.

(** [arange(0, stop, step)] for a positive step. *)
Definition arange (stop step : Z) : list Z :=
  map (fun i => Z.of_nat i * step)
      (seq 0 (Z.to_nat ((stop + step - 1) / step))).

(** [sum] of [uint32] values. *)
Definition sum_u32 (l : list Z) : Z :=
  fold_right (fun x acc => wrapU32 (x + acc)) 0 l.

(** The bits [0 .. n - 1] of a [uint32] value:
    [bitwise_and(right_shift(expand_dims(w, -1), arange(n)), 1)]. *)
Definition bit_planes (n : Z) (c : Z) : list Z :=
  map (fun k => Z.land (Z.shiftr c k) 1) (arange n 1).

(** [sum(left_shift(w, arange(n)), -1)] on one row of [n] values. *)
Definition shift_sum (bs : list Z) : Z :=
  sum_u32 (zip_with (fun b j => wrapU32 (Z.shiftl b j)) bs
                    (arange (Z.of_nat (length bs)) 1)).

Definition msg_quantize_group : string :=
  "[quantize] The requested group size is not supported. The supported group sizes are 32, 64, and 128.".
Definition msg_quantize_bits : string :=
  "[quantize] The requested number of bits is not supported. The supported bits are 2, 3, 4, 5, 6 and 8.".
Definition msg_quantize_ndim : string :=
  "[quantize] The matrix to be quantized must have at least 2 dimension.".
Definition msg_quantize_divisible : string :=
  "[quantize] The last dimension of the matrix needs to be divisible by the quantization group size.".
Definition msg_dequantize_bits : string :=
  "[dequantize] Invalid value for bits.".
Definition msg_dequantize_group : string :=
  "[dequantize] Invalid value for group_size.".
Definition msg_dequantize_shape : string :=
  "[dequantize] Shape of scales and biases does not match the matrix".
Definition msg_dequantize_type : string :=
  "[dequantize] The matrix should be given as a uint32".
Definition msg_dequantize_params : string :=
  "[dequantize] Shape of scales and biases does not match the matrix given the quantization parameters.".

Section Codec.
Context {AR : Arith} {RI : RoundInt}.

(** [round(a)] computed in the dtype [t]. *)
Definition round (t : Dtype) (x : R) : R := rnd t (IZR (rint (rnd t x))).

(** [max(a, -1)] and [min(a, -1)] on one group, in the dtype [t]. *)
Definition reduce (f : R -> R -> R) (t : Dtype) (group : list R) : R :=
  let vs := map (rnd t) group in
  fold_right f (hd 0%R vs) (tl vs).

(** The fallback of [affine_quantize] on one group of a weight of dtype
    [t]: the arrays it names, at that group. *)
Definition n_bins (bits : Z) : R := rnd float32 (IZR (Z.shiftl 1 bits - 1)).
Definition eps : R := rnd float32 (1 / 10 ^ 7)%R.
Definition zero : R := rnd float32 0%R.

Definition w_max (t : Dtype) (group : list R) : R :=
  rnd float32 (reduce Rmax t group).

Definition w_min (t : Dtype) (group : list R) : R :=
  rnd float32 (reduce Rmin t group).

Definition mask (t : Dtype) (group : list R) : bool :=
  if Rgt_dec (op1 Rabs float32 (w_min t group))
             (op1 Rabs float32 (w_max t group))
  then true else false.

(** [maximum(divide(subtract(w_max, w_min), n_bins), eps)]. *)
Definition scales_magnitude (t : Dtype) (bits : Z) (group : list R) : R :=
  op2 Rmax float32
      (op2 Rdiv float32
           (op2 Rminus float32 (w_max t group) (w_min t group))
           (n_bins bits))
      eps.

(** [where(mask, scales, negative(scales))]. *)
Definition scales_signed (t : Dtype) (bits : Z) (group : list R) : R :=
  if mask t group then scales_magnitude t bits group
  else op1 Ropp float32 (scales_magnitude t bits group).

Definition edge (t : Dtype) (group : list R) : R :=
  if mask t group then w_min t group else w_max t group.

Definition q0 (t : Dtype) (bits : Z) (group : list R) : R :=
  round float32 (op2 Rdiv float32 (edge t group) (scales_signed t bits group)).

(** [where(not_equal(q0, zero), divide(edge, q0), scales)]. *)
Definition scales (t : Dtype) (bits : Z) (group : list R) : R :=
  if Req_dec_T (q0 t bits group) zero then scales_signed t bits group
  else op2 Rdiv float32 (edge t group) (q0 t bits group).

(** [where(equal(q0, zero), zero, edge)]. *)
Definition biases (t : Dtype) (bits : Z) (group : list R) : R :=
  if Req_dec_T (q0 t bits group) zero then zero else edge t group.

(** [pack_and_quantize], the code of one element: the quotient is rounded
    to an integer, clipped to [0, 2^bits - 1] and converted to [uint32]. *)
Definition quantize_elem (t : Dtype) (bits : Z) (scale bias : R) (v : R)
    : Z :=
  let p := promote_types t float32 in
  let q := promote_types p float32 in
  Z.min (Z.max (rint (rnd q (op2 Rdiv q (op2 Rminus p v bias) scale))) 0)
        (Z.shiftl 1 bits - 1).

(** The packing for a power of two: the codes of a row, [el_per_int] to a
    word, each multiplied by its power of two and summed. *)
Definition pack_pow2 (bits : Z) (codes : list Z) : outcome (list Z) :=
  let el_per_int := Z.quot 32 bits in
  let shifts := map (fun e => wrapU32 (2 ^ e)) (arange 32 bits) in
  and_then (reshape_last el_per_int codes) (fun words =>
    and_then
      (all_ok (map (fun word =>
                      broadcast2 (fun c s => wrapU32 (c * s)) word shifts)
                   words))
      (fun prods => Ok (map sum_u32 prods))).

(** The packing otherwise: the bits of the codes of a group, 32 to a
    word. *)
Definition pack_bits (bits : Z) (codes : list Z) : outcome (list Z) :=
  and_then (reshape_last 32 (flat_map (bit_planes bits) codes))
           (fun words => Ok (map shift_sum words)).

Definition pack_and_quantize (t : Dtype) (bits : Z)
    (packed_w : list (list R)) : outcome (list Z) :=
  let codes :=
    map (fun group =>
           map (quantize_elem t bits (scales t bits group)
                              (biases t bits group)) group)
        packed_w in
  if is_power_of_2 bits then pack_pow2 bits (concat codes)
  else and_then (all_ok (map (pack_bits bits) codes))
                (fun words => Ok (concat words)).

(** The fallback of [affine_quantize] on one row of the weight: the packed
    words, the scales and the biases of the row. *)
Definition quantize_row (group_size bits : Z) (t : Dtype) (row : list R)
    : outcome (list Z * list R * list R) :=
  and_then (reshape_last group_size row) (fun packed_w =>
    and_then (pack_and_quantize t bits packed_w) (fun words =>
      Ok (words,
          map (fun group => rnd t (scales t bits group)) packed_w,
          map (fun group => rnd t (biases t bits group)) packed_w))).

(** The primitive [AffineQuantize] is evaluated by a kernel of the backend
    (not among the sources) when it has one, by its fallback otherwise. *)
Variable kernel :
  option (Z -> Z -> tensor R ->
          outcome (list (list Z) * list (list R) * list (list R))).

Definition AffineQuantize (group_size bits : Z) (w : tensor R)
    : outcome (list (list Z) * list (list R) * list (list R)) :=
  match kernel with
  | Some k => k group_size bits w
  | None =>
      and_then
        (all_ok (map (quantize_row group_size bits (t_dtype w)) (t_rows w)))
        (fun rows => Ok (map (fun r => fst (fst r)) rows,
                         map (fun r => snd (fst r)) rows,
                         map (fun r => snd r) rows))
  end.

Definition affine_quantize (w : tensor R) (group_size bits : Z)
    : outcome (tensor Z * tensor R * tensor R) :=
  if negb (group_size =? 32) && negb (group_size =? 64)
     && negb (group_size =? 128)
  then InvalidArgument msg_quantize_group
  else if (bits <? 2) || (bits >? 8) || (bits =? 7)
  then InvalidArgument msg_quantize_bits
  else if (length (t_shape w) <? 2)%nat
  then InvalidArgument msg_quantize_ndim
  else if negb (Z.rem (last (t_shape w) 0) group_size =? 0)
  then InvalidArgument msg_quantize_divisible
  else
    let wq_shape :=
      set_back (t_shape w) (Z.quot (int_mul (last (t_shape w) 0) bits) 32) in
    let sshape :=
      set_back (t_shape w) (Z.quot (last (t_shape w) 0) group_size) in
    and_then (AffineQuantize group_size bits w) (fun outputs =>
      Ok (mk_tensor uint32 wq_shape (fst (fst outputs)),
          mk_tensor (t_dtype w) sshape (snd (fst outputs)),
          mk_tensor (t_dtype w) sshape (snd outputs))).

(** The unpacking for a power of two: the fields of one word. *)
Definition unpack_pow2 (bits : Z) (word : Z) : list Z :=
  map (fun start =>
         Z.shiftr (wrapU32 (Z.shiftl word (wrapU32 (32 - (start + bits)))))
                  (wrapU32 (32 - bits)))
      (arange 32 bits).

(** The unpacking otherwise: the bits of the words of a row, [bits] to a
    code. *)
Definition unpack_bits (bits : Z) (words : list Z) : outcome (list Z) :=
  and_then (reshape_last bits (flat_map (bit_planes 32) words))
           (fun codes => Ok (map shift_sum codes)).

(** The fallback of [affine_dequantize] on one row. *)
Definition dequantize_row (group_size bits : Z) (ts tb : Dtype)
    (words : list Z) (scales_row biases_row : list R) : outcome (list R) :=
  let p1 := promote_types uint32 ts in
  let p2 := promote_types p1 tb in
  and_then (if is_power_of_2 bits
            then Ok (flat_map (unpack_pow2 bits) words)
            else unpack_bits bits words) (fun codes =>
    and_then (reshape_last group_size codes) (fun groups =>
      and_then (broadcast2 (fun group s =>
                              map (fun c => op2 Rmult p1 (IZR c) s) group)
                           groups scales_row) (fun scaled =>
        and_then (broadcast2 (fun group b =>
                                map (fun v => op2 Rplus p2 v b) group)
                             scaled biases_row) (fun shifted =>
          Ok (concat shifted))))).

Variable on_gpu : bool.
Variable dequantize_kernel :
  Z -> Z -> tensor Z -> tensor R -> tensor R -> outcome (list (list R)).

Definition affine_dequantize (w : tensor Z) (scales biases : tensor R)
    (group_size bits : Z) : outcome (tensor R) :=
  if bits <=? 0 then InvalidArgument msg_dequantize_bits
  else if group_size <=? 0 then InvalidArgument msg_dequantize_group
  else if (length (t_shape w) <? 2)%nat
          || (length (t_shape scales) <? 2)%nat
          || (length (t_shape biases) <? 2)%nat
  then InvalidArgument msg_quantize_ndim
  else
    let wshape := set_back (t_shape w) (- 1) in
    let sshape := set_back (t_shape scales) (- 1) in
    let bshape := set_back (t_shape biases) (- 1) in
    if negb (Shape_eqb wshape sshape) || negb (Shape_eqb wshape bshape)
    then InvalidArgument msg_dequantize_shape
    else if negb (Dtype_eqb (t_dtype w) uint32)
    then InvalidArgument msg_dequantize_type
    else
      let out_size := Z.quot (int_mul (last (t_shape w) 0) 32) bits in
      if negb (out_size =? int_mul (last (t_shape scales) 0) group_size)
      then InvalidArgument msg_dequantize_params
      else
        let out_shape := set_back (t_shape w) out_size in
        let out_type :=
          promote_types (promote_types uint32 (t_dtype scales))
                        (t_dtype biases) in
        if on_gpu then
          and_then (dequantize_kernel group_size bits w scales biases)
                   (fun rows => Ok (mk_tensor (t_dtype scales) out_shape rows))
        else
          and_then
            (all_ok (zip_with (fun words sb =>
                                 dequantize_row group_size bits
                                   (t_dtype scales) (t_dtype biases)
                                   words (fst sb) (snd sb))
                              (t_rows w)
                              (combine (t_rows scales) (t_rows biases))))
            (fun rows => Ok (mk_tensor out_type out_shape rows)).

End Codec.

(** *** Rows and their reshapes *)

Section Rows.
Context {A : Type}.

Lemma chunks_n_length (n k : nat) (l : list A) :
  length (chunks_n n k l) = n.
Proof.
  revert l; induction n as [|n IH]; intros l; simpl; [reflexivity|].
  now rewrite IH.
Qed.

Lemma chunks_n_concat (k : nat) (ls : list (list A)) :
  Forall (fun c => length c = k) ls ->
  chunks_n (length ls) k (concat ls) = ls.
Proof.
  induction 1 as [|c ls Hc _ IH]; [reflexivity|].
  cbn [length concat chunks_n].
  rewrite firstn_app, skipn_app, Hc, Nat.sub_diag, firstn_all2, skipn_all2
    by lia.
  cbn [firstn skipn app]. rewrite app_nil_r, IH. reflexivity.
Qed.

Lemma concat_chunks_n (n k : nat) (l : list A) :
  length l = (n * k)%nat -> concat (chunks_n n k l) = l.
Proof.
  revert l; induction n as [|n IH]; intros l H.
  - destruct l; [reflexivity|discriminate].
  - cbn [chunks_n concat]. rewrite IH.
    + apply firstn_skipn.
    + rewrite length_skipn. lia.
Qed.

Lemma chunks_n_Forall (n k : nat) (l : list A) :
  length l = (n * k)%nat ->
  Forall (fun c => length c = k) (chunks_n n k l).
Proof.
  revert l; induction n as [|n IH]; intros l H; [constructor|].
  cbn [chunks_n]. constructor.
  - rewrite length_firstn. lia.
  - apply IH. rewrite length_skipn. lia.
Qed.

Lemma reshape_last_ok (k : Z) (n : nat) (row : list A) :
  0 < k -> length row = (n * Z.to_nat k)%nat ->
  reshape_last k row = Ok (chunks_n n (Z.to_nat k) row).
Proof.
  intros Hk Hlen. unfold reshape_last.
  assert (Hk' : (0 < Z.to_nat k)%nat) by lia.
  replace (0 <? k) with true by (symmetry; apply Z.ltb_lt; lia).
  rewrite Hlen, Nat.div_mul by lia.
  replace (Z.of_nat (n * Z.to_nat k)) with (Z.of_nat n * k) by lia.
  rewrite Z_mod_mult. reflexivity.
Qed.

Lemma length_concat_uniform (k : nat) (ls : list (list A)) :
  Forall (fun c => length c = k) ls ->
  length (concat ls) = (length ls * k)%nat.
Proof.
  induction 1 as [|c ls Hc _ IH]; [reflexivity|].
  cbn [concat length]. rewrite length_app, IH, Hc. lia.
Qed.

Lemma nth_concat_uniform (k : nat) (ls : list (list A)) (g p : nat) (d : A) :
  Forall (fun c => length c = k) ls -> (p < k)%nat ->
  nth (g * k + p) (concat ls) d = nth p (nth g ls []) d.
Proof.
  intros H Hp. revert g. induction H as [|c ls Hc _ IH]; intros g.
  - cbn [concat]. destruct g; destruct (_ + p)%nat; destruct p; reflexivity.
  - destruct g as [|g]; cbn [concat nth].
    + rewrite app_nth1 by lia. reflexivity.
    + rewrite app_nth2 by lia.
      replace (S g * k + p - length c)%nat with (g * k + p)%nat by lia.
      apply IH.
Qed.

Lemma nth_map_default {B : Type} (f : A -> B) (l : list A) (i : nat)
    (d : A) (e : B) :
  (i < length l)%nat -> nth i (map f l) e = f (nth i l d).
Proof.
  intros H. rewrite (nth_indep _ e (f d)) by now rewrite length_map.
  apply map_nth.
Qed.

End Rows.

Lemma all_ok_map {A B} (F : A -> outcome B) (G : A -> B) (P : A -> Prop)
    (l : list A) :
  (forall a, P a -> F a = Ok (G a)) -> Forall P l ->
  all_ok (map F l) = Ok (map G l).
Proof.
  intros HF HP. induction HP as [|a l Ha _ IH]; [reflexivity|].
  cbn [map all_ok]. rewrite (HF a Ha), IH. reflexivity.
Qed.


(** *** Words and their fields *)

(** The number that the digits [l] write in base [B], lowest first. *)
Fixpoint value (B : Z) (l : list Z) : Z :=
  match l with
  | [] => 0
  | c :: r => c + B * value B r
  end.

Definition digits_below (B : Z) (l : list Z) : Prop :=
  Forall (fun c => 0 <= c < B) l.

Lemma value_range (B : Z) (l : list Z) :
  0 < B -> digits_below B l -> 0 <= value B l < B ^ Z.of_nat (length l).
Proof.
  intros HB H. induction H as [|c r Hc _ IH].
  - cbn. lia.
  - cbn [value length]. rewrite Nat2Z.inj_succ, Z.pow_succ_r by lia. nia.
Qed.

Lemma value_digit (B : Z) (l : list Z) (i : nat) :
  0 < B -> digits_below B l -> (i < length l)%nat ->
  (value B l / B ^ Z.of_nat i) mod B = nth i l 0.
Proof.
  intros HB H. revert i. induction H as [|c r Hc _ IH]; intros i Hi.
  - cbn in Hi. lia.
  - cbn [value]. destruct i as [|i].
    + cbn [nth Z.of_nat]. rewrite Z.pow_0_r, Z.div_1_r.
      replace (c + B * value B r) with (c + value B r * B) by ring.
      rewrite Z_mod_plus_full. apply Z.mod_small. exact Hc.
    + cbn [nth length] in *. rewrite Nat2Z.inj_succ, Z.pow_succ_r by lia.
      rewrite <- Z.div_div by (try apply Z.pow_pos_nonneg; lia).
      replace ((c + B * value B r) / B) with (value B r).
      * apply IH. lia.
      * replace (c + B * value B r) with (value B r * B + c) by ring.
        rewrite Z.div_add_l by lia.
        rewrite (Z.div_small c B) by exact Hc. lia.
Qed.

Lemma nth_map_seq0 {A} (f : nat -> A) (n i : nat) (d : A) :
  (i < n)%nat -> nth i (map f (seq 0 n)) d = f i.
Proof.
  intros H. rewrite (nth_indep _ d (f 0%nat)) by now rewrite length_map, length_seq.
  rewrite map_nth, seq_nth by exact H. reflexivity.
Qed.

Lemma map_digits_value (B : Z) (l : list Z) :
  0 < B -> digits_below B l ->
  map (fun i => (value B l / B ^ Z.of_nat i) mod B) (seq 0 (length l)) = l.
Proof.
  intros HB H. apply (nth_ext _ _ 0 0).
  - now rewrite length_map, length_seq.
  - intros i Hi. rewrite length_map, length_seq in Hi.
    rewrite nth_map_seq0 by exact Hi. now apply value_digit.
Qed.

Lemma value_digits (B : Z) (n : nat) (x : Z) :
  0 < B -> 0 <= x < B ^ Z.of_nat n ->
  value B (map (fun i => (x / B ^ Z.of_nat i) mod B) (seq 0 n)) = x.
Proof.
  intros HB. revert x. induction n as [|n IH]; intros x Hx.
  - cbn in *. lia.
  - cbn [seq map value]. rewrite <- seq_shift, map_map.
    rewrite (map_ext _ (fun i => ((x / B) / B ^ Z.of_nat i) mod B)).
    + rewrite IH.
      * cbn [Z.of_nat]. rewrite Z.pow_0_r, Z.div_1_r.
        pose proof (Z_div_mod_eq_full x B). lia.
      * rewrite Nat2Z.inj_succ, Z.pow_succ_r in Hx by lia.
        split; [apply Z.div_pos; lia|].
        apply Z.div_lt_upper_bound; lia.
    + intros i. rewrite Nat2Z.inj_succ, Z.pow_succ_r by lia.
      rewrite Z.div_div by (try apply Z.pow_pos_nonneg; lia). reflexivity.
Qed.

Lemma digits_below_digits (B : Z) (n : nat) (x : Z) :
  0 < B ->
  digits_below B (map (fun i => (x / B ^ Z.of_nat i) mod B) (seq 0 n)).
Proof.
  intros HB. apply Forall_forall. intros c Hc.
  apply in_map_iff in Hc. destruct Hc as (i & <- & _).
  apply Z.mod_pos_bound. exact HB.
Qed.

Lemma wrapU32_small (z : Z) : 0 <= z < 2 ^ 32 -> wrapU32 z = z.
Proof. intros H. unfold wrapU32. now apply Z.mod_small. Qed.

(** A sum of digits, each at its weight, in [uint32]. *)
Lemma sum_u32_weights (b : Z) (f : Z -> Z -> Z) (h : nat -> Z) :
  0 < b ->
  (forall c i, 0 <= c < 2 ^ b -> (Z.of_nat i + 1) * b <= 32 ->
               f c (h i) = c * 2 ^ (Z.of_nat i * b)) ->
  forall cs k,
    digits_below (2 ^ b) cs ->
    (Z.of_nat k + Z.of_nat (length cs)) * b <= 32 ->
    sum_u32 (zip_with f cs (map h (seq k (length cs)))) =
    2 ^ (Z.of_nat k * b) * value (2 ^ b) cs.
Proof.
  intros Hb Hf cs. induction cs as [|c r IH]; intros k Hcs Hk.
  - cbn. lia.
  - pose proof (value_range (2 ^ b) (c :: r) ltac:(lia) Hcs) as Hv.
    inversion Hcs as [|? ? Hc Hr]; subst.
    cbn [length seq map zip_with sum_u32 fold_right] in *.
    fold (sum_u32 (zip_with f r (map h (seq (S k) (length r))))).
    rewrite Hf by (try exact Hc; nia).
    rewrite IH by (try exact Hr; lia).
    cbn [value] in *.
    replace (Z.of_nat (S k) * b) with (Z.of_nat k * b + b) by lia.
    rewrite Z.pow_add_r by nia.
    rewrite wrapU32_small; [ring|].
    assert (H1 : 0 < 2 ^ (Z.of_nat k * b)) by (apply Z.pow_pos_nonneg; nia).
    assert (H2 : 2 ^ (Z.of_nat k * b) * (2 ^ b) ^ Z.of_nat (S (length r))
                 <= 2 ^ 32).
    { rewrite <- Z.pow_mul_r, <- Z.pow_add_r by nia.
      apply Z.pow_le_mono_r; lia. }
    nia.
Qed.

Lemma arange_unit (n : Z) :
  arange n 1 = map (fun i => Z.of_nat i * 1) (seq 0 (Z.to_nat n)).
Proof.
  unfold arange. replace (n + 1 - 1) with n by lia. now rewrite Z.div_1_r.
Qed.

Lemma arange_divisor (b q : Z) :
  0 < b -> 32 = q * b ->
  arange 32 b = map (fun i => Z.of_nat i * b) (seq 0 (Z.to_nat q)).
Proof.
  intros Hb Hq. unfold arange. do 2 f_equal.
  replace (32 + b - 1) with (q * b + (b - 1)) by lia.
  rewrite Z.div_add_l, Z.div_small; lia.
Qed.

Lemma shift_sum_value (bs : list Z) :
  digits_below 2 bs -> (length bs <= 32)%nat -> shift_sum bs = value 2 bs.
Proof.
  intros Hbs Hlen. unfold shift_sum.
  rewrite arange_unit, Nat2Z.id.
  rewrite (sum_u32_weights 1 _ (fun i => Z.of_nat i * 1)); try lia.
  - cbn [Z.of_nat]. change (2 ^ 1) with 2. rewrite Z.mul_0_l, Z.pow_0_r. lia.
  - intros c i Hc Hi. rewrite Z.shiftl_mul_pow2 by lia.
    apply wrapU32_small.
    assert (2 ^ (Z.of_nat i * 1) * 2 <= 2 ^ 32).
    { replace (2 ^ (Z.of_nat i * 1) * 2) with (2 ^ (Z.of_nat i * 1 + 1))
        by (rewrite Z.pow_add_r by lia; lia).
      apply Z.pow_le_mono_r; lia. }
    assert (0 < 2 ^ (Z.of_nat i * 1)) by (apply Z.pow_pos_nonneg; lia).
    change (2 ^ 1) with 2 in Hc. nia.
  - exact Hbs.
Qed.

Lemma bit_planes_digits (n c : Z) :
  bit_planes n c =
  map (fun i => (c / 2 ^ Z.of_nat i) mod 2) (seq 0 (Z.to_nat n)).
Proof.
  unfold bit_planes. rewrite arange_unit, map_map.
  apply map_ext. intros i.
  rewrite Z.mul_1_r, Z.shiftr_div_pow2 by lia.
  change 1 with (Z.ones 1) at 1. rewrite Z.land_ones by lia. reflexivity.
Qed.

Lemma bit_planes_below (n c : Z) : digits_below 2 (bit_planes n c).
Proof. rewrite bit_planes_digits. apply digits_below_digits. lia. Qed.

Lemma bit_planes_length (n c : Z) : length (bit_planes n c) = Z.to_nat n.
Proof. now rewrite bit_planes_digits, length_map, length_seq. Qed.

Lemma shift_sum_bit_planes (n c : Z) :
  0 <= n <= 32 -> 0 <= c < 2 ^ n -> shift_sum (bit_planes n c) = c.
Proof.
  intros Hn Hc. rewrite shift_sum_value.
  - rewrite bit_planes_digits. apply value_digits; [lia|].
    now rewrite Z2Nat.id by lia.
  - apply bit_planes_below.
  - rewrite bit_planes_length. lia.
Qed.

Lemma bit_planes_shift_sum (bs : list Z) :
  digits_below 2 bs -> length bs = 32%nat ->
  bit_planes 32 (shift_sum bs) = bs.
Proof.
  intros Hbs Hlen. rewrite shift_sum_value by (try exact Hbs; lia).
  rewrite bit_planes_digits. change (Z.to_nat 32) with 32%nat.
  rewrite <- Hlen. apply map_digits_value; [lia | exact Hbs].
Qed.

Lemma pack_word_value (b q : Z) (word : list Z) :
  0 < b -> 32 = q * b -> digits_below (2 ^ b) word ->
  length word = Z.to_nat q ->
  let shifts := map (fun e => wrapU32 (2 ^ e)) (arange 32 b) in
  broadcast2 (fun c s => wrapU32 (c * s)) word shifts =
    Ok (zip_with (fun c s => wrapU32 (c * s)) word shifts) /\
  sum_u32 (zip_with (fun c s => wrapU32 (c * s)) word shifts) =
    value (2 ^ b) word.
Proof.
  intros Hb Hq Hw Hlen shifts. subst shifts.
  rewrite (arange_divisor b q Hb Hq), map_map.
  unfold broadcast2. rewrite length_map, length_seq, Hlen, Nat.eqb_refl.
  split; [reflexivity|].
  rewrite <- Hlen.
  rewrite (sum_u32_weights b _ (fun i => wrapU32 (2 ^ (Z.of_nat i * b)))).
  - cbn [Z.of_nat]. rewrite Z.mul_0_l, Z.pow_0_r. lia.
  - exact Hb.
  - intros c i Hc Hi.
    assert (H1 : 0 < 2 ^ (Z.of_nat i * b)) by (apply Z.pow_pos_nonneg; nia).
    assert (H2 : 2 ^ (Z.of_nat i * b) * 2 ^ b <= 2 ^ 32).
    { rewrite <- Z.pow_add_r by nia. apply Z.pow_le_mono_r; lia. }
    assert (H3 : 2 ^ 1 <= 2 ^ b) by (apply Z.pow_le_mono_r; lia).
    change (2 ^ 1) with 2 in H3.
    rewrite (wrapU32_small (2 ^ _)) by nia.
    apply wrapU32_small. nia.
  - exact Hw.
  - nia.
Qed.

Lemma unpack_pow2_digits (b q w : Z) :
  0 < b -> 32 = q * b -> 0 <= w < 2 ^ 32 ->
  unpack_pow2 b w =
  map (fun i => (w / (2 ^ b) ^ Z.of_nat i) mod 2 ^ b) (seq 0 (Z.to_nat q)).
Proof.
  intros Hb Hq Hw. unfold unpack_pow2.
  rewrite (arange_divisor b q Hb Hq), map_map.
  apply map_ext_in. intros i Hi. apply in_seq in Hi.
  assert (Hi' : (Z.of_nat i + 1) * b <= 32) by nia.
  rewrite (wrapU32_small (32 - _)) by nia.
  rewrite (wrapU32_small (32 - b)) by nia.
  rewrite <- Z.pow_mul_r by lia.
  apply Z.bits_inj'. intros n Hn.
  rewrite Z.shiftr_spec by exact Hn.
  unfold wrapU32.
  destruct (Z_lt_dec n b) as [Hlt|Hge].
  - rewrite !Z.mod_pow2_bits_low by lia.
    rewrite Z.shiftl_spec by lia.
    rewrite Z.div_pow2_bits by nia. f_equal. lia.
  - rewrite !Z.mod_pow2_bits_high by lia. reflexivity.
Qed.

Lemma unpack_pow2_value (b q : Z) (word : list Z) :
  0 < b -> 32 = q * b -> digits_below (2 ^ b) word ->
  length word = Z.to_nat q ->
  unpack_pow2 b (value (2 ^ b) word) = word.
Proof.
  intros Hb Hq Hw Hlen.
  assert (HB : 0 < 2 ^ b) by (apply Z.pow_pos_nonneg; lia).
  rewrite (unpack_pow2_digits b q); try assumption.
  - rewrite <- Hlen. now apply map_digits_value.
  - pose proof (value_range (2 ^ b) word HB Hw) as Hv.
    rewrite Hlen, <- Z.pow_mul_r, Z2Nat.id in Hv by nia.
    replace (b * q) with 32 in Hv by lia. exact Hv.
Qed.

Lemma chunks_n_Forall_inner {A} (P : A -> Prop) (n k : nat) (l : list A) :
  Forall P l -> Forall (Forall P) (chunks_n n k l).
Proof.
  revert l; induction n as [|n IH]; intros l H; [constructor|].
  cbn [chunks_n]. rewrite <- (firstn_skipn k l) in H.
  apply Forall_app in H. destruct H as [H1 H2].
  constructor; [exact H1 | now apply IH].
Qed.

Lemma flat_map_concat {A B} (f : A -> list B) (ls : list (list A)) :
  flat_map f (concat ls) = concat (map (flat_map f) ls).
Proof.
  induction ls as [|l ls IH]; [reflexivity|].
  cbn [concat map]. now rewrite flat_map_app, IH.
Qed.

Lemma map_id_Forall {A} (f : A -> A) (P : A -> Prop) (l : list A) :
  (forall a, P a -> f a = a) -> Forall P l -> map f l = l.
Proof.
  intros H HP. induction HP as [|a l Ha _ IH]; [reflexivity|].
  cbn [map]. now rewrite H, IH.
Qed.

Lemma Forall_and {A} (P Q : A -> Prop) (l : list A) :
  Forall P l -> Forall Q l -> Forall (fun a => P a /\ Q a) l.
Proof.
  intros HP HQ. induction HP; inversion HQ; subst; constructor; auto.
Qed.

(** The words of a row packed for a power of two unpack to its codes. *)
Lemma pack_pow2_unpack (b q : Z) (n : nat) (codes : list Z) :
  0 < b -> 32 = q * b -> digits_below (2 ^ b) codes ->
  length codes = (n * Z.to_nat q)%nat ->
  exists words,
    pack_pow2 b codes = Ok words /\ length words = n /\
    flat_map (unpack_pow2 b) words = codes.
Proof.
  intros Hb Hq Hc Hlen.
  assert (Hq0 : 0 < q) by nia.
  assert (Hquot : Z.quot 32 b = q).
  { rewrite Z.quot_div_nonneg by lia. rewrite Hq. apply Z_div_mult. lia. }
  pose (words := chunks_n n (Z.to_nat q) codes).
  assert (Hwords : Forall (fun w => digits_below (2 ^ b) w /\
                                    length w = Z.to_nat q) words).
  { apply Forall_and.
    - now apply chunks_n_Forall_inner.
    - now apply chunks_n_Forall. }
  exists (map (value (2 ^ b)) words). split; [|split].
  - unfold pack_pow2. rewrite Hquot.
    rewrite (reshape_last_ok q n) by assumption.
    cbn [and_then]. fold words.
    rewrite (all_ok_map _
               (fun word => zip_with (fun c s => wrapU32 (c * s)) word
                   (map (fun e => wrapU32 (2 ^ e)) (arange 32 b)))
               _ words (fun w H => proj1 (pack_word_value b q w Hb Hq
                                            (proj1 H) (proj2 H))) Hwords).
    cbn [and_then]. rewrite map_map. f_equal.
    apply (map_ext_Forall _ _ _ _
             (fun w H => proj2 (pack_word_value b q w Hb Hq
                                  (proj1 H) (proj2 H))) Hwords).
  - unfold words. now rewrite length_map, chunks_n_length.
  - rewrite flat_map_concat_map, map_map.
    rewrite (map_id_Forall _ _ words
               (fun w H => unpack_pow2_value b q w Hb Hq (proj1 H) (proj2 H))
               Hwords).
    now apply concat_chunks_n.
Qed.

(** The words of the groups of a row packed bit by bit unpack to the
    codes of the row. *)
Lemma pack_bits_unpack (b : Z) (m gs : nat) (groups : list (list Z)) :
  0 < b <= 32 -> (gs * Z.to_nat b = m * 32)%nat ->
  Forall (fun g => digits_below (2 ^ b) g /\ length g = gs) groups ->
  exists words,
    and_then (all_ok (map (pack_bits b) groups))
             (fun ws => Ok (concat ws)) = Ok words /\
    length words = (length groups * m)%nat /\
    unpack_bits b words = Ok (concat groups).
Proof.
  intros Hb Hm Hgroups.
  pose (stream := fun g : list Z => flat_map (bit_planes b) g).
  pose (W := fun g : list Z => map shift_sum (chunks_n m 32 (stream g))).
  assert (Hstream : forall g, length g = gs ->
                              length (stream g) = (m * 32)%nat).
  { intros g Hg. unfold stream. rewrite flat_map_concat_map.
    rewrite (length_concat_uniform (Z.to_nat b)).
    - rewrite length_map. lia.
    - apply Forall_forall. intros c Hc. apply in_map_iff in Hc.
      destruct Hc as (x & <- & _). apply bit_planes_length. }
  assert (Hbits : forall g, digits_below 2 (stream g)).
  { intros g. unfold stream. apply Forall_forall. intros x Hx.
    apply in_flat_map in Hx. destruct Hx as (c & _ & Hx).
    pose proof (bit_planes_below b c) as H.
    apply (proj1 (Forall_forall _ _) H x Hx). }
  assert (Hpack : all_ok (map (pack_bits b) groups) = Ok (map W groups)).
  { apply (all_ok_map _ W (fun g => digits_below (2 ^ b) g /\ length g = gs));
      [|exact Hgroups].
    intros g [_ Hg]. unfold pack_bits. fold (stream g).
    rewrite (reshape_last_ok 32 m) by (try lia; rewrite Hstream; auto; lia).
    reflexivity. }
  assert (Hback : forall g, length g = gs ->
                            flat_map (bit_planes 32) (W g) = stream g).
  { intros g Hg. unfold W. rewrite flat_map_concat_map, map_map.
    rewrite (map_id_Forall _ (fun ch => digits_below 2 ch /\
                                        length ch = 32%nat)).
    - apply concat_chunks_n. now apply Hstream.
    - intros ch [H1 H2]. now apply bit_planes_shift_sum.
    - apply Forall_and.
      + apply chunks_n_Forall_inner. apply Hbits.
      + apply chunks_n_Forall. now apply Hstream. }
  exists (concat (map W groups)). split; [|split].
  - rewrite Hpack. reflexivity.
  - rewrite (length_concat_uniform m).
    + now rewrite length_map.
    + apply Forall_forall. intros ws Hws. apply in_map_iff in Hws.
      destruct Hws as (g & <- & Hg). unfold W.
      now rewrite length_map, chunks_n_length.
  - unfold unpack_bits. rewrite flat_map_concat, map_map.
    rewrite (map_ext_Forall _ stream _ groups
               (fun g H => Hback g (proj2 H)) Hgroups).
    unfold stream.
    rewrite <- flat_map_concat.
    rewrite flat_map_concat_map.
    rewrite (reshape_last_ok b (length (concat groups))).
    + cbn [and_then]. f_equal.
      rewrite <- (length_map (bit_planes b) (concat groups)).
      rewrite chunks_n_concat.
      * rewrite map_map. apply (map_id_Forall _ (fun c => 0 <= c < 2 ^ b)).
        -- intros c Hc. apply shift_sum_bit_planes; lia.
        -- apply Forall_concat. revert Hgroups. apply Forall_impl.
           intros g [H _]. exact H.
      * apply Forall_forall. intros c Hc. apply in_map_iff in Hc.
        destruct Hc as (x & <- & _). apply bit_planes_length.
    + lia.
    + rewrite (length_concat_uniform (Z.to_nat b)).
      * now rewrite length_map.
      * apply Forall_forall. intros c Hc. apply in_map_iff in Hc.
        destruct Hc as (x & <- & _). apply bit_planes_length.
Qed.

(** *** The scale and the bias of a group in exact arithmetic *)

(** [round] returns one of the integers nearest to its argument. *)
Class Nearest (RI : RoundInt) : Prop :=
  rint_nearest : forall x : R, (Rabs (IZR (rint x) - x) <= 1 / 2)%R.

(** The scale and the bias of a group of maximum [mx] and minimum [mn]:
    the anchor is the one of larger magnitude; the scale starts as the
    range over the number of steps, at least 1e-7, negated when the anchor
    is the maximum; when the anchor divided by it rounds to a non-zero [q]
    the scale is the anchor over [q] and the bias the anchor, otherwise the
    bias is 0. *)
Definition recipe {RI : RoundInt} (bits : Z) (mx mn : R) : R * R :=
  let anchor_is_min := if Rgt_dec (Rabs mn) (Rabs mx) then true else false in
  let anchor := if anchor_is_min then mn else mx in
  let magnitude := Rmax ((mx - mn) / IZR (2 ^ bits - 1)) (1 / 10 ^ 7) in
  let scale := if anchor_is_min then magnitude else (- magnitude)%R in
  let q := rint (anchor / scale) in
  if q =? 0 then (scale, 0%R) else ((anchor / IZR q)%R, anchor).

(** The same with the scale given the sign of the anchor. *)
Definition recipe_as_specified {RI : RoundInt} (bits : Z) (mx mn : R)
    : R * R :=
  let anchor := if Rgt_dec (Rabs mn) (Rabs mx) then mn else mx in
  let magnitude := Rmax ((mx - mn) / IZR (2 ^ bits - 1)) (1 / 10 ^ 7) in
  let scale := if Rlt_dec anchor 0 then (- magnitude)%R else magnitude in
  let q := rint (anchor / scale) in
  if q =? 0 then (scale, 0%R) else ((anchor / IZR q)%R, anchor).

Definition is_max (group : list R) (mx : R) : Prop :=
  In mx group /\ Forall (fun v => v <= mx)%R group.

Definition is_min (group : list R) (mn : R) : Prop :=
  In mn group /\ Forall (fun v => mn <= v)%R group.

Section Reals.
Local Open Scope R_scope.

Lemma div_le_mono (a b c : R) : 0 < c -> a <= b -> a / c <= b / c.
Proof.
  intros Hc H. unfold Rdiv. apply Rmult_le_compat_r; [|exact H].
  left. now apply Rinv_0_lt_compat.
Qed.

Lemma div_le_bound (a b c : R) : 0 < c -> a <= b * c -> a / c <= b.
Proof.
  intros Hc H. apply (div_le_mono _ _ c Hc) in H.
  replace (b * c / c) with b in H by (field; lra). exact H.
Qed.

Lemma div_ge_bound (a b c : R) : 0 < c -> b * c <= a -> b <= a / c.
Proof.
  intros Hc H. apply (div_le_mono _ _ c Hc) in H.
  replace (b * c / c) with b in H by (field; lra). exact H.
Qed.

(** The number of steps between an element and the anchor. *)
Lemma steps_range (a u s0 n k : R) :
  0 < a -> 0 < s0 -> 0 <= u -> u <= n * s0 -> u <= 2 * a ->
  0 <= k <= a / s0 + 1 / 2 ->
  0 <= u * k / a <= n + 1.
Proof.
  intros Ha Hs Hu Hun Hua [Hk0 Hk]. split.
  - apply div_ge_bound; [exact Ha|]. rewrite Rmult_0_l.
    now apply Rmult_le_pos.
  - apply div_le_bound; [exact Ha|].
    apply Rle_trans with (u * (a / s0 + 1 / 2)).
    + now apply Rmult_le_compat_l.
    + assert (H1 : u * (a / s0) <= n * a).
      { replace (u * (a / s0)) with (u / s0 * a) by (field; lra).
        apply Rmult_le_compat_r; [lra|]. now apply div_le_bound. }
      lra.
Qed.

Lemma magnitude_facts (bits : Z) (mx mn : R) :
  (2 <= bits)%Z -> mn <= mx ->
  let n := IZR (2 ^ bits - 1) in
  let magnitude := Rmax ((mx - mn) / n) (1 / 10 ^ 7) in
  1 <= n /\ 0 < magnitude /\ mx - mn <= n * magnitude.
Proof.
  intros Hb Hm n magnitude.
  assert (Hn : 1 <= n).
  { unfold n. apply IZR_le.
    assert (2 ^ 2 <= 2 ^ bits)%Z by (apply Z.pow_le_mono_r; lia).
    change (2 ^ 2)%Z with 4%Z in *. lia. }
  assert (Heps : 0 < 1 / 10 ^ 7) by lra.
  assert (H1 : 1 / 10 ^ 7 <= magnitude) by apply Rmax_r.
  assert (H2 : (mx - mn) / n <= magnitude) by apply Rmax_l.
  repeat split; [exact Hn | lra |].
  replace (mx - mn) with ((mx - mn) / n * n) by (field; lra).
  rewrite (Rmult_comm n). apply Rmult_le_compat_r; lra.
Qed.

Lemma IZR_neg_nonzero (q : Z) (t : R) :
  Rabs (IZR q - t) <= 1 / 2 -> t < 0 -> q <> 0%Z -> IZR q <= -1.
Proof.
  intros Hq Ht Hne.
  assert (H : IZR q < 1).
  { unfold Rabs in Hq. destruct (Rcase_abs _); lra. }
  apply lt_IZR in H. apply IZR_le. lia.
Qed.

Lemma IZR_near_zero (q : Z) : Rabs (IZR q - 0) <= 1 / 2 -> q = 0%Z.
Proof.
  intros Hq. rewrite Rminus_0_r in Hq.
  assert (H : -1 < IZR q < 1).
  { unfold Rabs in Hq. destruct (Rcase_abs _); lra. }
  destruct H as [H1 H2]. apply lt_IZR in H1, H2. lia.
Qed.

End Reals.

Section RecipeFacts.
Context {RI : RoundInt} {NR : Nearest RI}.
Local Open Scope R_scope.

Lemma div_neg (a c : R) : a < 0 -> 0 < c -> a / c < 0.
Proof.
  intros Ha Hc.
  assert (H : 0 < (- a) / c) by (apply Rdiv_lt_0_compat; lra).
  replace (a / c) with (- ((- a) / c)) by (field; lra). lra.
Qed.

(** Every element of the group lies between one step below code 0 and one
    step above the last code. *)
Lemma recipe_range (bits : Z) (mx mn v : R) :
  (2 <= bits)%Z -> mn <= v <= mx ->
  fst (recipe bits mx mn) <> 0 /\
  -1 <= (v - snd (recipe bits mx mn)) / fst (recipe bits mx mn)
     <= IZR (2 ^ bits - 1) + 1.
Proof.
  intros Hb [Hv1 Hv2].
  destruct (magnitude_facts bits mx mn Hb ltac:(lra)) as (Hn & Hmag & Hrange).
  unfold recipe.
  set (n := IZR (2 ^ bits - 1)) in *.
  set (magnitude := Rmax ((mx - mn) / n) (1 / 10 ^ 7)) in *.
  destruct (Rgt_dec (Rabs mn) (Rabs mx)) as [HA|HB].
  - assert (Hmn : mn < 0 /\ mx < - mn).
    { unfold Rabs in HA. destruct (Rcase_abs mn), (Rcase_abs mx); lra. }
    destruct Hmn as [Hmn Hmx].
    pose proof (rint_nearest (mn / magnitude)) as Hq.
    set (q := rint (mn / magnitude)) in *.
    assert (Ht : mn / magnitude < 0) by now apply div_neg.
    assert (Hopp : (- mn) / magnitude = - (mn / magnitude)) by (field; lra).
    destruct (q =? 0)%Z eqn:Hq0; cbn [fst snd].
    + apply Z.eqb_eq in Hq0. rewrite Hq0 in Hq.
      split; [lra|]. rewrite Rminus_0_r.
      assert (Hlow : - (1 / 2) <= mn / magnitude).
      { unfold Rabs in Hq. destruct (Rcase_abs _); lra. }
      assert (H1 : mn / magnitude <= v / magnitude)
        by (apply div_le_mono; lra).
      assert (H2 : v / magnitude <= (- mn) / magnitude)
        by (apply div_le_mono; lra).
      lra.
    + apply Z.eqb_neq in Hq0.
      pose proof (IZR_neg_nonzero q _ Hq Ht Hq0) as Hq1.
      split.
      * unfold Rdiv. apply Rmult_integral_contrapositive_currified;
          [lra | apply Rinv_neq_0_compat; lra].
      * replace ((v - mn) / (mn / IZR q))
          with ((v - mn) * (- IZR q) / (- mn)) by (field; lra).
        assert (Hk : 0 <= - IZR q <= (- mn) / magnitude + 1 / 2).
        { unfold Rabs in Hq. destruct (Rcase_abs _); lra. }
        pose proof (steps_range (- mn) (v - mn) magnitude n (- IZR q)
                      ltac:(lra) Hmag ltac:(lra) ltac:(lra) ltac:(lra) Hk).
        lra.
  - assert (Hopp : forall a, a / (- magnitude) = - (a / magnitude))
      by (intros a; field; lra).
    pose proof (rint_nearest (mx / (- magnitude))) as Hq.
    set (q := rint (mx / (- magnitude))) in *.
    rewrite Hopp in Hq.
    destruct (Rtotal_order mx 0) as [Hneg|[Hzero|Hpos]].
    + assert (Hmn : mn = mx).
      { unfold Rabs in HB. destruct (Rcase_abs mn), (Rcase_abs mx); lra. }
      assert (Hv : v = mx) by lra.
      destruct (q =? 0)%Z eqn:Hq0; cbn [fst snd].
      * apply Z.eqb_eq in Hq0. rewrite Hq0 in Hq.
        split; [lra|]. rewrite Rminus_0_r, Hopp, Hv.
        unfold Rabs in Hq. destruct (Rcase_abs _); lra.
      * apply Z.eqb_neq in Hq0.
        assert (Hq1 : IZR q <> 0) by now apply not_0_IZR.
        split.
        -- unfold Rdiv. apply Rmult_integral_contrapositive_currified;
             [lra | now apply Rinv_neq_0_compat].
        -- rewrite Hv. replace ((mx - mx) / (mx / IZR q)) with 0
             by (field; lra).
           lra.
    + assert (Hmn : mn = 0).
      { unfold Rabs in HB. destruct (Rcase_abs mn), (Rcase_abs mx); lra. }
      assert (Hv : v = 0) by lra.
      assert (Hq0 : q = 0%Z).
      { apply IZR_near_zero. rewrite Hzero in Hq.
        replace (0 / magnitude) with 0 in Hq by (field; lra).
        now rewrite Ropp_0 in Hq. }
      rewrite Hq0. cbn [Z.eqb fst snd].
      split; [lra|]. rewrite Hv, Rminus_0_r.
      replace (0 / - magnitude) with 0 by (field; lra). lra.
    + assert (Hmn : - mx <= mn).
      { unfold Rabs in HB. destruct (Rcase_abs mn), (Rcase_abs mx); lra. }
      assert (Ht : - (mx / magnitude) < 0).
      { assert (0 < mx / magnitude) by (apply Rdiv_lt_0_compat; lra). lra. }
      destruct (q =? 0)%Z eqn:Hq0; cbn [fst snd].
      * apply Z.eqb_eq in Hq0. rewrite Hq0 in Hq.
        split; [lra|]. rewrite Rminus_0_r, Hopp.
        assert (Hup : mx / magnitude <= 1 / 2).
        { unfold Rabs in Hq. destruct (Rcase_abs _); lra. }
        assert (H1 : (- mx) / magnitude <= v / magnitude)
          by (apply div_le_mono; lra).
        assert (H2 : v / magnitude <= mx / magnitude)
          by (apply div_le_mono; lra).
        assert (H3 : (- mx) / magnitude = - (mx / magnitude))
          by (field; lra).
        lra.
      * apply Z.eqb_neq in Hq0.
        pose proof (IZR_neg_nonzero q _ Hq Ht Hq0) as Hq1.
        split.
        -- unfold Rdiv. apply Rmult_integral_contrapositive_currified;
             [lra | apply Rinv_neq_0_compat; lra].
        -- replace ((v - mx) / (mx / IZR q))
             with ((mx - v) * (- IZR q) / mx) by (field; lra).
           assert (Hk : 0 <= - IZR q <= mx / magnitude + 1 / 2).
           { unfold Rabs in Hq. destruct (Rcase_abs _); lra. }
           pose proof (steps_range mx (mx - v) magnitude n (- IZR q)
                         Hpos Hmag ltac:(lra) ltac:(lra) ltac:(lra) Hk).
           lra.
Qed.

(** Rounding to a nearest integer and clipping to the codes moves a
    quotient in that range by at most one step. *)
Lemma clip_error (r n : Z) (y : R) :
  (0 <= n)%Z -> Rabs (IZR r - y) <= 1 / 2 -> -1 <= y <= IZR n + 1 ->
  Rabs (IZR (Z.min (Z.max r 0) n) - y) <= 1.
Proof.
  intros Hn Hr [Hy1 Hy2].
  destruct (Z_lt_dec r 0) as [Hneg|Hpos].
  - replace (Z.min (Z.max r 0) n) with 0%Z by lia.
    assert (H : IZR r <= -1) by (apply IZR_le; lia).
    unfold Rabs in *. destruct (Rcase_abs _), (Rcase_abs _); lra.
  - destruct (Z_lt_dec n r) as [Hbig|Hin].
    + replace (Z.min (Z.max r 0) n) with n by lia.
      assert (H : IZR n + 1 <= IZR r).
      { rewrite <- plus_IZR. apply IZR_le. lia. }
      unfold Rabs in *. destruct (Rcase_abs _), (Rcase_abs _); lra.
    + replace (Z.min (Z.max r 0) n) with r by lia. lra.
Qed.

Lemma dequantized_error (c : Z) (s b v : R) :
  s <> 0 -> Rabs (IZR c - (v - b) / s) <= 1 ->
  Rabs (IZR c * s + b - v) <= Rabs s.
Proof.
  intros Hs H.
  replace (IZR c * s + b - v) with ((IZR c - (v - b) / s) * s)
    by (field; exact Hs).
  rewrite Rabs_mult. rewrite <- (Rmult_1_l (Rabs s)) at 2.
  apply Rmult_le_compat_r; [apply Rabs_pos | exact H].
Qed.

End RecipeFacts.

Lemma fold_right_Rmax (v : R) (rest : list R) :
  is_max (v :: rest) (fold_right Rmax v rest).
Proof.
  unfold is_max. induction rest as [|x rest [IH1 IH2]]; cbn [fold_right].
  - split; [now left | constructor; [lra | constructor]].
  - inversion IH2 as [|? ? Hv Hrest]; subst.
    destruct (Rle_dec x (fold_right Rmax v rest)) as [H|H];
      [rewrite Rmax_right by lra | rewrite Rmax_left by lra].
    + split.
      * destruct IH1 as [IH1|IH1]; [left; exact IH1 | right; right; exact IH1].
      * constructor; [exact Hv | constructor; [exact H | exact Hrest]].
    + split; [right; left; reflexivity|].
      constructor; [lra | constructor; [lra|]].
      revert Hrest. apply Forall_impl. intros a Ha. lra.
Qed.

Lemma fold_right_Rmin (v : R) (rest : list R) :
  is_min (v :: rest) (fold_right Rmin v rest).
Proof.
  unfold is_min. induction rest as [|x rest [IH1 IH2]]; cbn [fold_right].
  - split; [now left | constructor; [lra | constructor]].
  - inversion IH2 as [|? ? Hv Hrest]; subst.
    destruct (Rle_dec x (fold_right Rmin v rest)) as [H|H];
      [rewrite Rmin_left by lra | rewrite Rmin_right by lra].
    + split; [right; left; reflexivity|].
      constructor; [lra | constructor; [lra|]].
      revert Hrest. apply Forall_impl. intros a Ha. lra.
    + split.
      * destruct IH1 as [IH1|IH1]; [left; exact IH1 | right; right; exact IH1].
      * constructor; [exact Hv | constructor; [lra | exact Hrest]].
Qed.

Lemma is_max_unique (group : list R) (a b : R) :
  is_max group a -> is_max group b -> a = b.
Proof.
  intros [Ha1 Ha2] [Hb1 Hb2].
  pose proof (proj1 (Forall_forall _ _) Ha2 b Hb1).
  pose proof (proj1 (Forall_forall _ _) Hb2 a Ha1).
  cbv beta in *. lra.
Qed.

Lemma is_min_unique (group : list R) (a b : R) :
  is_min group a -> is_min group b -> a = b.
Proof.
  intros [Ha1 Ha2] [Hb1 Hb2].
  pose proof (proj1 (Forall_forall _ _) Ha2 b Hb1).
  pose proof (proj1 (Forall_forall _ _) Hb2 a Ha1).
  cbv beta in *. lra.
Qed.

Section CodecFacts.
Context {AR : Arith} {RI : RoundInt}.

(** The codes of a group. *)
Definition codes_of (t : Dtype) (bits : Z) (group : list R) : list Z :=
  map (quantize_elem t bits (scales t bits group) (biases t bits group))
      group.

Lemma quantize_elem_range (t : Dtype) (bits : Z) (s b v : R) :
  0 <= bits -> 0 <= quantize_elem t bits s b v < 2 ^ bits.
Proof.
  intros Hb. unfold quantize_elem. rewrite Z.shiftl_1_l.
  assert (0 < 2 ^ bits) by (apply Z.pow_pos_nonneg; lia).
  lia.
Qed.

Lemma valid_sizes (group_size bits : Z) :
  In group_size [32; 64; 128] -> In bits [2; 3; 4; 5; 6; 8] ->
  (Z.to_nat group_size * Z.to_nat bits =
   Z.to_nat (group_size * bits / 32) * 32)%nat /\
  (is_power_of_2 bits = true ->
   32 = 32 / bits * bits /\
   (Z.to_nat group_size =
    Z.to_nat (group_size * bits / 32) * Z.to_nat (32 / bits))%nat).
Proof.
  intros Hg Hb. cbn [In] in Hg, Hb.
  destruct Hg as [<-|[<-|[<-|[]]]];
    destruct Hb as [<-|[<-|[<-|[<-|[<-|[<-|[]]]]]]];
    (split; [vm_compute; reflexivity|]);
    intros Hp; vm_compute in Hp; try discriminate;
    split; vm_compute; reflexivity.
Qed.

Lemma valid_bits_range (bits : Z) :
  In bits [2; 3; 4; 5; 6; 8] -> 2 <= bits <= 8.
Proof. cbn [In]. lia. Qed.

Lemma valid_group_size_pos (group_size : Z) :
  In group_size [32; 64; 128] -> 0 < group_size.
Proof. cbn [In]. lia. Qed.

Lemma zip_with_map2 {A B C D} (f : B -> C -> D) (a : A -> B) (b : A -> C)
    (l : list A) :
  zip_with f (map a l) (map b l) = map (fun x => f (a x) (b x)) l.
Proof. induction l as [|x l IH]; [reflexivity|]. cbn. now rewrite IH. Qed.

Lemma broadcast2_same {A B C} (f : A -> B -> C) (a : list A) (b : list B) :
  length a = length b -> broadcast2 f a b = Ok (zip_with f a b).
Proof. intros H. unfold broadcast2. now rewrite H, Nat.eqb_refl. Qed.

(** The words that pack the groups of a row unpack to their codes. *)
Lemma pack_and_quantize_unpack (t : Dtype) (group_size bits : Z)
    (packed_w : list (list R)) :
  In group_size [32; 64; 128] -> In bits [2; 3; 4; 5; 6; 8] ->
  Forall (fun g => length g = Z.to_nat group_size) packed_w ->
  exists words,
    pack_and_quantize t bits packed_w = Ok words /\
    length words =
      (length packed_w * Z.to_nat (group_size * bits / 32))%nat /\
    (if is_power_of_2 bits then Ok (flat_map (unpack_pow2 bits) words)
     else unpack_bits bits words) =
    Ok (concat (map (codes_of t bits) packed_w)).
Proof.
  intros Hg Hb Hlen.
  destruct (valid_sizes group_size bits Hg Hb) as [Hm Hpow].
  pose proof (valid_bits_range bits Hb) as Hbits.
  assert (Hcodes : Forall (fun g => digits_below (2 ^ bits) g /\
                                    length g = Z.to_nat group_size)
                          (map (codes_of t bits) packed_w)).
  { apply Forall_forall. intros c Hc. apply in_map_iff in Hc.
    destruct Hc as (g & <- & Hin). split.
    - apply Forall_forall. intros x Hx. apply in_map_iff in Hx.
      destruct Hx as (v & <- & _). apply quantize_elem_range. lia.
    - unfold codes_of. rewrite length_map.
      apply (proj1 (Forall_forall _ _) Hlen g Hin). }
  unfold pack_and_quantize.
  change (map (fun group => map (quantize_elem t bits (scales t bits group)
                                               (biases t bits group)) group)
              packed_w)
    with (map (codes_of t bits) packed_w).
  destruct (is_power_of_2 bits) eqn:Hp.
  - destruct (Hpow eq_refl) as [Hq Hk].
    destruct (pack_pow2_unpack bits (32 / bits)
                (length packed_w * Z.to_nat (group_size * bits / 32))
                (concat (map (codes_of t bits) packed_w)))
      as (words & H1 & H2 & H3).
    + lia.
    + exact Hq.
    + apply Forall_concat. revert Hcodes. apply Forall_impl.
      intros g [H _]. exact H.
    + rewrite (length_concat_uniform (Z.to_nat group_size)).
      * rewrite length_map. rewrite Hk at 1. lia.
      * revert Hcodes. apply Forall_impl. intros g [_ H]. exact H.
    + exists words. repeat split; [exact H1 | exact H2 | now rewrite H3].
  - destruct (pack_bits_unpack bits (Z.to_nat (group_size * bits / 32))
                (Z.to_nat group_size) (map (codes_of t bits) packed_w))
      as (words & H1 & H2 & H3).
    + lia.
    + exact Hm.
    + exact Hcodes.
    + exists words. rewrite length_map in H2.
      repeat split; [exact H1 | exact H2 | exact H3].
Qed.

(** The packed words of a row. *)
Definition packed_words (t : Dtype) (group_size bits : Z) (row : list R)
    : list Z :=
  match quantize_row group_size bits t row with
  | Ok (words, _, _) => words
  | _ => []
  end.

Lemma quantize_row_ok (t : Dtype) (group_size bits : Z) (G : nat)
    (row : list R) :
  In group_size [32; 64; 128] -> In bits [2; 3; 4; 5; 6; 8] ->
  length row = (G * Z.to_nat group_size)%nat ->
  let groups := chunks_n G (Z.to_nat group_size) row in
  quantize_row group_size bits t row =
    Ok (packed_words t group_size bits row,
        map (fun g => rnd t (scales t bits g)) groups,
        map (fun g => rnd t (biases t bits g)) groups) /\
  length (packed_words t group_size bits row) =
    (G * Z.to_nat (group_size * bits / 32))%nat /\
  (if is_power_of_2 bits
   then Ok (flat_map (unpack_pow2 bits) (packed_words t group_size bits row))
   else unpack_bits bits (packed_words t group_size bits row)) =
  Ok (concat (map (codes_of t bits) groups)).
Proof.
  intros Hg Hb Hlen groups.
  pose proof (valid_group_size_pos group_size Hg) as Hpos.
  destruct (pack_and_quantize_unpack t group_size bits groups Hg Hb)
    as (words & H1 & H2 & H3).
  { apply chunks_n_Forall. exact Hlen. }
  assert (Hrow : quantize_row group_size bits t row =
                 Ok (words,
                     map (fun g => rnd t (scales t bits g)) groups,
                     map (fun g => rnd t (biases t bits g)) groups)).
  { unfold quantize_row.
    rewrite (reshape_last_ok group_size G) by assumption.
    cbn [and_then]. fold groups. rewrite H1. reflexivity. }
  unfold packed_words. rewrite Hrow.
  unfold groups in H2. rewrite chunks_n_length in H2.
  repeat split; assumption.
Qed.

Lemma dequantize_row_ok (ts tb : Dtype) (group_size bits : Z)
    (groups : list (list R)) (words : list Z)
    (scales_of biases_of : list R -> R) (codes : list R -> list Z) :
  0 < group_size ->
  (if is_power_of_2 bits then Ok (flat_map (unpack_pow2 bits) words)
   else unpack_bits bits words) = Ok (concat (map codes groups)) ->
  Forall (fun g => length (codes g) = Z.to_nat group_size) groups ->
  dequantize_row group_size bits ts tb words (map scales_of groups) (map biases_of groups) =
  Ok (concat
        (map (fun g =>
                map (fun c =>
                       op2 Rplus
                           (promote_types (promote_types uint32 ts) tb)
                           (op2 Rmult (promote_types uint32 ts) (IZR c) (scales_of g))
                           (biases_of g))
                    (codes g))
             groups)).
Proof.
  intros Hpos Hun Hlen. unfold dequantize_row. rewrite Hun.
  cbn [and_then].
  assert (Hcodes : Forall (fun c => length c = Z.to_nat group_size)
                      (map codes groups)).
  { apply Forall_forall. intros c Hc. apply in_map_iff in Hc.
    destruct Hc as (g & <- & Hin).
    apply (proj1 (Forall_forall _ _) Hlen g Hin). }
  rewrite (reshape_last_ok group_size (length (map codes groups)))
    by (try exact Hpos; now apply length_concat_uniform).
  cbn [and_then]. rewrite chunks_n_concat by exact Hcodes.
  rewrite broadcast2_same by now rewrite !length_map.
  cbn [and_then]. rewrite zip_with_map2.
  rewrite broadcast2_same by now rewrite !length_map.
  cbn [and_then]. rewrite zip_with_map2.
  do 2 f_equal. apply map_ext. intros g. now rewrite map_map.
Qed.

Lemma nth_chunks_n {A} (n k g : nat) (l : list A) :
  (g < n)%nat -> nth g (chunks_n n k l) [] = firstn k (skipn (g * k) l).
Proof.
  revert g l; induction n as [|n IH]; intros g l Hg; [lia|].
  cbn [chunks_n]. destruct g as [|g]; [reflexivity|].
  cbn [nth]. rewrite IH by lia. rewrite skipn_skipn.
  do 2 f_equal. lia.
Qed.

Lemma combine_map2 {A B C} (a : A -> B) (b : A -> C) (l : list A) :
  combine (map a l) (map b l) = map (fun x => (a x, b x)) l.
Proof. induction l as [|x l IH]; [reflexivity|]. cbn. now rewrite IH. Qed.

Lemma set_back_last (lead : list Z) (d v : Z) :
  set_back (lead ++ [d]) v = lead ++ [v].
Proof. unfold set_back. now rewrite removelast_last. Qed.

Lemma int_mul_ok (a b : Z) :
  0 <= a * b < 2 ^ 31 -> int_mul a b = a * b.
Proof. intros H. unfold int_mul. apply wrap32_id. lia. Qed.

(** The value that [affine_dequantize] returns for the element [v] of a
    group. *)
Definition dequantized (t : Dtype) (bits : Z) (group : list R) (v : R) : R :=
  let p1 := promote_types uint32 t in
  let p2 := promote_types p1 t in
  op2 Rplus p2
      (op2 Rmult p1
           (IZR (quantize_elem t bits (scales t bits group)
                               (biases t bits group) v))
           (rnd t (scales t bits group)))
      (rnd t (biases t bits group)).

(** The groups of a row of extent [D]. *)
Definition groups_of (group_size D : Z) (row : list R) : list (list R) :=
  chunks_n (Z.to_nat (D / group_size)) (Z.to_nat group_size) row.

Section Arrays.
Variable w : tensor R.
Variables group_size bits D : Z.
Variable lead : list Z.
Hypothesis Hgroup : In group_size [32; 64; 128].
Hypothesis Hbits : In bits [2; 3; 4; 5; 6; 8].
Hypothesis Hshape : t_shape w = lead ++ [D].
Hypothesis Hlead : lead <> [].
Hypothesis HD : 0 <= D.
Hypothesis Hmultiple : D mod group_size = 0.
Hypothesis Hint : D * bits < 2 ^ 31.
Hypothesis Hrows : Forall (fun row => Z.of_nat (length row) = D) (t_rows w).

Lemma row_length (row : list R) :
  Z.of_nat (length row) = D ->
  length row = (Z.to_nat (D / group_size) * Z.to_nat group_size)%nat.
Proof.
  intros H. pose proof (valid_group_size_pos _ Hgroup) as Hpos.
  pose proof (Z_div_exact_2 D group_size ltac:(lia) Hmultiple) as Hd.
  assert (0 <= D / group_size) by (apply Z.div_pos; lia).
  nia.
Qed.

Lemma rank_two (d : Z) : (length (lead ++ [d]) <? 2)%nat = false.
Proof.
  apply Nat.ltb_ge. rewrite length_app. cbn [length].
  destruct lead; [contradiction | cbn [length]; lia].
Qed.

Lemma affine_quantize_ok :
  affine_quantize None w group_size bits =
  Ok (mk_tensor uint32 (lead ++ [D * bits / 32])
        (map (packed_words (t_dtype w) group_size bits) (t_rows w)),
      mk_tensor (t_dtype w) (lead ++ [D / group_size])
        (map (fun row => map (fun g => rnd (t_dtype w)
                                           (scales (t_dtype w) bits g))
                             (groups_of group_size D row)) (t_rows w)),
      mk_tensor (t_dtype w) (lead ++ [D / group_size])
        (map (fun row => map (fun g => rnd (t_dtype w)
                                           (biases (t_dtype w) bits g))
                             (groups_of group_size D row)) (t_rows w))).
Proof.
  pose proof (valid_group_size_pos _ Hgroup) as Hpos.
  pose proof (valid_bits_range _ Hbits) as Hb.
  unfold affine_quantize.
  replace (negb (group_size =? 32) && negb (group_size =? 64)
           && negb (group_size =? 128)) with false
    by (cbn [In] in Hgroup; destruct Hgroup as [<-|[<-|[<-|[]]]];
        reflexivity).
  replace ((bits <? 2) || (bits >? 8) || (bits =? 7)) with false
    by (cbn [In] in Hbits;
        destruct Hbits as [<-|[<-|[<-|[<-|[<-|[<-|[]]]]]]]; reflexivity).
  rewrite Hshape, rank_two, last_last.
  rewrite Z.rem_mod_nonneg, Hmultiple by lia.
  cbn [Z.eqb negb].
  cbv zeta. rewrite int_mul_ok by nia.
  rewrite !set_back_last.
  rewrite !Z.quot_div_nonneg by nia.
  unfold AffineQuantize.
  rewrite (all_ok_map _
             (fun row => (packed_words (t_dtype w) group_size bits row,
                          map (fun g => rnd (t_dtype w)
                                            (scales (t_dtype w) bits g))
                              (groups_of group_size D row),
                          map (fun g => rnd (t_dtype w)
                                            (biases (t_dtype w) bits g))
                              (groups_of group_size D row)))
             _ (t_rows w)
             (fun row H => proj1 (quantize_row_ok (t_dtype w) group_size bits
                                    (Z.to_nat (D / group_size)) row
                                    Hgroup Hbits (row_length row H)))
             Hrows).
  cbn [and_then]. rewrite !map_map. reflexivity.
Qed.

Lemma affine_dequantize_ok
    (kernel : Z -> Z -> tensor Z -> tensor R -> tensor R ->
              outcome (list (list R))) :
  affine_dequantize false kernel
    (mk_tensor uint32 (lead ++ [D * bits / 32])
       (map (packed_words (t_dtype w) group_size bits) (t_rows w)))
    (mk_tensor (t_dtype w) (lead ++ [D / group_size])
       (map (fun row => map (fun g => rnd (t_dtype w)
                                          (scales (t_dtype w) bits g))
                            (groups_of group_size D row)) (t_rows w)))
    (mk_tensor (t_dtype w) (lead ++ [D / group_size])
       (map (fun row => map (fun g => rnd (t_dtype w)
                                          (biases (t_dtype w) bits g))
                            (groups_of group_size D row)) (t_rows w)))
    group_size bits =
  Ok (mk_tensor
        (promote_types (promote_types uint32 (t_dtype w)) (t_dtype w))
        (lead ++ [D])
        (map (fun row =>
                concat (map (fun g => map (dequantized (t_dtype w) bits g) g)
                            (groups_of group_size D row)))
             (t_rows w))).
Proof.
  pose proof (valid_group_size_pos _ Hgroup) as Hpos.
  pose proof (valid_bits_range _ Hbits) as Hb.
  pose proof (Z_div_exact_2 D group_size ltac:(lia) Hmultiple) as Hd.
  assert (HG : 0 <= D / group_size) by (apply Z.div_pos; lia).
  assert (H32 : (D * bits) mod 32 = 0).
  { assert (Hg32 : group_size mod 32 = 0)
      by (cbn [In] in Hgroup; destruct Hgroup as [<-|[<-|[<-|[]]]];
          reflexivity).
    pose proof (Z_div_exact_2 group_size 32 ltac:(lia) Hg32) as Hg.
    replace (D * bits)
      with ((group_size / 32) * (D / group_size) * bits * 32) by nia.
    apply Z_mod_mult. }
  pose proof (Z_div_exact_2 (D * bits) 32 ltac:(lia) H32) as Hw.
  unfold affine_dequantize. cbn [t_shape t_dtype t_rows].
  replace (bits <=? 0) with false by (symmetry; apply Z.leb_gt; lia).
  replace (group_size <=? 0) with false by (symmetry; apply Z.leb_gt; lia).
  rewrite !rank_two. cbn [orb].
  rewrite !set_back_last, !last_last.
  rewrite (proj2 (Shape_eqb_eq _ _) eq_refl). cbn [negb orb Dtype_eqb].
  cbv zeta. rewrite int_mul_ok by nia.
  replace (D * bits / 32 * 32) with (D * bits) by lia.
  rewrite Z.quot_div_nonneg, Z_div_mult by nia.
  rewrite int_mul_ok by nia.
  replace (D / group_size * group_size) with D by lia.
  rewrite Z.eqb_refl. cbn [negb].
  rewrite combine_map2, zip_with_map2. cbn [fst snd].
  rewrite (all_ok_map _
             (fun row =>
                concat (map (fun g => map (dequantized (t_dtype w) bits g) g)
                            (groups_of group_size D row)))
             (fun row => Z.of_nat (length row) = D) (t_rows w));
    [cbn [and_then]; rewrite ?set_back_last; reflexivity | | exact Hrows].
  intros row Hrow. cbv beta in Hrow.
  destruct (quantize_row_ok (t_dtype w) group_size bits
              (Z.to_nat (D / group_size)) row Hgroup Hbits
              (row_length row Hrow)) as (_ & _ & Hun).
  rewrite (dequantize_row_ok (t_dtype w) (t_dtype w) group_size bits
             (groups_of group_size D row)
             (packed_words (t_dtype w) group_size bits row)
             (fun g => rnd (t_dtype w) (scales (t_dtype w) bits g))
             (fun g => rnd (t_dtype w) (biases (t_dtype w) bits g))
             (codes_of (t_dtype w) bits)).
  - do 2 f_equal. apply map_ext. intros g. unfold codes_of.
    now rewrite map_map.
  - exact Hpos.
  - exact Hun.
  - apply Forall_forall. intros g Hin. unfold codes_of. rewrite length_map.
    pose proof (chunks_n_Forall _ _ _ (row_length row Hrow)) as Hall.
    apply (proj1 (Forall_forall _ _) Hall g Hin).
Qed.

End Arrays.

Section ExactFacts.
Context {EX : Exact AR}.
Local Open Scope R_scope.

Lemma reduce_exact (f : R -> R -> R) (t : Dtype) (group : list R) :
  reduce f t group = fold_right f (hd 0 group) (tl group).
Proof.
  unfold reduce. cbv zeta.
  rewrite (map_ext (rnd t) (fun v => v)) by (intros; apply rnd_exact).
  now rewrite map_id.
Qed.

Lemma group_extremes (t : Dtype) (group : list R) :
  group <> [] ->
  is_max group (reduce Rmax t group) /\ is_min group (reduce Rmin t group).
Proof.
  intros H. destruct group as [|v rest]; [contradiction|].
  rewrite !reduce_exact. cbn [hd tl].
  split; [apply fold_right_Rmax | apply fold_right_Rmin].
Qed.

(** In exact arithmetic the fallback computes the scale and the bias of
    the recipe. *)
Lemma scales_exact (t : Dtype) (bits : Z) (group : list R) (mx mn : R) :
  is_max group mx -> is_min group mn ->
  scales t bits group = fst (recipe bits mx mn) /\
  biases t bits group = snd (recipe bits mx mn).
Proof.
  intros Hmx Hmn.
  assert (Hne : group <> []).
  { destruct Hmx as [Hin _]. intros ->. exact Hin. }
  destruct (group_extremes t group Hne) as [Hmx' Hmn'].
  pose proof (is_max_unique _ _ _ Hmx' Hmx) as Emx.
  pose proof (is_min_unique _ _ _ Hmn' Hmn) as Emn.
  assert (Hmask : mask t group =
                  if Rgt_dec (Rabs mn) (Rabs mx) then true else false).
  { unfold mask, w_min, w_max. now rewrite !op1_exact, !rnd_exact, Emx, Emn. }
  assert (Hmag : scales_magnitude t bits group =
                 Rmax ((mx - mn) / IZR (2 ^ bits - 1)) (1 / 10 ^ 7)).
  { unfold scales_magnitude, w_min, w_max, n_bins, eps.
    now rewrite !op2_exact, !rnd_exact, Z.shiftl_1_l, Emx, Emn. }
  assert (Hedge : edge t group =
                  if Rgt_dec (Rabs mn) (Rabs mx) then mn else mx).
  { unfold edge, w_min, w_max. rewrite Hmask, !rnd_exact, Emx, Emn.
    now destruct (Rgt_dec _ _). }
  assert (Hsigned : scales_signed t bits group =
                    if Rgt_dec (Rabs mn) (Rabs mx)
                    then Rmax ((mx - mn) / IZR (2 ^ bits - 1)) (1 / 10 ^ 7)
                    else - Rmax ((mx - mn) / IZR (2 ^ bits - 1)) (1 / 10 ^ 7)).
  { unfold scales_signed. rewrite Hmask, op1_exact, Hmag.
    now destruct (Rgt_dec _ _). }
  assert (Hq0 : q0 t bits group =
                IZR (rint (edge t group / scales_signed t bits group))).
  { unfold q0, round. now rewrite op2_exact, !rnd_exact. }
  unfold scales, biases, recipe, zero. cbv zeta.
  rewrite Hq0, op2_exact, rnd_exact, Hedge, Hsigned.
  destruct (Rgt_dec (Rabs mn) (Rabs mx)) as [HA|HB].
  - destruct (Req_dec_T _ 0) as [H0|H0].
    + apply eq_IZR_R0 in H0. rewrite H0. split; reflexivity.
    + destruct (Z.eqb_spec (rint (mn / Rmax ((mx - mn) / IZR (2 ^ bits - 1))
                                              (1 / 10 ^ 7))) 0)
        as [E|E]; [rewrite E in H0; contradiction|].
      split; reflexivity.
  - destruct (Req_dec_T _ 0) as [H0|H0].
    + apply eq_IZR_R0 in H0. rewrite H0. split; reflexivity.
    + destruct (Z.eqb_spec
                  (rint (mx / - Rmax ((mx - mn) / IZR (2 ^ bits - 1))
                                     (1 / 10 ^ 7))) 0)
        as [E|E]; [rewrite E in H0; contradiction|].
      split; reflexivity.
Qed.

Lemma dequantized_exact (t : Dtype) (bits : Z) (group : list R) (v : R) :
  dequantized t bits group v =
  IZR (Z.min (Z.max (rint ((v - biases t bits group) / scales t bits group))
                    0)
             (2 ^ bits - 1))
  * scales t bits group + biases t bits group.
Proof.
  unfold dequantized, quantize_elem. cbv zeta.
  now rewrite !op2_exact, !rnd_exact, Z.shiftl_1_l.
Qed.

Context {NR : Nearest RI}.

(** One element: dequantizing its code moves it by at most the scale of
    its group. *)
Lemma group_error (t : Dtype) (bits : Z) (group : list R) (v : R) :
  (2 <= bits)%Z -> In v group ->
  Rabs (dequantized t bits group v - v) <= Rabs (scales t bits group).
Proof.
  intros Hb Hin.
  assert (Hne : group <> []) by (intros ->; exact Hin).
  destruct (group_extremes t group Hne) as [Hmx Hmn].
  destruct (scales_exact t bits group _ _ Hmx Hmn) as [Hs Hbias].
  assert (Hv : reduce Rmin t group <= v <= reduce Rmax t group).
  { destruct Hmx as [_ Hmx], Hmn as [_ Hmn].
    split.
    - apply (proj1 (Forall_forall _ _) Hmn v Hin).
    - apply (proj1 (Forall_forall _ _) Hmx v Hin). }
  destruct (recipe_range bits _ _ v Hb Hv) as [Hnz Hrange].
  rewrite <- Hs in Hnz. rewrite <- Hs, <- Hbias in Hrange.
  rewrite dequantized_exact.
  apply dequantized_error; [exact Hnz|].
  apply clip_error.
  - assert (2 ^ 2 <= 2 ^ bits)%Z by (apply Z.pow_le_mono_r; lia).
    change (2 ^ 2)%Z with 4%Z in *. lia.
  - apply rint_nearest.
  - exact Hrange.
Qed.

(** The scale is positive when the anchor is the minimum and negative
    when it is the maximum. *)
Lemma recipe_sign (bits : Z) (mx mn : R) :
  (2 <= bits)%Z -> mn <= mx ->
  (Rabs mn > Rabs mx -> 0 < fst (recipe bits mx mn)) /\
  (~ Rabs mn > Rabs mx -> fst (recipe bits mx mn) < 0).
Proof.
  intros Hb Hm.
  destruct (magnitude_facts bits mx mn Hb Hm) as (Hn & Hmag & _).
  unfold recipe.
  set (magnitude := Rmax ((mx - mn) / IZR (2 ^ bits - 1)) (1 / 10 ^ 7)) in *.
  destruct (Rgt_dec (Rabs mn) (Rabs mx)) as [HA|HB];
    (split; intros H; [try contradiction | try contradiction]).
  - assert (Hmn : mn < 0).
    { unfold Rabs in HA. destruct (Rcase_abs mn), (Rcase_abs mx); lra. }
    pose proof (rint_nearest (mn / magnitude)) as Hq.
    set (q := rint (mn / magnitude)) in *.
    assert (Ht : mn / magnitude < 0) by now apply div_neg.
    destruct (Z.eqb_spec q 0) as [E|E]; cbn [fst]; [exact Hmag|].
    pose proof (IZR_neg_nonzero q _ Hq Ht E) as Hq1.
    replace (mn / IZR q) with ((- mn) / (- IZR q)) by (field; lra).
    apply Rdiv_lt_0_compat; lra.
  - pose proof (rint_nearest (mx / - magnitude)) as Hq.
    set (q := rint (mx / - magnitude)) in *.
    assert (Hopp : mx / - magnitude = - (mx / magnitude)) by (field; lra).
    rewrite Hopp in Hq.
    destruct (Z.eqb_spec q 0) as [E|E]; cbn [fst]; [lra|].
    destruct (Rtotal_order mx 0) as [Hneg|[Hzero|Hpos]].
    + assert (Ht : 0 < - (mx / magnitude)).
      { assert (mx / magnitude < 0) by now apply div_neg. lra. }
      assert (Hq1 : 0 < IZR q).
      { assert (Hq2 : -1 < IZR q).
        { unfold Rabs in Hq. destruct (Rcase_abs _); lra. }
        apply lt_IZR in Hq2. apply IZR_lt. lia. }
      now apply div_neg.
    + exfalso. apply E. apply IZR_near_zero. rewrite Hzero in Hq.
      replace (0 / magnitude) with 0 in Hq by (field; lra).
      now rewrite Ropp_0 in Hq.
    + assert (Ht : - (mx / magnitude) < 0).
      { assert (0 < mx / magnitude) by (apply Rdiv_lt_0_compat; lra). lra. }
      pose proof (IZR_neg_nonzero q _ Hq Ht E) as Hq1.
      replace (mx / IZR q) with (- (mx / (- IZR q))) by (field; lra).
      assert (0 < mx / (- IZR q)) by (apply Rdiv_lt_0_compat; lra).
      lra.
Qed.

End ExactFacts.

Section Elements.
Variable w : tensor R.
Variables group_size bits D : Z.
Hypothesis Hgroup : In group_size [32; 64; 128].
Hypothesis HD : 0 <= D.
Hypothesis Hmultiple : D mod group_size = 0.
Hypothesis Hrows : Forall (fun row => Z.of_nat (length row) = D) (t_rows w).

Lemma row_of_tensor (r : nat) :
  (r < length (t_rows w))%nat ->
  length (nth r (t_rows w) []) =
  (Z.to_nat (D / group_size) * Z.to_nat group_size)%nat.
Proof.
  intros Hr. apply (row_length group_size D Hgroup HD Hmultiple).
  apply (proj1 (Forall_forall _ _) Hrows). now apply nth_In.
Qed.

(** The scale or the bias of the group [g] of the row [r]. *)
Lemma group_parameter (f : list R -> R) (r g : nat) :
  (r < length (t_rows w))%nat -> (g < Z.to_nat (D / group_size))%nat ->
  nth g (nth r (map (fun row => map f (groups_of group_size D row))
                    (t_rows w)) []) 0%R =
  f (firstn (Z.to_nat group_size)
            (skipn (g * Z.to_nat group_size) (nth r (t_rows w) []))).
Proof.
  intros Hr Hg.
  rewrite (nth_map_default _ _ _ [] []) by exact Hr.
  unfold groups_of.
  rewrite (nth_map_default _ _ _ [] 0%R) by now rewrite chunks_n_length.
  now rewrite nth_chunks_n.
Qed.

(** The element [j] of the row [r] after the round trip. *)
Lemma dequantized_element (t : Dtype) (r j : nat) :
  (r < length (t_rows w))%nat -> (j < Z.to_nat D)%nat ->
  let row := nth r (t_rows w) [] in
  let group := firstn (Z.to_nat group_size)
                 (skipn (j / Z.to_nat group_size * Z.to_nat group_size) row) in
  nth j (nth r (map (fun row =>
                       concat (map (fun g => map (dequantized t bits g) g)
                                   (groups_of group_size D row)))
                    (t_rows w)) []) 0%R =
  dequantized t bits group (nth j row 0%R) /\
  In (nth j row 0%R) group /\
  (j / Z.to_nat group_size < Z.to_nat (D / group_size))%nat.
Proof.
  intros Hr Hj row group.
  pose proof (valid_group_size_pos _ Hgroup) as Hpos.
  pose proof (row_of_tensor r Hr) as Hlen. fold row in Hlen.
  set (k := Z.to_nat group_size) in *.
  set (G := Z.to_nat (D / group_size)) in *.
  assert (Hk : (0 < k)%nat) by (unfold k; lia).
  assert (HjG : (j < G * k)%nat).
  { rewrite <- Hlen.
    assert (Z.of_nat (length row) = D).
    { apply (proj1 (Forall_forall _ _) Hrows). now apply nth_In. }
    lia. }
  assert (Hg : (j / k < G)%nat)
    by (apply Nat.Div0.div_lt_upper_bound; lia).
  assert (Hp : (j mod k < k)%nat) by (apply Nat.mod_upper_bound; lia).
  assert (Hsplit : j = (j / k * k + j mod k)%nat).
  { pose proof (Nat.div_mod_eq j k). lia. }
  assert (Hgroups : Forall (fun c => length c = k) (chunks_n G k row))
    by now apply chunks_n_Forall.
  assert (Hgroup_eq : nth (j / k) (chunks_n G k row) [] = group).
  { unfold group. now rewrite nth_chunks_n. }
  assert (Hgroup_len : length group = k).
  { rewrite <- Hgroup_eq.
    apply (proj1 (Forall_forall _ _) Hgroups).
    apply nth_In. now rewrite chunks_n_length. }
  assert (Helem : nth j row 0%R = nth (j mod k) group 0%R).
  { rewrite <- Hgroup_eq, <- (nth_concat_uniform k) by assumption.
    rewrite <- Hsplit. now rewrite concat_chunks_n. }
  split; [|split].
  - rewrite (nth_map_default _ _ _ [] []) by exact Hr. fold row.
    unfold groups_of. fold k G.
    rewrite Hsplit at 1.
    rewrite (nth_concat_uniform k).
    + rewrite (nth_map_default _ _ _ [] []) by now rewrite chunks_n_length.
      rewrite Hgroup_eq.
      rewrite (nth_map_default _ _ _ 0%R 0%R) by lia.
      now rewrite Helem.
    + apply Forall_forall. intros c Hc. apply in_map_iff in Hc.
      destruct Hc as (g & <- & Hin). rewrite length_map.
      apply (proj1 (Forall_forall _ _) Hgroups g Hin).
    + exact Hp.
  - rewrite Helem. apply nth_In. lia.
  - exact Hg.
Qed.

End Elements.

(** C2 (amended). For every group of every row, the scale and the bias
    that [affine_quantize] returns are those of its fallback on the
    elements of the group, computed in float32 and stored in the dtype of
    the weight; in exact arithmetic they are the scale and the bias of
    [recipe]: the anchor is the one of the maximum and the minimum of the
    group of larger magnitude, the scale starts as
    max((max - min) / (2^bits - 1), 1e-7), negated when the anchor is the
    maximum; when q0 = round(anchor / scale) is not zero the scale becomes
    anchor / q0 and the bias is the anchor, otherwise the bias is 0.  The
    scale is positive when the anchor is the minimum and negative when it
    is the maximum. *)
Theorem affine_quantize_scale_bias (w : tensor R) (group_size bits : Z)
    (lead : list Z) (D : Z) :
  In group_size [32; 64; 128] -> In bits [2; 3; 4; 5; 6; 8] ->
  t_shape w = lead ++ [D] -> lead <> [] -> 0 <= D ->
  D mod group_size = 0 -> D * bits < 2 ^ 31 ->
  Forall (fun row => Z.of_nat (length row) = D) (t_rows w) ->
  exists wq sc bi,
    affine_quantize None w group_size bits = Ok (wq, sc, bi) /\
    t_dtype sc = t_dtype w /\ t_dtype bi = t_dtype w /\
    t_shape sc = lead ++ [D / group_size] /\
    t_shape bi = lead ++ [D / group_size] /\
    forall r g : nat,
      (r < length (t_rows w))%nat -> (g < Z.to_nat (D / group_size))%nat ->
      let group :=
        firstn (Z.to_nat group_size)
               (skipn (g * Z.to_nat group_size) (nth r (t_rows w) [])) in
      let scale := nth g (nth r (t_rows sc) []) 0%R in
      let bias := nth g (nth r (t_rows bi) []) 0%R in
      scale = rnd (t_dtype w) (scales (t_dtype w) bits group) /\
      bias = rnd (t_dtype w) (biases (t_dtype w) bits group) /\
      (Exact AR ->
       forall mx mn : R, is_max group mx -> is_min group mn ->
         scale = fst (recipe bits mx mn) /\
         bias = snd (recipe bits mx mn) /\
         (Nearest RI ->
          ((Rabs mn > Rabs mx)%R -> (0 < scale)%R) /\
          ((Rabs mn <= Rabs mx)%R -> (scale < 0)%R))).
Proof.
  intros Hgroup Hbits Hshape Hlead HD Hmultiple Hint Hrows.
  eexists _, _, _. split.
  { apply (affine_quantize_ok w group_size bits D lead); assumption. }
  cbn [t_dtype t_shape t_rows].
  do 4 (split; [reflexivity|]).
  intros r g Hr Hg.
  rewrite !(group_parameter w group_size D) by assumption.
  set (group := firstn (Z.to_nat group_size)
                  (skipn (g * Z.to_nat group_size) (nth r (t_rows w) []))).
  split; [reflexivity | split; [reflexivity|]].
  intros EX mx mn Hmx Hmn.
  destruct (scales_exact (t_dtype w) bits group mx mn Hmx Hmn) as [Hs Hb].
  rewrite !rnd_exact.
  split; [exact Hs | split; [exact Hb|]].
  intros NR.
  assert (Hle : (mn <= mx)%R).
  { destruct Hmx as [Hin _], Hmn as [_ Hall].
    apply (proj1 (Forall_forall _ _) Hall mx Hin). }
  destruct (recipe_sign bits mx mn (proj1 (valid_bits_range _ Hbits)) Hle)
    as [Hp Hn].
  rewrite Hs. split; [exact Hp|].
  intros H. apply Hn. lra.
Qed.

(** C1 (amended). Dequantizing what [affine_quantize] returns gives back
    every element of the weight to within the magnitude of the scale of
    its group, in exact arithmetic and with [round] to a nearest integer.
    With the rounding of the floating types the difference can be larger
    (the run in bfloat16 below). *)
Theorem quantize_round_trip {EX : Exact AR} {NR : Nearest RI}
    (dequantize_kernel : Z -> Z -> tensor Z -> tensor R -> tensor R ->
                         outcome (list (list R)))
    (w : tensor R) (group_size bits : Z) (lead : list Z) (D : Z) :
  In group_size [32; 64; 128] -> In bits [2; 3; 4; 5; 6; 8] ->
  t_shape w = lead ++ [D] -> lead <> [] -> 0 <= D ->
  D mod group_size = 0 -> D * bits < 2 ^ 31 ->
  Forall (fun row => Z.of_nat (length row) = D) (t_rows w) ->
  exists wq sc bi deq,
    affine_quantize None w group_size bits = Ok (wq, sc, bi) /\
    affine_dequantize false dequantize_kernel wq sc bi group_size bits =
      Ok deq /\
    t_shape deq = t_shape w /\
    length (t_rows deq) = length (t_rows w) /\
    forall r j : nat,
      (r < length (t_rows w))%nat -> (j < Z.to_nat D)%nat ->
      (Rabs (nth j (nth r (t_rows deq) []) 0 - nth j (nth r (t_rows w) []) 0)
       <= Rabs (nth (j / Z.to_nat group_size) (nth r (t_rows sc) []) 0))%R.
Proof.
  intros Hgroup Hbits Hshape Hlead HD Hmultiple Hint Hrows.
  eexists _, _, _, _. split; [|split].
  { apply (affine_quantize_ok w group_size bits D lead); assumption. }
  { apply (affine_dequantize_ok w group_size bits D lead); assumption. }
  cbn [t_dtype t_shape t_rows].
  split; [now rewrite Hshape | split; [now rewrite length_map|]].
  intros r j Hr Hj.
  destruct (dequantized_element w group_size bits D Hgroup HD Hmultiple Hrows
              (t_dtype w) r j Hr Hj) as (Hdeq & Hin & Hg).
  rewrite Hdeq.
  rewrite (group_parameter w group_size D
             (fun g => rnd (t_dtype w) (scales (t_dtype w) bits g)))
    by assumption.
  rewrite rnd_exact.
  apply group_error; [|exact Hin].
  apply (valid_bits_range _ Hbits).
Qed.

End CodecFacts.

(** *** A run of the codec *)

(** [round] to the nearest integer, halves to the even one. *)
Definition round_half_even : RoundInt := {|
  rint := fun x =>
    let u := up (x - 1 / 2) in
    if Req_dec_T (IZR u - x) (1 / 2)
    then if Z.even u then u else u - 1
    else u
|}.

Lemma round_half_even_nearest : Nearest round_half_even.
Proof.
  intros x. cbn [rint round_half_even].
  destruct (archimed (x - 1 / 2)) as [H1 H2].
  destruct (Req_dec_T _ _) as [E|E]; [destruct (Z.even _)|];
    rewrite ?minus_IZR; unfold Rabs; destruct (Rcase_abs _); lra.
Qed.

Lemma recipe_as_specified_positive {RI : RoundInt} {NR : Nearest RI}
    (bits : Z) (mx mn : R) :
  2 <= bits -> (mn <= mx)%R ->
  (0 < (if Rgt_dec (Rabs mn) (Rabs mx) then mn else mx))%R ->
  (0 < fst (recipe_as_specified bits mx mn))%R.
Proof.
  intros Hb Hm Hanchor.
  destruct (magnitude_facts bits mx mn Hb Hm) as (_ & Hmag & _).
  unfold recipe_as_specified.
  set (anchor := if Rgt_dec (Rabs mn) (Rabs mx) then mn else mx) in *.
  set (magnitude := Rmax ((mx - mn) / IZR (2 ^ bits - 1)) (1 / 10 ^ 7)) in *.
  destruct (Rlt_dec anchor 0) as [H|_]; [lra|].
  pose proof (rint_nearest (anchor / magnitude)) as Hq.
  set (q := rint (anchor / magnitude)) in *.
  destruct (Z.eqb_spec q 0) as [E|E]; cbn [fst]; [exact Hmag|].
  assert (Ht : (0 < anchor / magnitude)%R) by (apply Rdiv_lt_0_compat; lra).
  assert (Hq1 : (0 < IZR q)%R).
  { assert (Hq2 : (-1 < IZR q)%R).
    { unfold Rabs in Hq. destruct (Rcase_abs _); lra. }
    apply lt_IZR in Hq2. apply IZR_lt. lia. }
  apply Rdiv_lt_0_compat; lra.
Qed.

(** A weight of one row of 32 elements 0, 1, ..., 31. *)
Definition ramp : tensor R :=
  mk_tensor float32 [1; 32] [map (fun i => IZR (Z.of_nat i)) (seq 0 32)].

(** A weight of one row of 32 elements 1. *)
Definition ones : tensor R := mk_tensor float32 [1; 32] [repeat 1%R 32].

(** A backend without kernel for the dequantization. *)
Definition no_dequantize_kernel (group_size bits : Z) (w : tensor Z)
    (scales biases : tensor R) : outcome (list (list R)) :=
  RuntimeError "NYI".

Lemma ramp_extremes :
  is_max (map (fun i => IZR (Z.of_nat i)) (seq 0 32)) 31%R /\
  is_min (map (fun i => IZR (Z.of_nat i)) (seq 0 32)) 0%R.
Proof.
  split; split.
  - apply in_map_iff. exists 31%nat. split; [reflexivity|].
    apply in_seq. lia.
  - apply Forall_forall. intros v Hv. apply in_map_iff in Hv.
    destruct Hv as (i & <- & Hi). apply in_seq in Hi.
    apply IZR_le. lia.
  - apply in_map_iff. exists 0%nat. split; [reflexivity|].
    apply in_seq. lia.
  - apply Forall_forall. intros v Hv. apply in_map_iff in Hv.
    destruct Hv as (i & <- & Hi). apply IZR_le. lia.
Qed.

Lemma affine_quantize_scale_bias_witness :
  exists wq sc bi,
    @affine_quantize exact_arith round_half_even None ramp 32 4 =
      Ok (wq, sc, bi) /\
    t_dtype sc = float32 /\ t_shape sc = [1; 1] /\ t_shape bi = [1; 1] /\
    nth 0 (nth 0 (t_rows sc) []) 0%R =
      fst (@recipe round_half_even 4 31 0) /\
    nth 0 (nth 0 (t_rows bi) []) 0%R =
      snd (@recipe round_half_even 4 31 0) /\
    (nth 0 (nth 0 (t_rows sc) []) 0 < 0)%R.
Proof.
  destruct (@affine_quantize_scale_bias exact_arith round_half_even
              ramp 32 4 [1] 32)
    as (wq & sc & bi & H & Hd & _ & Hs & Hb & Hgroups).
  - cbn [In]. auto.
  - cbn [In]. auto.
  - reflexivity.
  - discriminate.
  - lia.
  - reflexivity.
  - lia.
  - repeat constructor.
  - exists wq, sc, bi.
    destruct (Hgroups 0%nat 0%nat ltac:(cbn; lia) ltac:(cbn; lia))
      as (_ & _ & Hexact).
    destruct (Hexact exact_arith_exact 31%R 0%R
                (proj1 ramp_extremes) (proj2 ramp_extremes))
      as (Hscale & Hbias & Hsign).
    destruct (Hsign round_half_even_nearest) as [_ Hneg].
    split; [exact H | split; [exact Hd | split; [exact Hs|]]].
    split; [exact Hb | split; [exact Hscale | split; [exact Hbias|]]].
    apply Hneg. rewrite Rabs_R0. apply Rabs_pos.
Defined.

Lemma quantize_round_trip_witness :
  exists wq sc bi deq,
    @affine_quantize exact_arith round_half_even None ramp 32 4 =
      Ok (wq, sc, bi) /\
    @affine_dequantize exact_arith false no_dequantize_kernel wq sc bi 32 4 =
      Ok deq /\
    forall j : nat,
      (j < 32)%nat ->
      (Rabs (nth j (nth 0 (t_rows deq) []) 0 - IZR (Z.of_nat j))
       <= Rabs (nth 0 (nth 0 (t_rows sc) []) 0))%R.
Proof.
  destruct (@quantize_round_trip exact_arith round_half_even
              exact_arith_exact round_half_even_nearest
              no_dequantize_kernel ramp 32 4 [1] 32)
    as (wq & sc & bi & deq & H1 & H2 & _ & _ & H3).
  - cbn [In]. auto.
  - cbn [In]. auto.
  - reflexivity.
  - discriminate.
  - lia.
  - reflexivity.
  - lia.
  - repeat constructor.
  - exists wq, sc, bi, deq. split; [exact H1 | split; [exact H2|]].
    intros j Hj. specialize (H3 0%nat j ltac:(cbn; lia) Hj).
    cbn [ramp t_rows nth] in H3.
    rewrite (nth_map_seq0 _ 32 j 0%R Hj) in H3.
    rewrite (Nat.div_small j (Z.to_nat 32)) in H3 by exact Hj.
    exact H3.
Defined.

(** On a group of ones the anchor is 1 and the scale that the code
    returns is negative, while a scale of the sign of the anchor is
    positive. *)
Lemma scale_sign_as_specified_fails :
  exists wq sc bi,
    @affine_quantize exact_arith round_half_even None ones 32 4 =
      Ok (wq, sc, bi) /\
    is_max (repeat 1%R 32) 1%R /\ is_min (repeat 1%R 32) 1%R /\
    (nth 0 (nth 0 (t_rows sc) []) 0 < 0)%R /\
    (0 < fst (@recipe_as_specified round_half_even 4 1 1))%R /\
    nth 0 (nth 0 (t_rows sc) []) 0%R <>
      fst (@recipe_as_specified round_half_even 4 1 1).
Proof.
  assert (Hmax : is_max (repeat 1%R 32) 1%R).
  { split; [now left|]. apply Forall_forall. intros v Hv.
    apply repeat_spec in Hv. lra. }
  assert (Hmin : is_min (repeat 1%R 32) 1%R).
  { split; [now left|]. apply Forall_forall. intros v Hv.
    apply repeat_spec in Hv. lra. }
  assert (Hone : ~ (Rabs 1 > Rabs 1)%R) by lra.
  assert (Hneg : (nth 0 (nth 0
                    (map (fun row =>
                            map (fun g => @rnd exact_arith float32
                                            (@scales exact_arith
                                               round_half_even float32 4 g))
                                (groups_of 32 32 row))
                         (t_rows ones)) []) 0 < 0)%R).
  { rewrite (group_parameter ones 32 32) by (cbn; lia).
    change (firstn (Z.to_nat 32) (skipn (0 * Z.to_nat 32)
                                        (nth 0 (t_rows ones) [])))
      with (repeat 1%R 32).
    cbn [rnd exact_arith].
    destruct (@scales_exact exact_arith round_half_even exact_arith_exact
                float32 4 (repeat 1%R 32) 1%R 1%R Hmax Hmin) as [Hs _].
    rewrite Hs.
    apply (@recipe_sign round_half_even round_half_even_nearest 4 1 1);
      [lia | lra | exact Hone]. }
  assert (Hpos : (0 < fst (@recipe_as_specified round_half_even 4 1 1))%R).
  { apply (@recipe_as_specified_positive round_half_even
             round_half_even_nearest); [lia | lra |].
    destruct (Rgt_dec (Rabs 1) (Rabs 1)); lra. }
  eexists _, _, _. split.
  { apply (@affine_quantize_ok exact_arith round_half_even ones 32 4 32 [1]).
    - cbn [In]. auto.
    - cbn [In]. auto.
    - reflexivity.
    - discriminate.
    - lia.
    - reflexivity.
    - lia.
    - repeat constructor. }
  cbn [t_rows t_dtype ones] in *.
  split; [exact Hmax | split; [exact Hmin | split; [exact Hneg|]]].
  split; [exact Hpos | lra].
Defined.

(** *** The shapes of the primitive *)

(** [AffineQuantize::output_shapes] on the shape of its first input. *)
Definition output_shapes (dequantize_ : bool) (group_size_ bits_ : Z)
    (wshape : list Z) : list (list Z) :=
  if dequantize_ then
    [set_back wshape (Z.quot (int_mul (last wshape 0) 32) bits_)]
  else
    let sshape := set_back wshape (Z.quot (last wshape 0) group_size_) in
    [set_back wshape (Z.quot (int_mul (last wshape 0) bits_) 32);
     sshape; sshape].

Lemma set_back_twice (s : list Z) (u v : Z) :
  set_back (set_back s u) v = set_back s v.
Proof. unfold set_back. now rewrite removelast_last. Qed.

Lemma last_set_back (s : list Z) (v : Z) : last (set_back s v) 0 = v.
Proof. unfold set_back. apply last_last. Qed.

Section Shapes.
Context {AR : Arith} {RI : RoundInt}.

(** X19. The shapes that [AffineQuantize::output_shapes] declares are
    those of the arrays that [affine_quantize] and [affine_dequantize]
    build, with any kernel; and for a supported group size and number of
    bits and a last extent that the group size divides, the shape declared
    for the dequantized array of the declared packed shape is the shape of
    the weight. *)
Theorem output_shapes_agree
    (kernel : option (Z -> Z -> tensor R ->
                      outcome (list (list Z) * list (list R) * list (list R))))
    (on_gpu : bool)
    (dequantize_kernel : Z -> Z -> tensor Z -> tensor R -> tensor R ->
                         outcome (list (list R)))
    (group_size bits : Z) :
  (forall w wq sc bi,
     affine_quantize kernel w group_size bits = Ok (wq, sc, bi) ->
     [t_shape wq; t_shape sc; t_shape bi] =
     output_shapes false group_size bits (t_shape w)) /\
  (forall wq sc bi d,
     affine_dequantize on_gpu dequantize_kernel wq sc bi group_size bits
       = Ok d ->
     [t_shape d] = output_shapes true group_size bits (t_shape wq)) /\
  (forall lead D,
     In group_size [32; 64; 128] -> In bits [2; 3; 4; 5; 6; 8] ->
     0 <= D -> D mod group_size = 0 -> D * bits < 2 ^ 31 ->
     output_shapes true group_size bits
       (hd [] (output_shapes false group_size bits (lead ++ [D]))) =
     [lead ++ [D]]).
Proof.
  split; [|split].
  - intros w wq sc bi. unfold affine_quantize.
    destruct (negb (group_size =? 32) && negb (group_size =? 64)
              && negb (group_size =? 128)); [discriminate|].
    destruct ((bits <? 2) || (bits >? 8) || (bits =? 7)); [discriminate|].
    destruct (length (t_shape w) <? 2)%nat; [discriminate|].
    destruct (negb (Z.rem (last (t_shape w) 0) group_size =? 0));
      [discriminate|].
    destruct (AffineQuantize kernel group_size bits w) as [o| | |];
      cbn [and_then]; try discriminate.
    intros [= <- <- <-]. reflexivity.
  - intros wq sc bi d. unfold affine_dequantize.
    destruct (bits <=? 0); [discriminate|].
    destruct (group_size <=? 0); [discriminate|].
    destruct ((length (t_shape wq) <? 2)%nat || _ || _); [discriminate|].
    destruct (negb _ || negb _); [discriminate|].
    destruct (negb (Dtype_eqb (t_dtype wq) uint32)); [discriminate|].
    destruct (negb _); [discriminate|].
    destruct on_gpu.
    + destruct (dequantize_kernel _ _ _ _ _); cbn [and_then];
        try discriminate.
      intros [= <-]. reflexivity.
    + destruct (all_ok _); cbn [and_then]; try discriminate.
      intros [= <-]. reflexivity.
  - intros lead D Hgroup Hbits HD Hmultiple Hint.
    pose proof (valid_bits_range _ Hbits) as Hb.
    pose proof (valid_group_size_pos _ Hgroup) as Hpos.
    unfold output_shapes. cbn [hd].
    rewrite set_back_twice, last_set_back, last_last.
    unfold set_back. rewrite removelast_last. do 3 f_equal.
    assert (H32 : (D * bits) mod 32 = 0).
    { assert (Hg32 : group_size mod 32 = 0)
        by (cbn [In] in Hgroup; destruct Hgroup as [<-|[<-|[<-|[]]]];
            reflexivity).
      pose proof (Z_div_exact_2 D group_size ltac:(lia) Hmultiple) as Hd.
      pose proof (Z_div_exact_2 group_size 32 ltac:(lia) Hg32) as Hg.
      replace (D * bits)
        with ((group_size / 32) * (D / group_size) * bits * 32) by nia.
      apply Z.mod_mul. lia. }
    pose proof (Z_div_exact_2 (D * bits) 32 ltac:(lia) H32) as Hq.
    assert (0 <= D * bits) by nia.
    unfold int_mul. rewrite (wrap32_id (D * bits)) by lia.
    rewrite (Z.quot_div_nonneg (D * bits) 32) by lia.
    assert (0 <= D * bits / 32) by (apply Z.div_pos; lia).
    rewrite wrap32_id by lia.
    rewrite Z.quot_div_nonneg by lia.
    replace (D * bits / 32 * 32) with (D * bits) by lia.
    apply Z.div_mul. lia.
Qed.

(** X20. On a weight of last extent [D], [affine_quantize] returns
    exactly when the group size is 32, 64 or 128, the number of bits is 2,
    3, 4, 5, 6 or 8, the rank is at least 2 and the group size divides [D];
    otherwise it throws the invalid-argument error of the first of these
    checks that fails, in this order. *)
Theorem affine_quantize_returns_iff (w : tensor R) (group_size bits : Z)
    (lead : list Z) (D : Z) :
  t_shape w = lead ++ [D] -> 0 <= D -> D * bits < 2 ^ 31 ->
  Forall (fun row => Z.of_nat (length row) = D) (t_rows w) ->
  let valid_group := In group_size [32; 64; 128] in
  let valid_bits := In bits [2; 3; 4; 5; 6; 8] in
  ((exists r, affine_quantize None w group_size bits = Ok r) <->
   valid_group /\ valid_bits /\ lead <> [] /\ D mod group_size = 0) /\
  (~ valid_group ->
   affine_quantize None w group_size bits =
   InvalidArgument msg_quantize_group) /\
  (valid_group -> ~ valid_bits ->
   affine_quantize None w group_size bits =
   InvalidArgument msg_quantize_bits) /\
  (valid_group -> valid_bits -> lead = [] ->
   affine_quantize None w group_size bits =
   InvalidArgument msg_quantize_ndim) /\
  (valid_group -> valid_bits -> lead <> [] -> D mod group_size <> 0 ->
   affine_quantize None w group_size bits =
   InvalidArgument msg_quantize_divisible).
Proof.
  intros Hshape HD Hint Hrows valid_group valid_bits.
  assert (Hg : negb (group_size =? 32) && negb (group_size =? 64)
               && negb (group_size =? 128) = false <-> valid_group).
  { unfold valid_group. cbn [In].
    destruct (Z.eqb_spec group_size 32), (Z.eqb_spec group_size 64),
      (Z.eqb_spec group_size 128); cbn [negb andb]; split; intros H;
      try discriminate; try reflexivity; try lia; auto. }
  assert (Hb : (bits <? 2) || (bits >? 8) || (bits =? 7) = false
               <-> valid_bits).
  { unfold valid_bits. cbn [In].
    rewrite !orb_false_iff, Z.ltb_ge, Z.gtb_ltb, Z.ltb_ge, Z.eqb_neq. lia. }
  assert (Hr : (length (t_shape w) <? 2)%nat = false <-> lead <> []).
  { rewrite Hshape, length_app, Nat.ltb_ge. cbn [length].
    destruct lead; cbn [length]; split; intros H; try lia; congruence. }
  assert (Hm : valid_group ->
               negb (Z.rem (last (t_shape w) 0) group_size =? 0) = false
               <-> D mod group_size = 0).
  { intros Hv. pose proof (valid_group_size_pos _ Hv).
    rewrite Hshape, last_last, Z.rem_mod_nonneg by lia.
    rewrite negb_false_iff. apply Z.eqb_eq. }
  assert (Hbad : forall b : bool, b <> false -> b = true)
    by (intros []; congruence).
  split; [split|].
  - intros [r Hok]. unfold affine_quantize in Hok.
    destruct (negb (group_size =? 32) && _ && _) eqn:E1; [discriminate|].
    destruct ((bits <? 2) || _ || _) eqn:E2; [discriminate|].
    destruct (length (t_shape w) <? 2)%nat eqn:E3; [discriminate|].
    destruct (negb (Z.rem _ _ =? 0)) eqn:E4; [discriminate|].
    pose proof (proj1 Hg eq_refl) as Hv.
    repeat split; [exact Hv | now apply Hb | now apply Hr
                   | now apply (Hm Hv)].
  - intros (Hv & Hvb & Hlead & Hdiv). eexists.
    apply (affine_quantize_ok w group_size bits D lead); assumption.
  - repeat split.
    + intros Hn. unfold affine_quantize.
      rewrite (Hbad _ (fun H => Hn (proj1 Hg H))). reflexivity.
    + intros Hv Hn. unfold affine_quantize.
      rewrite (proj2 Hg Hv), (Hbad _ (fun H => Hn (proj1 Hb H))).
      reflexivity.
    + intros Hv Hvb Hn. unfold affine_quantize.
      rewrite (proj2 Hg Hv), (proj2 Hb Hvb).
      rewrite (Hbad _ (fun H => proj1 Hr H Hn)). reflexivity.
    + intros Hv Hvb Hlead Hn. unfold affine_quantize.
      rewrite (proj2 Hg Hv), (proj2 Hb Hvb), (proj2 Hr Hlead).
      rewrite (Hbad _ (fun H => Hn (proj1 (Hm Hv) H))). reflexivity.
Qed.

(** The unpacking that starts the fallback of [affine_dequantize]. *)
Definition unpack_codes (bits : Z) (words : list Z) : outcome (list Z) :=
  if is_power_of_2 bits then Ok (flat_map (unpack_pow2 bits) words)
  else unpack_bits bits words.

(** X21. Packing loses nothing, in any arithmetic: for a supported group
    size and number of bits, the words that the fallback of
    [affine_quantize] packs for a row unpack, by the unpacking of
    [affine_dequantize], to one code for each element of the row, the code
    that [pack_and_quantize] computed for it with the scale and the bias of
    its group, between 0 and [2^bits - 1]; the row takes
    [group_size * bits / 32] words for each group. *)
Theorem packing_keeps_codes (t : Dtype) (group_size bits : Z) (G : nat)
    (row : list R) :
  In group_size [32; 64; 128] -> In bits [2; 3; 4; 5; 6; 8] ->
  length row = (G * Z.to_nat group_size)%nat ->
  exists words sc bi codes,
    quantize_row group_size bits t row = Ok (words, sc, bi) /\
    length words = (G * Z.to_nat (group_size * bits / 32))%nat /\
    unpack_codes bits words = Ok codes /\
    length codes = length row /\
    forall j, (j < length row)%nat ->
      let group :=
        firstn (Z.to_nat group_size)
          (skipn (j / Z.to_nat group_size * Z.to_nat group_size) row) in
      nth j codes 0 =
        quantize_elem t bits (scales t bits group) (biases t bits group)
                      (nth j row 0%R) /\
      0 <= nth j codes 0 < 2 ^ bits.
Proof.
  intros Hgroup Hbits Hlen.
  destruct (quantize_row_ok t group_size bits G row Hgroup Hbits Hlen)
    as (Hrow & Hwords & Hunpack).
  pose proof (valid_group_size_pos _ Hgroup) as Hpos.
  pose proof (valid_bits_range _ Hbits) as Hb.
  set (k := Z.to_nat group_size) in *.
  assert (Hk : (0 < k)%nat) by (unfold k; lia).
  set (groups := chunks_n G k row) in *.
  assert (Hgroups : Forall (fun c => length c = k) groups)
    by now apply chunks_n_Forall.
  assert (Hcodes : Forall (fun c => length c = k)
                     (map (codes_of t bits) groups)).
  { apply Forall_forall. intros c Hc. apply in_map_iff in Hc.
    destruct Hc as (g & <- & Hin). unfold codes_of. rewrite length_map.
    apply (proj1 (Forall_forall _ _) Hgroups g Hin). }
  eexists _, _, _, _. split; [exact Hrow|]. split; [exact Hwords|].
  split; [exact Hunpack|]. split.
  - rewrite (length_concat_uniform k) by exact Hcodes.
    unfold groups. now rewrite length_map, chunks_n_length.
  - intros j Hj group.
    assert (HjG : (j < G * k)%nat) by lia.
    assert (Hg : (j / k < G)%nat)
      by (apply Nat.Div0.div_lt_upper_bound; lia).
    assert (Hp : (j mod k < k)%nat) by (apply Nat.mod_upper_bound; lia).
    assert (Hsplit : j = (j / k * k + j mod k)%nat)
      by (pose proof (Nat.div_mod_eq j k); lia).
    assert (Hgroup_eq : nth (j / k) groups [] = group)
      by (unfold group, groups; now rewrite nth_chunks_n).
    assert (Hgroup_len : length group = k).
    { rewrite <- Hgroup_eq.
      apply (proj1 (Forall_forall _ _) Hgroups).
      apply nth_In. unfold groups. now rewrite chunks_n_length. }
    assert (Helem : nth j row 0%R = nth (j mod k) group 0%R).
    { rewrite <- Hgroup_eq, <- (nth_concat_uniform k) by assumption.
      rewrite <- Hsplit. unfold groups. now rewrite concat_chunks_n. }
    assert (Hcode : nth j (concat (map (codes_of t bits) groups)) 0 =
                    quantize_elem t bits (scales t bits group)
                      (biases t bits group) (nth j row 0%R)).
    { rewrite Hsplit at 1. rewrite (nth_concat_uniform k) by assumption.
      rewrite (nth_map_default _ _ _ [] [])
        by (unfold groups; now rewrite chunks_n_length).
      rewrite Hgroup_eq. unfold codes_of.
      rewrite (nth_map_default _ _ _ 0%R 0) by lia.
      now rewrite Helem. }
    split; [exact Hcode|]. rewrite Hcode.
    apply quantize_elem_range. lia.
Qed.

End Shapes.

(** *** The anchor of a group *)

Section Anchor.
Context {AR : Arith} {RI : RoundInt} {EX : Exact AR} {NR : Nearest RI}.
Local Open Scope R_scope.

(** The anchor of a group of maximum [mx] and minimum [mn]: the one of
    larger magnitude, the maximum on a tie. *)
Definition anchor (mx mn : R) : R :=
  if Rgt_dec (Rabs mn) (Rabs mx) then mn else mx.

Lemma edge_exact (t : Dtype) (group : list R) :
  edge t group = anchor (reduce Rmax t group) (reduce Rmin t group).
Proof.
  unfold edge, mask, w_min, w_max, anchor.
  rewrite !op1_exact, !rnd_exact. now destruct (Rgt_dec _ _).
Qed.

Lemma rint_zero : rint 0 = 0%Z.
Proof.
  apply IZR_near_zero. rewrite Rminus_0_r.
  pose proof (rint_nearest 0) as H. now rewrite Rminus_0_r in H.
Qed.

(** An anchor of magnitude above half of 1e-7 has a non-zero code, and so
    becomes the bias. *)
Lemma anchor_is_bias (bits : Z) (mx mn : R) :
  (2 <= bits)%Z -> mn <= mx ->
  Rabs (anchor mx mn) > 1 / (2 * 10 ^ 7) ->
  snd (recipe bits mx mn) = anchor mx mn.
Proof.
  intros Hb Hm Ha.
  destruct (magnitude_facts bits mx mn Hb Hm) as (Hn & Hmag & Hrange).
  assert (Hn3 : 3 <= IZR (2 ^ bits - 1)).
  { apply IZR_le.
    assert (2 ^ 2 <= 2 ^ bits)%Z by (apply Z.pow_le_mono_r; lia).
    change (2 ^ 2)%Z with 4%Z in *. lia. }
  unfold recipe, anchor in *.
  set (n := IZR (2 ^ bits - 1)) in *.
  set (magnitude := Rmax ((mx - mn) / n) (1 / 10 ^ 7)) in *.
  assert (Hsmall : forall a s : R,
            Rabs a > 1 / (2 * 10 ^ 7) -> Rabs mx <= Rabs a ->
            Rabs mn <= Rabs a -> Rabs s = magnitude -> rint (a / s) <> 0%Z).
  { intros a s Hbig Hmx Hmn Hs Hq.
    pose proof (rint_nearest (a / s)) as Hnear. rewrite Hq in Hnear.
    assert (Hs0 : s <> 0) by (intros ->; rewrite Rabs_R0 in Hs; lra).
    assert (Hle : Rabs a <= magnitude / 2).
    { replace (0 - a / s) with (- (a / s)) in Hnear by ring.
      rewrite Rabs_Ropp in Hnear. unfold Rdiv in Hnear.
      rewrite Rabs_mult, Rabs_inv, Hs in Hnear.
      apply (Rmult_le_compat_r magnitude) in Hnear; [|lra].
      replace (Rabs a * / magnitude * magnitude) with (Rabs a) in Hnear
        by (field; lra).
      lra. }
    assert (Hr : mx - mn <= 2 * Rabs a).
    { unfold Rabs in Hmx, Hmn |- *.
      destruct (Rcase_abs mx), (Rcase_abs mn), (Rcase_abs a); lra. }
    unfold magnitude, Rmax in Hle.
    destruct (Rle_dec ((mx - mn) / n) (1 / 10 ^ 7)) as [Hc|Hc]; [lra|].
    assert (Hd : (mx - mn) / n <= 2 * Rabs a / 3).
    { apply div_le_bound; [lra|].
      assert (0 <= Rabs a) by apply Rabs_pos. nra. }
    assert (0 <= Rabs a) by apply Rabs_pos. lra. }
  destruct (Rgt_dec (Rabs mn) (Rabs mx)) as [HA|HB].
  - destruct (Z.eqb_spec (rint (mn / magnitude)) 0) as [E|E];
      [|reflexivity].
    exfalso. apply (Hsmall mn magnitude); try assumption; try lra.
    apply Rabs_pos_eq. lra.
  - destruct (Z.eqb_spec (rint (mx / - magnitude)) 0) as [E|E];
      [|reflexivity].
    exfalso. apply (Hsmall mx (- magnitude)); try assumption; try lra.
    rewrite Rabs_Ropp. apply Rabs_pos_eq. lra.
Qed.

(** The anchor of a group comes back from its code as it is. *)
Lemma anchor_dequantized (t : Dtype) (bits : Z) (group : list R) :
  (2 <= bits)%Z -> group <> [] ->
  Rabs (edge t group) > 1 / (2 * 10 ^ 7) ->
  dequantized t bits group (edge t group) = edge t group.
Proof.
  intros Hb Hne Ha.
  destruct (group_extremes t group Hne) as [Hmx Hmn].
  destruct (scales_exact t bits group _ _ Hmx Hmn) as [_ Hbias].
  assert (Hle : reduce Rmin t group <= reduce Rmax t group).
  { destruct Hmx as [Hin _], Hmn as [_ Hall].
    apply (proj1 (Forall_forall _ _) Hall _ Hin). }
  rewrite edge_exact in Ha |- *.
  rewrite (anchor_is_bias bits _ _ Hb Hle Ha) in Hbias.
  rewrite dequantized_exact, Hbias.
  unfold Rminus. rewrite Rplus_opp_r. unfold Rdiv. rewrite Rmult_0_l.
  rewrite rint_zero.
  assert (0 < 2 ^ bits)%Z by (apply Z.pow_pos_nonneg; lia).
  replace (Z.min (Z.max 0 0) (2 ^ bits - 1)) with 0%Z by lia.
  ring.
Qed.

(** X22. In exact arithmetic and with [round] to a nearest integer, the
    round trip through [affine_quantize] and [affine_dequantize] gives
    back exactly the anchor of every group, that is the element that is
    the group maximum or minimum of larger magnitude (the maximum on a
    tie), as long as its magnitude is above half of 1e-7. *)
Theorem anchor_reproduced
    (dequantize_kernel : Z -> Z -> tensor Z -> tensor R -> tensor R ->
                         outcome (list (list R)))
    (w : tensor R) (group_size bits : Z) (lead : list Z) (D : Z) :
  In group_size [32; 64; 128]%Z -> In bits [2; 3; 4; 5; 6; 8]%Z ->
  t_shape w = lead ++ [D] -> lead <> [] -> (0 <= D)%Z ->
  (D mod group_size = 0)%Z -> (D * bits < 2 ^ 31)%Z ->
  Forall (fun row => Z.of_nat (length row) = D) (t_rows w) ->
  exists wq sc bi deq,
    affine_quantize None w group_size bits = Ok (wq, sc, bi) /\
    affine_dequantize false dequantize_kernel wq sc bi group_size bits =
      Ok deq /\
    forall r j : nat,
      (r < length (t_rows w))%nat -> (j < Z.to_nat D)%nat ->
      let row := nth r (t_rows w) [] in
      let group :=
        firstn (Z.to_nat group_size)
          (skipn (j / Z.to_nat group_size * Z.to_nat group_size) row) in
      nth j row 0 = edge (t_dtype w) group ->
      Rabs (nth j row 0) > 1 / (2 * 10 ^ 7) ->
      nth j (nth r (t_rows deq) []) 0 = nth j row 0.
Proof.
  intros Hgroup Hbits Hshape Hlead HD Hmultiple Hint Hrows.
  eexists _, _, _, _. split; [|split].
  { apply (affine_quantize_ok w group_size bits D lead); assumption. }
  { apply (affine_dequantize_ok w group_size bits D lead); assumption. }
  cbn [t_dtype t_shape t_rows].
  intros r j Hr Hj. cbv zeta. intros Hedge Hbig.
  destruct (dequantized_element w group_size bits D Hgroup HD Hmultiple Hrows
              (t_dtype w) r j Hr Hj) as (Hdeq & Hin & _).
  cbv zeta in Hdeq, Hin. rewrite Hdeq.
  set (row := nth r (t_rows w) []) in *.
  set (group := firstn (Z.to_nat group_size)
                  (skipn (j / Z.to_nat group_size * Z.to_nat group_size)
                         row)) in *.
  rewrite Hedge in Hbig |- *.
  apply anchor_dequantized.
  - apply (valid_bits_range _ Hbits).
  - intros Hnil. rewrite Hnil in Hin. exact Hin.
  - exact Hbig.
Qed.

End Anchor.

Lemma output_shapes_agree_witness :
  output_shapes true 32 4 (hd [] (output_shapes false 32 4 [4; 64])) =
  [[4; 64]].
Proof.
  destruct (@output_shapes_agree exact_arith round_half_even None false
              no_dequantize_kernel 32 4) as (_ & _ & H).
  apply (H [4] 64); cbn [In]; auto; lia.
Defined.

Lemma affine_quantize_returns_iff_witness :
  exists r, @affine_quantize exact_arith round_half_even None ramp 32 4 = Ok r.
Proof.
  destruct (@affine_quantize_returns_iff exact_arith round_half_even
              ramp 32 4 [1] 32) as ((_ & H) & _).
  - reflexivity.
  - lia.
  - lia.
  - repeat constructor.
  - apply H. cbn [In]. repeat split; auto. discriminate.
Defined.

Lemma packing_keeps_codes_witness :
  exists words codes,
    length words = 3%nat /\
    @unpack_codes 3 words = Ok codes /\ length codes = 32%nat /\
    forall j, (j < 32)%nat -> 0 <= nth j codes 0 < 2 ^ 3.
Proof.
  destruct (@packing_keeps_codes exact_arith round_half_even float32 32 3 1
              (map (fun i => IZR (Z.of_nat i)) (seq 0 32)))
    as (words & sc & bi & codes & _ & Hw & Hu & Hl & Hc).
  - cbn [In]. auto.
  - cbn [In]. auto.
  - reflexivity.
  - exists words, codes. split; [exact Hw | split; [exact Hu|]].
    split; [exact Hl|]. intros j Hj. apply (Hc j). exact Hj.
Defined.

Lemma ramp_edge :
  @edge exact_arith float32 (map (fun i => IZR (Z.of_nat i)) (seq 0 32)) =
  31%R.
Proof.
  rewrite (@edge_exact exact_arith exact_arith_exact).
  destruct (@group_extremes exact_arith exact_arith_exact float32
              (map (fun i => IZR (Z.of_nat i)) (seq 0 32)))
    as [Hmx Hmn]; [discriminate|].
  rewrite (is_max_unique _ _ _ Hmx (proj1 ramp_extremes)).
  rewrite (is_min_unique _ _ _ Hmn (proj2 ramp_extremes)).
  unfold anchor. rewrite Rabs_R0.
  destruct (Rgt_dec 0 (Rabs 31)) as [H|_]; [|reflexivity].
  pose proof (Rabs_pos 31). lra.
Qed.

Lemma anchor_reproduced_witness :
  exists wq sc bi deq,
    @affine_quantize exact_arith round_half_even None ramp 32 4 =
      Ok (wq, sc, bi) /\
    @affine_dequantize exact_arith false no_dequantize_kernel wq sc bi 32 4 =
      Ok deq /\
    nth 31 (nth 0 (t_rows deq) []) 0%R = 31%R.
Proof.
  destruct (@anchor_reproduced exact_arith round_half_even
              exact_arith_exact round_half_even_nearest
              no_dequantize_kernel ramp 32 4 [1] 32)
    as (wq & sc & bi & deq & H1 & H2 & H3).
  - cbn [In]. auto.
  - cbn [In]. auto.
  - reflexivity.
  - discriminate.
  - lia.
  - reflexivity.
  - lia.
  - repeat constructor.
  - exists wq, sc, bi, deq. split; [exact H1 | split; [exact H2|]].
    specialize (H3 0%nat 31%nat ltac:(cbn; lia) ltac:(cbn; lia)).
    cbv zeta in H3.
    change (nth 31 (nth 0 (t_rows ramp) []) 0%R) with 31%R in H3.
    apply H3.
    + symmetry. exact ramp_edge.
    + rewrite Rabs_pos_eq; lra.
Defined.

(** *** The rounding of the floating types *)

(** The largest [e] from [e0 - n] to [e0] with [2 ^ e <= a], or
    [e0 - n]: the exponent of the binade of [a]. *)
Fixpoint binade (n : nat) (e0 : Z) (a : R) : Z :=
  match n with
  | O => e0
  | S k => if Rle_dec (powerRZ 2 e0) a then e0 else binade k (e0 - 1) a
  end.

(** Rounding to nearest, ties to even, to [p] significant bits with
    exponents from [emin] to [emax]: the values below [2 ^ emin] are
    rounded as subnormal numbers; the overflow to an infinity is left
    out. *)
Definition round_binary (p emin emax : Z) (x : R) : R :=
  let e := binade (Z.to_nat (emax - emin)) emax (Rabs x) in
  let ulp := powerRZ 2 (e - p + 1) in
  (IZR (@rint round_half_even (x / ulp)) * ulp)%R.

(** The arithmetic of the formats binary32 and binary16 of IEEE 754 and of
    bfloat16; the other dtypes keep their values. *)
Definition ieee_arith : Arith := {|
  rnd := fun d x =>
    match d with
    | float32 => round_binary 24 (-126) 127 x
    | bfloat16 => round_binary 8 (-126) 127 x
    | float16 => round_binary 11 (-14) 15 x
    | _ => x
    end;
  promote_types := @promote_types exact_arith
|}.

Section Rounding.
Local Open Scope R_scope.

Lemma powerRZ_two_le (n m : Z) :
  (n <= m)%Z -> powerRZ 2 n <= powerRZ 2 m.
Proof.
  intros H. replace m with (n + Z.of_nat (Z.to_nat (m - n)))%Z by lia.
  rewrite powerRZ_add by lra. rewrite <- pow_powerRZ.
  assert (0 < powerRZ 2 n) by (apply powerRZ_lt; lra).
  assert (1 <= 2 ^ Z.to_nat (m - n)) by (apply pow_R1_Rle; lra).
  nra.
Qed.

Lemma binade_spec (n : nat) (e0 k : Z) (a : R) :
  (e0 - Z.of_nat n <= k <= e0)%Z ->
  powerRZ 2 k <= a < powerRZ 2 (k + 1) ->
  binade n e0 a = k.
Proof.
  revert e0. induction n as [|n IH]; intros e0 Hk Ha; cbn [binade].
  - lia.
  - destruct (Rle_dec (powerRZ 2 e0) a) as [Hle|Hgt].
    + destruct (Z.eq_dec k e0) as [E|E]; [now symmetry|]. exfalso.
      assert (powerRZ 2 (k + 1) <= powerRZ 2 e0)
        by (apply powerRZ_two_le; lia).
      lra.
    + apply IH; [|exact Ha].
      assert (k <> e0) by (intros ->; lra). lia.
Qed.

Lemma round_half_even_at (y : R) (m : Z) :
  Rabs (y - IZR m) < 1 / 2 -> @rint round_half_even y = m.
Proof.
  intros H. pose proof (round_half_even_nearest y) as Hn.
  assert (Hd : -1 < IZR (@rint round_half_even y) - IZR m < 1).
  { unfold Rabs in H, Hn.
    destruct (Rcase_abs _) in H; destruct (Rcase_abs _) in Hn; lra. }
  rewrite <- minus_IZR in Hd. destruct Hd as [H1 H2].
  apply lt_IZR in H1, H2. lia.
Qed.

(** The value of a rounding: [m] units in the last place of the binade
    [k] of [x], when [x] is nearer to it than half a unit. *)
Lemma round_binary_at (p emin emax k m : Z) (lo hi u q x : R) :
  (emin <= k <= emax)%Z ->
  lo = powerRZ 2 k -> hi = powerRZ 2 (k + 1) -> u = powerRZ 2 (k - p + 1) ->
  x = q ->
  lo <= Rabs q < hi ->
  Rabs (q / u - IZR m) < 1 / 2 ->
  round_binary p emin emax x = IZR m * u.
Proof.
  intros Hk -> -> -> -> Hx Hm. unfold round_binary.
  rewrite (binade_spec _ emax k) by (assumption || lia).
  now rewrite (round_half_even_at _ m Hm).
Qed.

Lemma round_binary_zero (p emin emax : Z) : round_binary p emin emax 0 = 0.
Proof.
  unfold round_binary. unfold Rdiv. rewrite Rmult_0_l.
  rewrite (round_half_even_at 0 0); [ring|].
  rewrite Rminus_0_r, Rabs_R0. lra.
Qed.

End Rounding.

(** The side conditions of [round_binary_at] at explicit numbers. *)
Ltac abs_bounds :=
  match goal with
  | |- context [Rabs ?x] => unfold Rabs; destruct (Rcase_abs x); lra
  end.

Ltac rounds_to p emin emax k m lo hi u q :=
  rewrite (round_binary_at p emin emax k m lo hi u q);
  [ | lia | reflexivity | reflexivity | reflexivity
    | try lra; field; lra | abs_bounds | abs_bounds ].

Ltac float32_to k m lo hi u q := rounds_to 24 (-126) 127 k m lo hi u q.
Ltac bfloat16_to k m lo hi u q := rounds_to 8 (-126) 127 k m lo hi u q.

(** *** A run in bfloat16 *)

(** A group of bfloat16 values: 1.25, -1.09375, -0.90625, and 1.25 up to
    the group size. *)
Definition bf16_group : list R :=
  [5 / 4; -35 / 32; -29 / 32]%R ++ repeat (5 / 4)%R 29.

(** A weight of one row, that group. *)
Definition bf16_weight : tensor R := mk_tensor bfloat16 [1; 32] [bf16_group].

Section Run.
Local Open Scope R_scope.

Abbreviation r32 := (@rnd ieee_arith float32).
Abbreviation rbf := (@rnd ieee_arith bfloat16).

Lemma r32_zero : r32 0 = 0.
Proof. apply round_binary_zero. Qed.

Lemma r32_max : r32 (5 / 4) = 5 / 4.
Proof.
  cbn [rnd ieee_arith].
  float32_to 0%Z 10485760%Z 1 (2 ^ 1) (/ 2 ^ 23) (5 / 4). lra.
Qed.

Lemma r32_min : r32 (-35 / 32) = -35 / 32.
Proof.
  cbn [rnd ieee_arith].
  float32_to 0%Z (-9175040)%Z 1 (2 ^ 1) (/ 2 ^ 23) (-35 / 32). lra.
Qed.

Lemma r32_abs_min : r32 (35 / 32) = 35 / 32.
Proof.
  cbn [rnd ieee_arith].
  float32_to 0%Z 9175040%Z 1 (2 ^ 1) (/ 2 ^ 23) (35 / 32). lra.
Qed.

Lemma r32_bins : r32 255 = 255.
Proof.
  cbn [rnd ieee_arith].
  float32_to 7%Z 16711680%Z (2 ^ 7) (2 ^ 8) (/ 2 ^ 16) 255. lra.
Qed.

Lemma r32_range : r32 (5 / 4 - -35 / 32) = 75 / 32.
Proof.
  cbn [rnd ieee_arith].
  float32_to 1%Z 9830400%Z (2 ^ 1) (2 ^ 2) (/ 2 ^ 22) (75 / 32). lra.
Qed.

Lemma r32_range_exact : r32 (75 / 32) = 75 / 32.
Proof.
  cbn [rnd ieee_arith].
  float32_to 1%Z 9830400%Z (2 ^ 1) (2 ^ 2) (/ 2 ^ 22) (75 / 32). lra.
Qed.

(** The first scale: the range over 255, rounded. *)
Lemma r32_step : r32 (75 / 32 / 255) = 9868951 / 2 ^ 30.
Proof.
  cbn [rnd ieee_arith].
  float32_to (-7)%Z 9868951%Z (/ 2 ^ 7) (/ 2 ^ 6) (/ 2 ^ 30) (5 / 544). lra.
Qed.

Lemma r32_step_exact : r32 (9868951 / 2 ^ 30) = 9868951 / 2 ^ 30.
Proof.
  cbn [rnd ieee_arith].
  float32_to (-7)%Z 9868951%Z (/ 2 ^ 7) (/ 2 ^ 6) (/ 2 ^ 30)
             (9868951 / 2 ^ 30).
  lra.
Qed.

Lemma r32_step_neg : r32 (- (9868951 / 2 ^ 30)) = -9868951 / 2 ^ 30.
Proof.
  cbn [rnd ieee_arith].
  float32_to (-7)%Z (-9868951)%Z (/ 2 ^ 7) (/ 2 ^ 6) (/ 2 ^ 30)
             (-9868951 / 2 ^ 30).
  lra.
Qed.

Lemma r32_step_neg_exact : r32 (-9868951 / 2 ^ 30) = -9868951 / 2 ^ 30.
Proof.
  cbn [rnd ieee_arith].
  float32_to (-7)%Z (-9868951)%Z (/ 2 ^ 7) (/ 2 ^ 6) (/ 2 ^ 30)
             (-9868951 / 2 ^ 30).
  lra.
Qed.

Lemma r32_eps : r32 (1 / 10 ^ 7) = 14073749 / 2 ^ 47.
Proof.
  cbn [rnd ieee_arith].
  float32_to (-24)%Z 14073749%Z (/ 2 ^ 24) (/ 2 ^ 23) (/ 2 ^ 47)
             (1 / 10000000).
  lra.
Qed.

Lemma r32_eps_exact : r32 (14073749 / 2 ^ 47) = 14073749 / 2 ^ 47.
Proof.
  cbn [rnd ieee_arith].
  float32_to (-24)%Z 14073749%Z (/ 2 ^ 24) (/ 2 ^ 23) (/ 2 ^ 47)
             (14073749 / 2 ^ 47).
  lra.
Qed.

(** The anchor over the first scale rounds to the integer -136. *)
Lemma r32_anchor_steps : r32 (5 / 4 / (-9868951 / 2 ^ 30)) = -136.
Proof.
  cbn [rnd ieee_arith].
  float32_to 7%Z (-8912896)%Z (2 ^ 7) (2 ^ 8) (/ 2 ^ 16)
             (- (5 * 2 ^ 28) / 9868951).
  lra.
Qed.

Lemma r32_q0 : r32 (-136) = -136.
Proof.
  cbn [rnd ieee_arith].
  float32_to 7%Z (-8912896)%Z (2 ^ 7) (2 ^ 8) (/ 2 ^ 16) (-136). lra.
Qed.

(** The scale: the anchor over -136, rounded. *)
Lemma r32_scale : r32 (5 / 4 / -136) = -9868951 / 2 ^ 30.
Proof.
  cbn [rnd ieee_arith].
  float32_to (-7)%Z (-9868951)%Z (/ 2 ^ 7) (/ 2 ^ 6) (/ 2 ^ 30) (-5 / 544).
  lra.
Qed.

Lemma r32_elem : r32 (-29 / 32) = -29 / 32.
Proof.
  cbn [rnd ieee_arith].
  float32_to (-1)%Z (-15204352)%Z (/ 2 ^ 1) 1 (/ 2 ^ 24) (-29 / 32). lra.
Qed.

Lemma r32_centred : r32 (-29 / 32 - 5 / 4) = -69 / 32.
Proof.
  cbn [rnd ieee_arith].
  float32_to 1%Z (-9043968)%Z (2 ^ 1) (2 ^ 2) (/ 2 ^ 22) (-69 / 32). lra.
Qed.

Lemma r32_centred_exact : r32 (-69 / 32) = -69 / 32.
Proof.
  cbn [rnd ieee_arith].
  float32_to 1%Z (-9043968)%Z (2 ^ 1) (2 ^ 2) (/ 2 ^ 22) (-69 / 32). lra.
Qed.

(** The quotient of the element: about 234.6. *)
Lemma r32_quotient :
  r32 (-69 / 32 / (-9868951 / 2 ^ 30)) = 15374745 / 2 ^ 16.
Proof.
  cbn [rnd ieee_arith].
  float32_to 7%Z 15374745%Z (2 ^ 7) (2 ^ 8) (/ 2 ^ 16)
             (69 * 2 ^ 25 / 9868951).
  lra.
Qed.

Lemma r32_quotient_exact : r32 (15374745 / 2 ^ 16) = 15374745 / 2 ^ 16.
Proof.
  cbn [rnd ieee_arith].
  float32_to 7%Z 15374745%Z (2 ^ 7) (2 ^ 8) (/ 2 ^ 16) (15374745 / 2 ^ 16).
  lra.
Qed.

Lemma rbf_max : rbf (5 / 4) = 5 / 4.
Proof.
  cbn [rnd ieee_arith].
  bfloat16_to 0%Z 160%Z 1 (2 ^ 1) (/ 2 ^ 7) (5 / 4). lra.
Qed.

Lemma rbf_min : rbf (-35 / 32) = -35 / 32.
Proof.
  cbn [rnd ieee_arith].
  bfloat16_to 0%Z (-140)%Z 1 (2 ^ 1) (/ 2 ^ 7) (-35 / 32). lra.
Qed.

Lemma rbf_elem : rbf (-29 / 32) = -29 / 32.
Proof.
  cbn [rnd ieee_arith].
  bfloat16_to (-1)%Z (-232)%Z (/ 2 ^ 1) 1 (/ 2 ^ 8) (-29 / 32). lra.
Qed.

(** The scale in bfloat16: 151 units of [2 ^ -14]. *)
Lemma rbf_scale : rbf (-9868951 / 2 ^ 30) = -151 / 2 ^ 14.
Proof.
  cbn [rnd ieee_arith].
  bfloat16_to (-7)%Z (-151)%Z (/ 2 ^ 7) (/ 2 ^ 6) (/ 2 ^ 14)
              (-9868951 / 2 ^ 30).
  lra.
Qed.

Lemma rbf_scale_exact : rbf (-151 / 2 ^ 14) = -151 / 2 ^ 14.
Proof.
  cbn [rnd ieee_arith].
  bfloat16_to (-7)%Z (-151)%Z (/ 2 ^ 7) (/ 2 ^ 6) (/ 2 ^ 14) (-151 / 2 ^ 14).
  lra.
Qed.

Lemma rbf_code : rbf 235 = 235.
Proof.
  cbn [rnd ieee_arith].
  bfloat16_to 7%Z 235%Z (2 ^ 7) (2 ^ 8) 1 235. lra.
Qed.

(** The code times the scale: -2.1658..., rounded to -139 / 64. *)
Lemma rbf_product : rbf (235 * (-151 / 2 ^ 14)) = -139 / 64.
Proof.
  cbn [rnd ieee_arith].
  bfloat16_to 1%Z (-139)%Z (2 ^ 1) (2 ^ 2) (/ 2 ^ 6) (-35485 / 2 ^ 14). lra.
Qed.

Lemma rbf_product_exact : rbf (-139 / 64) = -139 / 64.
Proof.
  cbn [rnd ieee_arith].
  bfloat16_to 1%Z (-139)%Z (2 ^ 1) (2 ^ 2) (/ 2 ^ 6) (-139 / 64). lra.
Qed.

Lemma rbf_sum : rbf (-139 / 64 + 5 / 4) = -59 / 64.
Proof.
  cbn [rnd ieee_arith].
  bfloat16_to (-1)%Z (-236)%Z (/ 2 ^ 1) 1 (/ 2 ^ 8) (-59 / 64). lra.
Qed.

Lemma bf16_group_stored : map rbf bf16_group = bf16_group.
Proof.
  unfold bf16_group. rewrite map_app, map_repeat. cbn [map].
  now rewrite rbf_max, rbf_min, rbf_elem.
Qed.

Lemma bf16_group_extremes :
  is_max bf16_group (5 / 4) /\ is_min bf16_group (-35 / 32).
Proof.
  unfold is_max, is_min, bf16_group. split; split.
  - now left.
  - apply Forall_app. split; [repeat constructor; lra|].
    apply Forall_forall. intros v Hv. apply repeat_spec in Hv. lra.
  - right. now left.
  - apply Forall_app. split; [repeat constructor; lra|].
    apply Forall_forall. intros v Hv. apply repeat_spec in Hv. lra.
Qed.

Lemma bf16_reduce :
  @reduce ieee_arith Rmax bfloat16 bf16_group = 5 / 4 /\
  @reduce ieee_arith Rmin bfloat16 bf16_group = -35 / 32.
Proof.
  unfold reduce. cbv zeta. rewrite bf16_group_stored.
  destruct bf16_group_extremes as [Hmx Hmn].
  split.
  - apply (is_max_unique bf16_group); [|exact Hmx].
    apply fold_right_Rmax.
  - apply (is_min_unique bf16_group); [|exact Hmn].
    apply fold_right_Rmin.
Qed.

Lemma bf16_mask : @mask ieee_arith bfloat16 bf16_group = false.
Proof.
  destruct bf16_reduce as [Hmx Hmn].
  unfold mask, w_min, w_max, op1. rewrite Hmx, Hmn.
  rewrite r32_max, r32_min, r32_max, r32_min.
  replace (Rabs (-35 / 32)) with (35 / 32)
    by (unfold Rabs; destruct (Rcase_abs _); lra).
  replace (Rabs (5 / 4)) with (5 / 4)
    by (unfold Rabs; destruct (Rcase_abs _); lra).
  rewrite r32_abs_min, r32_max.
  destruct (Rgt_dec _ _) as [H|_]; [lra | reflexivity].
Qed.

Lemma bf16_scales_signed :
  @scales_signed ieee_arith bfloat16 8 bf16_group = -9868951 / 2 ^ 30.
Proof.
  destruct bf16_reduce as [Hmx Hmn].
  unfold scales_signed. rewrite bf16_mask.
  unfold scales_magnitude, n_bins, eps, w_min, w_max, op1, op2.
  rewrite Hmx, Hmn.
  change (IZR (Z.shiftl 1 8 - 1)) with 255.
  rewrite r32_max, r32_min, r32_max, r32_min, r32_bins, r32_bins.
  rewrite r32_range, r32_range_exact, r32_step, r32_step_exact.
  rewrite r32_eps, r32_eps_exact.
  rewrite Rmax_left by lra.
  rewrite !r32_step_exact. apply r32_step_neg.
Qed.

Lemma bf16_edge : @edge ieee_arith bfloat16 bf16_group = 5 / 4.
Proof.
  destruct bf16_reduce as [Hmx _].
  unfold edge. rewrite bf16_mask. unfold w_max. rewrite Hmx.
  apply r32_max.
Qed.

Lemma bf16_q0 :
  @q0 ieee_arith round_half_even bfloat16 8 bf16_group = -136.
Proof.
  unfold q0, round, op2. rewrite bf16_edge, bf16_scales_signed.
  rewrite r32_max, r32_step_neg_exact, r32_anchor_steps, r32_q0.
  rewrite (round_half_even_at (-136) (-136))
    by (unfold Rabs; destruct (Rcase_abs _); lra).
  apply r32_q0.
Qed.

Lemma bf16_scales :
  @scales ieee_arith round_half_even bfloat16 8 bf16_group =
  -9868951 / 2 ^ 30.
Proof.
  unfold scales. rewrite bf16_q0. unfold zero. rewrite r32_zero.
  destruct (Req_dec_T (-136) 0) as [E|_]; [lra|].
  unfold op2. rewrite bf16_edge, r32_max, r32_q0. apply r32_scale.
Qed.

Lemma bf16_biases :
  @biases ieee_arith round_half_even bfloat16 8 bf16_group = 5 / 4.
Proof.
  unfold biases. rewrite bf16_q0. unfold zero. rewrite r32_zero.
  destruct (Req_dec_T (-136) 0) as [E|_]; [lra|]. apply bf16_edge.
Qed.

(** The element -0.90625 gets the code 235. *)
Lemma bf16_code :
  @quantize_elem ieee_arith round_half_even bfloat16 8
     (-9868951 / 2 ^ 30) (5 / 4) (-29 / 32) = 235%Z.
Proof.
  unfold quantize_elem. cbv zeta.
  change (@promote_types ieee_arith bfloat16 float32) with float32.
  change (@promote_types ieee_arith float32 float32) with float32.
  unfold op2.
  rewrite r32_elem, r32_max, r32_centred, r32_centred_exact,
    r32_step_neg_exact, r32_quotient, r32_quotient_exact.
  rewrite (round_half_even_at _ 235)
    by (unfold Rabs; destruct (Rcase_abs _); lra).
  reflexivity.
Qed.

(** After the round trip the element is -0.921875. *)
Lemma bf16_dequantized :
  @dequantized ieee_arith round_half_even bfloat16 8 bf16_group (-29 / 32) =
  -59 / 64.
Proof.
  unfold dequantized. cbv zeta.
  change (@promote_types ieee_arith uint32 bfloat16) with bfloat16.
  change (@promote_types ieee_arith bfloat16 bfloat16) with bfloat16.
  rewrite bf16_scales, bf16_biases, bf16_code.
  unfold op2.
  rewrite rbf_scale, rbf_scale_exact, rbf_code, rbf_product,
    rbf_product_exact, rbf_max, rbf_max.
  apply rbf_sum.
Qed.

(** With the rounding of bfloat16 and float32 the round trip leaves the
    element -0.90625 of the group 1.25, -1.09375, -0.90625, 1.25, ... at
    -0.921875: a difference of 1 / 64, more than the magnitude of the
    scale of the group, 151 / 16384. *)
Lemma round_trip_exceeds_step :
  exists wq sc bi deq,
    @affine_quantize ieee_arith round_half_even None bf16_weight 32 8 =
      Ok (wq, sc, bi) /\
    @affine_dequantize ieee_arith false no_dequantize_kernel wq sc bi 32 8 =
      Ok deq /\
    nth 2 (nth 0 (t_rows bf16_weight) []) 0 = -29 / 32 /\
    nth 0 (nth 0 (t_rows sc) []) 0 = -151 / 2 ^ 14 /\
    nth 2 (nth 0 (t_rows deq) []) 0 = -59 / 64 /\
    Rabs (nth 2 (nth 0 (t_rows deq) []) 0
          - nth 2 (nth 0 (t_rows bf16_weight) []) 0)
    > Rabs (nth 0 (nth 0 (t_rows sc) []) 0).
Proof.
  assert (Hgroup : In 32%Z [32; 64; 128]%Z) by (cbn [In]; auto).
  assert (Hbits : In 8%Z [2; 3; 4; 5; 6; 8]%Z) by (cbn [In]; auto 10).
  assert (Hrows : Forall (fun row => Z.of_nat (length row) = 32%Z)
                         (t_rows bf16_weight)) by (repeat constructor).
  eexists _, _, _, _. split; [|split].
  { apply (@affine_quantize_ok ieee_arith round_half_even bf16_weight
             32 8 32 [1%Z]);
      [assumption | assumption | reflexivity | discriminate | lia
      | reflexivity | lia | assumption]. }
  { apply (@affine_dequantize_ok ieee_arith round_half_even bf16_weight
             32 8 32 [1%Z]);
      [assumption | assumption | reflexivity | discriminate | lia
      | reflexivity | lia | assumption]. }
  cbn [t_rows t_dtype].
  assert (Hsc : nth 0 (nth 0
                  (map (fun row =>
                          map (fun g => rbf (@scales ieee_arith
                                               round_half_even bfloat16 8 g))
                              (groups_of 32 32 row))
                       (t_rows bf16_weight)) []) 0 = -151 / 2 ^ 14).
  { rewrite (group_parameter bf16_weight 32 32) by (cbn; lia).
    change (firstn (Z.to_nat 32) (skipn (0 * Z.to_nat 32)
                                        (nth 0 (t_rows bf16_weight) [])))
      with bf16_group.
    rewrite bf16_scales. apply rbf_scale. }
  assert (Hdeq : nth 2 (nth 0
                   (map (fun row =>
                           concat (map (fun g =>
                                          map (@dequantized ieee_arith
                                                 round_half_even bfloat16 8 g)
                                              g)
                                       (groups_of 32 32 row)))
                        (t_rows bf16_weight)) []) 0 = -59 / 64).
  { destruct (@dequantized_element ieee_arith round_half_even bf16_weight
                32 8 32 Hgroup ltac:(lia) eq_refl Hrows bfloat16 0%nat 2%nat)
      as (Hd & _); [cbn; lia | cbn; lia |].
    rewrite Hd.
    change (firstn (Z.to_nat 32)
              (skipn (2 / Z.to_nat 32 * Z.to_nat 32)
                     (nth 0 (t_rows bf16_weight) [])))
      with bf16_group.
    change (nth 2 (nth 0 (t_rows bf16_weight) []) 0) with (-29 / 32).
    apply bf16_dequantized. }
  change (nth 2 (nth 0 (t_rows bf16_weight) []) 0) with (-29 / 32).
  change (t_dtype bf16_weight) with bfloat16.
  rewrite Hsc, Hdeq.
  split; [reflexivity|]. split; [reflexivity|]. split; [reflexivity|].
  unfold Rabs. repeat destruct (Rcase_abs _); lra.
Qed.

End Run.

End Quantize.
